(** * dowe-proxy: metadata store, codec, B-tree index, router and supervisor

    A shallow embedding of the TypeScript sources of dowe-proxy and the
    properties of its specification, stated over that embedding.

    Layout of the development:
    - [Bytes]: bytes, big-endian integers (DataView accessors);
    - [Num]: JavaScript numbers (IEEE-754 binary64) and their bit patterns;
    - [Text]: JavaScript strings, TextEncoder and TextDecoder (UTF-8);
    - [Checksum], [Uuid]: db/utils/checksum.ts and db/utils/uuid.ts;
    - [Codec]: db/core/encoder.ts and db/core/decoder.ts;
    - [BTree]: db/core/index.ts;
    - [Store]: db/core/storage.ts;
    - [Domains]: loaders/domainLoader.ts;
    - [Router]: processors/proxyRouter.ts;
    - [Supervisor]: processors/processManager.ts. *)

From Stdlib Require Import String Ascii.
From Stdlib Require Import ZArith Lia List Bool.
From Stdlib Require Import Strings.Byte Floats.SpecFloat.
From Stdlib Require Import Recdef.
Import ListNotations.
Local Open Scope Z_scope.

Ltac Zify.zify_post_hook ::= Z.to_euclidean_division_equations.

(** ** Thrown errors

    Every [throw new Error(...)] of the sources, and the platform
    exceptions the modelled paths can raise, as one enumeration. *)

Inductive error : Type :=
| BufferUnderflow              (* "Buffer underflow" *)
| UnknownType (tag : Z)        (* "Unknown type: 0x.." *)
| InvalidVarint                (* "Invalid varint encoding" *)
| ObjectKeyNotString           (* "Object keys must be strings" *)
| VarintTooLarge               (* "Value too large for varint encoding" *)
| UnsupportedType              (* "Unsupported type: ..." *)
| UuidLength                   (* "UUID must be 16 bytes" *)
| RangeError                   (* BigInt(NaN), out-of-range typed access *)
| ChecksumMismatch             (* "Checksum mismatch - data corruption detected" *)
| InvalidDatabase              (* "Invalid database file" *)
| DatabaseNotFound             (* "Database not found: ..." *)
| SplitEmpty                   (* "Split produced empty node" *)
| EmptyNode                    (* "Empty node in findMax" / "Empty children array" *)
| NotInitialized               (* "Domain storage not initialized" *)
| AlreadyExists                (* "Domain already exists: ..." *)
| NotFound                     (* "Domain not found" / "Project not found" *)
| AlreadyRunning               (* "Project already running: ..." *)
| NullHandle                   (* a TypeError: [this.file] is null *)
| SpawnFailed                  (* [Bun.spawn] threw *)
| OutOfFuel.                   (* the model's recursion bound was reached *)

Inductive result (A : Type) : Type :=
| Ok (a : A)
| Err (e : error).
Arguments Ok {A} a.
Arguments Err {A} e.

Definition bind {A B : Type} (m : result A) (k : A -> result B) : result B :=
  match m with
  | Ok a => k a
  | Err e => Err e
  end.

Notation "x <- m ;; k" := (bind m (fun x => k))
  (at level 61, m at next level, right associativity).
Notation "' p <- m ;; k" := (bind m (fun x => let 'p := x in k))
  (at level 61, p pattern, m at next level, right associativity).

(** ** Bytes and big-endian integers *)

Module Bytes.

Definition b2z (b : byte) : Z := Z.of_N (Byte.to_N b).

(** Storing a number into a [Uint8Array] slot keeps it modulo 256. *)
Definition z2b (z : Z) : byte :=
  match Byte.of_N (Z.to_N (z mod 256)) with
  | Some b => b
  | None => x00
  end.

(** [be_bytes n z]: the [n] big-endian bytes of [z] modulo [256^n]
    (DataView.setUint8/16/32, setBigUint64 and their signed variants with
    [littleEndian = false]). *)
Fixpoint be_bytes (n : nat) (z : Z) : list byte :=
  match n with
  | O => []
  | S k => z2b (z / 256 ^ Z.of_nat k) :: be_bytes k z
  end.

(** The unsigned value of a big-endian byte sequence. *)
Definition be_value (bs : list byte) : Z :=
  fold_left (fun acc b => acc * 256 + b2z b) bs 0.

(** Reinterpretation of a [w]-bit unsigned value as two's complement. *)
Definition to_signed (w : Z) (z : Z) : Z :=
  if z <? 2 ^ (w - 1) then z else z - 2 ^ w.

(** [subarray(start, end)] / [Blob.slice(start, end)]: clamped to the data. *)
Definition slice {A : Type} (l : list A) (start stop : nat) : list A :=
  firstn (stop - start) (skipn start l).

Lemma b2z_range (b : byte) : 0 <= b2z b < 256.
Proof.
  unfold b2z. pose proof (Byte.to_N_bounded b). lia.
Qed.

Lemma b2z_z2b (z : Z) : b2z (z2b z) = z mod 256.
Proof.
  unfold z2b, b2z.
  destruct (Byte.of_N (Z.to_N (z mod 256))) as [b|] eqn:E.
  - apply Byte.to_of_N in E. rewrite E. lia.
  - apply Byte.of_N_None_iff in E. lia.
Qed.

Lemma z2b_b2z (b : byte) : z2b (b2z b) = b.
Proof.
  unfold z2b, b2z. pose proof (Byte.to_N_bounded b).
  replace (Z.to_N (Z.of_N (to_N b) mod 256)) with (to_N b) by lia.
  now rewrite Byte.of_to_N.
Qed.

Lemma b2z_inj (a b : byte) : b2z a = b2z b -> a = b.
Proof.
  intros H. rewrite <- (z2b_b2z a), <- (z2b_b2z b). now rewrite H.
Qed.

Lemma be_bytes_length (n : nat) (z : Z) : length (be_bytes n z) = n.
Proof. induction n; simpl; congruence. Qed.

Lemma be_fold_shift (ys : list byte) (a : Z) :
  fold_left (fun acc b => acc * 256 + b2z b) ys a =
  a * 256 ^ Z.of_nat (length ys) + be_value ys.
Proof.
  revert a.
  induction ys as [|y ys IH]; intros a.
  - unfold be_value. simpl. lia.
  - unfold be_value. cbn [fold_left length].
    rewrite (IH (a * 256 + b2z y)), (IH (0 * 256 + b2z y)).
    rewrite Nat2Z.inj_succ, Z.pow_succ_r by lia. lia.
Qed.

Lemma be_value_app (xs ys : list byte) :
  be_value (xs ++ ys) = be_value xs * 256 ^ Z.of_nat (length ys) + be_value ys.
Proof.
  unfold be_value at 1. rewrite fold_left_app. apply be_fold_shift.
Qed.

Lemma be_value_cons (b : byte) (bs : list byte) :
  be_value (b :: bs) = b2z b * 256 ^ Z.of_nat (length bs) + be_value bs.
Proof.
  change (b :: bs) with ([b] ++ bs). rewrite be_value_app.
  unfold be_value at 1. simpl. lia.
Qed.

Lemma be_value_range (bs : list byte) :
  0 <= be_value bs < 256 ^ Z.of_nat (length bs).
Proof.
  induction bs as [|b bs IH].
  - unfold be_value. simpl. lia.
  - rewrite be_value_cons. pose proof (b2z_range b).
    simpl length. rewrite Nat2Z.inj_succ, Z.pow_succ_r by lia. nia.
Qed.

Lemma be_value_bytes_mod (n : nat) (z : Z) :
  be_value (be_bytes n z) = z mod 256 ^ Z.of_nat n.
Proof.
  induction n as [|n IH].
  - simpl. unfold be_value. simpl. now rewrite Z.mod_1_r.
  - cbn [be_bytes]. rewrite be_value_cons, be_bytes_length, IH, b2z_z2b.
    rewrite Nat2Z.inj_succ, Z.pow_succ_r by lia.
    assert (0 < 256 ^ Z.of_nat n) by (apply Z.pow_pos_nonneg; lia).
    set (p := 256 ^ Z.of_nat n) in *.
    rewrite (Z.mul_comm 256 p), Z.rem_mul_r by lia. lia.
Qed.

Lemma be_value_bytes (n : nat) (z : Z) :
  0 <= z < 256 ^ Z.of_nat n -> be_value (be_bytes n z) = z.
Proof.
  intros H. rewrite be_value_bytes_mod. now apply Z.mod_small.
Qed.

End Bytes.

(** ** JavaScript numbers

    A [number] is an IEEE-754 binary64 value, here the Standard Library's
    [spec_float] restricted by [valid_binary 53 1024].  The conversions the
    platform performs (DataView accessors, [Math.fround], [Number.isInteger])
    are written over that representation. *)

Module Num.

Definition number : Type := spec_float.

Definition is_double (x : number) : bool := valid_binary 53 1024 x.

Definition sign_bit (s : bool) : Z := if s then 1 else 0.

Section Format.
(** A binary interchange format: [prec] bits of precision, infinities at
    exponent [emax]. *)
Variables prec emax : Z.

Definition sign_weight : Z := 2 * emax * 2 ^ (prec - 1).

(** The bit pattern of a value of the format. *)
Definition to_bits (x : spec_float) : Z :=
  match x with
  | S754_zero s => sign_bit s * sign_weight
  | S754_infinity s => sign_bit s * sign_weight + (2 * emax - 1) * 2 ^ (prec - 1)
  | S754_nan => (2 * emax - 1) * 2 ^ (prec - 1) + 2 ^ (prec - 2)
  | S754_finite s m e =>
      (* sign, biased exponent and fraction, each cut to its field width;
         a mantissa below [2^(prec-1)] is subnormal: exponent field 0 *)
      sign_bit s * sign_weight
      + (if Z.pos m <? 2 ^ (prec - 1) then 0
         else (e + emax + prec - 2) mod (2 * emax)) * 2 ^ (prec - 1)
      + Z.pos m mod 2 ^ (prec - 1)
  end.

(** The value a bit pattern stands for. *)
Definition of_bits (b : Z) : spec_float :=
  let s := sign_weight <=? b in
  let E := (b / 2 ^ (prec - 1)) mod (2 * emax) in
  let f := b mod 2 ^ (prec - 1) in
  if E =? 0 then
    if f =? 0 then S754_zero s else S754_finite s (Z.to_pos f) (3 - emax - prec)
  else if E =? 2 * emax - 1 then
    if f =? 0 then S754_infinity s else S754_nan
  else S754_finite s (Z.to_pos (f + 2 ^ (prec - 1))) (E - (emax + prec - 2)).

(** Rounding (to nearest, ties to even) of a finite value into the format. *)
Definition round_to (x : spec_float) : spec_float :=
  match x with
  | S754_finite s m e => binary_normalize prec emax (cond_Zopp s (Z.pos m)) e s
  | _ => x
  end.
End Format.

(** [Number(z)] / the number a DataView integer read returns. *)
Definition ofZ (z : Z) : number := binary_normalize 53 1024 z 0 false.

(** [Number.isInteger]. *)
Definition isInteger (x : number) : bool :=
  match x with
  | S754_zero _ => true
  | S754_finite _ m e => (0 <=? e) || (Z.pos m mod 2 ^ (- e) =? 0)
  | _ => false
  end.

(** Truncation toward zero, with NaN and the infinities sent to 0: the
    integer the DataView integer setters start from, and the mathematical
    value of an integer-valued number. *)
Definition truncate (x : number) : Z :=
  match x with
  | S754_finite s m e =>
      cond_Zopp s (if 0 <=? e then Z.pos m * 2 ^ e else Z.pos m / 2 ^ (- e))
  | _ => 0
  end.

(** JavaScript [===] on numbers. *)
Definition strict_eq (x y : number) : bool := SFeqb x y.

(** The binary32 bit pattern [DataView.setFloat32] stores for a number. *)
Definition toFloat32 (x : number) : Z := to_bits 24 128 (round_to 24 128 x).

(** The number [DataView.getFloat32] returns for a binary32 bit pattern. *)
Definition fromFloat32 (b : Z) : number := round_to 53 1024 (of_bits 24 128 b).

(** [Math.fround]: to single precision and back. *)
Definition fround (x : number) : number := fromFloat32 (toFloat32 x).

Definition toFloat64 (x : number) : Z := to_bits 53 1024 x.
Definition fromFloat64 (b : Z) : number := of_bits 53 1024 b.

Definition negative_zero : number := S754_zero true.

(** Some numbers, for the examples below. *)
Definition one_and_a_half : number := S754_finite false 0x18000000000000 (-52).
Definition one_tenth : number := S754_finite false 0x1999999999999A (-56).

Example bits_one_and_a_half : toFloat64 one_and_a_half = 0x3FF8000000000000.
Proof. reflexivity. Qed.

Example bits_one_tenth : toFloat64 one_tenth = 0x3FB999999999999A.
Proof. reflexivity. Qed.

Example bits32_one_and_a_half : toFloat32 one_and_a_half = 0x3FC00000.
Proof. reflexivity. Qed.

Example bits32_one_tenth : toFloat32 one_tenth = 0x3DCCCCCD.
Proof. reflexivity. Qed.

Example fround_exact : fround one_and_a_half = one_and_a_half.
Proof. reflexivity. Qed.

Example fround_inexact : strict_eq (fround one_tenth) one_tenth = false.
Proof. reflexivity. Qed.

Example ofZ_example : toFloat64 (ofZ (-2)) = 0xC000000000000000.
Proof. reflexivity. Qed.

Example isInteger_example :
  isInteger (ofZ 1700000000000) = true /\ isInteger one_and_a_half = false
  /\ truncate (ofZ 1700000000000) = 1700000000000.
Proof. repeat split. Qed.


(** *** Facts about the representation *)

Lemma digits2_pos_spec (m : positive) :
  2 ^ (Z.pos (digits2_pos m) - 1) <= Z.pos m < 2 ^ Z.pos (digits2_pos m).
Proof.
  induction m as [m IH|m IH|]; cbn [digits2_pos].
  - rewrite Pos2Z.inj_succ.
    replace (Z.succ (Z.pos (digits2_pos m)) - 1)
      with (Z.succ (Z.pos (digits2_pos m) - 1)) by lia.
    rewrite !Z.pow_succ_r by lia. lia.
  - rewrite Pos2Z.inj_succ.
    replace (Z.succ (Z.pos (digits2_pos m)) - 1)
      with (Z.succ (Z.pos (digits2_pos m) - 1)) by lia.
    rewrite !Z.pow_succ_r by lia. lia.
  - simpl. lia.
Qed.

Lemma digits2_pos_unique (m : positive) (d : Z) :
  2 ^ (d - 1) <= Z.pos m < 2 ^ d -> Z.pos (digits2_pos m) = d.
Proof.
  intros [Hlo Hhi]. pose proof (digits2_pos_spec m) as [Dlo Dhi].
  set (k := Z.pos (digits2_pos m)) in *.
  assert (0 < k) by (subst k; lia).
  destruct (Z.lt_trichotomy k d) as [L|[E|G]]; [exfalso|exact E|exfalso].
  - assert (2 ^ k <= 2 ^ (d - 1)) by (apply Z.pow_le_mono_r; lia). lia.
  - assert (0 <= d).
    { destruct (Z.le_gt_cases 0 d); [assumption|].
      rewrite (Z.pow_neg_r 2 d) in Hhi by lia. lia. }
    assert (2 ^ d <= 2 ^ (k - 1)) by (apply Z.pow_le_mono_r; lia). lia.
Qed.

(** The finite doubles: normal ones carry a 53-bit mantissa, subnormal ones
    sit at the least exponent. *)
Lemma is_double_finite (s : bool) (m : positive) (e : Z) :
  is_double (S754_finite s m e) = true ->
  (2 ^ 52 <= Z.pos m < 2 ^ 53 /\ -1074 <= e <= 971)
  \/ (Z.pos m < 2 ^ 52 /\ e = -1074).
Proof.
  unfold is_double, valid_binary, bounded, canonical_mantissa, fexp, emin.
  intros H. apply andb_true_iff in H as [C B].
  apply Z.eqb_eq in C. apply Z.leb_le in B.
  pose proof (digits2_pos_spec m) as [Dlo Dhi].
  set (d := Z.pos (digits2_pos m)) in *.
  assert (0 < d) by (subst d; lia).
  destruct (Z.lt_ge_cases (Z.pos m) (2 ^ 52)) as [Small|Big].
  - right. split; [assumption|].
    destruct (Z.eq_dec d 53) as [E|NE]; [|lia].
    rewrite E in Dlo. simpl in Dlo. lia.
  - left.
    assert (52 < d).
    { destruct (Z.lt_ge_cases 52 d); [assumption|].
      assert (2 ^ d <= 2 ^ 52) by (apply Z.pow_le_mono_r; lia). lia. }
    assert (d = 53) by lia.
    replace d with 53 in Dhi by lia. lia.
Qed.

Lemma to_bits64_range (x : number) : 0 <= toFloat64 x < 2 ^ 64.
Proof.
  unfold toFloat64, to_bits, sign_weight, sign_bit.
  change (2 * 1024 * 2 ^ (53 - 1)) with (2 ^ 63).
  change (2 ^ (53 - 1)) with (2 ^ 52).
  change ((2 * 1024 - 1) * 2 ^ 52) with 0x7FF0000000000000.
  change (2 ^ (53 - 2)) with (2 ^ 51).
  destruct x as [s|s| |s m e]; try destruct s; try lia;
    destruct (Z.pos m <? 2 ^ 52); lia.
Qed.

Lemma to_bits32_range (x : number) : 0 <= toFloat32 x < 2 ^ 32.
Proof.
  unfold toFloat32. generalize (round_to 24 128 x). intros y.
  unfold to_bits, sign_weight, sign_bit.
  change (2 * 128 * 2 ^ (24 - 1)) with (2 ^ 31).
  change (2 ^ (24 - 1)) with (2 ^ 23).
  change ((2 * 128 - 1) * 2 ^ 23) with 0x7F800000.
  change (2 ^ (24 - 2)) with (2 ^ 22).
  destruct y as [s|s| |s m e]; try destruct s; try lia;
    destruct (Z.pos m <? 2 ^ 23); lia.
Qed.

(** Reading back the stored pattern of a double gives the double. *)
Lemma fromFloat64_toFloat64 (x : number) :
  is_double x = true -> fromFloat64 (toFloat64 x) = x.
Proof.
  intros V. unfold fromFloat64, toFloat64.
  destruct x as [s|s| |s m e].
  - destruct s; reflexivity.
  - destruct s; reflexivity.
  - reflexivity.
  - apply is_double_finite in V.
    unfold of_bits, to_bits, sign_weight.
    change (2 * 1024 * 2 ^ (53 - 1)) with (2 ^ 63).
    change (2 ^ (53 - 1)) with (2 ^ 52).
    change (2 * 1024) with 2048. change (2048 - 1) with 2047.
    change (3 - 1024 - 53) with (-1074).
    replace (e + 1024 + 53 - 2) with (e + 1075) by lia.
    change (1024 + 53 - 2) with 1075.
    assert (Hs : forall a r, 0 <= a + r < 2 ^ 63 ->
              (2 ^ 63 <=? sign_bit s * 2 ^ 63 + a + r) = s).
    { intros a r Hr. destruct s; unfold sign_bit.
      - apply Z.leb_le. lia.
      - apply Z.leb_gt. lia. }
    destruct V as [[Hm He]|[Hm He]].
    + assert (L : (Z.pos m <? 2 ^ 52) = false) by (apply Z.ltb_ge; lia).
      rewrite L.
      set (E := e + 1075) in *.
      rewrite (Z.mod_small E 2048) by (subst E; lia).
      set (f := Z.pos m mod 2 ^ 52).
      assert (Hf : f = Z.pos m - 2 ^ 52) by (subst f; lia).
      assert (Rf : 0 <= f < 2 ^ 52) by lia.
      rewrite Hs by (subst E; lia).
      replace ((sign_bit s * 2 ^ 63 + E * 2 ^ 52 + f) / 2 ^ 52)
        with (sign_bit s * 2048 + E)
        by (unfold sign_bit; destruct s; lia).
      replace ((sign_bit s * 2048 + E) mod 2048) with E
        by (unfold sign_bit; destruct s; subst E; lia).
      replace ((sign_bit s * 2 ^ 63 + E * 2 ^ 52 + f) mod 2 ^ 52) with f
        by (unfold sign_bit; destruct s; lia).
      assert (N0 : (E =? 0) = false) by (apply Z.eqb_neq; subst E; lia).
      assert (N1 : (E =? 2047) = false) by (apply Z.eqb_neq; subst E; lia).
      rewrite N0, N1. f_equal; [|subst E; lia].
      rewrite Hf. replace (Z.pos m - 2 ^ 52 + 2 ^ 52) with (Z.pos m) by lia.
      reflexivity.
    + assert (L : (Z.pos m <? 2 ^ 52) = true) by (apply Z.ltb_lt; lia).
      rewrite L.
      rewrite (Z.mod_small (Z.pos m) (2 ^ 52)) by lia.
      rewrite Hs by lia.
      replace ((sign_bit s * 2 ^ 63 + 0 * 2 ^ 52 + Z.pos m) / 2 ^ 52)
        with (sign_bit s * 2048)
        by (unfold sign_bit; destruct s; lia).
      replace ((sign_bit s * 2048) mod 2048) with 0
        by (unfold sign_bit; destruct s; lia).
      replace ((sign_bit s * 2 ^ 63 + 0 * 2 ^ 52 + Z.pos m) mod 2 ^ 52)
        with (Z.pos m)
        by (unfold sign_bit; destruct s; lia).
      cbn [Z.eqb]. replace (Z.pos m =? 0) with false by (symmetry; apply Z.eqb_neq; lia).
      now subst e.
Qed.

(** [===] between numbers, the second of which is not a zero, is identity. *)
Lemma strict_eq_eq (x y : number) :
  strict_eq x y = true -> (forall s, y <> S754_zero s) -> x = y.
Proof.
  unfold strict_eq, SFeqb, SFcompare. intros H NZ.
  destruct x as [s1|s1| |s1 m1 e1], y as [s2|s2| |s2 m2 e2];
    try discriminate; try (exfalso; eapply NZ; reflexivity);
    destruct s1; try discriminate; destruct s2; try discriminate;
    try reflexivity.
  all: destruct (Z.compare_spec e1 e2) as [Ee|Le|Ge]; try discriminate.
  all: change (PosDef.Pos.compare_cont Eq m1 m2) with (Pos.compare m1 m2) in H.
  all: destruct (Pos.compare_spec m1 m2) as [Em|Lm|Gm]; try discriminate.
  all: now subst.
Qed.

(** *** Integers as numbers *)

Lemma iter_xO_pow (k d : positive) :
  Z.pos (Pos.iter xO k d) = Z.pos k * 2 ^ Z.pos d.
Proof.
  induction d as [|d IH] using Pos.peano_ind.
  - simpl. lia.
  - rewrite Pos.iter_succ, Pos2Z.inj_xO, IH, Pos2Z.inj_succ, Z.pow_succ_r by lia.
    lia.
Qed.

(** A 53-bit mantissa at an exponent in range needs no rounding. *)
Lemma binary_round_aux_canonical (s : bool) (m : positive) (e : Z) :
  2 ^ 52 <= Z.pos m < 2 ^ 53 -> -1074 <= e <= 971 ->
  binary_round_aux 53 1024 s (Z.pos m) e loc_Exact = S754_finite s m e.
Proof.
  intros Hm He.
  assert (D : Z.pos (digits2_pos m) = 53) by (apply digits2_pos_unique; lia).
  unfold binary_round_aux, shr_fexp, Zdigits2, fexp, emin.
  rewrite D.
  replace (Z.max (53 + e - 53) (3 - 1024 - 53) - e) with 0 by lia.
  cbn [shr shr_record_of_loc loc_of_shr_record shr_m round_nearest_even Zdigits2].
  rewrite D.
  replace (Z.max (53 + e - 53) (3 - 1024 - 53) - e) with 0 by lia.
  cbn [shr shr_record_of_loc shr_m].
  replace (e <=? 1024 - 53) with true by (symmetry; apply Z.leb_le; lia).
  reflexivity.
Qed.

(** Converting the integer value of an integer-valued double below [2^53]
    back to a number gives the double, negative zero excepted. *)
Lemma ofZ_truncate (x : number) :
  is_double x = true -> isInteger x = true -> x <> negative_zero ->
  Z.abs (truncate x) < 2 ^ 53 ->
  ofZ (truncate x) = x.
Proof.
  intros V I NZ B.
  destruct x as [s|s| |s m e]; try discriminate.
  - destruct s; [now destruct NZ|reflexivity].
  - apply is_double_finite in V.
    unfold isInteger in I. unfold truncate in *. unfold ofZ.
    assert (P2 : forall n, 0 <= n -> 0 < 2 ^ n)
      by (intros; apply Z.pow_pos_nonneg; lia).
    destruct (Z.leb_spec 0 e) as [Epos|Eneg].
    + (* an exponent of zero: the mantissa is the value *)
      assert (E0 : e = 0).
      { destruct V as [[Hm He]|[Hm He]]; [|lia].
        destruct (Z.eq_dec e 0) as [|NE]; [assumption|exfalso].
        assert (2 ^ 1 <= 2 ^ e) by (apply Z.pow_le_mono_r; lia).
        assert (0 < Z.pos m * 2 ^ e) by (apply Z.mul_pos_pos; [lia|now apply P2]).
        assert (Z.abs (cond_Zopp s (Z.pos m * 2 ^ e)) = Z.pos m * 2 ^ e)
          by (unfold cond_Zopp; destruct s; lia).
        change (2 ^ 1) with 2 in *. nia. }
      subst e. destruct V as [[Hm He]|[Hm He]]; [|lia].
      rewrite Z.mul_1_r.
      destruct s; cbn [cond_Zopp Z.opp binary_normalize];
        unfold binary_round, shl_align, fexp, emin;
        rewrite (digits2_pos_unique m 53) by lia; cbn [Z.add Z.sub Z.max Z.compare Z.opp Z.pos_sub];
        now apply binary_round_aux_canonical.
    + (* a negative exponent: the low bits of the mantissa are zero *)
      cbn [orb] in I. apply Z.eqb_eq in I.
      destruct V as [[Hm He]|[Hm He]].
      2:{ exfalso. subst e. change (- -1074) with 1074 in I.
          assert (2 ^ 52 < 2 ^ 1074) by (apply Z.pow_lt_mono_r; lia).
          pose proof (P2 1074 ltac:(lia)).
          assert (Z.pos m = 2 ^ 1074 * (Z.pos m / 2 ^ 1074)).
          { pose proof (Z.div_mod (Z.pos m) (2 ^ 1074)). lia. }
          assert (0 < Z.pos m / 2 ^ 1074) by nia. nia. }
      set (d := - e) in *. assert (Hd : 0 < d) by (subst d; lia).
      pose proof (P2 d ltac:(lia)) as Pd.
      set (k := Z.pos m / 2 ^ d) in *.
      assert (Hk : Z.pos m = k * 2 ^ d).
      { pose proof (Z.div_mod (Z.pos m) (2 ^ d)). subst k. lia. }
      assert (Kpos : 0 < k) by nia.
      assert (Dle : d <= 52).
      { destruct (Z.le_gt_cases d 52); [assumption|exfalso].
        assert (2 ^ 53 <= 2 ^ d) by (apply Z.pow_le_mono_r; lia). nia. }
      assert (Kr : 2 ^ (53 - d - 1) <= k < 2 ^ (53 - d)).
      { assert (E1 : 2 ^ 52 = 2 ^ (53 - d - 1) * 2 ^ d)
          by (rewrite <- Z.pow_add_r by lia; f_equal; lia).
        assert (E2 : 2 ^ 53 = 2 ^ (53 - d) * 2 ^ d)
          by (rewrite <- Z.pow_add_r by lia; f_equal; lia).
        pose proof (P2 (53 - d - 1) ltac:(lia)).
        pose proof (P2 (53 - d) ltac:(lia)). nia. }
      destruct k as [|kp|kp] eqn:Ek; try lia.
      assert (Dk : Z.pos (digits2_pos kp) = 53 - d)
        by (apply digits2_pos_unique; lia).
      assert (R : forall sg, binary_round 53 1024 sg kp 0 = S754_finite sg m e).
      { intros sg. unfold binary_round, shl_align, fexp, emin. rewrite Dk.
        replace (Z.max (53 - d + 0 - 53) (3 - 1024 - 53) - 0) with (- d) by lia.
        destruct d as [|dp|dp] eqn:Ed; try lia.
        cbn [Z.opp].
        assert (Em : Pos.iter xO kp dp = m).
        { apply Pos2Z.inj. rewrite iter_xO_pow. lia. }
        rewrite Em.
        replace (Z.max (53 - Z.pos dp + 0 - 53) (3 - 1024 - 53)) with e by lia.
        apply binary_round_aux_canonical; lia. }
      destruct s; cbn [cond_Zopp Z.opp binary_normalize]; apply R.
Qed.

(** A non-negative integer below [2^53] is a double, and its integer value
    is the integer. *)
Lemma ofZ_exact (z : Z) :
  0 <= z < 2 ^ 53 ->
  is_double (ofZ z) = true /\ truncate (ofZ z) = z
  /\ ofZ z <> negative_zero.
Proof.
  intros Hz. destruct z as [|p|p]; [repeat split; discriminate| |lia].
  pose proof (digits2_pos_spec p) as Dp.
  set (d := Z.pos (digits2_pos p)) in *.
  assert (Hd : 1 <= d <= 53).
  { split; [subst d; lia|].
    destruct (Z.le_gt_cases d 53); [assumption|exfalso].
    assert (2 ^ 53 <= 2 ^ (d - 1)) by (apply Z.pow_le_mono_r; lia). lia. }
  assert (P2 : forall n, 0 <= n -> 0 < 2 ^ n)
    by (intros; apply Z.pow_pos_nonneg; lia).
  assert (R : exists m, ofZ (Z.pos p) = S754_finite false m (d - 53)
                        /\ Z.pos m = Z.pos p * 2 ^ (53 - d)).
  { unfold ofZ. cbn [binary_normalize].
    unfold binary_round, shl_align, fexp, emin. fold d.
    replace (Z.max (d + 0 - 53) (3 - 1024 - 53) - 0) with (d - 53) by lia.
    replace (Z.max (d + 0 - 53) (3 - 1024 - 53)) with (d - 53) by lia.
    destruct (d - 53) as [|q|q] eqn:Eq; try lia.
    - exists p. replace (53 - d) with 0 by lia. rewrite Z.mul_1_r.
      split; [|reflexivity].
      apply binary_round_aux_canonical; [|lia].
      replace d with 53 in Dp by lia. exact Dp.
    - exists (Pos.iter xO p q).
      assert (Em : Z.pos (Pos.iter xO p q) = Z.pos p * 2 ^ (53 - d)).
      { rewrite iter_xO_pow. f_equal. f_equal. lia. }
      split; [|exact Em].
      apply binary_round_aux_canonical; [|lia].
      rewrite Em.
      assert (E1 : 2 ^ 52 = 2 ^ (d - 1) * 2 ^ (53 - d))
        by (rewrite <- Z.pow_add_r by lia; f_equal; lia).
      assert (E2 : 2 ^ 53 = 2 ^ d * 2 ^ (53 - d))
        by (rewrite <- Z.pow_add_r by lia; f_equal; lia).
      pose proof (P2 (53 - d) ltac:(lia)). nia. }
  destruct R as (m & -> & Em).
  split; [|split; [|discriminate]].
  - assert (E1 : 2 ^ 52 = 2 ^ (d - 1) * 2 ^ (53 - d))
      by (rewrite <- Z.pow_add_r by lia; f_equal; lia).
    assert (E2 : 2 ^ 53 = 2 ^ d * 2 ^ (53 - d))
      by (rewrite <- Z.pow_add_r by lia; f_equal; lia).
    pose proof (P2 (53 - d) ltac:(lia)).
    assert (Hm : 2 ^ 52 <= Z.pos m < 2 ^ 53) by nia.
    unfold is_double, valid_binary, bounded, canonical_mantissa, fexp, emin.
    rewrite (digits2_pos_unique m 53) by lia.
    apply andb_true_intro. split.
    + apply Z.eqb_eq. lia.
    + apply Z.leb_le. lia.
  - unfold truncate. cbn [cond_Zopp].
    destruct (Z.leb_spec 0 (d - 53)) as [L|L].
    + assert (E0 : d - 53 = 0) by lia. rewrite E0.
      replace (53 - d) with 0 in Em by lia. lia.
    + rewrite Em. replace (- (d - 53)) with (53 - d) by lia.
      apply Z.div_mul. pose proof (P2 (53 - d) ltac:(lia)). lia.
Qed.

End Num.

(** ** JavaScript strings, TextEncoder and TextDecoder

    A JavaScript string is a sequence of UTF-16 code units.  [TextEncoder]
    and [TextDecoder] are platform objects; they are modelled after the
    WHATWG Encoding standard (UTF-8 encoder, UTF-8 decoder with replacement,
    byte-order-mark removal). *)

Module Text.
Import Bytes.

Definition jsstring : Type := list Z.

(** The string of an ASCII literal. *)
Definition str (s : string) : jsstring :=
  map (fun a => Z.of_N (N_of_ascii a)) (list_ascii_of_string s).

Definition code_unit (c : Z) : bool := (0 <=? c) && (c <? 0x10000).
Definition is_high (c : Z) : bool := (0xD800 <=? c) && (c <=? 0xDBFF).
Definition is_low (c : Z) : bool := (0xDC00 <=? c) && (c <=? 0xDFFF).

Definition REPLACEMENT : Z := 0xFFFD.
Definition BOM : Z := 0xFEFF.

(** Conversion of a string to scalar values: a lone surrogate becomes
    U+FFFD. *)
Fixpoint to_scalars (s : jsstring) : list Z :=
  match s with
  | [] => []
  | c :: rest =>
      if is_high c then
        match rest with
        | d :: rest' =>
            if is_low d
            then (0x10000 + (c - 0xD800) * 0x400 + (d - 0xDC00)) :: to_scalars rest'
            else REPLACEMENT :: to_scalars rest
        | [] => [REPLACEMENT]
        end
      else if is_low c then REPLACEMENT :: to_scalars rest
      else c :: to_scalars rest
  end.

Definition of_scalar (c : Z) : jsstring :=
  if c <? 0x10000 then [c]
  else [0xD800 + (c - 0x10000) / 0x400; 0xDC00 + (c - 0x10000) mod 0x400].

Definition of_scalars (cs : list Z) : jsstring := flat_map of_scalar cs.

(** [String.prototype.isWellFormed]: no lone surrogate. *)
Fixpoint isWellFormed (s : jsstring) : bool :=
  match s with
  | [] => true
  | c :: rest =>
      if is_high c then
        match rest with
        | d :: rest' => is_low d && isWellFormed rest'
        | [] => false
        end
      else negb (is_low c) && isWellFormed rest
  end.

Definition utf8_of_scalar (c : Z) : list byte :=
  if c <? 0x80 then [z2b c]
  else if c <? 0x800 then [z2b (0xC0 + c / 64); z2b (0x80 + c mod 64)]
  else if c <? 0x10000 then
    [z2b (0xE0 + c / 4096); z2b (0x80 + (c / 64) mod 64); z2b (0x80 + c mod 64)]
  else
    [z2b (0xF0 + c / 262144); z2b (0x80 + (c / 4096) mod 64);
     z2b (0x80 + (c / 64) mod 64); z2b (0x80 + c mod 64)].

(** [new TextEncoder().encode(s)]. *)
Definition TextEncoder_encode (s : jsstring) : list byte :=
  flat_map utf8_of_scalar (to_scalars s).

(** The state of the UTF-8 decoder of the Encoding standard. *)
Record utf8_state : Type := {
  code_point : Z;
  bytes_seen : Z;
  bytes_needed : Z;
  lower_boundary : Z;
  upper_boundary : Z
}.

Definition utf8_initial : utf8_state :=
  {| code_point := 0; bytes_seen := 0; bytes_needed := 0;
     lower_boundary := 0x80; upper_boundary := 0xBF |}.

(** A byte met while no sequence is open. *)
Definition utf8_lead (b : Z) : list Z * utf8_state :=
  if b <=? 0x7F then ([b], utf8_initial)
  else if (0xC2 <=? b) && (b <=? 0xDF) then
    ([], {| code_point := b - 0xC0; bytes_seen := 0; bytes_needed := 1;
            lower_boundary := 0x80; upper_boundary := 0xBF |})
  else if (0xE0 <=? b) && (b <=? 0xEF) then
    ([], {| code_point := b - 0xE0; bytes_seen := 0; bytes_needed := 2;
            lower_boundary := if b =? 0xE0 then 0xA0 else 0x80;
            upper_boundary := if b =? 0xED then 0x9F else 0xBF |})
  else if (0xF0 <=? b) && (b <=? 0xF4) then
    ([], {| code_point := b - 0xF0; bytes_seen := 0; bytes_needed := 3;
            lower_boundary := if b =? 0xF0 then 0x90 else 0x80;
            upper_boundary := if b =? 0xF4 then 0x8F else 0xBF |})
  else ([REPLACEMENT], utf8_initial).

Definition utf8_step (st : utf8_state) (b : Z) : list Z * utf8_state :=
  if bytes_needed st =? 0 then utf8_lead b
  else if (b <? lower_boundary st) || (upper_boundary st <? b) then
    (* the open sequence is malformed; the byte is processed again *)
    let '(out, st') := utf8_lead b in (REPLACEMENT :: out, st')
  else
    let cp := code_point st * 64 + (b - 0x80) in
    if bytes_seen st + 1 =? bytes_needed st then ([cp], utf8_initial)
    else ([], {| code_point := cp; bytes_seen := bytes_seen st + 1;
                 bytes_needed := bytes_needed st;
                 lower_boundary := 0x80; upper_boundary := 0xBF |}).

Fixpoint utf8_run (st : utf8_state) (bs : list byte) : list Z :=
  match bs with
  | [] => if bytes_needed st =? 0 then [] else [REPLACEMENT]
  | b :: bs' =>
      let '(out, st') := utf8_step st (b2z b) in out ++ utf8_run st' bs'
  end.

(** A leading byte order mark is not part of the decoded text. *)
Definition strip_bom (cs : list Z) : list Z :=
  match cs with
  | c :: cs' => if c =? BOM then cs' else cs
  | [] => []
  end.

(** [new TextDecoder().decode(bytes)]. *)
Definition TextDecoder_decode (bs : list byte) : jsstring :=
  of_scalars (strip_bom (utf8_run utf8_initial bs)).

Example encode_hello :
  TextEncoder_encode (str "hi") = [x68; x69].
Proof. reflexivity. Qed.

(** "é" (U+00E9), "世" (U+4E16) and U+1F30D through the encoder and back. *)
Example encode_decode_sample :
  let s := [0xE9; 0x4E16; 0xD83C; 0xDF0D] in
  TextEncoder_encode s = [xc3; xa9; xe4; xb8; x96; xf0; x9f; x8c; x8d]
  /\ TextDecoder_decode (TextEncoder_encode s) = s.
Proof. split; reflexivity. Qed.

(** A lone surrogate does not survive the encoder. *)
Example lone_surrogate :
  TextDecoder_decode (TextEncoder_encode [0xD800]) = [0xFFFD].
Proof. reflexivity. Qed.

(** A leading U+FEFF does not survive the decoder. *)
Example leading_bom :
  TextDecoder_decode (TextEncoder_encode (BOM :: str "a")) = str "a".
Proof. reflexivity. Qed.

(** *** Decoding what the encoder produced *)

Definition scalar (c : Z) : Prop :=
  0 <= c < 0xD800 \/ 0xE000 <= c < 0x110000.

(** The strings that survive encoding and decoding: code units in range, no
    lone surrogate, no leading byte order mark. *)
Definition survives (s : jsstring) : bool :=
  forallb code_unit s && isWellFormed s
  && match s with c :: _ => negb (c =? BOM) | [] => true end.

Ltac split_tests :=
  repeat match goal with
  | |- context [?a <=? ?b] => destruct (Z.leb_spec a b); try lia
  | |- context [?a <? ?b] => destruct (Z.ltb_spec a b); try lia
  | |- context [?a =? ?b] => destruct (Z.eqb_spec a b); try lia
  end.

Lemma utf8_run_scalar (c : Z) (bs : list byte) :
  scalar c ->
  utf8_run utf8_initial (utf8_of_scalar c ++ bs) = c :: utf8_run utf8_initial bs.
Proof.
  intros Hc. unfold scalar in Hc. unfold utf8_of_scalar.
  destruct (Z.ltb_spec c 0x80) as [H1|H1];
    [|destruct (Z.ltb_spec c 0x800) as [H2|H2];
      [|destruct (Z.ltb_spec c 0x10000) as [H3|H3]]];
    cbn [app utf8_run]; rewrite !b2z_z2b.
  - rewrite (Z.mod_small c 256) by lia.
    unfold utf8_step, utf8_initial, utf8_lead; cbn [bytes_needed Z.eqb].
    split_tests. reflexivity.
  - rewrite (Z.mod_small (0xC0 + c / 64) 256) by lia.
    rewrite (Z.mod_small (0x80 + c mod 64) 256) by lia.
    unfold utf8_step at 1. unfold utf8_initial at 1, utf8_lead.
    cbn [bytes_needed Z.eqb].
    split_tests; cbn [andb app].
    unfold utf8_step;
      cbn [bytes_needed bytes_seen code_point lower_boundary upper_boundary].
    split_tests; cbn [orb app]. f_equal. lia.
  - rewrite (Z.mod_small (0xE0 + c / 4096) 256) by lia.
    rewrite (Z.mod_small (0x80 + (c / 64) mod 64) 256) by lia.
    rewrite (Z.mod_small (0x80 + c mod 64) 256) by lia.
    unfold utf8_step at 1. unfold utf8_initial at 1, utf8_lead.
    cbn [bytes_needed Z.eqb].
    split_tests; cbn [andb app];
    unfold utf8_step at 1;
      cbn [bytes_needed bytes_seen code_point lower_boundary upper_boundary];
    split_tests; cbn [orb app];
    unfold utf8_step at 1;
      cbn [bytes_needed bytes_seen code_point lower_boundary upper_boundary];
    split_tests; cbn [orb app]; f_equal; lia.
  - rewrite (Z.mod_small (0xF0 + c / 262144) 256) by lia.
    rewrite (Z.mod_small (0x80 + (c / 4096) mod 64) 256) by lia.
    rewrite (Z.mod_small (0x80 + (c / 64) mod 64) 256) by lia.
    rewrite (Z.mod_small (0x80 + c mod 64) 256) by lia.
    unfold utf8_step at 1. unfold utf8_initial at 1, utf8_lead.
    cbn [bytes_needed Z.eqb].
    split_tests; cbn [andb app];
    unfold utf8_step at 1;
      cbn [bytes_needed bytes_seen code_point lower_boundary upper_boundary];
    split_tests; cbn [orb app];
    unfold utf8_step at 1;
      cbn [bytes_needed bytes_seen code_point lower_boundary upper_boundary];
    split_tests; cbn [orb app];
    unfold utf8_step at 1;
      cbn [bytes_needed bytes_seen code_point lower_boundary upper_boundary];
    split_tests; cbn [orb app]; f_equal; lia.
Qed.

Lemma utf8_run_scalars (cs : list Z) :
  Forall scalar cs -> utf8_run utf8_initial (flat_map utf8_of_scalar cs) = cs.
Proof.
  induction 1 as [|c cs Hc _ IH]; [reflexivity|].
  cbn [flat_map]. rewrite utf8_run_scalar by assumption. now rewrite IH.
Qed.

(** Well-formed strings, two code units at a time. *)
Lemma wellformed_ind (P : jsstring -> Prop) :
  P [] ->
  (forall c rest, is_high c = false -> is_low c = false -> P rest -> P (c :: rest)) ->
  (forall c d rest, is_high c = true -> is_low d = true -> P rest -> P (c :: d :: rest)) ->
  forall s, isWellFormed s = true -> P s.
Proof.
  intros Hnil Hone Htwo s.
  assert (G : forall n s, (length s <= n)%nat -> isWellFormed s = true -> P s).
  { clear s. induction n as [|n IH]; intros s Hl Hw.
    - destruct s; [exact Hnil|simpl in Hl; lia].
    - destruct s as [|c rest]; [exact Hnil|].
      cbn [isWellFormed] in Hw. simpl in Hl.
      destruct (is_high c) eqn:Hh.
      + destruct rest as [|d rest']; [discriminate|].
        apply andb_true_iff in Hw as [Hd Hw]. simpl in Hl.
        apply Htwo; try assumption. apply IH; [lia|assumption].
      + apply andb_true_iff in Hw as [Hlo Hw].
        apply negb_true_iff in Hlo.
        apply Hone; try assumption. apply IH; [lia|assumption]. }
  intros Hw. now apply (G (length s)).
Qed.

Lemma to_scalars_spec (s : jsstring) :
  isWellFormed s = true -> forallb code_unit s = true ->
  Forall scalar (to_scalars s) /\ of_scalars (to_scalars s) = s
  /\ (forall c rest, s = c :: rest -> c <> BOM ->
      forall c' rest', to_scalars s = c' :: rest' -> c' <> BOM).
Proof.
  intros Hw. pattern s. apply wellformed_ind; try assumption; clear s Hw.
  - intros Hu. repeat split; [constructor|discriminate].
  - intros c rest Hh Hl IH Hu.
    cbn [forallb] in Hu. apply andb_true_iff in Hu as [Hc Hu].
    destruct (IH Hu) as (F & R & _).
    cbn [to_scalars]. rewrite Hh, Hl.
    unfold code_unit, is_high, is_low in *.
    assert (Sc : scalar c).
    { unfold scalar. revert Hc Hh Hl. split_tests; cbn; intros; try discriminate; lia. }
    repeat split.
    + now constructor.
    + unfold of_scalars in *. cbn [flat_map]. rewrite R.
      unfold of_scalar. destruct Sc as [Sc|Sc].
      * replace (c <? 0x10000) with true by (symmetry; apply Z.ltb_lt; lia).
        reflexivity.
      * revert Hc. split_tests; cbn; intros; try discriminate. reflexivity.
    + intros c0 rest0 E NB c' rest' E'. inversion E; inversion E'; subst.
      assumption.
  - intros c d rest Hh Hl IH Hu.
    cbn [forallb] in Hu.
    apply andb_true_iff in Hu as [Hc Hu]. apply andb_true_iff in Hu as [Hd Hu].
    destruct (IH Hu) as (F & R & _).
    cbn [to_scalars]. rewrite Hh, Hl.
    unfold is_high, is_low in Hh, Hl.
    apply andb_true_iff in Hh as [Hh1 Hh2]. apply andb_true_iff in Hl as [Hl1 Hl2].
    apply Z.leb_le in Hh1, Hh2, Hl1, Hl2.
    set (v := 0x10000 + (c - 0xD800) * 0x400 + (d - 0xDC00)).
    assert (Rv : 0x10000 <= v < 0x110000) by (subst v; lia).
    repeat split.
    + constructor; [right; lia|assumption].
    + unfold of_scalars in *. cbn [flat_map]. rewrite R.
      unfold of_scalar.
      replace (v <? 0x10000) with false by (symmetry; apply Z.ltb_ge; lia).
      cbn [app]. f_equal; [subst v; lia|]. f_equal. subst v; lia.
    + intros c0 rest0 E NB c' rest' E'. inversion E'; subst c'. unfold BOM. lia.
Qed.

(** The decoder gives back every surviving string. *)
Lemma decode_encode (s : jsstring) :
  survives s = true -> TextDecoder_decode (TextEncoder_encode s) = s.
Proof.
  unfold survives. intros H.
  apply andb_true_iff in H as [H Hb]. apply andb_true_iff in H as [Hu Hw].
  destruct (to_scalars_spec s Hw Hu) as (F & R & B).
  unfold TextDecoder_decode, TextEncoder_encode.
  rewrite utf8_run_scalars by assumption.
  destruct s as [|c rest]; [reflexivity|].
  apply negb_true_iff in Hb. apply Z.eqb_neq in Hb.
  destruct (to_scalars (c :: rest)) as [|c' rest'] eqn:E.
  - exact R.
  - unfold strip_bom.
    replace (c' =? BOM) with false; [exact R|].
    symmetry. apply Z.eqb_neq. eapply B; eauto.
Qed.

End Text.

(** ** db/utils/checksum.ts *)

Module Checksum.
Import Bytes.

(** One entry of the table: eight steps of the reflected polynomial.  The
    source computes on 32-bit integers and normalises with [>>> 0]; on the
    unsigned representatives used here [^], [>>>] and [&] are [Z.lxor],
    [Z.shiftr] and [Z.land]. *)
Definition table_entry (i : Z) : Z :=
  Nat.iter 8
    (fun crc =>
       if Z.land crc 1 =? 1 then Z.lxor 0xedb88320 (Z.shiftr crc 1)
       else Z.shiftr crc 1)
    i.

Definition CRC32_TABLE : list Z :=
  Eval vm_compute in map (fun i => table_entry (Z.of_nat i)) (seq 0 256).

Definition crc32 (data : list byte) : Z :=
  let crc :=
    fold_left
      (fun crc b =>
         Z.lxor (nth (Z.to_nat (Z.land (Z.lxor crc (b2z b)) 0xff)) CRC32_TABLE 0)
                (Z.shiftr crc 8))
      data 0xffffffff in
  Z.lxor crc 0xffffffff.

(** The check value of CRC-32/IEEE: the checksum of "123456789". *)
Example crc32_check_value :
  crc32 [x31; x32; x33; x34; x35; x36; x37; x38; x39] = 0xCBF43926.
Proof. reflexivity. Qed.

(** The checksum is an unsigned 32-bit number. *)
Lemma lxor_range (n a b : Z) :
  0 <= a < 2 ^ n -> 0 <= b < 2 ^ n -> 0 <= Z.lxor a b < 2 ^ n.
Proof.
  intros Ha Hb.
  assert (N : 0 <= Z.lxor a b) by (apply Z.lxor_nonneg; lia).
  split; [assumption|].
  destruct (Z.eq_dec (Z.lxor a b) 0) as [E|NE]; [lia|].
  assert (Hn : 0 < n).
  { destruct (Z.lt_trichotomy n 0) as [L|[L|L]]; [|subst n|assumption].
    - rewrite Z.pow_neg_r in Ha by assumption. lia.
    - change (2 ^ 0) with 1 in *. assert (a = 0) by lia. assert (b = 0) by lia.
      subst. now destruct NE. }
  apply Z.log2_lt_pow2; [lia|].
  pose proof (Z.log2_lxor a b ltac:(lia) ltac:(lia)) as L.
  assert (La : Z.log2 a < n).
  { destruct (Z.eq_dec a 0) as [->|]; [exact Hn|apply Z.log2_lt_pow2; lia]. }
  assert (Lb : Z.log2 b < n).
  { destruct (Z.eq_dec b 0) as [->|]; [exact Hn|apply Z.log2_lt_pow2; lia]. }
  lia.
Qed.

Lemma table_range (i : nat) : 0 <= nth i CRC32_TABLE 0 < 2 ^ 32.
Proof.
  assert (F : forallb (fun x => (0 <=? x) && (x <? 2 ^ 32)) CRC32_TABLE = true)
    by (vm_compute; reflexivity).
  rewrite forallb_forall in F.
  destruct (Nat.lt_ge_cases i (length CRC32_TABLE)) as [L|G].
  - specialize (F _ (nth_In _ 0 L)). lia.
  - rewrite nth_overflow by assumption. lia.
Qed.

Lemma crc32_range (data : list byte) : 0 <= crc32 data < 2 ^ 32.
Proof.
  unfold crc32. apply lxor_range; [|lia].
  assert (G : forall crc, 0 <= crc < 2 ^ 32 ->
            0 <= fold_left
                   (fun crc b =>
                      Z.lxor (nth (Z.to_nat (Z.land (Z.lxor crc (b2z b)) 0xff)) CRC32_TABLE 0)
                             (Z.shiftr crc 8))
                   data crc < 2 ^ 32).
  { induction data as [|b data IH]; intros crc H; [exact H|].
    cbn [fold_left]. apply IH. apply lxor_range; [apply table_range|].
    rewrite Z.shiftr_div_pow2 by lia. change (2 ^ 8) with 256.
    change (2 ^ 32) with 4294967296 in *. lia. }
  apply G. lia.
Qed.

(** *** Error detection *)

(** One round of the loop of [crc32]. *)
Definition crc32_step (crc : Z) (b : byte) : Z :=
  Z.lxor (nth (Z.to_nat (Z.land (Z.lxor crc (b2z b)) 0xff)) CRC32_TABLE 0)
         (Z.shiftr crc 8).

Lemma crc32_fold (data : list byte) :
  crc32 data = Z.lxor (fold_left crc32_step data 0xffffffff) 0xffffffff.
Proof. reflexivity. Qed.

Lemma lxor_cancel_l (a b c : Z) : Z.lxor a b = Z.lxor a c -> b = c.
Proof.
  intros H. rewrite <- (Z.lxor_0_l b), <- (Z.lxor_nilpotent a), Z.lxor_assoc, H.
  now rewrite <- Z.lxor_assoc, Z.lxor_nilpotent, Z.lxor_0_l.
Qed.

Lemma lxor_cancel_r (a b c : Z) : Z.lxor b a = Z.lxor c a -> b = c.
Proof. rewrite !(Z.lxor_comm _ a). apply lxor_cancel_l. Qed.

Lemma low_byte_lxor (c b : Z) :
  Z.land (Z.lxor c b) 0xff = Z.lxor (c mod 256) (b mod 256).
Proof.
  change 0xff with (Z.ones 8). change 256 with (2 ^ 8).
  rewrite <- !Z.land_ones by lia.
  apply Z.bits_inj'. intros n Hn.
  rewrite Z.land_spec, !Z.lxor_spec, !Z.land_spec.
  destruct (Z.testbit c n), (Z.testbit b n), (Z.testbit (Z.ones 8) n); reflexivity.
Qed.

(** The top byte of a table entry names the entry. *)
Definition top_bytes : list Z := Eval vm_compute in map (fun x => Z.shiftr x 24) CRC32_TABLE.

Lemma top_bytes_NoDup : NoDup top_bytes.
Proof.
  apply (NoDup_count_occ' Z.eq_dec). intros x Hx.
  repeat (destruct Hx as [<-|Hx]; [vm_compute; reflexivity|]). destruct Hx.
Qed.

Lemma table_top_inj (i j : nat) :
  (i < 256)%nat -> (j < 256)%nat ->
  Z.shiftr (nth i CRC32_TABLE 0) 24 = Z.shiftr (nth j CRC32_TABLE 0) 24 -> i = j.
Proof.
  intros Hi Hj H.
  apply (proj1 (NoDup_nth top_bytes 0) top_bytes_NoDup i j); [exact Hi|exact Hj|].
  pose proof (map_nth (fun x => Z.shiftr x 24) CRC32_TABLE 0 i) as Ei.
  pose proof (map_nth (fun x => Z.shiftr x 24) CRC32_TABLE 0 j) as Ej.
  cbv beta in Ei, Ej. rewrite <- Ei, <- Ej in H. exact H.
Qed.

Definition index_of (crc : Z) (b : byte) : nat :=
  Z.to_nat (Z.land (Z.lxor crc (b2z b)) 0xff).

Lemma index_of_range (crc : Z) (b : byte) : (index_of crc b < 256)%nat.
Proof.
  unfold index_of. rewrite low_byte_lxor.
  pose proof (lxor_range 8 (crc mod 256) (b2z b mod 256)) as R.
  change (2 ^ 8) with 256 in R. lia.
Qed.

Lemma step_top (crc : Z) (b : byte) :
  0 <= crc < 2 ^ 32 ->
  Z.shiftr (crc32_step crc b) 24 = Z.shiftr (nth (index_of crc b) CRC32_TABLE 0) 24.
Proof.
  intros H. unfold crc32_step. fold (index_of crc b).
  rewrite Z.shiftr_lxor, (Z.shiftr_shiftr crc) by lia. cbn [Z.add Pos.add Pos.succ].
  rewrite (Z.shiftr_div_pow2 crc 32) by lia.
  rewrite Z.div_small by lia. apply Z.lxor_0_r.
Qed.

Lemma step_range (crc : Z) (b : byte) :
  0 <= crc < 2 ^ 32 -> 0 <= crc32_step crc b < 2 ^ 32.
Proof.
  intros H. unfold crc32_step. apply lxor_range; [apply table_range|].
  rewrite Z.shiftr_div_pow2 by lia. change (2 ^ 8) with 256.
  change (2 ^ 32) with 4294967296 in *. lia.
Qed.

Lemma fold_range (data : list byte) (crc : Z) :
  0 <= crc < 2 ^ 32 -> 0 <= fold_left crc32_step data crc < 2 ^ 32.
Proof.
  revert crc. induction data as [|b data IH]; intros crc H; [exact H|].
  cbn [fold_left]. apply IH, step_range, H.
Qed.

(** For a given byte the round is injective on 32-bit states. *)
Lemma step_inj (c1 c2 : Z) (b : byte) :
  0 <= c1 < 2 ^ 32 -> 0 <= c2 < 2 ^ 32 ->
  crc32_step c1 b = crc32_step c2 b -> c1 = c2.
Proof.
  intros H1 H2 E.
  assert (I : index_of c1 b = index_of c2 b).
  { apply table_top_inj; try apply index_of_range.
    rewrite <- !step_top by assumption. now rewrite E. }
  unfold crc32_step in E. fold (index_of c1 b) (index_of c2 b) in E.
  rewrite I in E. apply lxor_cancel_l in E.
  unfold index_of in I. apply Z2Nat.inj in I.
  2,3: rewrite low_byte_lxor;
       match goal with |- 0 <= Z.lxor ?a ?b => pose proof (lxor_range 8 a b) end; lia.
  rewrite !low_byte_lxor in I. apply lxor_cancel_r in I.
  rewrite !Z.shiftr_div_pow2 in E by lia. change (2 ^ 8) with 256 in E.
  lia.
Qed.

(** Different bytes send a state to different states. *)
Lemma step_byte_inj (c : Z) (b1 b2 : byte) :
  0 <= c < 2 ^ 32 -> crc32_step c b1 = crc32_step c b2 -> b1 = b2.
Proof.
  intros H E.
  assert (I : index_of c b1 = index_of c b2).
  { apply table_top_inj; try apply index_of_range.
    rewrite <- !step_top by assumption. now rewrite E. }
  unfold index_of in I. apply Z2Nat.inj in I.
  2,3: rewrite low_byte_lxor;
       match goal with |- 0 <= Z.lxor ?a ?b => pose proof (lxor_range 8 a b) end; lia.
  rewrite !low_byte_lxor in I. apply lxor_cancel_l in I.
  pose proof (b2z_range b1). pose proof (b2z_range b2).
  rewrite !Z.mod_small in I by lia. now apply b2z_inj.
Qed.

Lemma fold_inj (data : list byte) (c1 c2 : Z) :
  0 <= c1 < 2 ^ 32 -> 0 <= c2 < 2 ^ 32 ->
  fold_left crc32_step data c1 = fold_left crc32_step data c2 -> c1 = c2.
Proof.
  revert c1 c2. induction data as [|b data IH]; intros c1 c2 H1 H2 E; [exact E|].
  cbn [fold_left] in E. apply IH in E; try now apply step_range.
  now apply step_inj in E.
Qed.

Lemma crc32_differs (before after : list byte) (b1 b2 : byte) :
  b1 <> b2 ->
  crc32 (before ++ b1 :: after) <> crc32 (before ++ b2 :: after).
Proof.
  intros N E. rewrite !crc32_fold in E. apply lxor_cancel_r in E.
  rewrite !fold_left_app in E. cbn [fold_left] in E.
  assert (R : 0 <= fold_left crc32_step before 0xffffffff < 2 ^ 32)
    by (apply fold_range; lia).
  apply fold_inj in E; try now apply step_range.
  now apply step_byte_inj in E.
Qed.

(** X1.  Two inputs of [crc32] that differ in exactly
    one byte never have the same checksum. *)
Theorem crc32_single_byte (before after : list byte) (b1 b2 : byte) :
  b1 <> b2 ->
  crc32 (before ++ b1 :: after) <> crc32 (before ++ b2 :: after).
Proof. exact (crc32_differs before after b1 b2). Qed.

Lemma crc32_single_byte_witness :
  x32 <> x34
  /\ crc32 ([x31] ++ x32 :: [x33]) <> crc32 ([x31] ++ x34 :: [x33]).
Proof.
  split; [discriminate|apply (crc32_single_byte [x31] [x33] x32 x34); discriminate].
Defined.

End Checksum.

(** ** db/utils/uuid.ts *)

Module Uuid.
Import Bytes Text.

Definition UUID_SIZE : nat := 16.

(** [a[i] ?? 0] on a [Uint8Array]. *)
Definition byte_at (a : list byte) (i : nat) : Z :=
  match nth_error a i with
  | Some b => b2z b
  | None => 0
  end.

(** Assignment to a slot of a typed array; out of range it does nothing. *)
Fixpoint set_at (a : list byte) (i : nat) (v : byte) : list byte :=
  match a, i with
  | [], _ => []
  | _ :: t, O => v :: t
  | h :: t, S j => h :: set_at t j v
  end.

(** [generateUUID], from the 16 bytes [crypto.getRandomValues] delivered. *)
Definition generateUUID (random : list byte) : list byte :=
  let bytes := firstn UUID_SIZE (random ++ repeat x00 UUID_SIZE) in
  let bytes := set_at bytes 6 (z2b (Z.lor (Z.land (byte_at bytes 6) 0x0f) 0x40)) in
  set_at bytes 8 (z2b (Z.lor (Z.land (byte_at bytes 8) 0x3f) 0x80)).

Definition HEX_CHARS : jsstring := str "0123456789abcdef".

(** [HEX_CHARS[n] ?? "0"]. *)
Definition hex_char (n : Z) : Z := nth (Z.to_nat n) HEX_CHARS 0x30.

(** [HEX_LOOKUP[c] ?? 0]: the value of a hexadecimal digit of either case,
    0 for every other code. *)
Definition HEX_LOOKUP (c : Z) : Z :=
  if (0x30 <=? c) && (c <=? 0x39) then c - 0x30
  else if (0x61 <=? c) && (c <=? 0x66) then c - 0x61 + 10
  else if (0x41 <=? c) && (c <=? 0x46) then c - 0x41 + 10
  else 0.

Definition DASH : Z := 0x2d.

Definition uuidToString (bytes : list byte) : jsstring :=
  flat_map
    (fun i =>
       let byte := byte_at bytes i in
       (if (i =? 4)%nat || (i =? 6)%nat || (i =? 8)%nat || (i =? 10)%nat
        then [DASH] else [])
       ++ [hex_char (Z.shiftr byte 4); hex_char (Z.land byte 0x0f)])
    (seq 0 16).

(** The loop of [stringToUUID]: [s] is what is left of the string from
    index [i] on. *)
Fixpoint stringToUUID_loop (s : jsstring) (byteIndex : nat) (bytes : list byte)
  : list byte :=
  match s with
  | [] => bytes
  | c :: rest =>
      if (byteIndex <? 16)%nat then
        if c =? DASH then stringToUUID_loop rest byteIndex bytes
        else
          let high := HEX_LOOKUP c in
          match rest with
          | d :: rest' =>
              stringToUUID_loop rest' (S byteIndex)
                (set_at bytes byteIndex (z2b (Z.lor (Z.shiftl high 4) (HEX_LOOKUP d))))
          | [] =>
              (* [charCodeAt] past the end is NaN; the lookup misses *)
              set_at bytes byteIndex (z2b (Z.lor (Z.shiftl high 4) 0))
          end
      else bytes
  end.

Definition stringToUUID (s : jsstring) : list byte :=
  stringToUUID_loop s 0 (repeat x00 UUID_SIZE).

Fixpoint compareUUID_loop (remaining i : nat) (a b : list byte) : Z :=
  match remaining with
  | O => 0
  | S r =>
      let aVal := byte_at a i in
      let bVal := byte_at b i in
      if aVal =? bVal then compareUUID_loop r (S i) a b else aVal - bVal
  end.

Definition compareUUID (a b : list byte) : Z := compareUUID_loop UUID_SIZE 0 a b.

Definition sample_uuid : list byte :=
  [x12; x3e; x45; x67; xe8; x9b; x42; xd3; xa4; x56; x42; x66; x14; x17; x40; x00].

Example uuidToString_sample :
  uuidToString sample_uuid = str "123e4567-e89b-42d3-a456-426614174000".
Proof. reflexivity. Qed.

Example stringToUUID_sample :
  stringToUUID (str "123E4567-e89b-42d3-a456-426614174000") = sample_uuid.
Proof. reflexivity. Qed.

Example generateUUID_sample :
  uuidToString (generateUUID (repeat xff 16))
  = str "ffffffff-ffff-4fff-bfff-ffffffffffff".
Proof. reflexivity. Qed.

(** *** The string form of an identifier parses back *)

Lemma hex_digits_not_dash (b : byte) :
  (hex_char (Z.shiftr (b2z b) 4) =? DASH) = false.
Proof. destruct b; reflexivity. Qed.

Lemma hex_digits_value (b : byte) :
  z2b (Z.lor (Z.shiftl (HEX_LOOKUP (hex_char (Z.shiftr (b2z b) 4))) 4)
             (HEX_LOOKUP (hex_char (Z.land (b2z b) 0x0f)))) = b.
Proof. destruct b; reflexivity. Qed.

Lemma stringToUUID_loop_byte (b : byte) (rest : jsstring) (i : nat) (bytes : list byte) :
  (i < 16)%nat ->
  stringToUUID_loop
    (hex_char (Z.shiftr (b2z b) 4) :: hex_char (Z.land (b2z b) 0x0f) :: rest) i bytes
  = stringToUUID_loop rest (S i) (set_at bytes i b).
Proof.
  intros Hi. cbn [stringToUUID_loop].
  replace (i <? 16)%nat with true by (symmetry; apply Nat.ltb_lt; lia).
  now rewrite hex_digits_not_dash, hex_digits_value.
Qed.

Lemma stringToUUID_loop_dash (rest : jsstring) (i : nat) (bytes : list byte) :
  (i < 16)%nat ->
  stringToUUID_loop (DASH :: rest) i bytes = stringToUUID_loop rest i bytes.
Proof.
  intros Hi. cbn [stringToUUID_loop].
  replace (i <? 16)%nat with true by (symmetry; apply Nat.ltb_lt; lia).
  reflexivity.
Qed.

Ltac sixteen id :=
  repeat (let b := fresh "b" in destruct id as [|b id]; [discriminate|]);
  destruct id; [|discriminate].

Lemma stringToUUID_uuidToString (id : list byte) :
  length id = 16%nat -> stringToUUID (uuidToString id) = id.
Proof.
  intros L. sixteen id. clear L.
  unfold stringToUUID, uuidToString, UUID_SIZE.
  cbn [flat_map seq app orb Nat.eqb byte_at nth_error repeat].
  repeat first [ rewrite stringToUUID_loop_byte by lia
               | rewrite stringToUUID_loop_dash by lia ].
  reflexivity.
Qed.

Lemma generateUUID_length (random : list byte) :
  length (generateUUID random) = 16%nat.
Proof.
  assert (S : forall a i v, length (set_at a i v) = length a).
  { induction a as [|h t IH]; intros [|i] v; simpl; auto. }
  unfold generateUUID. rewrite !S, length_firstn, length_app, repeat_length.
  unfold UUID_SIZE. lia.
Qed.

(** *** The order on identifiers *)

Lemma be_value_inj (a b : list byte) :
  length a = length b -> be_value a = be_value b -> a = b.
Proof.
  revert b. induction a as [|x a IH]; intros [|y b] L E; try discriminate.
  - reflexivity.
  - simpl in L. injection L as L. rewrite !be_value_cons in E.
    pose proof (be_value_range a) as Ra. pose proof (be_value_range b) as Rb.
    pose proof (b2z_range x) as Rx. pose proof (b2z_range y) as Ry.
    rewrite L in E, Ra.
    assert (0 < 256 ^ Z.of_nat (length b)) by (apply Z.pow_pos_nonneg; lia).
    assert (b2z x = b2z y) by nia.
    f_equal; [now apply b2z_inj|apply IH; [assumption|nia]].
Qed.

Lemma byte_at_skipn (a : list byte) (i : nat) (x : byte) (t : list byte) :
  skipn i a = x :: t -> byte_at a i = b2z x /\ skipn (S i) a = t.
Proof.
  revert a. induction i as [|i IH]; intros [|h a] E; try discriminate.
  - injection E as -> ->. split; reflexivity.
  - cbn [skipn] in E. destruct (IH _ E) as [B S]. split; assumption.
Qed.

Lemma compareUUID_loop_spec (r i : nat) (a b : list byte) :
  length (skipn i a) = r -> length (skipn i b) = r ->
  (compareUUID_loop r i a b <= 0 <-> be_value (skipn i a) <= be_value (skipn i b))
  /\ (compareUUID_loop r i a b = 0 <-> skipn i a = skipn i b).
Proof.
  revert i. induction r as [|r IH]; intros i La Lb.
  - destruct (skipn i a); [|discriminate]. destruct (skipn i b); [|discriminate].
    simpl. unfold be_value. simpl. intuition lia.
  - destruct (skipn i a) as [|x ta] eqn:Ea; [discriminate|].
    destruct (skipn i b) as [|y tb] eqn:Eb; [discriminate|].
    destruct (byte_at_skipn _ _ _ _ Ea) as [Ba Sa].
    destruct (byte_at_skipn _ _ _ _ Eb) as [Bb Sb].
    simpl in La, Lb. injection La as La. injection Lb as Lb.
    cbn [compareUUID_loop]. rewrite Ba, Bb.
    rewrite !be_value_cons.
    pose proof (be_value_range ta) as Ra. pose proof (be_value_range tb) as Rb.
    pose proof (b2z_range x) as Rx. pose proof (b2z_range y) as Ry.
    rewrite La in Ra. rewrite Lb in Rb. rewrite La, Lb.
    assert (0 < 256 ^ Z.of_nat r) by (apply Z.pow_pos_nonneg; lia).
    destruct (Z.eqb_spec (b2z x) (b2z y)) as [E|NE].
    + destruct (IH (S i)) as [I1 I2]; [now rewrite Sa|now rewrite Sb|].
      rewrite Sa, Sb in I1, I2. rewrite E. apply b2z_inj in E. subst y.
      split.
      * rewrite I1. lia.
      * rewrite I2. split; [now intros ->|]. now intros [= ->].
    + split.
      * split; intros; nia.
      * split; [lia|]. intros [= -> _]. contradiction.
Qed.

(** On 16-byte identifiers [compareUUID] is the order, and the equality, of
    the 128-bit numbers they spell. *)
Lemma compareUUID_spec (a b : list byte) :
  length a = 16%nat -> length b = 16%nat ->
  (compareUUID a b <= 0 <-> be_value a <= be_value b)
  /\ (compareUUID a b = 0 <-> a = b).
Proof.
  intros La Lb. apply (compareUUID_loop_spec 16 0 a b); assumption.
Qed.


(** *** The canonical text form *)

Definition is_lower_hex (c : Z) : bool :=
  ((0x30 <=? c) && (c <=? 0x39)) || ((0x61 <=? c) && (c <=? 0x66)).

Definition is_hex (c : Z) : bool :=
  is_lower_hex c || ((0x41 <=? c) && (c <=? 0x46)).

Definition lower_hex (c : Z) : Z :=
  if (0x41 <=? c) && (c <=? 0x46) then c + 0x20 else c.

(** 8-4-4-4-12: 36 code units, dashes at 8, 13, 18 and 23, digits
    accepted by [digit] elsewhere. *)
Fixpoint canonical_from (digit : Z -> bool) (i : nat) (s : jsstring) : bool :=
  match s with
  | [] => (i =? 36)%nat
  | c :: rest =>
      (if (i =? 8)%nat || (i =? 13)%nat || (i =? 18)%nat || (i =? 23)%nat
       then c =? DASH else digit c)
      && canonical_from digit (S i) rest
  end.

Definition canonical (digit : Z -> bool) (s : jsstring) : bool :=
  canonical_from digit 0 s.

Lemma hex_char_lower (n : Z) : is_lower_hex (hex_char n) = true.
Proof.
  unfold hex_char.
  destruct (nth_in_or_default (Z.to_nat n) HEX_CHARS 0x30) as [I| ->]; [|reflexivity].
  revert I. generalize (nth (Z.to_nat n) HEX_CHARS 48). intros c I.
  repeat (destruct I as [<-|I]; [reflexivity|]). destruct I.
Qed.

(** X2.  Whatever bytes it is given (missing ones
    read as 0), [uuidToString] returns the canonical text form: 36 code
    units, dashes at 8, 13, 18 and 23, lower-case hexadecimal digits
    elsewhere. *)
Theorem uuidToString_canonical (bytes : list byte) :
  canonical is_lower_hex (uuidToString bytes) = true.
Proof.
  unfold canonical, uuidToString.
  cbn [flat_map seq app orb Nat.eqb canonical_from].
  rewrite !hex_char_lower. reflexivity.
Qed.

Lemma canonical_from_past (digit : Z -> bool) (s : jsstring) (i : nat) :
  (36 < i)%nat -> canonical_from digit i s = false.
Proof.
  revert i. induction s as [|c s IH]; intros i H; cbn [canonical_from].
  - apply Nat.eqb_neq. lia.
  - rewrite IH by lia. apply andb_false_r.
Qed.

Lemma is_hex_cases (c : Z) :
  is_hex c = true ->
  In c [0x30; 0x31; 0x32; 0x33; 0x34; 0x35; 0x36; 0x37; 0x38; 0x39;
        0x61; 0x62; 0x63; 0x64; 0x65; 0x66; 0x41; 0x42; 0x43; 0x44; 0x45; 0x46].
Proof.
  unfold is_hex, is_lower_hex. intros H.
  assert (R : 0x30 <= c <= 0x39 \/ 0x61 <= c <= 0x66 \/ 0x41 <= c <= 0x46).
  { destruct (Z.leb_spec 0x30 c), (Z.leb_spec c 0x39), (Z.leb_spec 0x61 c),
      (Z.leb_spec c 0x66), (Z.leb_spec 0x41 c), (Z.leb_spec c 0x46);
      cbn in H; try discriminate; lia. }
  cbn [In]. lia.
Qed.

Lemma hex_pair_normal (c d : Z) :
  is_hex c = true -> is_hex d = true ->
  let byte := b2z (z2b (Z.lor (Z.shiftl (HEX_LOOKUP c) 4) (HEX_LOOKUP d))) in
  hex_char (Z.shiftr byte 4) = lower_hex c
  /\ hex_char (Z.land byte 0x0f) = lower_hex d.
Proof.
  intros Hc Hd. apply is_hex_cases in Hc. apply is_hex_cases in Hd.
  cbn [In] in Hc, Hd.
  repeat (destruct Hc as [<-|Hc]; [|]); try contradiction;
    repeat (destruct Hd as [<-|Hd]; [|]); try contradiction;
    split; reflexivity.
Qed.

Lemma is_hex_not_dash (c : Z) : is_hex c = true -> (c =? DASH) = false.
Proof.
  intros H. apply is_hex_cases in H. cbn [In] in H.
  repeat (destruct H as [<-|H]; [reflexivity|]). destruct H.
Qed.

Lemma stringToUUID_loop_pair (c d : Z) (rest : jsstring) (i : nat) (bytes : list byte) :
  is_hex c = true -> (i < 16)%nat ->
  stringToUUID_loop (c :: d :: rest) i bytes
  = stringToUUID_loop rest (S i)
      (set_at bytes i (z2b (Z.lor (Z.shiftl (HEX_LOOKUP c) 4) (HEX_LOOKUP d)))).
Proof.
  intros Hc Hi. cbn [stringToUUID_loop].
  replace (i <? 16)%nat with true by (symmetry; apply Nat.ltb_lt; lia).
  now rewrite (is_hex_not_dash c Hc).
Qed.

Ltac peel H :=
  match type of H with
  | canonical_from _ _ ?s = true =>
      let c := fresh "c" in
      destruct s as [|c s]; cbn [canonical_from Nat.eqb orb] in H;
      [discriminate H|];
      let D := fresh "D" in
      apply andb_true_iff in H; destruct H as [D H]
  end.

(** X3.  Parsing a string in the 8-4-4-4-12
    form, digits of either case, and formatting the bytes again gives the
    string back with its digits in lower case. *)
Theorem uuidToString_stringToUUID (s : jsstring) :
  canonical is_hex s = true ->
  uuidToString (stringToUUID s) = map lower_hex s.
Proof.
  unfold canonical. intros H. do 36 peel H.
  destruct s as [|extra s].
  2:{ cbn [canonical_from] in H. rewrite canonical_from_past in H by lia.
      rewrite andb_false_r in H. discriminate. }
  clear H.
  repeat match goal with
  | D : (?c =? DASH) = true |- _ => apply Z.eqb_eq in D; subst c
  end.
  unfold stringToUUID, UUID_SIZE.
  repeat first [ rewrite stringToUUID_loop_pair by (assumption || lia)
               | rewrite stringToUUID_loop_dash by lia ].
  cbn [stringToUUID_loop repeat set_at].
  unfold uuidToString.
  cbn [flat_map seq app orb Nat.eqb byte_at nth_error map].
  repeat match goal with
  | Hc : is_hex ?c = true, Hd : is_hex ?d = true
    |- context [hex_char (Z.shiftr (b2z (z2b (Z.lor (Z.shiftl (HEX_LOOKUP ?c) 4) (HEX_LOOKUP ?d)))) 4)] =>
      destruct (hex_pair_normal c d Hc Hd) as [-> ->]
  end.
  reflexivity.
Qed.

Lemma uuidToString_stringToUUID_witness :
  canonical is_hex (str "123E4567-e89b-42d3-A456-426614174000") = true
  /\ uuidToString (stringToUUID (str "123E4567-e89b-42d3-A456-426614174000"))
     = str "123e4567-e89b-42d3-a456-426614174000".
Proof.
  split; [reflexivity|].
  apply (uuidToString_stringToUUID (str "123E4567-e89b-42d3-A456-426614174000")).
  reflexivity.
Defined.

(** *** Version and variant *)

Lemma byte_at_padded (random : list byte) (i : nat) :
  (i < 16)%nat ->
  byte_at (firstn UUID_SIZE (random ++ repeat x00 UUID_SIZE)) i = byte_at random i.
Proof.
  intros Hi. unfold byte_at, UUID_SIZE. rewrite nth_error_firstn.
  replace (i <? 16)%nat with true by (symmetry; apply Nat.ltb_lt; lia).
  destruct (Nat.lt_ge_cases i (length random)) as [L|G].
  - now rewrite nth_error_app1.
  - rewrite nth_error_app2 by assumption.
    rewrite (proj2 (nth_error_None random i)) by assumption.
    destruct (nth_error (repeat x00 16) (i - length random)) as [b|] eqn:E; [|reflexivity].
    apply nth_error_In, repeat_spec in E. now subst b.
Qed.

Lemma version_bits (b : byte) :
  let v := b2z (z2b (Z.lor (Z.land (b2z b) 0x0f) 0x40)) in
  Z.shiftr v 4 = 4 /\ Z.land v 0x0f = Z.land (b2z b) 0x0f.
Proof. destruct b; split; reflexivity. Qed.

Lemma variant_bits (b : byte) :
  let v := b2z (z2b (Z.lor (Z.land (b2z b) 0x3f) 0x80)) in
  Z.shiftr v 6 = 2 /\ Z.land v 0x3f = Z.land (b2z b) 0x3f.
Proof. destruct b; split; reflexivity. Qed.

(** X4.  [generateUUID] returns 16 bytes
    that are the random bytes drawn except for the version and variant
    fields: the high nibble of byte 6 is 4, the two high bits of byte 8
    are 10, and every other bit is as drawn. *)
Theorem generateUUID_version_variant (random : list byte) :
  length (generateUUID random) = 16%nat
  /\ Z.shiftr (byte_at (generateUUID random) 6) 4 = 4
  /\ Z.shiftr (byte_at (generateUUID random) 8) 6 = 2
  /\ Z.land (byte_at (generateUUID random) 6) 0x0f = Z.land (byte_at random 6) 0x0f
  /\ Z.land (byte_at (generateUUID random) 8) 0x3f = Z.land (byte_at random 8) 0x3f
  /\ forall i, (i < 16)%nat -> i <> 6%nat -> i <> 8%nat ->
       byte_at (generateUUID random) i = byte_at random i.
Proof.
  split; [apply generateUUID_length|].
  unfold generateUUID.
  pose proof (fun i => byte_at_padded random i) as P.
  assert (L : length (firstn UUID_SIZE (random ++ repeat x00 UUID_SIZE)) = 16%nat).
  { rewrite length_firstn, length_app, repeat_length. unfold UUID_SIZE. lia. }
  revert P L. generalize (firstn UUID_SIZE (random ++ repeat x00 UUID_SIZE)).
  intros bytes P L. sixteen bytes. clear L.
  rewrite <- (P 6%nat), <- (P 8%nat) by lia.
  cbn [set_at byte_at nth_error].
  destruct (version_bits b5) as [V1 V2]. destruct (variant_bits b7) as [W1 W2].
  repeat split; try assumption.
  intros i Hi N6 N8. rewrite <- (P i Hi).
  do 16 (destruct i as [|i]; [first [reflexivity|contradiction]|]). lia.
Qed.

(** *** The order on identifiers *)

(** X5.  On 16-byte identifiers [compareUUID] is the
    order of the identifiers read as big-endian 128-bit numbers: negative,
    zero or positive as the first is below, equal to or above the
    second, and zero only for equal identifiers. *)
Theorem compareUUID_order (a b : list byte) :
  length a = 16%nat -> length b = 16%nat ->
  (compareUUID a b < 0 <-> be_value a < be_value b)
  /\ (compareUUID a b = 0 <-> a = b)
  /\ (compareUUID a b > 0 <-> be_value a > be_value b).
Proof.
  intros La Lb. destruct (compareUUID_spec a b La Lb) as [Le Eq].
  assert (I : be_value a = be_value b -> a = b).
  { apply be_value_inj. congruence. }
  assert (E : a = b -> be_value a = be_value b) by congruence.
  repeat split; intros H.
  - destruct (Z.eq_dec (be_value a) (be_value b)) as [X|X]; [|lia].
    apply I, Eq in X. lia.
  - destruct (Z.eq_dec (compareUUID a b) 0) as [X|X]; [|lia].
    apply Eq, E in X. lia.
  - now apply Eq.
  - now apply Eq.
  - lia.
  - lia.
Qed.

Lemma compareUUID_order_witness :
  length sample_uuid = 16%nat /\ length (generateUUID (repeat xff 16)) = 16%nat
  /\ (compareUUID sample_uuid (generateUUID (repeat xff 16)) < 0
      <-> be_value sample_uuid < be_value (generateUUID (repeat xff 16))).
Proof.
  split; [reflexivity|]. split; [reflexivity|].
  apply (compareUUID_order sample_uuid (generateUUID (repeat xff 16)));
    reflexivity.
Defined.

(** X6.  A 16-byte identifier formatted by
    [uuidToString] and parsed by [stringToUUID] is the identifier again. *)
Theorem uuid_string_roundtrip (id : list byte) :
  length id = 16%nat -> stringToUUID (uuidToString id) = id.
Proof. exact (stringToUUID_uuidToString id). Qed.

Lemma uuid_string_roundtrip_witness :
  length sample_uuid = 16%nat
  /\ stringToUUID (uuidToString sample_uuid) = sample_uuid.
Proof.
  split; [reflexivity|apply (uuid_string_roundtrip sample_uuid); reflexivity].
Defined.

End Uuid.

(** ** db/core/types.ts, db/core/encoder.ts, db/core/decoder.ts *)

Module Codec.
Import Bytes Text.

Module BinaryType.
Definition NULL : Z := 0x00.
Definition UNDEFINED : Z := 0x01.
Definition TRUE : Z := 0x02.
Definition FALSE : Z := 0x03.
Definition INT8 : Z := 0x10.
Definition INT16 : Z := 0x11.
Definition INT32 : Z := 0x12.
Definition INT64 : Z := 0x13.
Definition UINT8 : Z := 0x14.
Definition UINT16 : Z := 0x15.
Definition UINT32 : Z := 0x16.
Definition UINT64 : Z := 0x17.
Definition FLOAT32 : Z := 0x20.
Definition FLOAT64 : Z := 0x21.
Definition STRING : Z := 0x30.
Definition BINARY : Z := 0x31.
Definition ARRAY : Z := 0x40.
Definition OBJECT : Z := 0x50.
Definition DATE : Z := 0x60.
Definition UUID : Z := 0x70.
End BinaryType.

Definition MAX_VARINT_1 : Z := 0x7f.
Definition MAX_VARINT_2 : Z := 0x3fff.
Definition MAX_VARINT_4 : Z := 0x1fffffff.

(** The JavaScript values the encoder is handed.  A [Date] carries its time
    value, [None] for an invalid date (time value NaN).  An object is the
    list of its own enumerable string-keyed properties in [Object.keys]
    order; functions and symbols stand for the values [encodeValue]
    rejects. *)
Local Unset Elimination Schemes.
Inductive value : Type :=
| VNull
| VUndefined
| VBool (b : bool)
| VNumber (n : Num.number)
| VBigInt (z : Z)
| VString (s : jsstring)
| VBinary (bytes : list byte)
| VDate (time : option Z)
| VArray (items : list value)
| VObject (props : list (jsstring * value))
| VFunction
| VSymbol.
Local Set Elimination Schemes.

(** *** BinaryEncoder

    The encoder's state is the written part of its buffer,
    [bytes.subarray(0, offset)]; growing the buffer does not change it. *)

Definition encoder : Type := list byte.

Definition writeUint8 (value : Z) (e : encoder) : encoder := e ++ [z2b value].
Definition writeUint16 (value : Z) (e : encoder) : encoder := e ++ be_bytes 2 value.
Definition writeUint32 (value : Z) (e : encoder) : encoder := e ++ be_bytes 4 value.
Definition writeUint64 (value : Z) (e : encoder) : encoder := e ++ be_bytes 8 value.

Definition writeInt8 (value : Num.number) (e : encoder) : encoder :=
  e ++ be_bytes 1 (Num.truncate value).
Definition writeInt16 (value : Num.number) (e : encoder) : encoder :=
  e ++ be_bytes 2 (Num.truncate value).
Definition writeInt32 (value : Num.number) (e : encoder) : encoder :=
  e ++ be_bytes 4 (Num.truncate value).
Definition writeInt64 (value : Z) (e : encoder) : encoder := e ++ be_bytes 8 value.

Definition writeFloat32 (value : Num.number) (e : encoder) : encoder :=
  e ++ be_bytes 4 (Num.toFloat32 value).
Definition writeFloat64 (value : Num.number) (e : encoder) : encoder :=
  e ++ be_bytes 8 (Num.toFloat64 value).

Definition writeVarint (value : Z) (e : encoder) : result encoder :=
  if value <=? MAX_VARINT_1 then Ok (e ++ [z2b value])
  else if value <=? MAX_VARINT_2 then
    Ok (e ++ [z2b (Z.lor 0x80 (Z.shiftr value 8)); z2b (Z.land value 0xff)])
  else if value <=? MAX_VARINT_4 then
    Ok (e ++ [z2b (Z.lor 0xc0 (Z.shiftr value 24));
              z2b (Z.land (Z.shiftr value 16) 0xff);
              z2b (Z.land (Z.shiftr value 8) 0xff);
              z2b (Z.land value 0xff)])
  else Err VarintTooLarge.

Definition writeBytes (data : list byte) (e : encoder) : encoder := e ++ data.

(** The comparisons of [encodeNumber] are made on an integer-valued number;
    they are written on its integer value. *)
Definition encodeNumber (value : Num.number) (e : encoder) : encoder :=
  if Num.isInteger value then
    let i := Num.truncate value in
    if (-128 <=? i) && (i <=? 127) then
      writeInt8 value (writeUint8 BinaryType.INT8 e)
    else if (-32768 <=? i) && (i <=? 32767) then
      writeInt16 value (writeUint8 BinaryType.INT16 e)
    else if (-2147483648 <=? i) && (i <=? 2147483647) then
      writeInt32 value (writeUint8 BinaryType.INT32 e)
    else
      writeFloat64 value (writeUint8 BinaryType.FLOAT64 e)
  else
    let float32 := Num.fround value in
    if Num.strict_eq float32 value then
      writeFloat32 value (writeUint8 BinaryType.FLOAT32 e)
    else
      writeFloat64 value (writeUint8 BinaryType.FLOAT64 e).

Definition encodeBigInt (value : Z) (e : encoder) : encoder :=
  if 0 <=? value then writeUint64 value (writeUint8 BinaryType.UINT64 e)
  else writeInt64 value (writeUint8 BinaryType.INT64 e).

Definition encodeString (value : jsstring) (e : encoder) : result encoder :=
  let encoded := TextEncoder_encode value in
  e1 <- writeVarint (Z.of_nat (length encoded)) (writeUint8 BinaryType.STRING e) ;;
  Ok (writeBytes encoded e1).

Definition encodeBinary (value : list byte) (e : encoder) : result encoder :=
  e1 <- writeVarint (Z.of_nat (length value)) (writeUint8 BinaryType.BINARY e) ;;
  Ok (writeBytes value e1).

(** [BigInt(value.getTime())] throws a RangeError on an invalid date. *)
Definition encodeDate (time : option Z) (e : encoder) : result encoder :=
  match time with
  | Some t => Ok (writeInt64 t (writeUint8 BinaryType.DATE e))
  | None => Err RangeError
  end.

Fixpoint encodeValue (v : value) (e : encoder) {struct v} : result encoder :=
  match v with
  | VNull => Ok (writeUint8 BinaryType.NULL e)
  | VUndefined => Ok (writeUint8 BinaryType.UNDEFINED e)
  | VBool b => Ok (writeUint8 (if b then BinaryType.TRUE else BinaryType.FALSE) e)
  | VNumber n => Ok (encodeNumber n e)
  | VBigInt z => Ok (encodeBigInt z e)
  | VString s => encodeString s e
  | VBinary bytes => encodeBinary bytes e
  | VDate time => encodeDate time e
  | VArray items =>
      (* encodeArray *)
      e1 <- writeVarint (Z.of_nat (length items)) (writeUint8 BinaryType.ARRAY e) ;;
      (fix each (l : list value) (e : encoder) {struct l} : result encoder :=
         match l with
         | [] => Ok e
         | x :: l' => e' <- encodeValue x e ;; each l' e'
         end) items e1
  | VObject props =>
      (* encodeObject *)
      e1 <- writeVarint (Z.of_nat (length props)) (writeUint8 BinaryType.OBJECT e) ;;
      (fix each (l : list (jsstring * value)) (e : encoder) {struct l}
         : result encoder :=
         match l with
         | [] => Ok e
         | (key, x) :: l' =>
             e' <- encodeString key e ;;
             e'' <- encodeValue x e' ;;
             each l' e''
         end) props e1
  | VFunction | VSymbol => Err UnsupportedType
  end.

Definition encodeUUID (value : list byte) (e : encoder) : result encoder :=
  if negb (length value =? Uuid.UUID_SIZE)%nat then Err UuidLength
  else Ok (writeBytes value (writeUint8 BinaryType.UUID e)).

(** [encode(value)]: a fresh encoder, then [getBuffer().slice()]. *)
Definition encode (v : value) : result (list byte) := encodeValue v [].

(** *** BinaryDecoder *)

Record decoder : Type := { buffer : list byte; offset : nat }.

Definition at_offset (d : decoder) (o : nat) : decoder :=
  {| buffer := buffer d; offset := o |}.

Definition hasMore (d : decoder) : bool := (offset d <? length (buffer d))%nat.

(** The [n] bytes at the offset, when they are all inside the buffer. *)
Definition take (n : nat) (d : decoder) : result (list byte * decoder) :=
  if (length (buffer d) <? offset d + n)%nat then Err BufferUnderflow
  else Ok (slice (buffer d) (offset d) (offset d + n), at_offset d (offset d + n)).

Definition readUint8 (d : decoder) : result (Z * decoder) :=
  if (length (buffer d) <=? offset d)%nat then Err BufferUnderflow
  else Ok (Uuid.byte_at (buffer d) (offset d), at_offset d (offset d + 1)).

Definition readUint (n : nat) (d : decoder) : result (Z * decoder) :=
  '(bs, d') <- take n d ;; Ok (be_value bs, d').

Definition readInt (n : nat) (d : decoder) : result (Z * decoder) :=
  '(bs, d') <- take n d ;; Ok (to_signed (8 * Z.of_nat n) (be_value bs), d').

Definition readUint16 := readUint 2.
Definition readUint32 := readUint 4.
Definition readUint64 := readUint 8.

Definition readInt8 (d : decoder) : result (Z * decoder) :=
  if (length (buffer d) <=? offset d)%nat then Err BufferUnderflow
  else Ok (to_signed 8 (Uuid.byte_at (buffer d) (offset d)), at_offset d (offset d + 1)).
Definition readInt16 := readInt 2.
Definition readInt32 := readInt 4.
Definition readInt64 := readInt 8.

Definition readFloat32 (d : decoder) : result (Num.number * decoder) :=
  '(bs, d') <- take 4 d ;; Ok (Num.fromFloat32 (be_value bs), d').

Definition readFloat64 (d : decoder) : result (Num.number * decoder) :=
  '(bs, d') <- take 8 d ;; Ok (Num.fromFloat64 (be_value bs), d').

Definition readVarint (d : decoder) : result (Z * decoder) :=
  '(first, d) <- readUint8 d ;;
  if Z.land first 0x80 =? 0 then Ok (first, d)
  else if Z.land first 0xc0 =? 0x80 then
    '(second, d) <- readUint8 d ;;
    Ok (Z.lor (Z.shiftl (Z.land first 0x3f) 8) second, d)
  else if Z.land first 0xe0 =? 0xc0 then
    '(b1, d) <- readUint8 d ;;
    '(b2, d) <- readUint8 d ;;
    '(b3, d) <- readUint8 d ;;
    Ok (Z.lor (Z.lor (Z.lor (Z.shiftl (Z.land first 0x1f) 24) (Z.shiftl b1 16))
                     (Z.shiftl b2 8)) b3, d)
  else Err InvalidVarint.

Definition readBytes (len : Z) (d : decoder) : result (list byte * decoder) :=
  take (Z.to_nat len) d.

Definition decodeString (d : decoder) : result (jsstring * decoder) :=
  '(len, d) <- readVarint d ;;
  '(bytes, d) <- readBytes len d ;;
  Ok (TextDecoder_decode bytes, d).

Definition decodeBinary (d : decoder) : result (list byte * decoder) :=
  '(len, d) <- readVarint d ;;
  readBytes len d.

(** [new Date(Number(timestamp))]: a time value beyond 8.64e15 ms in
    magnitude gives an invalid date. *)
Definition decodeDate (d : decoder) : result (option Z * decoder) :=
  '(timestamp, d) <- readInt64 d ;;
  Ok (if Z.abs timestamp <=? 8640000000000000 then Some timestamp else None, d).

Definition decodeUUID (d : decoder) : result (list byte * decoder) :=
  take Uuid.UUID_SIZE d.

Definition jsstring_eqb (a b : jsstring) : bool :=
  if list_eq_dec Z.eq_dec a b then true else false.

(** [result[key] = value] on the plain object under construction: an
    existing property keeps its place, a new one is appended; the key
    "__proto__" reaches the prototype setter and creates no own property. *)
Fixpoint assign (props : list (jsstring * value)) (key : jsstring) (v : value)
  : list (jsstring * value) :=
  match props with
  | [] => [(key, v)]
  | (k, x) :: rest =>
      if jsstring_eqb k key then (k, v) :: rest else (k, x) :: assign rest key v
  end.

Definition set_property (props : list (jsstring * value)) (key : jsstring) (v : value)
  : list (jsstring * value) :=
  if jsstring_eqb key (str "__proto__") then props else assign props key v.

Section Loops.
(** The loops of [decodeArray] and [decodeObject], over the recursive call. *)
Variable decodeValue : decoder -> result (value * decoder).

Fixpoint decodeArray_loop (n : nat) (d : decoder) : result (list value * decoder) :=
  match n with
  | O => Ok ([], d)
  | S n' =>
      '(v, d) <- decodeValue d ;;
      '(vs, d) <- decodeArray_loop n' d ;;
      Ok (v :: vs, d)
  end.

Fixpoint decodeObject_loop (n : nat) (obj : list (jsstring * value)) (d : decoder)
  : result (list (jsstring * value) * decoder) :=
  match n with
  | O => Ok (obj, d)
  | S n' =>
      '(keyType, d) <- readUint8 d ;;
      if negb (keyType =? BinaryType.STRING) then Err ObjectKeyNotString
      else
        '(key, d) <- decodeString d ;;
        '(v, d) <- decodeValue d ;;
        decodeObject_loop n' (set_property obj key v) d
  end.
End Loops.

(** [decodeValue]; the recursion is bounded by [fuel], one unit per nesting
    level. *)
Fixpoint decodeValue (fuel : nat) (d : decoder) : result (value * decoder) :=
  match fuel with
  | O => Err OutOfFuel
  | S fuel' =>
      '(type, d) <- readUint8 d ;;
      if type =? BinaryType.NULL then Ok (VNull, d)
      else if type =? BinaryType.UNDEFINED then Ok (VUndefined, d)
      else if type =? BinaryType.TRUE then Ok (VBool true, d)
      else if type =? BinaryType.FALSE then Ok (VBool false, d)
      else if type =? BinaryType.INT8 then
        '(z, d) <- readInt8 d ;; Ok (VNumber (Num.ofZ z), d)
      else if type =? BinaryType.INT16 then
        '(z, d) <- readInt16 d ;; Ok (VNumber (Num.ofZ z), d)
      else if type =? BinaryType.INT32 then
        '(z, d) <- readInt32 d ;; Ok (VNumber (Num.ofZ z), d)
      else if type =? BinaryType.INT64 then
        '(z, d) <- readInt64 d ;; Ok (VBigInt z, d)
      else if type =? BinaryType.UINT8 then
        '(z, d) <- readUint8 d ;; Ok (VNumber (Num.ofZ z), d)
      else if type =? BinaryType.UINT16 then
        '(z, d) <- readUint16 d ;; Ok (VNumber (Num.ofZ z), d)
      else if type =? BinaryType.UINT32 then
        '(z, d) <- readUint32 d ;; Ok (VNumber (Num.ofZ z), d)
      else if type =? BinaryType.UINT64 then
        '(z, d) <- readUint64 d ;; Ok (VBigInt z, d)
      else if type =? BinaryType.FLOAT32 then
        '(x, d) <- readFloat32 d ;; Ok (VNumber x, d)
      else if type =? BinaryType.FLOAT64 then
        '(x, d) <- readFloat64 d ;; Ok (VNumber x, d)
      else if type =? BinaryType.STRING then
        '(s, d) <- decodeString d ;; Ok (VString s, d)
      else if type =? BinaryType.BINARY then
        '(bs, d) <- decodeBinary d ;; Ok (VBinary bs, d)
      else if type =? BinaryType.ARRAY then
        (* decodeArray *)
        '(len, d) <- readVarint d ;;
        '(items, d) <- decodeArray_loop (decodeValue fuel') (Z.to_nat len) d ;;
        Ok (VArray items, d)
      else if type =? BinaryType.OBJECT then
        (* decodeObject *)
        '(len, d) <- readVarint d ;;
        '(props, d) <- decodeObject_loop (decodeValue fuel') (Z.to_nat len) [] d ;;
        Ok (VObject props, d)
      else if type =? BinaryType.DATE then
        '(t, d) <- decodeDate d ;; Ok (VDate t, d)
      else if type =? BinaryType.UUID then
        '(bs, d) <- decodeUUID d ;; Ok (VBinary bs, d)
      else Err (UnknownType type)
  end.

(** Every level of nesting consumes its tag byte, so the buffer's length
    bounds the depth. *)
Definition decoder_fuel (buf : list byte) : nat := S (length buf).

(** [new BinaryDecoder(buffer).decodeValue()]. *)
Definition decodeBuffer (buf : list byte) : result (value * decoder) :=
  decodeValue (decoder_fuel buf) {| buffer := buf; offset := 0 |}.

(** [decode(buffer)]. *)
Definition decode (buf : list byte) : result value :=
  '(v, _) <- decodeBuffer buf ;; Ok v.

(** [decode(encode(value))]. *)
Definition roundtrip (v : value) : result value :=
  buf <- encode v ;; decode buf.

(** *** Examples from the test-suite of the repository *)

Example encode_small_object :
  encode (VObject [(str "a", VNumber (Num.ofZ 1)); (str "b", VNumber (Num.ofZ 300))])
  = Ok [x50; x02; x30; x01; x61; x10; x01; x30; x01; x62; x11; x01; x2c].
Proof. reflexivity. Qed.

Example roundtrip_integers :
  map (fun z => roundtrip (VNumber (Num.ofZ z)))
      [0; 127; -128; 32767; -32768; 2147483647; -2147483648]
  = map (fun z => Ok (VNumber (Num.ofZ z)))
      [0; 127; -128; 32767; -32768; 2147483647; -2147483648].
Proof. reflexivity. Qed.

Example roundtrip_floats :
  roundtrip (VNumber Num.one_and_a_half) = Ok (VNumber Num.one_and_a_half)
  /\ roundtrip (VNumber Num.one_tenth) = Ok (VNumber Num.one_tenth)
  /\ encode (VNumber Num.one_and_a_half) = Ok [x20; x3f; xc0; x00; x00].
Proof. repeat split. Qed.

Example roundtrip_bigints :
  roundtrip (VBigInt 9007199254740993) = Ok (VBigInt 9007199254740993)
  /\ roundtrip (VBigInt (-9007199254740993)) = Ok (VBigInt (-9007199254740993)).
Proof. split; reflexivity. Qed.

Example roundtrip_mixed_array :
  let v := VArray [VNumber (Num.ofZ 1); VString (str "two"); VBool true; VNull] in
  roundtrip v = Ok v.
Proof. reflexivity. Qed.

Example roundtrip_nested_object :
  let v := VObject [(str "nested",
             VObject [(str "deep", VObject [(str "value", VNumber (Num.ofZ 42))])])] in
  roundtrip v = Ok v.
Proof. reflexivity. Qed.

Example roundtrip_date :
  roundtrip (VDate (Some 1768996800000)) = Ok (VDate (Some 1768996800000)).
Proof. reflexivity. Qed.

Example encode_function : encode VFunction = Err UnsupportedType.
Proof. reflexivity. Qed.


(** *** The supported set

    The values on which decoding undoes encoding: doubles other than
    negative zero, bigints of the 64-bit wire range, surviving strings,
    valid dates, lengths a varint can carry, objects without a "__proto__"
    key. *)

Definition fits_varint (n : nat) : bool := Z.of_nat n <=? MAX_VARINT_4.

Definition string_ok (s : jsstring) : bool :=
  survives s && fits_varint (length (TextEncoder_encode s)).

Definition is_negative_zero (n : Num.number) : bool :=
  match n with
  | S754_zero true => true
  | _ => false
  end.

Fixpoint distinct (keys : list jsstring) : bool :=
  match keys with
  | [] => true
  | k :: rest => negb (existsb (jsstring_eqb k) rest) && distinct rest
  end.

Fixpoint supported (v : value) : bool :=
  match v with
  | VNull | VUndefined | VBool _ => true
  | VNumber n => Num.is_double n && negb (is_negative_zero n)
  | VBigInt z => (- 2 ^ 63 <=? z) && (z <? 2 ^ 64)
  | VString s => string_ok s
  | VBinary bytes => fits_varint (length bytes)
  | VDate (Some t) => Z.abs t <=? 8640000000000000
  | VDate None => false
  | VArray items => fits_varint (length items) && forallb supported items
  | VObject props =>
      fits_varint (length props)
      && distinct (map fst props)
      && negb (existsb (jsstring_eqb (str "__proto__")) (map fst props))
      && forallb (fun '(key, x) => string_ok key && supported x) props
  | VFunction | VSymbol => false
  end.

(** The two loops of [encodeValue], named. *)
Fixpoint encodeArray_loop (l : list value) (e : encoder) : result encoder :=
  match l with
  | [] => Ok e
  | x :: l' => e' <- encodeValue x e ;; encodeArray_loop l' e'
  end.

Fixpoint encodeObject_loop (l : list (jsstring * value)) (e : encoder) : result encoder :=
  match l with
  | [] => Ok e
  | (key, x) :: l' =>
      e' <- encodeString key e ;;
      e'' <- encodeValue x e' ;;
      encodeObject_loop l' e''
  end.

Lemma encodeValue_array (items : list value) (e : encoder) :
  encodeValue (VArray items) e =
  (e1 <- writeVarint (Z.of_nat (length items)) (writeUint8 BinaryType.ARRAY e) ;;
   encodeArray_loop items e1).
Proof. reflexivity. Qed.

Lemma encodeValue_object (props : list (jsstring * value)) (e : encoder) :
  encodeValue (VObject props) e =
  (e1 <- writeVarint (Z.of_nat (length props)) (writeUint8 BinaryType.OBJECT e) ;;
   encodeObject_loop props e1).
Proof. reflexivity. Qed.

(** Induction over values, through arrays and objects. *)
Section ValueInd.
Variable P : value -> Prop.
Hypothesis Hnull : P VNull.
Hypothesis Hundef : P VUndefined.
Hypothesis Hbool : forall b, P (VBool b).
Hypothesis Hnumber : forall n, P (VNumber n).
Hypothesis Hbigint : forall z, P (VBigInt z).
Hypothesis Hstring : forall s, P (VString s).
Hypothesis Hbinary : forall bs, P (VBinary bs).
Hypothesis Hdate : forall t, P (VDate t).
Hypothesis Harray : forall items, Forall P items -> P (VArray items).
Hypothesis Hobject :
  forall props, Forall (fun kv => P (snd kv)) props -> P (VObject props).
Hypothesis Hfunction : P VFunction.
Hypothesis Hsymbol : P VSymbol.

Fixpoint value_ind (v : value) : P v :=
  match v with
  | VNull => Hnull
  | VUndefined => Hundef
  | VBool b => Hbool b
  | VNumber n => Hnumber n
  | VBigInt z => Hbigint z
  | VString s => Hstring s
  | VBinary bs => Hbinary bs
  | VDate t => Hdate t
  | VArray items =>
      Harray items
        ((fix all (l : list value) : Forall P l :=
            match l with
            | [] => Forall_nil P
            | x :: l' => Forall_cons x (value_ind x) (all l')
            end) items)
  | VObject props =>
      Hobject props
        ((fix all (l : list (jsstring * value))
            : Forall (fun kv => P (snd kv)) l :=
            match l with
            | [] => Forall_nil _
            | (k, x) :: l' =>
                Forall_cons (P := fun kv => P (snd kv)) (k, x) (value_ind x) (all l')
            end) props)
  | VFunction => Hfunction
  | VSymbol => Hsymbol
  end.
End ValueInd.

(** *** What a decoder has in front of it *)

Definition sees (d : decoder) (l : list byte) : Prop :=
  (offset d <= length (buffer d))%nat /\ skipn (offset d) (buffer d) = l.

Definition skip (n : nat) (d : decoder) : decoder := at_offset d (offset d + n).

Lemma sees_length (d : decoder) (l : list byte) :
  sees d l -> length (buffer d) = (offset d + length l)%nat.
Proof.
  intros [Ho Hs]. rewrite <- Hs, length_skipn. lia.
Qed.

Lemma sees_skip (d : decoder) (bs tl : list byte) :
  sees d (bs ++ tl) -> sees (skip (length bs) d) tl.
Proof.
  intros H. pose proof (sees_length _ _ H) as L. destruct H as [Ho Hs].
  rewrite length_app in L.
  unfold sees, skip, at_offset. cbn [offset buffer]. split; [lia|].
  rewrite Nat.add_comm, <- skipn_skipn, Hs.
  rewrite skipn_app, skipn_all, Nat.sub_diag. reflexivity.
Qed.

Lemma skip_skip (n m : nat) (d : decoder) : skip m (skip n d) = skip (n + m) d.
Proof.
  unfold skip, at_offset. cbn [offset buffer]. f_equal. lia.
Qed.

Lemma skip_0 (d : decoder) : skip 0 d = d.
Proof.
  destruct d as [b o]. unfold skip, at_offset. cbn [offset buffer].
  f_equal. lia.
Qed.

Lemma take_sees (d : decoder) (bs tl : list byte) :
  sees d (bs ++ tl) -> take (length bs) d = Ok (bs, skip (length bs) d).
Proof.
  intros H. pose proof (sees_length _ _ H) as L. destruct H as [Ho Hs].
  rewrite length_app in L. unfold take.
  replace (length (buffer d) <? offset d + length bs)%nat with false
    by (symmetry; apply Nat.ltb_ge; lia).
  unfold slice. rewrite Hs.
  replace (offset d + length bs - offset d)%nat with (length bs) by lia.
  rewrite firstn_app, firstn_all, Nat.sub_diag. cbn [firstn].
  now rewrite app_nil_r.
Qed.

Lemma readUint8_sees (d : decoder) (b : byte) (tl : list byte) :
  sees d (b :: tl) -> readUint8 d = Ok (b2z b, skip 1 d).
Proof.
  intros H. pose proof (sees_length _ _ H) as L. destruct H as [Ho Hs].
  simpl in L. unfold readUint8.
  replace (length (buffer d) <=? offset d)%nat with false
    by (symmetry; apply Nat.leb_gt; lia).
  destruct (Uuid.byte_at_skipn _ _ _ _ Hs) as [B _]. now rewrite B.
Qed.

Lemma readInt8_sees (d : decoder) (b : byte) (tl : list byte) :
  sees d (b :: tl) -> readInt8 d = Ok (to_signed 8 (b2z b), skip 1 d).
Proof.
  intros H. pose proof (sees_length _ _ H) as L. destruct H as [Ho Hs].
  simpl in L. unfold readInt8.
  replace (length (buffer d) <=? offset d)%nat with false
    by (symmetry; apply Nat.leb_gt; lia).
  destruct (Uuid.byte_at_skipn _ _ _ _ Hs) as [B _]. now rewrite B.
Qed.


Lemma Ok_skip {A : Type} (v : A) (n m : nat) (d : decoder) :
  n = m -> Ok (v, skip n d) = Ok (v, skip m d).
Proof. now intros ->. Qed.

Ltac lengths := repeat (rewrite length_app || cbn [length app]); lia.

Lemma sees_cons (d : decoder) (b : byte) (tl : list byte) :
  sees d (b :: tl) -> sees (skip 1 d) tl.
Proof. intros H. now apply (sees_skip d [b] tl). Qed.

Ltac read_byte S :=
  cbn [app] in S; rewrite (readUint8_sees _ _ _ S); cbn [bind];
  apply sees_cons in S.

(** *** Bit operations as arithmetic *)

Lemma lor_add_low (a r k : Z) :
  0 <= k -> 0 <= r < 2 ^ k -> Z.lor (a * 2 ^ k) r = a * 2 ^ k + r.
Proof.
  intros Hk Hr. rewrite <- Z.add_lor_land.
  assert (E : Z.land (a * 2 ^ k) r = 0).
  { apply Z.bits_inj'. intros i Hi.
    rewrite Z.land_spec, Z.bits_0.
    destruct (Z.lt_ge_cases i k) as [Lt|Ge].
    - rewrite Z.mul_pow2_bits_low by lia. reflexivity.
    - destruct (Z.eq_dec r 0) as [->|NZ].
      + rewrite Z.bits_0. apply andb_false_r.
      + rewrite (Z.bits_above_log2 r i); [apply andb_false_r|lia|].
        apply Z.log2_lt_pow2; [lia|].
        apply Z.lt_le_trans with (2 ^ k); [lia|].
        apply Z.pow_le_mono_r; lia. }
  rewrite E. lia.
Qed.

(** A property of the integers below [n], checked by evaluation. *)
Lemma range_check (P : Z -> bool) (n : nat) :
  forallb P (map Z.of_nat (seq 0 n)) = true ->
  forall x, 0 <= x < Z.of_nat n -> P x = true.
Proof.
  intros H x Hx. rewrite forallb_forall in H. apply H.
  apply in_map_iff. exists (Z.to_nat x). split; [lia|].
  apply in_seq. lia.
Qed.

Lemma lead_bits_1 (x : Z) :
  0 <= x < 128 -> (Z.land x 0x80 =? 0) = true.
Proof.
  intros H. apply (range_check (fun x => Z.land x 0x80 =? 0) 128); [reflexivity|lia].
Qed.

Lemma lead_bits_2 (q : Z) :
  0 <= q < 64 ->
  Z.lor 0x80 q = 0x80 + q
  /\ (Z.land (0x80 + q) 0x80 =? 0) = false
  /\ (Z.land (0x80 + q) 0xc0 =? 0x80) = true
  /\ Z.land (0x80 + q) 0x3f = q.
Proof.
  intros H.
  pose proof (range_check
    (fun q => (Z.lor 0x80 q =? 0x80 + q)
              && negb (Z.land (0x80 + q) 0x80 =? 0)
              && (Z.land (0x80 + q) 0xc0 =? 0x80)
              && (Z.land (0x80 + q) 0x3f =? q)) 64 eq_refl q ltac:(lia)) as C.
  cbv beta in C.
  repeat (apply andb_true_iff in C as [C ?]).
  repeat split;
    try (apply Z.eqb_eq; assumption); try (apply negb_true_iff; assumption);
    assumption.
Qed.

Lemma lead_bits_4 (q : Z) :
  0 <= q < 32 ->
  Z.lor 0xc0 q = 0xc0 + q
  /\ (Z.land (0xc0 + q) 0x80 =? 0) = false
  /\ (Z.land (0xc0 + q) 0xc0 =? 0x80) = false
  /\ (Z.land (0xc0 + q) 0xe0 =? 0xc0) = true
  /\ Z.land (0xc0 + q) 0x1f = q.
Proof.
  intros H.
  pose proof (range_check
    (fun q => (Z.lor 0xc0 q =? 0xc0 + q)
              && negb (Z.land (0xc0 + q) 0x80 =? 0)
              && negb (Z.land (0xc0 + q) 0xc0 =? 0x80)
              && (Z.land (0xc0 + q) 0xe0 =? 0xc0)
              && (Z.land (0xc0 + q) 0x1f =? q)) 32 eq_refl q ltac:(lia)) as C.
  cbv beta in C.
  repeat (apply andb_true_iff in C as [C ?]).
  repeat split;
    try (apply Z.eqb_eq; assumption); try (apply negb_true_iff; assumption);
    assumption.
Qed.

(** *** Length prefixes *)

Lemma varint_roundtrip (n : Z) :
  0 <= n <= MAX_VARINT_4 ->
  exists bs,
    (forall e, writeVarint n e = Ok (e ++ bs))
    /\ forall d tl, sees d (bs ++ tl) ->
         readVarint d = Ok (n, skip (length bs) d).
Proof.
  unfold MAX_VARINT_4. intros Hn. unfold writeVarint, MAX_VARINT_1, MAX_VARINT_2, MAX_VARINT_4.
  destruct (Z.leb_spec n 0x7f) as [H1|H1];
    [|destruct (Z.leb_spec n 0x3fff) as [H2|H2];
      [|destruct (Z.leb_spec n 0x1fffffff) as [H3|H3]; [|lia]]].
  - exists [z2b n]. split; [reflexivity|].
    intros d tl S. unfold readVarint. read_byte S.
    rewrite b2z_z2b, Z.mod_small by lia.
    now rewrite lead_bits_1 by lia.
  - rewrite Z.shiftr_div_pow2 by lia.
    change 0xff with (Z.ones 8). rewrite Z.land_ones by lia.
    change (2 ^ 8) with 256.
    destruct (lead_bits_2 (n / 256)) as (L1 & L2 & L3 & L4); [lia|].
    rewrite L1.
    eexists. split; [reflexivity|].
    intros d tl S. unfold readVarint. read_byte S.
    rewrite b2z_z2b, (Z.mod_small (0x80 + n / 256)) by lia.
    rewrite L2, L3. read_byte S.
    rewrite skip_skip, b2z_z2b, Z.mod_mod by lia.
    rewrite L4, Z.shiftl_mul_pow2 by lia.
    rewrite lor_add_low by lia.
    do 2 f_equal. change (2 ^ 8) with 256. lia.
  - rewrite !Z.shiftr_div_pow2 by lia.
    change 0xff with (Z.ones 8). rewrite !Z.land_ones by lia.
    change (2 ^ 8) with 256. change (2 ^ 16) with 65536. change (2 ^ 24) with 16777216.
    destruct (lead_bits_4 (n / 16777216)) as (L1 & L2 & L3 & L4 & L5); [lia|].
    rewrite L1.
    eexists. split; [reflexivity|].
    intros d tl S. unfold readVarint. read_byte S.
    rewrite b2z_z2b, (Z.mod_small (0xc0 + n / 16777216)) by lia.
    rewrite L2, L3, L4. read_byte S. read_byte S. read_byte S.
    rewrite !skip_skip, !b2z_z2b, !Z.mod_mod by lia.
    rewrite L5, !Z.shiftl_mul_pow2 by lia.
    change (2 ^ 8) with 256. change (2 ^ 16) with 65536. change (2 ^ 24) with 16777216.
    set (q := n / 16777216). set (b1 := (n / 65536) mod 256).
    set (b2 := (n / 256) mod 256). set (b3 := n mod 256).
    assert (E : n = q * 16777216 + b1 * 65536 + b2 * 256 + b3)
      by (subst q b1 b2 b3; lia).
    assert (R1 : 0 <= b1 < 256) by (subst b1; lia).
    assert (R2 : 0 <= b2 < 256) by (subst b2; lia).
    assert (R3 : 0 <= b3 < 256) by (subst b3; lia).
    assert (Rq : 0 <= q < 32) by (subst q; lia).
    change 16777216 with (2 ^ 24) at 1.
    rewrite (lor_add_low q (b1 * 65536) 24) by lia.
    replace (q * 2 ^ 24 + b1 * 65536) with ((q * 256 + b1) * 2 ^ 16) by lia.
    rewrite (lor_add_low (q * 256 + b1) (b2 * 256) 16) by lia.
    replace ((q * 256 + b1) * 2 ^ 16 + b2 * 256)
      with ((q * 65536 + b1 * 256 + b2) * 2 ^ 8) by lia.
    rewrite (lor_add_low _ b3 8) by lia.
    do 2 f_equal. lia.
Qed.


(** *** Scalars *)

Lemma take_be (n : nat) (z : Z) (d : decoder) (tl : list byte) :
  sees d (be_bytes n z ++ tl) -> take n d = Ok (be_bytes n z, skip n d).
Proof.
  intros S. pose proof (take_sees _ _ _ S) as T.
  now rewrite be_bytes_length in T.
Qed.

Lemma to_signed_mod (w z : Z) :
  0 < w -> - 2 ^ (w - 1) <= z < 2 ^ (w - 1) -> to_signed w (z mod 2 ^ w) = z.
Proof.
  intros Hw Hz. unfold to_signed.
  assert (E : 2 ^ w = 2 * 2 ^ (w - 1)).
  { rewrite <- Z.pow_succ_r by lia. f_equal. lia. }
  assert (0 < 2 ^ (w - 1)) by (apply Z.pow_pos_nonneg; lia).
  destruct (Z.lt_ge_cases z 0) as [Neg|Pos].
  - replace (z mod 2 ^ w) with (z + 2 ^ w).
    + destruct (Z.ltb_spec (z + 2 ^ w) (2 ^ (w - 1))); lia.
    + apply Z.mod_unique with (-1); lia.
  - rewrite Z.mod_small by lia.
    destruct (Z.ltb_spec z (2 ^ (w - 1))); lia.
Qed.

(** The decoder accepts [bs] as the encoding of [v], whatever follows. *)
Definition decodes (v : value) (bs : list byte) : Prop :=
  forall fuel d tl, (length bs <= fuel)%nat -> sees d (bs ++ tl) ->
    decodeValue fuel d = Ok (v, skip (length bs) d).

(** Evaluation of the closed tests of the [switch] of [decodeValue]. *)
Ltac dispatch :=
  repeat match goal with
  | |- context [if ?a =? ?b then _ else _] =>
      let r := eval vm_compute in (a =? b) in
      match r with true => idtac | false => idtac end;
      change (a =? b) with r; cbv iota
  end.

Ltac open_tag tag fuel Hf S :=
  destruct fuel as [|fuel]; [simpl in Hf; lia|];
  cbn [decodeValue]; read_byte S;
  rewrite b2z_z2b;
  let r := eval vm_compute in (tag mod 256) in change (tag mod 256) with r;
  dispatch.

Lemma number_roundtrip (n : Num.number) :
  Num.is_double n = true -> is_negative_zero n = false ->
  exists bs, (forall e, encodeNumber n e = e ++ bs) /\ bs <> []
             /\ decodes (VNumber n) bs.
Proof.
  intros V NZ.
  assert (NZ' : n <> Num.negative_zero) by (intros ->; discriminate).
  assert (F64 : forall e,
            writeFloat64 n (writeUint8 BinaryType.FLOAT64 e)
            = e ++ (z2b BinaryType.FLOAT64 :: be_bytes 8 (Num.toFloat64 n))
          /\ decodes (VNumber n) (z2b BinaryType.FLOAT64 :: be_bytes 8 (Num.toFloat64 n))).
  { intros e. split.
    - unfold writeFloat64, writeUint8. now rewrite <- app_assoc.
    - intros fuel d tl Hf S. open_tag BinaryType.FLOAT64 fuel Hf S.
      unfold readFloat64. rewrite (take_be _ _ _ _ S). cbn [bind].
      rewrite be_value_bytes by (apply Num.to_bits64_range).
      rewrite Num.fromFloat64_toFloat64 by assumption.
      rewrite skip_skip. reflexivity. }
  unfold encodeNumber.
  destruct (Num.isInteger n) eqn:I.
  - set (i := Num.truncate n).
    destruct ((-128 <=? i) && (i <=? 127)) eqn:R8;
      [|destruct ((-32768 <=? i) && (i <=? 32767)) eqn:R16;
        [|destruct ((-2147483648 <=? i) && (i <=? 2147483647)) eqn:R32]].
    + apply andb_true_iff in R8 as [Lo Hi]. apply Z.leb_le in Lo, Hi.
      exists (z2b BinaryType.INT8 :: be_bytes 1 i). repeat split.
      * intros e. unfold writeInt8, writeUint8. now rewrite <- app_assoc.
      * discriminate.
      * intros fuel d tl Hf S. open_tag BinaryType.INT8 fuel Hf S.
        cbn [be_bytes app] in S. rewrite (readInt8_sees _ _ _ S). cbn [bind].
        rewrite b2z_z2b. change (256 ^ Z.of_nat 0) with 1. rewrite Z.div_1_r.
        change 256 with (2 ^ 8). rewrite to_signed_mod by lia.
        subst i. rewrite Num.ofZ_truncate by (try assumption; lia).
        rewrite skip_skip. reflexivity.
    + apply andb_true_iff in R16 as [Lo Hi]. apply Z.leb_le in Lo, Hi.
      exists (z2b BinaryType.INT16 :: be_bytes 2 i). repeat split.
      * intros e. unfold writeInt16, writeUint8. now rewrite <- app_assoc.
      * discriminate.
      * intros fuel d tl Hf S. open_tag BinaryType.INT16 fuel Hf S.
        unfold readInt16, readInt. rewrite (take_be _ _ _ _ S). cbn [bind].
        rewrite be_value_bytes_mod.
        change (256 ^ Z.of_nat 2) with (2 ^ 16). change (8 * Z.of_nat 2) with 16.
        rewrite to_signed_mod by lia.
        subst i. rewrite Num.ofZ_truncate by (try assumption; lia).
        rewrite skip_skip. reflexivity.
    + apply andb_true_iff in R32 as [Lo Hi]. apply Z.leb_le in Lo, Hi.
      exists (z2b BinaryType.INT32 :: be_bytes 4 i). repeat split.
      * intros e. unfold writeInt32, writeUint8. now rewrite <- app_assoc.
      * discriminate.
      * intros fuel d tl Hf S. open_tag BinaryType.INT32 fuel Hf S.
        unfold readInt32, readInt. rewrite (take_be _ _ _ _ S). cbn [bind].
        rewrite be_value_bytes_mod.
        change (256 ^ Z.of_nat 4) with (2 ^ 32). change (8 * Z.of_nat 4) with 32.
        rewrite to_signed_mod by lia.
        subst i. rewrite Num.ofZ_truncate by (try assumption; lia).
        rewrite skip_skip. reflexivity.
    + eexists. repeat split; [intros e; apply F64|discriminate|apply (F64 [])].
  - destruct (Num.strict_eq (Num.fround n) n) eqn:Q.
    + exists (z2b BinaryType.FLOAT32 :: be_bytes 4 (Num.toFloat32 n)). repeat split.
      * intros e. unfold writeFloat32, writeUint8. now rewrite <- app_assoc.
      * discriminate.
      * intros fuel d tl Hf S. open_tag BinaryType.FLOAT32 fuel Hf S.
        unfold readFloat32. rewrite (take_be _ _ _ _ S). cbn [bind].
        rewrite be_value_bytes by (apply Num.to_bits32_range).
        fold (Num.fround n).
        rewrite (Num.strict_eq_eq _ _ Q)
          by (intros s ->; discriminate).
        rewrite skip_skip. reflexivity.
    + eexists. repeat split; [intros e; apply F64|discriminate|apply (F64 [])].
Qed.


(** *** Strings and byte arrays *)

Lemma fits_varint_range (n : nat) :
  fits_varint n = true -> 0 <= Z.of_nat n <= MAX_VARINT_4.
Proof. unfold fits_varint. intros H. apply Z.leb_le in H. lia. Qed.

Lemma string_roundtrip (s : jsstring) :
  string_ok s = true ->
  exists bs,
    (forall e, encodeString s e = Ok (e ++ z2b BinaryType.STRING :: bs))
    /\ forall d tl, sees d (bs ++ tl) -> decodeString d = Ok (s, skip (length bs) d).
Proof.
  unfold string_ok. intros H. apply andb_true_iff in H as [Hs Hl].
  apply fits_varint_range in Hl.
  destruct (varint_roundtrip _ Hl) as (vbs & Wv & Rv).
  exists (vbs ++ TextEncoder_encode s). split.
  - intros e. unfold encodeString. rewrite Wv. cbn [bind].
    unfold writeBytes, writeUint8. now rewrite <- !app_assoc.
  - intros d tl S. unfold decodeString. rewrite <- app_assoc in S.
    rewrite (Rv _ _ S). cbn [bind].
    apply sees_skip in S. unfold readBytes. rewrite Nat2Z.id.
    rewrite (take_sees _ _ _ S). cbn [bind].
    rewrite decode_encode by assumption.
    now rewrite skip_skip, length_app.
Qed.

Lemma binary_roundtrip (bytes : list byte) :
  fits_varint (length bytes) = true ->
  exists bs,
    (forall e, encodeBinary bytes e = Ok (e ++ z2b BinaryType.BINARY :: bs))
    /\ forall d tl, sees d (bs ++ tl) -> decodeBinary d = Ok (bytes, skip (length bs) d).
Proof.
  intros Hl. apply fits_varint_range in Hl.
  destruct (varint_roundtrip _ Hl) as (vbs & Wv & Rv).
  exists (vbs ++ bytes). split.
  - intros e. unfold encodeBinary. rewrite Wv. cbn [bind].
    unfold writeBytes, writeUint8. now rewrite <- !app_assoc.
  - intros d tl S. unfold decodeBinary. rewrite <- app_assoc in S.
    rewrite (Rv _ _ S). cbn [bind].
    apply sees_skip in S. unfold readBytes. rewrite Nat2Z.id.
    rewrite (take_sees _ _ _ S).
    now rewrite skip_skip, length_app.
Qed.

(** *** Properties of an object under construction *)

Lemma jsstring_eqb_eq (a b : jsstring) : jsstring_eqb a b = true <-> a = b.
Proof.
  unfold jsstring_eqb. destruct (list_eq_dec Z.eq_dec a b); intuition discriminate.
Qed.

Lemma existsb_eqb_In (k : jsstring) (l : list jsstring) :
  existsb (jsstring_eqb k) l = false -> ~ In k l.
Proof.
  intros H Hin.
  assert (E : existsb (jsstring_eqb k) l = true).
  { apply existsb_exists. exists k. split; [assumption|now apply jsstring_eqb_eq]. }
  congruence.
Qed.

Lemma assign_fresh (props : list (jsstring * value)) (key : jsstring) (v : value) :
  ~ In key (map fst props) -> assign props key v = props ++ [(key, v)].
Proof.
  induction props as [|[k x] rest IH]; intros Hn; [reflexivity|].
  cbn [assign app]. cbn [map fst In] in Hn.
  destruct (jsstring_eqb k key) eqn:E.
  - apply jsstring_eqb_eq in E. tauto.
  - rewrite IH by tauto. reflexivity.
Qed.

(** *** Every supported value *)

Definition good (v : value) : Prop :=
  exists bs, (forall e, encodeValue v e = Ok (e ++ bs)) /\ bs <> [] /\ decodes v bs.

Lemma array_items_good (items : list value) :
  Forall (fun v => supported v = true -> good v) items ->
  forallb supported items = true ->
  exists body,
    (forall e, encodeArray_loop items e = Ok (e ++ body))
    /\ forall fuel d tl, (length body <= fuel)%nat -> sees d (body ++ tl) ->
         decodeArray_loop (decodeValue fuel) (length items) d
         = Ok (items, skip (length body) d).
Proof.
  induction 1 as [|v items Hv _ IH]; intros Hs.
  - exists []. split; [intros e; now rewrite app_nil_r|].
    intros fuel d tl _ _. cbn. now rewrite skip_0.
  - cbn [forallb] in Hs. apply andb_true_iff in Hs as [Sv Ss].
    destruct (Hv Sv) as (bs & Ev & _ & Dv).
    destruct (IH Ss) as (body & Eb & Db).
    exists (bs ++ body). split.
    + intros e. cbn [encodeArray_loop]. rewrite Ev. cbn [bind].
      rewrite Eb. now rewrite app_assoc.
    + intros fuel d tl Hf S. rewrite length_app in Hf.
      cbn [length decodeArray_loop]. rewrite <- app_assoc in S.
      rewrite (Dv fuel d _ ltac:(lia) S). cbn [bind].
      apply sees_skip in S.
      rewrite (Db fuel _ _ ltac:(lia) S). cbn [bind].
      now rewrite skip_skip, length_app.
Qed.

Lemma object_props_good (props : list (jsstring * value)) :
  Forall (fun kv => supported (snd kv) = true -> good (snd kv)) props ->
  forallb (fun '(key, x) => string_ok key && supported x) props = true ->
  ~ In (str "__proto__") (map fst props) ->
  exists body,
    (forall e, encodeObject_loop props e = Ok (e ++ body))
    /\ forall acc fuel d tl,
         NoDup (map fst (acc ++ props)) ->
         (length body <= fuel)%nat -> sees d (body ++ tl) ->
         decodeObject_loop (decodeValue fuel) (length props) acc d
         = Ok (acc ++ props, skip (length body) d).
Proof.
  induction 1 as [|[key v] props Hv _ IH]; intros Hs Hp.
  - exists []. split; [intros e; now rewrite app_nil_r|].
    intros acc fuel d tl _ _ _. cbn. now rewrite skip_0, app_nil_r.
  - cbn [forallb] in Hs. apply andb_true_iff in Hs as [Hkv Ss].
    apply andb_true_iff in Hkv as [Sk Sv]. cbn [snd] in Hv.
    cbn [map fst In] in Hp.
    destruct (string_roundtrip _ Sk) as (kbs & Ek & Dk).
    destruct (Hv Sv) as (bs & Ev & _ & Dv).
    destruct (IH Ss ltac:(tauto)) as (body & Eb & Db).
    exists ((z2b BinaryType.STRING :: kbs) ++ bs ++ body). split.
    + intros e. cbn [encodeObject_loop]. rewrite Ek. cbn [bind].
      rewrite Ev. cbn [bind]. rewrite Eb. now rewrite <- !app_assoc.
    + intros acc fuel d tl Hnd Hf S.
      rewrite !length_app in Hf. cbn [length] in Hf.
      cbn [length decodeObject_loop]. read_byte S.
      rewrite b2z_z2b. change (BinaryType.STRING mod 256) with BinaryType.STRING.
      rewrite Z.eqb_refl. cbn [negb].
      rewrite <- app_assoc in S. rewrite (Dk _ _ S). cbn [bind].
      apply sees_skip in S. rewrite <- app_assoc in S.
      rewrite (Dv fuel _ _ ltac:(lia) S). cbn [bind].
      apply sees_skip in S.
      assert (Fresh : set_property acc key v = acc ++ [(key, v)]).
      { unfold set_property.
        destruct (jsstring_eqb key (str "__proto__")) eqn:E.
        - apply jsstring_eqb_eq in E. exfalso. apply Hp. left. now symmetry.
        - apply assign_fresh. rewrite map_app in Hnd. cbn [map fst] in Hnd.
          apply NoDup_remove_2 in Hnd. intros Hin. apply Hnd.
          apply in_or_app. now left. }
      rewrite Fresh.
      rewrite (Db (acc ++ [(key, v)]) fuel _ tl); [| |lia|exact S].
      * rewrite <- app_assoc. cbn [app]. rewrite !skip_skip.
        apply Ok_skip. lengths.
      * now rewrite <- app_assoc.
Qed.

Lemma distinct_NoDup (keys : list jsstring) : distinct keys = true -> NoDup keys.
Proof.
  induction keys as [|k rest IH]; intros H; [constructor|].
  cbn [distinct] in H. apply andb_true_iff in H as [Hk Hr].
  apply negb_true_iff in Hk.
  constructor; [now apply existsb_eqb_In|now apply IH].
Qed.

Lemma supported_good (v : value) : supported v = true -> good v.
Proof.
  induction v as [| |b|n|z|s|bytes|t|items IH|props IH| |] using value_ind;
    intros Hs; cbn [supported] in Hs; try discriminate.
  - exists [z2b BinaryType.NULL]. repeat split; [discriminate|].
    intros fuel d tl Hf S. open_tag BinaryType.NULL fuel Hf S. reflexivity.
  - exists [z2b BinaryType.UNDEFINED]. repeat split; [discriminate|].
    intros fuel d tl Hf S. open_tag BinaryType.UNDEFINED fuel Hf S. reflexivity.
  - destruct b.
    + exists [z2b BinaryType.TRUE]. repeat split; [discriminate|].
      intros fuel d tl Hf S. open_tag BinaryType.TRUE fuel Hf S. reflexivity.
    + exists [z2b BinaryType.FALSE]. repeat split; [discriminate|].
      intros fuel d tl Hf S. open_tag BinaryType.FALSE fuel Hf S. reflexivity.
  - apply andb_true_iff in Hs as [V NZ]. apply negb_true_iff in NZ.
    destruct (number_roundtrip n V NZ) as (bs & E & N & D).
    exists bs. repeat split; try assumption.
    intros e. cbn [encodeValue]. now rewrite E.
  - apply andb_true_iff in Hs as [Lo Hi].
    apply Z.leb_le in Lo. apply Z.ltb_lt in Hi.
    destruct (0 <=? z) eqn:T.
    + apply Z.leb_le in T as Pos.
      exists (z2b BinaryType.UINT64 :: be_bytes 8 z). repeat split.
      * intros e. cbn [encodeValue]. unfold encodeBigInt. rewrite T.
        unfold writeUint64, writeUint8. now rewrite <- app_assoc.
      * discriminate.
      * intros fuel d tl Hf S. open_tag BinaryType.UINT64 fuel Hf S.
        unfold readUint64, readUint. rewrite (take_be _ _ _ _ S). cbn [bind].
        rewrite be_value_bytes by (change (256 ^ Z.of_nat 8) with (2 ^ 64); lia).
        now rewrite skip_skip.
    + apply Z.leb_gt in T as Neg.
      exists (z2b BinaryType.INT64 :: be_bytes 8 z). repeat split.
      * intros e. cbn [encodeValue]. unfold encodeBigInt. rewrite T.
        unfold writeInt64, writeUint8. now rewrite <- app_assoc.
      * discriminate.
      * intros fuel d tl Hf S. open_tag BinaryType.INT64 fuel Hf S.
        unfold readInt64, readInt. rewrite (take_be _ _ _ _ S). cbn [bind].
        rewrite be_value_bytes_mod.
        change (256 ^ Z.of_nat 8) with (2 ^ 64). change (8 * Z.of_nat 8) with 64.
        rewrite to_signed_mod by lia.
        now rewrite skip_skip.
  - destruct (string_roundtrip _ Hs) as (bs & E & D).
    exists (z2b BinaryType.STRING :: bs). repeat split.
    + intros e. apply E.
    + discriminate.
    + intros fuel d tl Hf S. open_tag BinaryType.STRING fuel Hf S.
      rewrite (D _ _ S). cbn [bind]. now rewrite skip_skip.
  - destruct (binary_roundtrip _ Hs) as (bs & E & D).
    exists (z2b BinaryType.BINARY :: bs). repeat split.
    + intros e. apply E.
    + discriminate.
    + intros fuel d tl Hf S. open_tag BinaryType.BINARY fuel Hf S.
      rewrite (D _ _ S). cbn [bind]. now rewrite skip_skip.
  - destruct t as [t|]; [|discriminate]. apply Z.leb_le in Hs.
    exists (z2b BinaryType.DATE :: be_bytes 8 t). repeat split.
    + intros e. cbn [encodeValue encodeDate].
      unfold writeInt64, writeUint8. now rewrite <- app_assoc.
    + discriminate.
    + intros fuel d tl Hf S. open_tag BinaryType.DATE fuel Hf S.
      unfold decodeDate, readInt64, readInt.
      rewrite (take_be _ _ _ _ S). cbn [bind].
      rewrite be_value_bytes_mod.
      change (256 ^ Z.of_nat 8) with (2 ^ 64). change (8 * Z.of_nat 8) with 64.
      rewrite to_signed_mod by lia.
      replace (Z.abs t <=? 8640000000000000) with true
        by (symmetry; apply Z.leb_le; lia).
      now rewrite skip_skip.
  - apply andb_true_iff in Hs as [Hl Hi]. apply fits_varint_range in Hl.
    destruct (varint_roundtrip _ Hl) as (vbs & Wv & Rv).
    destruct (array_items_good items IH Hi) as (body & Eb & Db).
    exists (z2b BinaryType.ARRAY :: vbs ++ body). repeat split.
    + intros e. rewrite encodeValue_array, Wv. cbn [bind]. rewrite Eb.
      unfold writeUint8. now rewrite <- !app_assoc.
    + discriminate.
    + intros fuel d tl Hf S. cbn [length] in Hf. rewrite length_app in Hf.
      open_tag BinaryType.ARRAY fuel Hf S.
      rewrite <- app_assoc in S. rewrite (Rv _ _ S). cbn [bind].
      apply sees_skip in S. rewrite Nat2Z.id.
      rewrite (Db fuel _ _ ltac:(lia) S). cbn [bind].
      rewrite !skip_skip. apply Ok_skip. lengths.
  - apply andb_true_iff in Hs as [Hs Hi]. apply andb_true_iff in Hs as [Hs Hp].
    apply andb_true_iff in Hs as [Hl Hd].
    apply fits_varint_range in Hl. apply negb_true_iff in Hp.
    apply existsb_eqb_In in Hp. apply distinct_NoDup in Hd.
    destruct (varint_roundtrip _ Hl) as (vbs & Wv & Rv).
    destruct (object_props_good props IH Hi Hp) as (body & Eb & Db).
    exists (z2b BinaryType.OBJECT :: vbs ++ body). repeat split.
    + intros e. rewrite encodeValue_object, Wv. cbn [bind]. rewrite Eb.
      unfold writeUint8. now rewrite <- !app_assoc.
    + discriminate.
    + intros fuel d tl Hf S. cbn [length] in Hf. rewrite length_app in Hf.
      open_tag BinaryType.OBJECT fuel Hf S.
      rewrite <- app_assoc in S. rewrite (Rv _ _ S). cbn [bind].
      apply sees_skip in S. rewrite Nat2Z.id.
      rewrite (Db [] fuel _ _ Hd ltac:(lia) S). cbn [bind app].
      rewrite !skip_skip. apply Ok_skip. lengths.
Qed.


(** *** What decoding can end in *)

(** The errors [BinaryDecoder] throws. *)
Definition decoding_error (e : error) : bool :=
  match e with
  | BufferUnderflow | UnknownType _ | InvalidVarint | ObjectKeyNotString => true
  | _ => false
  end.

Definition remaining (d : decoder) : nat := length (buffer d) - offset d.

(** A step of the decoder stays in its buffer and moves forward, or fails
    with one of the decoder's own errors; the model's bound is reached only
    with less fuel than bytes left. *)
Definition outcome {A : Type} (fuel : nat) (d : decoder) (r : result (A * decoder))
  : Prop :=
  match r with
  | Ok (_, d') =>
      buffer d' = buffer d /\ (offset d <= offset d' <= length (buffer d))%nat
  | Err e =>
      decoding_error e = true \/ (e = OutOfFuel /\ (fuel <= remaining d)%nat)
  end.

Lemma outcome_bind {A B : Type} (fuel : nat) (d : decoder)
      (m : result (A * decoder)) (k : A * decoder -> result (B * decoder)) :
  outcome fuel d m ->
  (forall a d', m = Ok (a, d') -> outcome fuel d' (k (a, d'))) ->
  outcome fuel d (bind m k).
Proof.
  intros Hm Hk. destruct m as [[a d']|e]; cbn [bind]; [|exact Hm].
  specialize (Hk a d' eq_refl). cbn [outcome] in Hm. destruct Hm as [Hb Ho].
  unfold outcome in *. destruct (k (a, d')) as [[b d'']|e].
  - destruct Hk as [Hb' Ho']. rewrite Hb' , Hb in *. split; [reflexivity|lia].
  - destruct Hk as [Hk|[E Hf]]; [now left|right]. split; [assumption|].
    unfold remaining in *. rewrite Hb in Hf. lia.
Qed.

Ltac bounds :=
  repeat match goal with
  | H : buffer ?a = buffer ?b |- _ => rewrite H in *; clear H
  end;
  lia.

Lemma outcome_ok {A : Type} (fuel : nat) (d : decoder) (a : A) :
  (offset d <= length (buffer d))%nat -> outcome fuel d (Ok (a, d)).
Proof. intros H. cbn. split; [reflexivity|lia]. Qed.

Lemma outcome_map {A B : Type} (fuel : nat) (d : decoder)
      (m : result (A * decoder)) (f : A -> B) :
  outcome fuel d m ->
  outcome fuel d ('(a, d') <- m ;; Ok (f a, d')).
Proof.
  intros Hm. destruct m as [[a d']|e]; cbn [bind]; exact Hm.
Qed.

Lemma take_outcome (fuel n : nat) (d : decoder) :
  outcome fuel d (take n d).
Proof.
  unfold take. destruct (Nat.ltb_spec (length (buffer d)) (offset d + n)).
  - now left.
  - cbn. split; [reflexivity|lia].
Qed.

Lemma readUint8_outcome (fuel : nat) (d : decoder) :
  outcome fuel d (readUint8 d).
Proof.
  unfold readUint8. destruct (Nat.leb_spec (length (buffer d)) (offset d)).
  - now left.
  - cbn. split; [reflexivity|lia].
Qed.

Lemma readInt8_outcome (fuel : nat) (d : decoder) :
  outcome fuel d (readInt8 d).
Proof.
  unfold readInt8. destruct (Nat.leb_spec (length (buffer d)) (offset d)).
  - now left.
  - cbn. split; [reflexivity|lia].
Qed.

Lemma readUint_outcome (fuel n : nat) (d : decoder) :
  outcome fuel d (readUint n d).
Proof. unfold readUint. apply (outcome_map fuel d (take n d)), take_outcome. Qed.

Lemma readInt_outcome (fuel n : nat) (d : decoder) :
  outcome fuel d (readInt n d).
Proof. unfold readInt. apply (outcome_map fuel d (take n d)), take_outcome. Qed.

Lemma readVarint_outcome (fuel : nat) (d : decoder) :
  outcome fuel d (readVarint d).
Proof.
  unfold readVarint.
  apply outcome_bind; [apply readUint8_outcome|]. intros first d1 E1.
  pose proof (readUint8_outcome fuel d) as O1. rewrite E1 in O1.
  destruct O1 as [B1 R1].
  destruct (Z.land first 128 =? 0); [apply outcome_ok; rewrite B1; lia|].
  destruct (Z.land first 192 =? 128).
  { apply (outcome_map fuel d1 (readUint8 d1)), readUint8_outcome. }
  destruct (Z.land first 224 =? 192); [|now left].
  apply outcome_bind; [apply readUint8_outcome|]. intros b1 d2 _.
  apply outcome_bind; [apply readUint8_outcome|]. intros b2 d3 _.
  apply (outcome_map fuel d3 (readUint8 d3)), readUint8_outcome.
Qed.

Lemma decodeBinary_outcome (fuel : nat) (d : decoder) :
  outcome fuel d (decodeBinary d).
Proof.
  unfold decodeBinary, readBytes.
  apply outcome_bind; [apply readVarint_outcome|]. intros len d1 _.
  apply take_outcome.
Qed.

Lemma decodeString_outcome (fuel : nat) (d : decoder) :
  outcome fuel d (decodeString d).
Proof.
  unfold decodeString, readBytes.
  apply outcome_bind; [apply readVarint_outcome|]. intros len d1 _.
  apply (outcome_map fuel d1 (take (Z.to_nat len) d1)), take_outcome.
Qed.

Lemma readFloat32_outcome (fuel : nat) (d : decoder) :
  outcome fuel d (readFloat32 d).
Proof. unfold readFloat32. apply (outcome_map fuel d (take 4 d)), take_outcome. Qed.

Lemma readFloat64_outcome (fuel : nat) (d : decoder) :
  outcome fuel d (readFloat64 d).
Proof. unfold readFloat64. apply (outcome_map fuel d (take 8 d)), take_outcome. Qed.

Lemma decodeDate_outcome (fuel : nat) (d : decoder) :
  outcome fuel d (decodeDate d).
Proof.
  unfold decodeDate. apply (outcome_map fuel d (readInt64 d)), readInt_outcome.
Qed.

Lemma decodeUUID_outcome (fuel : nat) (d : decoder) :
  outcome fuel d (decodeUUID d).
Proof. apply take_outcome. Qed.

Section LoopOutcome.
Variable fuel : nat.
Variable decodeValue' : decoder -> result (value * decoder).
Hypothesis decodeValue'_outcome : forall d, outcome fuel d (decodeValue' d).

Lemma decodeArray_loop_outcome (n : nat) (d : decoder) :
  (offset d <= length (buffer d))%nat ->
  outcome fuel d (decodeArray_loop decodeValue' n d).
Proof.
  revert d. induction n as [|n IH]; intros d Hd; cbn [decodeArray_loop].
  - now apply outcome_ok.
  - apply outcome_bind; [apply decodeValue'_outcome|]. intros v d1 E1.
    pose proof (decodeValue'_outcome d) as O1. rewrite E1 in O1.
    destruct O1 as [B1 R1].
    apply (outcome_bind fuel d1 (decodeArray_loop decodeValue' n d1)
             (fun x => let '(vs, d0) := x in Ok (v :: vs, d0))).
    + apply IH. bounds.
    + intros vs d2 E2. specialize (IH d1 ltac:(bounds)).
      rewrite E2 in IH. destruct IH as [B2 R2]. apply outcome_ok. bounds.
Qed.

Lemma decodeObject_loop_outcome (n : nat) (obj : list (jsstring * value)) (d : decoder) :
  (offset d <= length (buffer d))%nat ->
  outcome fuel d (decodeObject_loop decodeValue' n obj d).
Proof.
  revert obj d. induction n as [|n IH]; intros obj d Hd; cbn [decodeObject_loop].
  - now apply outcome_ok.
  - apply outcome_bind; [apply readUint8_outcome|]. intros keyType d1 E1.
    pose proof (readUint8_outcome fuel d) as O1. rewrite E1 in O1.
    destruct O1 as [B1 R1].
    destruct (negb (keyType =? BinaryType.STRING)); [now left|].
    apply outcome_bind; [apply decodeString_outcome|]. intros key d2 E2.
    pose proof (decodeString_outcome fuel d1) as O2. rewrite E2 in O2.
    destruct O2 as [B2 R2].
    apply outcome_bind; [apply decodeValue'_outcome|]. intros v d3 E3.
    pose proof (decodeValue'_outcome d2) as O3. rewrite E3 in O3.
    destruct O3 as [B3 R3].
    apply IH. bounds.
Qed.
End LoopOutcome.

(** One more unit of fuel pays for the tag byte. *)
Lemma outcome_step {A : Type} (fuel : nat) (d d1 : decoder) (r : result (A * decoder)) :
  buffer d1 = buffer d -> (offset d < offset d1 <= length (buffer d))%nat ->
  outcome fuel d1 r -> outcome (S fuel) d r.
Proof.
  intros B R H. destruct r as [[a d']|e]; cbn [outcome] in *.
  - destruct H as [B' R']. rewrite B', B in *. split; [reflexivity|lia].
  - destruct H as [H|[E F]]; [now left|right]. split; [assumption|].
    unfold remaining in *. rewrite B in F. lia.
Qed.

Lemma decodeValue_outcome (fuel : nat) (d : decoder) :
  outcome fuel d (decodeValue fuel d).
Proof.
  revert d. induction fuel as [|fuel IH]; intros d.
  - cbn. right. split; [reflexivity|lia].
  - cbn [decodeValue].
    unfold readUint8 at 1.
    destruct (Nat.leb_spec (length (buffer d)) (offset d)) as [U|U];
      [now left|]. cbn [bind].
    set (d1 := at_offset d (offset d + 1)).
    assert (B1 : buffer d1 = buffer d) by reflexivity.
    assert (R1 : (offset d < offset d1 <= length (buffer d))%nat)
      by (subst d1; cbn [at_offset offset]; lia).
    generalize (Uuid.byte_at (buffer d) (offset d)). intros type.
    apply (outcome_step fuel d d1 _ B1 R1).
    assert (Hd1 : (offset d1 <= length (buffer d1))%nat) by (rewrite B1; lia).
    clearbody d1. clear B1 R1 U d.
    repeat match goal with
    | |- outcome _ _ (if ?c then _ else _) => destruct c
    end;
    try (apply outcome_ok; assumption);
    try (now left);
    try (apply (outcome_map fuel d1); first
           [ apply readInt8_outcome | apply readUint8_outcome
           | apply readInt_outcome | apply readUint_outcome
           | apply readFloat32_outcome | apply readFloat64_outcome
           | apply decodeString_outcome | apply decodeBinary_outcome
           | apply decodeDate_outcome | apply decodeUUID_outcome ]).
    + (* ARRAY *)
      apply outcome_bind; [apply readVarint_outcome|]. intros len d2 E2.
      pose proof (readVarint_outcome fuel d1) as O2. rewrite E2 in O2.
      destruct O2 as [B2 R2].
      apply (outcome_map fuel d2).
      apply decodeArray_loop_outcome; [exact IH|]. bounds.
    + (* OBJECT *)
      apply outcome_bind; [apply readVarint_outcome|]. intros len d2 E2.
      pose proof (readVarint_outcome fuel d1) as O2. rewrite E2 in O2.
      destruct O2 as [B2 R2].
      apply (outcome_map fuel d2).
      apply decodeObject_loop_outcome; [exact IH|]. bounds.
Qed.

(** [decode] ends in a value or in one of the decoder's own errors; the
    bound of the model is never what stops it. *)
Lemma decode_errors (buf : list byte) (e : error) :
  decode buf = Err e -> decoding_error e = true.
Proof.
  unfold decode, decodeBuffer, decoder_fuel. intros H.
  pose proof (decodeValue_outcome (S (length buf)) {| buffer := buf; offset := 0 |}) as O.
  destruct (decodeValue (S (length buf)) {| buffer := buf; offset := 0 |})
    as [[v d']|e']; cbn [bind] in H; [discriminate|].
  injection H as ->. destruct O as [O|[_ F]]; [assumption|].
  unfold remaining in F. cbn [buffer offset] in F. lia.
Qed.

(** *** The round-trip law *)

Lemma roundtrip_same (v : value) : supported v = true -> roundtrip v = Ok v.
Proof.
  intros Hs. destruct (supported_good v Hs) as (bs & E & _ & D).
  unfold roundtrip, encode. rewrite (E []). cbn [bind app].
  unfold decode, decodeBuffer, decoder_fuel.
  rewrite (D (S (length bs)) {| buffer := bs; offset := 0 |} []).
  - reflexivity.
  - lia.
  - unfold sees. cbn [offset buffer skipn]. split; [lia|now rewrite app_nil_r].
Qed.

(** A bigint outside the 64-bit wire range is stored modulo [2^64]. *)
Lemma roundtrip_bigint_counterexample :
  supported (VBigInt (2 ^ 64)) = false
  /\ roundtrip (VBigInt (2 ^ 64)) = Ok (VBigInt 0)
  /\ roundtrip (VBigInt (2 ^ 64)) <> Ok (VBigInt (2 ^ 64)).
Proof. repeat split. discriminate. Qed.

(** The other values of the listed types that do not come back: negative
    zero is written as the INT8 0, a lone surrogate is replaced by U+FFFD, a
    leading U+FEFF is dropped by the text decoder, a "__proto__" property
    is lost, an invalid date cannot be converted to a bigint. *)
Example roundtrip_negative_zero :
  roundtrip (VNumber Num.negative_zero) = Ok (VNumber (S754_zero false)).
Proof. reflexivity. Qed.

Example roundtrip_lone_surrogate :
  roundtrip (VString [0xD800]) = Ok (VString [0xFFFD]).
Proof. reflexivity. Qed.

Example roundtrip_leading_bom :
  roundtrip (VString (BOM :: str "a")) = Ok (VString (str "a")).
Proof. reflexivity. Qed.

Example roundtrip_proto_key :
  roundtrip (VObject [(str "__proto__", VNumber (Num.ofZ 1))]) = Ok (VObject []).
Proof. reflexivity. Qed.

Example roundtrip_invalid_date : roundtrip (VDate None) = Err RangeError.
Proof. reflexivity. Qed.

(** C1 (amended).  For every value of the supported set - null, undefined,
    booleans, numbers other than negative zero, bigints in
    [-2^63, 2^64), well-formed strings without a leading U+FEFF, byte
    arrays, valid Dates, arrays, and objects with such string keys other
    than "__proto__", all lengths at most 0x1FFFFFFF - decoding the bytes
    produced by encoding the value succeeds and yields the value itself
    (a Date by its millisecond time value). *)
Theorem roundtrip_supported (v : value) :
  supported v = true -> roundtrip v = Ok v.
Proof.
  intros Hs. destruct (supported_good v Hs) as (bs & E & _ & D).
  unfold roundtrip, encode. rewrite (E []). cbn [bind app].
  unfold decode, decodeBuffer, decoder_fuel.
  rewrite (D (S (length bs)) {| buffer := bs; offset := 0 |} []).
  - reflexivity.
  - lia.
  - unfold sees. cbn [offset buffer skipn]. split; [lia|now rewrite app_nil_r].
Qed.

(** The "complex data" value of the repository's test-suite. *)
Definition complex_data : value :=
  VObject
    [(str "id", VString (str "test-123"));
     (str "count", VNumber (Num.ofZ 42));
     (str "active", VBool true);
     (str "score", VNumber (S754_finite false 0x18A00000000000 (-46)));
     (str "tags", VArray [VString (str "alpha"); VString (str "beta");
                          VString (str "gamma")]);
     (str "metadata",
      VObject [(str "created", VDate (Some 1767225600000));
               (str "updated", VNull)])].

Lemma roundtrip_supported_witness :
  supported complex_data = true /\ roundtrip complex_data = Ok complex_data.
Proof.
  split; [reflexivity|apply (roundtrip_supported complex_data); reflexivity].
Defined.

(** *** Numeric type selection *)

(** The tag [encodeNumber] emits. *)
Definition emitted_tag (n : Num.number) : Z := Uuid.byte_at (encodeNumber n []) 0.

Definition in_int8 (i : Z) : Prop := -128 <= i <= 127.
Definition in_int16 (i : Z) : Prop := -32768 <= i <= 32767.
Definition in_int32 (i : Z) : Prop := -2147483648 <= i <= 2147483647.

(** The selection for integers as the specification words it: the smallest
    signed width that fits, a signed 64-bit encoding beyond 32 bits. *)
Definition smallest_signed_tag (i : Z) : Z :=
  if (-128 <=? i) && (i <=? 127) then BinaryType.INT8
  else if (-32768 <=? i) && (i <=? 32767) then BinaryType.INT16
  else if (-2147483648 <=? i) && (i <=? 2147483647) then BinaryType.INT32
  else BinaryType.INT64.

(** The integer [2^31] is written as a FLOAT64, not as an INT64. *)
Lemma encodeNumber_large_integer_counterexample :
  let n := Num.ofZ 2147483648 in
  Num.is_double n = true /\ Num.isInteger n = true
  /\ Num.truncate n = 2147483648
  /\ emitted_tag n = BinaryType.FLOAT64
  /\ emitted_tag n <> smallest_signed_tag (Num.truncate n).
Proof. repeat split. discriminate. Qed.

(** C5 (amended).  For every integer-valued number the emitted tag is the
    smallest of INT8, INT16 and INT32 whose range holds the value, and
    FLOAT64 when the value is outside the INT32 range; for every other
    number the tag is FLOAT32 if and only if [Math.fround] gives the number
    back, and FLOAT64 otherwise. *)
Theorem encodeNumber_tag (n : Num.number) :
  (Num.isInteger n = true ->
   let i := Num.truncate n in
   (emitted_tag n = BinaryType.INT8 <-> in_int8 i)
   /\ (emitted_tag n = BinaryType.INT16 <-> ~ in_int8 i /\ in_int16 i)
   /\ (emitted_tag n = BinaryType.INT32 <-> ~ in_int16 i /\ in_int32 i)
   /\ (emitted_tag n = BinaryType.FLOAT64 <-> ~ in_int32 i))
  /\ (Num.isInteger n = false ->
      (emitted_tag n = BinaryType.FLOAT32 <->
       Num.strict_eq (Num.fround n) n = true)
      /\ (emitted_tag n = BinaryType.FLOAT64 <->
          Num.strict_eq (Num.fround n) n = false)).
Proof.
  unfold emitted_tag, encodeNumber, in_int8, in_int16, in_int32.
  split; intros I; rewrite I.
  - cbv zeta.
    destruct (Z.leb_spec (-128) (Num.truncate n));
      destruct (Z.leb_spec (Num.truncate n) 127);
      destruct (Z.leb_spec (-32768) (Num.truncate n));
      destruct (Z.leb_spec (Num.truncate n) 32767);
      destruct (Z.leb_spec (-2147483648) (Num.truncate n));
      destruct (Z.leb_spec (Num.truncate n) 2147483647);
      try lia; cbn [andb];
      unfold writeInt8, writeInt16, writeInt32, writeFloat64, writeUint8;
      cbn [app Uuid.byte_at nth_error];
      rewrite b2z_z2b;
      match goal with
      | |- context [?t mod 256] =>
          let r := eval vm_compute in (t mod 256) in change (t mod 256) with r
      end;
      unfold BinaryType.INT8, BinaryType.INT16, BinaryType.INT32, BinaryType.FLOAT64;
      repeat split; intros; try lia; try discriminate.
  - cbv zeta.
    destruct (Num.strict_eq (Num.fround n) n);
      unfold writeFloat32, writeFloat64, writeUint8;
      cbn [app Uuid.byte_at nth_error];
      rewrite b2z_z2b;
      match goal with
      | |- context [?t mod 256] =>
          let r := eval vm_compute in (t mod 256) in change (t mod 256) with r
      end;
      unfold BinaryType.FLOAT32, BinaryType.FLOAT64;
      repeat split; intros; try lia; try discriminate; try reflexivity.
Qed.

Lemma encodeNumber_tag_witness :
  emitted_tag (Num.ofZ 300) = BinaryType.INT16
  /\ emitted_tag (Num.ofZ 2147483648) = BinaryType.FLOAT64
  /\ emitted_tag Num.one_and_a_half = BinaryType.FLOAT32
  /\ emitted_tag Num.one_tenth = BinaryType.FLOAT64.
Proof.
  split; [|split; [|split]].
  - destruct (encodeNumber_tag (Num.ofZ 300)) as [H _].
    apply (H eq_refl). unfold in_int8, in_int16. simpl. lia.
  - destruct (encodeNumber_tag (Num.ofZ 2147483648)) as [H _].
    apply (H eq_refl). unfold in_int32. simpl. lia.
  - destruct (encodeNumber_tag Num.one_and_a_half) as [_ H].
    apply (H eq_refl). reflexivity.
  - destruct (encodeNumber_tag Num.one_tenth) as [_ H].
    apply (H eq_refl). reflexivity.
Defined.


(** *** Variable-length integers *)

Definition varint_size (n : Z) : nat :=
  if n <=? MAX_VARINT_1 then 1 else if n <=? MAX_VARINT_2 then 2 else 4.

Lemma lor_range (n a b : Z) :
  0 <= a < 2 ^ n -> 0 <= b < 2 ^ n -> 0 <= Z.lor a b < 2 ^ n.
Proof.
  intros Ha Hb.
  assert (N : 0 <= Z.lor a b) by (apply Z.lor_nonneg; lia).
  split; [assumption|].
  destruct (Z.eq_dec (Z.lor a b) 0) as [E|NE]; [lia|].
  assert (Hn : 0 < n).
  { destruct (Z.lt_trichotomy n 0) as [L|[L|L]]; [|subst n|assumption].
    - rewrite Z.pow_neg_r in Ha by assumption. lia.
    - change (2 ^ 0) with 1 in *. assert (a = 0) by lia. assert (b = 0) by lia.
      subst. now destruct NE. }
  apply Z.log2_lt_pow2; [lia|].
  rewrite Z.log2_lor by lia.
  assert (La : Z.log2 a < n).
  { destruct (Z.eq_dec a 0) as [->|]; [exact Hn|apply Z.log2_lt_pow2; lia]. }
  assert (Lb : Z.log2 b < n).
  { destruct (Z.eq_dec b 0) as [->|]; [exact Hn|apply Z.log2_lt_pow2; lia]. }
  lia.
Qed.

Lemma byte_at_range (a : list byte) (i : nat) : 0 <= Uuid.byte_at a i < 256.
Proof.
  unfold Uuid.byte_at. destruct (nth_error a i); [apply b2z_range|lia].
Qed.

(** Whatever bytes [readVarint] is given, what it returns is a length the
    encoder could have written. *)
Definition value_of (r : result (Z * decoder)) : Z :=
  match r with
  | Ok (x, _) => x
  | Err _ => 0
  end.

Lemma readVarint_range (d d' : decoder) (n : Z) :
  readVarint d = Ok (n, d') -> 0 <= n <= MAX_VARINT_4.
Proof.
  unfold readVarint, readUint8, MAX_VARINT_4.
  destruct (length (buffer d) <=? offset d)%nat; [discriminate|]. cbn [bind].
  pose proof (byte_at_range (buffer d) (offset d)) as R0.
  set (first := Uuid.byte_at (buffer d) (offset d)) in *.
  set (d1 := at_offset d (offset d + 1)).
  destruct (Z.land first 0x80 =? 0).
  { intros H; apply (f_equal value_of) in H; cbv beta iota delta [value_of] in H; rewrite <- H; clear H. lia. }
  destruct (Z.land first 0xc0 =? 0x80).
  { destruct (length (buffer d1) <=? offset d1)%nat; [discriminate|]. cbn [bind].
    pose proof (byte_at_range (buffer d1) (offset d1)) as R1.
    intros H; apply (f_equal value_of) in H; cbv beta iota delta [value_of] in H; rewrite <- H; clear H.
    change 0x3f with (Z.ones 6). rewrite Z.land_ones, Z.shiftl_mul_pow2 by lia.
    pose proof (lor_range 14 (first mod 2 ^ 6 * 2 ^ 8) (Uuid.byte_at (buffer d1) (offset d1))) as L.
    change (2 ^ 6) with 64 in *. change (2 ^ 8) with 256 in *.
    change (2 ^ 14) with 16384 in *. lia. }
  destruct (Z.land first 0xe0 =? 0xc0); [|discriminate].
  destruct (length (buffer d1) <=? offset d1)%nat; [discriminate|]. cbn [bind].
  pose proof (byte_at_range (buffer d1) (offset d1)) as R1.
  set (b1 := Uuid.byte_at (buffer d1) (offset d1)) in *.
  set (d2 := at_offset d1 (offset d1 + 1)).
  destruct (length (buffer d2) <=? offset d2)%nat; [discriminate|]. cbn [bind].
  pose proof (byte_at_range (buffer d2) (offset d2)) as R2.
  set (b2 := Uuid.byte_at (buffer d2) (offset d2)) in *.
  set (d3 := at_offset d2 (offset d2 + 1)).
  destruct (length (buffer d3) <=? offset d3)%nat; [discriminate|]. cbn [bind].
  pose proof (byte_at_range (buffer d3) (offset d3)) as R3.
  set (b3 := Uuid.byte_at (buffer d3) (offset d3)) in *.
  intros H; apply (f_equal value_of) in H; cbv beta iota delta [value_of] in H; rewrite <- H; clear H.
  change 0x1f with (Z.ones 5). rewrite Z.land_ones, !Z.shiftl_mul_pow2 by lia.
  change (2 ^ 5) with 32. change (2 ^ 8) with 256. change (2 ^ 16) with 65536.
  change (2 ^ 24) with 16777216.
  pose proof (lor_range 29 (first mod 32 * 16777216) (b1 * 65536)) as L1.
  pose proof (lor_range 29 (Z.lor (first mod 32 * 16777216) (b1 * 65536)) (b2 * 256)) as L2.
  pose proof (lor_range 29 (Z.lor (Z.lor (first mod 32 * 16777216) (b1 * 65536)) (b2 * 256)) b3) as L3.
  change (2 ^ 29) with 536870912 in *. lia.
Qed.

Definition written (r : result encoder) : list byte :=
  match r with
  | Ok bytes => bytes
  | Err _ => []
  end.

(** X7.  A length from 0 to 0x1FFFFFFF is written by
    [writeVarint] in 1, 2 or 4 bytes (up to 0x7f, up to 0x3fff, beyond) and
    read back by [readVarint], which consumes exactly those bytes; a larger
    length makes [writeVarint] throw; and whatever bytes [readVarint] is
    given, a length it returns is in that range. *)
Theorem varint_roundtrip_sizes (n : Z) :
  (0 <= n <= MAX_VARINT_4 ->
   exists bs,
     writeVarint n [] = Ok bs
     /\ length bs = varint_size n
     /\ forall tl,
          readVarint {| buffer := bs ++ tl; offset := 0 |}
          = Ok (n, {| buffer := bs ++ tl; offset := length bs |}))
  /\ (MAX_VARINT_4 < n -> forall e, writeVarint n e = Err VarintTooLarge)
  /\ (forall d d' m, readVarint d = Ok (m, d') -> 0 <= m <= MAX_VARINT_4).
Proof.
  split; [|split].
  - intros Hn. destruct (varint_roundtrip n Hn) as (bs & W & R).
    exists bs. split; [exact (W [])|]. split.
    + pose proof (f_equal written (W [])) as E. cbn [written app] in E.
      rewrite <- E. clear - Hn. unfold writeVarint, varint_size.
      destruct (n <=? MAX_VARINT_1); [reflexivity|].
      destruct (n <=? MAX_VARINT_2); [reflexivity|].
      destruct (Z.leb_spec n MAX_VARINT_4); [reflexivity|lia].
    + intros tl. rewrite (R {| buffer := bs ++ tl; offset := 0 |} tl).
      * reflexivity.
      * split; [cbn; lia|reflexivity].
  - intros Hn e. unfold writeVarint, MAX_VARINT_1, MAX_VARINT_2, MAX_VARINT_4 in *.
    destruct (Z.leb_spec n 127); [lia|]. destruct (Z.leb_spec n 16383); [lia|].
    destruct (Z.leb_spec n 536870911); [lia|reflexivity].
  - intros d d' m. apply readVarint_range.
Qed.

(** *** Decoding arbitrary bytes *)

(** X8.  On any byte sequence the decoder returns a
    value, having stayed inside the buffer, or throws one of its own four
    errors (underflow, unknown type, invalid varint, non-string object
    key); the recursion always ends. *)
Theorem decodeBuffer_total (buf : list byte) :
  match decodeBuffer buf with
  | Ok (_, d) => buffer d = buf /\ (offset d <= length buf)%nat
  | Err e => decoding_error e = true
  end.
Proof.
  unfold decodeBuffer, decoder_fuel.
  pose proof (decodeValue_outcome (S (length buf)) {| buffer := buf; offset := 0 |}) as O.
  destruct (decodeValue (S (length buf)) {| buffer := buf; offset := 0 |})
    as [[v d']|e]; cbn [outcome buffer offset] in O.
  - destruct O as [B R]. split; [assumption|lia].
  - destruct O as [O|[_ F]]; [assumption|].
    unfold remaining in F. cbn [buffer offset] in F. lia.
Qed.

(** *** Values inside a larger buffer *)

(** [decodeWithResult(buffer)]: the value and [bytesRead]. *)
Definition decodeWithResult (buf : list byte) : result (value * nat) :=
  '(v, d) <- decodeBuffer buf ;; Ok (v, offset d).

(** [decodeAt(buffer, offset)]. *)
Definition decodeAt (buf : list byte) (start : nat) : result (value * nat) :=
  '(v, d) <- decodeValue (decoder_fuel buf) {| buffer := buf; offset := start |} ;;
  Ok (v, (offset d - start)%nat).

Lemma decode_inside (v : value) (encoded front back : list byte) :
  supported v = true -> encode v = Ok encoded ->
  decodeAt (front ++ encoded ++ back) (length front) = Ok (v, length encoded)
  /\ decodeWithResult (encoded ++ back) = Ok (v, length encoded).
Proof.
  intros Hs E. destruct (supported_good v Hs) as (bs & W & _ & D).
  unfold encode in E. rewrite (W []) in E. cbn [app] in E.
  assert (bs = encoded) by congruence. subst bs. clear E. split.
  - unfold decodeAt, decoder_fuel.
    rewrite (D _ {| buffer := front ++ encoded ++ back; offset := length front |} back).
    + cbn [bind skip at_offset offset]. do 2 f_equal. lia.
    + rewrite !length_app. lia.
    + split; cbn [buffer offset].
      * rewrite length_app. lia.
      * rewrite skipn_app, skipn_all, Nat.sub_diag. reflexivity.
  - unfold decodeWithResult, decodeBuffer, decoder_fuel.
    rewrite (D _ {| buffer := encoded ++ back; offset := 0 |} back).
    + reflexivity.
    + rewrite length_app. lia.
    + split; [cbn; lia|reflexivity].
Qed.

(** X9.  The encoding of a supported value is decoded
    from inside a larger buffer: [decodeAt] at the place where it starts,
    and [decodeWithResult] when it comes first, return the value and, as
    [bytesRead], the length of the encoding, whatever follows it. *)
Theorem decodeAt_encoded (v : value) (encoded front back : list byte) :
  supported v = true -> encode v = Ok encoded ->
  decodeAt (front ++ encoded ++ back) (length front) = Ok (v, length encoded)
  /\ decodeWithResult (encoded ++ back) = Ok (v, length encoded).
Proof. exact (decode_inside v encoded front back). Qed.

(** X10.  No encoding of a supported value is the
    beginning of the encoding of another: if one encoding starts with
    another, the two values are equal and nothing follows. *)
Theorem encode_prefix_free (v1 v2 : value) (b1 b2 rest : list byte) :
  supported v1 = true -> supported v2 = true ->
  encode v1 = Ok b1 -> encode v2 = Ok b2 ->
  b2 = b1 ++ rest -> v1 = v2 /\ rest = [].
Proof.
  intros S1 S2 E1 E2 P.
  destruct (decode_inside v1 b1 [] rest S1 E1) as [_ D1].
  destruct (decode_inside v2 b2 [] [] S2 E2) as [_ D2].
  rewrite app_nil_r, P, D1 in D2. injection D2 as Ev El.
  split; [assumption|].
  rewrite length_app in El. destruct rest; [reflexivity|cbn [length] in El; lia].
Qed.

(** *** Identifiers as values *)

(** X11.  [encodeUUID] writes the UUID tag and the 16
    bytes, which [decode] returns as a byte array; with any other length it
    throws. *)
Theorem encodeUUID_roundtrip (id : list byte) :
  (length id = 16%nat ->
   encodeUUID id [] = Ok (z2b BinaryType.UUID :: id)
   /\ decode (z2b BinaryType.UUID :: id) = Ok (VBinary id))
  /\ (length id <> 16%nat -> forall e, encodeUUID id e = Err UuidLength).
Proof.
  unfold encodeUUID, Uuid.UUID_SIZE. split.
  - intros L. rewrite L. cbn [Nat.eqb negb]. split; [reflexivity|].
    unfold decode, decodeBuffer, decoder_fuel. cbn [length decodeValue].
    unfold readUint8 at 1. cbn [buffer offset length Nat.leb bind Uuid.byte_at nth_error].
    rewrite b2z_z2b.
    change (BinaryType.UUID mod 256) with 0x70.
    cbn [Z.eqb BinaryType.NULL BinaryType.UNDEFINED].
    unfold decodeUUID, take, Uuid.UUID_SIZE. cbn [at_offset buffer offset length Nat.add].
    rewrite L. cbn [Nat.ltb Nat.leb bind].
    unfold slice. cbn [skipn Nat.sub]. rewrite <- L, firstn_all. reflexivity.
  - intros N e. destruct (Nat.eqb_spec (length id) 16); [contradiction|reflexivity].
Qed.

Lemma varint_roundtrip_sizes_witness :
  0 <= 300 <= MAX_VARINT_4
  /\ exists bs,
       writeVarint 300 [] = Ok bs
       /\ length bs = 2%nat
       /\ forall tl,
            readVarint {| buffer := bs ++ tl; offset := 0 |}
            = Ok (300, {| buffer := bs ++ tl; offset := length bs |}).
Proof.
  split; [unfold MAX_VARINT_4; lia|].
  apply (proj1 (varint_roundtrip_sizes 300)). unfold MAX_VARINT_4. lia.
Defined.

Lemma decodeAt_encoded_witness :
  supported complex_data = true
  /\ exists encoded,
       encode complex_data = Ok encoded
       /\ decodeAt ([x00] ++ encoded ++ [xff]) 1 = Ok (complex_data, length encoded).
Proof.
  split; [reflexivity|].
  exists (written (encode complex_data)). split; [reflexivity|].
  apply (decodeAt_encoded complex_data (written (encode complex_data)) [x00] [xff]);
    reflexivity.
Defined.

Lemma encode_prefix_free_witness :
  supported (VString (str "a")) = true
  /\ encode (VString (str "a")) = Ok [x30; x01; x61]
  /\ (VString (str "a") = VString (str "a") /\ @nil byte = []).
Proof.
  split; [reflexivity|]. split; [reflexivity|].
  apply (encode_prefix_free (VString (str "a")) (VString (str "a"))
           [x30; x01; x61] [x30; x01; x61] []); reflexivity.
Defined.

Lemma encodeUUID_roundtrip_witness :
  length Uuid.sample_uuid = 16%nat
  /\ encodeUUID Uuid.sample_uuid [] = Ok (z2b BinaryType.UUID :: Uuid.sample_uuid)
  /\ decode (z2b BinaryType.UUID :: Uuid.sample_uuid) = Ok (VBinary Uuid.sample_uuid).
Proof.
  split; [reflexivity|].
  apply (proj1 (encodeUUID_roundtrip Uuid.sample_uuid)). reflexivity.
Defined.

End Codec.

(** ** db/core/index.ts: the B-tree index

    Nodes are mutated in place by the source; here every operation returns
    the node it leaves behind.  Keys are [Uint8Array]s compared with
    [compareUUID]. *)

Module BTree.
Import Bytes.

Definition key : Type := list byte.

Section Index.
Variable T : Type.

(** [IndexNode<T>]: [children] is [null] in a leaf. *)
Local Unset Elimination Schemes.
Inductive node : Type :=
| Node (keys : list key) (values : list T) (children : option (list node)).
Local Set Elimination Schemes.

Definition keys (n : node) : list key := let 'Node ks _ _ := n in ks.
Definition values (n : node) : list T := let 'Node _ vs _ := n in vs.
Definition children (n : node) : option (list node) := let 'Node _ _ cs := n in cs.

Definition DEFAULT_ORDER : Z := 64.

Record BTreeIndex : Type := {
  root : node;
  order : Z;
  size : Z
}.

Definition createNode : node := Node [] [] None.

(** [new BTreeIndex(order)]. *)
Definition create (order : Z) : BTreeIndex :=
  {| root := createNode; order := order; size := 0 |}.

Definition getSize (t : BTreeIndex) : Z := size t.

(** The scan that opens [searchNode], [insertNode] and [deleteNode]: the
    first index whose key is not below [key]. *)
Fixpoint position (ks : list key) (k : key) : nat :=
  match ks with
  | [] => O
  | nodeKey :: rest =>
      if Uuid.compareUUID k nodeKey <=? 0 then O else S (position rest k)
  end.

(** [i < node.keys.length && compareUUID(key, node.keys[i]) === 0]. *)
Definition found_at (ks : list key) (i : nat) (k : key) : bool :=
  match nth_error ks i with
  | Some currentKey => Uuid.compareUUID k currentKey =? 0
  | None => false
  end.

Fixpoint searchNode (n : node) (k : key) : option T :=
  let 'Node ks vs cs := n in
  let i := position ks k in
  if found_at ks i k then nth_error vs i
  else
    match cs with
    | None => None
    | Some cs =>
        (* node.children[i], then the recursive call *)
        (fix child (cs : list node) (i : nat) {struct cs} : option T :=
           match cs, i with
           | [], _ => None
           | c :: _, O => searchNode c k
           | _ :: cs', S i' => child cs' i'
           end) cs i
    end.

Definition get (t : BTreeIndex) (k : key) : option T := searchNode (root t) k.

(** [array.splice(i, 0, x)] and [array[i] = x]. *)
Definition splice_in {A : Type} (l : list A) (i : nat) (x : A) : list A :=
  firstn i l ++ x :: skipn i l.

Fixpoint assign_at {A : Type} (l : list A) (i : nat) (x : A) : list A :=
  match l, i with
  | [], _ => []
  | _ :: t, O => x :: t
  | h :: t, S j => h :: assign_at t j x
  end.

(** What a split hands to the parent. *)
Record promoted : Type := { p_key : key; p_value : T; p_right : node }.

Definition splitLeaf (ks : list key) (vs : list T) : result (node * promoted) :=
  let mid := (length ks / 2)%nat in
  let right_keys := skipn mid ks in
  let right_values := skipn mid vs in
  match right_keys, right_values with
  | firstKey :: _, firstValue :: _ =>
      Ok (Node (firstn mid ks) (firstn mid vs) None,
          {| p_key := firstKey; p_value := firstValue;
             p_right := Node right_keys right_values None |})
  | _, _ => Err SplitEmpty
  end.

Definition splitInternal (ks : list key) (vs : list T) (cs : list node)
  : result (node * promoted) :=
  let mid := (length ks / 2)%nat in
  match nth_error ks mid, nth_error vs mid with
  | Some promoteKey, Some promoteValue =>
      Ok (Node (removelast (firstn (mid + 1) ks)) (removelast (firstn (mid + 1) vs))
               (Some (firstn (mid + 1) cs)),
          {| p_key := promoteKey; p_value := promoteValue;
             p_right := Node (skipn (mid + 1) ks) (skipn (mid + 1) vs)
                             (Some (skipn (mid + 1) cs)) |})
  | _, _ => Err SplitEmpty
  end.

(** The outcome of [insertNode]: the node as it is left, the [size] field
    of the index as it is left, and the split, if any. *)
Definition inserted : Type := (node * Z * option promoted)%type.

Fixpoint insertNode (ord : Z) (n : node) (k : key) (v : T) (sz : Z) {struct n}
  : result inserted :=
  let 'Node ks vs cs := n in
  let i := position ks k in
  if found_at ks i k then
    Ok (Node ks (assign_at vs i v) cs, sz - 1, None)
  else
    match cs with
    | None =>
        let ks' := splice_in ks i k in
        let vs' := splice_in vs i v in
        if ord <=? Z.of_nat (length ks') then
          '(lnode, p) <- splitLeaf ks' vs' ;; Ok (lnode, sz, Some p)
        else Ok (Node ks' vs' None, sz, None)
    | Some cs =>
        (* the recursive call on node.children[i]; [None] when that child
           is undefined *)
        r <- (fix child (cs : list node) (i : nat) {struct cs}
                : result (option (list node * Z * option promoted)) :=
                match cs, i with
                | [], _ => Ok None
                | c :: cs', O =>
                    '(c', sz', p) <- insertNode ord c k v sz ;;
                    Ok (Some (c' :: cs', sz', p))
                | c :: cs', S i' =>
                    r <- child cs' i' ;;
                    match r with
                    | Some (cs'', sz', p) => Ok (Some (c :: cs'', sz', p))
                    | None => Ok None
                    end
                end) cs i ;;
        match r with
        | None => Ok (n, sz, None)
        | Some (cs', sz', None) => Ok (Node ks vs (Some cs'), sz', None)
        | Some (cs', sz', Some p) =>
            let ks' := splice_in ks i (p_key p) in
            let vs' := splice_in vs i (p_value p) in
            let cs'' := splice_in cs' (i + 1) (p_right p) in
            if ord <=? Z.of_nat (length ks') then
              '(lnode, q) <- splitInternal ks' vs' cs'' ;; Ok (lnode, sz', Some q)
            else Ok (Node ks' vs' (Some cs''), sz', None)
        end
    end.

Definition set (t : BTreeIndex) (k : key) (v : T) : result BTreeIndex :=
  '(n, sz, p) <- insertNode (order t) (root t) k v (size t) ;;
  let newRoot :=
    match p with
    | Some p => Node [p_key p] [p_value p] (Some [n; p_right p])
    | None => n
    end in
  Ok {| root := newRoot; order := order t; size := sz + 1 |}.

Fixpoint findMax (n : node) : result (key * T) :=
  let 'Node ks vs cs := n in
  match cs with
  | None =>
      let lastIdx := (length ks - 1)%nat in
      match ks, nth_error ks lastIdx, nth_error vs lastIdx with
      | _ :: _, Some lastKey, Some lastValue => Ok (lastKey, lastValue)
      | _, _, _ => Err EmptyNode
      end
  | Some cs =>
      (* node.children[node.children.length - 1] *)
      (fix last_child (cs : list node) {struct cs} : result (key * T) :=
         match cs with
         | [] => Err EmptyNode
         | [c] => findMax c
         | _ :: cs' => last_child cs'
         end) cs
  end.

(** [array.splice(i, 1)]. *)
Definition splice_out {A : Type} (l : list A) (i : nat) : list A :=
  firstn i l ++ skipn (S i) l.

Fixpoint deleteNode (n : node) (k : key) {struct n} : result (node * bool) :=
  let 'Node ks vs cs := n in
  let i := position ks k in
  match cs with
  | None =>
      if found_at ks i k then Ok (Node (splice_out ks i) (splice_out vs i) None, true)
      else Ok (n, false)
  | Some cs =>
      if found_at ks i k then
        (* swap in the predecessor, then delete it below *)
        r <- (fix child (cs : list node) (j : nat) {struct cs}
                : result (option (list node * key * T * bool)) :=
                match cs, j with
                | [], _ => Ok None
                | c :: cs', O =>
                    '(pk, pv) <- findMax c ;;
                    '(c', deleted) <- deleteNode c pk ;;
                    Ok (Some (c' :: cs', pk, pv, deleted))
                | c :: cs', S j' =>
                    r <- child cs' j' ;;
                    match r with
                    | Some (cs'', pk, pv, deleted) => Ok (Some (c :: cs'', pk, pv, deleted))
                    | None => Ok None
                    end
                end) cs i ;;
        match r with
        | None => Ok (n, false)
        | Some (cs', pk, pv, deleted) =>
            Ok (Node (assign_at ks i pk) (assign_at vs i pv) (Some cs'), deleted)
        end
      else
        r <- (fix child (cs : list node) (j : nat) {struct cs}
                : result (option (list node * bool)) :=
                match cs, j with
                | [], _ => Ok None
                | c :: cs', O =>
                    '(c', deleted) <- deleteNode c k ;;
                    Ok (Some (c' :: cs', deleted))
                | c :: cs', S j' =>
                    r <- child cs' j' ;;
                    match r with
                    | Some (cs'', deleted) => Ok (Some (c :: cs'', deleted))
                    | None => Ok None
                    end
                end) cs i ;;
        match r with
        | None => Ok (n, false)
        | Some (cs', deleted) => Ok (Node ks vs (Some cs'), deleted)
        end
  end.

Definition delete (t : BTreeIndex) (k : key) : result (BTreeIndex * bool) :=
  '(n, found) <- deleteNode (root t) k ;;
  let newRoot :=
    if found then
      match n with
      | Node [] _ (Some (firstChild :: _)) => firstChild
      | _ => n
      end
    else n in
  Ok ({| root := newRoot; order := order t;
         size := if found then size t - 1 else size t |}, found).

(** The keys and values of a node side by side, as far as both exist. *)
Fixpoint pairs (ks : list key) (vs : list T) : list (key * T) :=
  match ks, vs with
  | k :: ks', v :: vs' => (k, v) :: pairs ks' vs'
  | _, _ => []
  end.

(** [iterateNode]: what the generator yields, in order. *)
Fixpoint iterateNode (n : node) : list (key * T) :=
  let 'Node ks vs cs := n in
  match cs with
  | None => pairs ks vs
  | Some cs =>
      (fix loop (cs : list node) (ks : list key) (vs : list T) {struct cs}
         : list (key * T) :=
         match cs with
         | [] => pairs ks vs
         | c :: cs' =>
             match ks with
             | [] =>
                 (* after the loop: the last child, when there are more
                    children than keys *)
                 (fix last_child (l : list node) {struct l} : list (key * T) :=
                    match l with
                    | [] => []
                    | c :: l' =>
                        match l' with
                        | [] => iterateNode c
                        | _ :: _ => last_child l'
                        end
                    end) cs
             | k :: ks' =>
                 iterateNode c
                 ++ match vs with
                    | v :: vs' => (k, v) :: loop cs' ks' vs'
                    | [] => loop cs' ks' []
                    end
             end
         end) cs ks vs
  end.

Definition entries (t : BTreeIndex) : list (key * T) := iterateNode (root t).

Definition clear (t : BTreeIndex) : BTreeIndex :=
  {| root := createNode; order := order t; size := 0 |}.

End Index.

Arguments Node {T} keys values children.
Arguments root {T} b.
Arguments order {T} b.
Arguments size {T} b.
Arguments create {T} order.
Arguments getSize {T} t.
Arguments get {T} t k.
Arguments set {T} t k v.
Arguments delete {T} t k.
Arguments entries {T} t.
Arguments clear {T} t.
Arguments searchNode {T} n k.
Arguments insertNode {T} ord n k v sz.
Arguments deleteNode {T} n k.
Arguments findMax {T} n.
Arguments iterateNode {T} n.
Arguments pairs {T} ks vs.
Arguments splitLeaf {T} ks vs.
Arguments splitInternal {T} ks vs cs.
Arguments p_key {T} p.
Arguments p_value {T} p.
Arguments p_right {T} p.

(** *** The loops of the node operations, named *)

Section Theory.
Context {T : Type}.

Definition search_child (k : key) : list (node T) -> nat -> option T :=
  fix child (cs : list (node T)) (i : nat) {struct cs} : option T :=
    match cs, i with
    | [], _ => None
    | c :: _, O => searchNode c k
    | _ :: cs', S i' => child cs' i'
    end.

Lemma searchNode_unfold (ks : list key) (vs : list T)
      (cs : option (list (node T))) (k : key) :
  searchNode (Node ks vs cs) k =
  let i := position ks k in
  if found_at ks i k then nth_error vs i
  else match cs with
       | None => None
       | Some cs => search_child k cs i
       end.
Proof. destruct cs; reflexivity. Qed.

Lemma search_child_at (k : key) (LC : list (node T)) (c : node T) (RC : list (node T)) :
  search_child k (LC ++ c :: RC) (length LC) = searchNode c k.
Proof. induction LC as [|c0 LC IH]; [reflexivity|exact IH]. Qed.

Definition insert_child (ord : Z) (k : key) (v : T) (sz : Z)
  : list (node T) -> nat -> result (option (list (node T) * Z * option (promoted T))) :=
  fix child (cs : list (node T)) (i : nat) {struct cs} :=
    match cs, i with
    | [], _ => Ok None
    | c :: cs', O =>
        '(c', sz', p) <- insertNode ord c k v sz ;;
        Ok (Some (c' :: cs', sz', p))
    | c :: cs', S i' =>
        r <- child cs' i' ;;
        match r with
        | Some (cs'', sz', p) => Ok (Some (c :: cs'', sz', p))
        | None => Ok None
        end
    end.

Lemma insertNode_unfold (ord : Z) (ks : list key) (vs : list T)
      (cs : option (list (node T))) (k : key) (v : T) (sz : Z) :
  insertNode ord (Node ks vs cs) k v sz =
  let i := position ks k in
  if found_at ks i k then Ok (Node ks (assign_at vs i v) cs, sz - 1, None)
  else
    match cs with
    | None =>
        let ks' := splice_in ks i k in
        let vs' := splice_in vs i v in
        if ord <=? Z.of_nat (length ks') then
          '(lnode, p) <- splitLeaf ks' vs' ;; Ok (lnode, sz, Some p)
        else Ok (Node ks' vs' None, sz, None)
    | Some cs =>
        r <- insert_child ord k v sz cs i ;;
        match r with
        | None => Ok (Node ks vs (Some cs), sz, None)
        | Some (cs', sz', None) => Ok (Node ks vs (Some cs'), sz', None)
        | Some (cs', sz', Some p) =>
            let ks' := splice_in ks i (p_key p) in
            let vs' := splice_in vs i (p_value p) in
            let cs'' := splice_in cs' (i + 1) (p_right p) in
            if ord <=? Z.of_nat (length ks') then
              '(lnode, q) <- splitInternal ks' vs' cs'' ;; Ok (lnode, sz', Some q)
            else Ok (Node ks' vs' (Some cs''), sz', None)
        end
    end.
Proof. destruct cs; reflexivity. Qed.

Lemma insert_child_at (ord : Z) (k : key) (v : T) (sz : Z)
      (LC : list (node T)) (c : node T) (RC : list (node T)) :
  insert_child ord k v sz (LC ++ c :: RC) (length LC) =
  ('(c', sz', p) <- insertNode ord c k v sz ;; Ok (Some (LC ++ c' :: RC, sz', p))).
Proof.
  induction LC as [|c0 LC IH]; [reflexivity|].
  cbn [app length insert_child]. fold (insert_child ord k v sz). rewrite IH.
  destruct (insertNode ord c k v sz) as [[[c' sz'] p]|e]; reflexivity.
Qed.

Definition iterate_loop : list (node T) -> list key -> list T -> list (key * T) :=
  fix loop (cs : list (node T)) (ks : list key) (vs : list T) {struct cs} :=
    match cs with
    | [] => pairs ks vs
    | c :: cs' =>
        match ks with
        | [] =>
            (fix last_child (l : list (node T)) {struct l} : list (key * T) :=
               match l with
               | [] => []
               | c :: l' =>
                   match l' with
                   | [] => iterateNode c
                   | _ :: _ => last_child l'
                   end
               end) cs
        | k :: ks' =>
            iterateNode c
            ++ match vs with
               | v :: vs' => (k, v) :: loop cs' ks' vs'
               | [] => loop cs' ks' []
               end
        end
    end.

Lemma iterateNode_unfold (ks : list key) (vs : list T) (cs : option (list (node T))) :
  iterateNode (Node ks vs cs) =
  match cs with
  | None => pairs ks vs
  | Some cs => iterate_loop cs ks vs
  end.
Proof. destruct cs; reflexivity. Qed.

(** Induction over nodes, through the children. *)
Lemma node_ind (P : node T -> Prop) :
  (forall ks vs, P (Node ks vs None)) ->
  (forall ks vs cs, Forall P cs -> P (Node ks vs (Some cs))) ->
  forall n, P n.
Proof.
  intros Hleaf Hint.
  fix IH 1. intros [ks vs [cs|]]; [|apply Hleaf].
  apply Hint. induction cs as [|c cs IHcs]; constructor; [apply IH|exact IHcs].
Qed.

End Theory.

(** *** Well-formed, ordered trees *)

Section Correctness.
Context {T : Type}.

(** An identifier as a 128-bit number. *)
Definition rank (k : key) : Z := be_value k.

Definition key16 (k : key) : Prop := length k = 16%nat.

(** As many values as keys, one more child than keys, 16-byte keys. *)
Fixpoint WF (n : node T) : Prop :=
  let 'Node ks vs cs := n in
  length vs = length ks /\ Forall key16 ks
  /\ match cs with
     | None => True
     | Some cs =>
         length cs = S (length ks)
         /\ (fix all (l : list (node T)) : Prop :=
               match l with
               | [] => True
               | c :: l' => WF c /\ all l'
               end) cs
     end.

Lemma WF_leaf (ks : list key) (vs : list T) :
  WF (Node ks vs None) <-> length vs = length ks /\ Forall key16 ks.
Proof. cbn. tauto. Qed.

Lemma WF_internal (ks : list key) (vs : list T) (cs : list (node T)) :
  WF (Node ks vs (Some cs)) <->
  length vs = length ks /\ Forall key16 ks
  /\ length cs = S (length ks) /\ Forall WF cs.
Proof.
  cbn [WF].
  assert (E : forall l : list (node T),
            (fix all (l : list (node T)) : Prop :=
               match l with
               | [] => True
               | c :: l' => WF c /\ all l'
               end) l <-> Forall WF l).
  { induction l as [|c l IH]; [split; constructor|].
    rewrite Forall_cons_iff, IH. reflexivity. }
  rewrite E. tauto.
Qed.

(** Entries in non-decreasing order of their keys. *)
Fixpoint ordered (l : list (key * T)) : Prop :=
  match l with
  | [] => True
  | a :: l' => (forall b, In b l' -> rank (fst a) <= rank (fst b)) /\ ordered l'
  end.

Lemma ordered_app (l1 l2 : list (key * T)) :
  ordered (l1 ++ l2) <->
  ordered l1 /\ ordered l2
  /\ forall a b, In a l1 -> In b l2 -> rank (fst a) <= rank (fst b).
Proof.
  induction l1 as [|x l1 IH]; cbn [app ordered].
  - split; [intros H; repeat split; [assumption|intros a b []]|tauto].
  - rewrite IH. split.
    + intros (Hx & O1 & O2 & C). repeat split; try assumption.
      * intros b Hb. apply Hx. apply in_or_app. now left.
      * intros a b [<-|Ha] Hb; [apply Hx; apply in_or_app; now right|now apply C].
    + intros ((Hx & O1) & O2 & C). repeat split; try assumption.
      * intros b Hb. apply in_app_or in Hb as [Hb|Hb]; [now apply Hx|].
        apply C; [now left|assumption].
      * intros a b Ha Hb. apply C; [now right|assumption].
Qed.

Lemma compare_le (a b : key) :
  key16 a -> key16 b -> (Uuid.compareUUID a b <=? 0) = (rank a <=? rank b).
Proof.
  intros Ha Hb. destruct (Uuid.compareUUID_spec a b Ha Hb) as [L _].
  unfold rank. destruct (Z.leb_spec (Uuid.compareUUID a b) 0);
    destruct (Z.leb_spec (be_value a) (be_value b)); try reflexivity; lia.
Qed.

Lemma compare_eq (a b : key) :
  key16 a -> key16 b -> (Uuid.compareUUID a b =? 0) = true <-> a = b.
Proof.
  intros Ha Hb. destruct (Uuid.compareUUID_spec a b Ha Hb) as [_ E].
  rewrite Z.eqb_eq. exact E.
Qed.

Lemma rank_inj (a b : key) : key16 a -> key16 b -> rank a = rank b -> a = b.
Proof.
  unfold key16, rank. intros Ha Hb. apply Uuid.be_value_inj. congruence.
Qed.

(** Where the scan stops: the keys before are below [k], the key at the
    position, if any, is not. *)
Lemma position_split (ks : list key) (k : key) :
  Forall key16 ks -> key16 k ->
  exists L R,
    ks = L ++ R /\ position ks k = length L
    /\ (forall x, In x L -> rank x < rank k)
    /\ match R with
       | [] => True
       | r :: _ => rank k <= rank r
       end.
Proof.
  intros F Hk. induction F as [|x ks Hx F IH].
  - exists [], []. repeat split. intros x [].
  - cbn [position]. rewrite compare_le by assumption.
    destruct (Z.leb_spec (rank k) (rank x)) as [Le|Gt].
    + exists [], (x :: ks). repeat split; [intros y []|assumption].
    + destruct IH as (L & R & E & P & HL & HR).
      exists (x :: L), R. subst ks. repeat split.
      * cbn [length]. now rewrite P.
      * intros y [<-|Hy]; [assumption|now apply HL].
      * assumption.
Qed.

Lemma split_at {A : Type} (l : list A) (i : nat) :
  (i <= length l)%nat -> exists l1 l2, l = l1 ++ l2 /\ length l1 = i.
Proof.
  intros H. exists (firstn i l), (skipn i l). split.
  - symmetry. apply firstn_skipn.
  - rewrite length_firstn. lia.
Qed.

Lemma firstn_exact {A : Type} (l1 l2 : list A) : firstn (length l1) (l1 ++ l2) = l1.
Proof.
  rewrite firstn_app, Nat.sub_diag, firstn_all. cbn [firstn]. apply app_nil_r.
Qed.

Lemma skipn_exact {A : Type} (l1 l2 : list A) : skipn (length l1) (l1 ++ l2) = l2.
Proof.
  rewrite skipn_app, Nat.sub_diag, skipn_all. reflexivity.
Qed.

Lemma nth_error_exact {A : Type} (l1 l2 : list A) :
  nth_error (l1 ++ l2) (length l1) = nth_error l2 0.
Proof.
  rewrite nth_error_app2 by lia. now rewrite Nat.sub_diag.
Qed.

Lemma splice_in_exact {A : Type} (l1 l2 : list A) (x : A) :
  splice_in (l1 ++ l2) (length l1) x = l1 ++ x :: l2.
Proof. unfold splice_in. now rewrite firstn_exact, skipn_exact. Qed.

Lemma assign_at_same {A : Type} (l : list A) (i : nat) (x : A) :
  nth_error l i = Some x -> assign_at l i x = l.
Proof.
  revert i. induction l as [|h l IH]; intros [|i] H; try discriminate.
  - cbn in H. injection H as ->. reflexivity.
  - cbn in *. now rewrite IH.
Qed.

(** *** The entries of a node around one of its children *)

Fixpoint before (L : list key) (LV : list T) (LC : list (node T)) : list (key * T) :=
  match L, LV, LC with
  | k :: L', v :: LV', c :: LC' => iterateNode c ++ (k, v) :: before L' LV' LC'
  | _, _, _ => []
  end.

Fixpoint after (R : list key) (RV : list T) (RC : list (node T)) : list (key * T) :=
  match R, RV, RC with
  | k :: R', v :: RV', c :: RC' => (k, v) :: iterateNode c ++ after R' RV' RC'
  | _, _, _ => []
  end.

Lemma iterate_loop_cons (c : node T) (cs : list (node T)) (k : key) (ks : list key)
      (v : T) (vs : list T) :
  iterate_loop (c :: cs) (k :: ks) (v :: vs)
  = iterateNode c ++ (k, v) :: iterate_loop cs ks vs.
Proof. reflexivity. Qed.

Lemma iterate_loop_last (c : node T) (vs : list T) :
  iterate_loop [c] [] vs = iterateNode c.
Proof. reflexivity. Qed.

Lemma iterate_loop_after (c : node T) (R : list key) (RV : list T) (RC : list (node T)) :
  length RC = length R -> length RV = length R ->
  iterate_loop (c :: RC) R RV = iterateNode c ++ after R RV RC.
Proof.
  revert c RV RC. induction R as [|k R IH]; intros c RV RC HC HV.
  - destruct RC; [|discriminate]. destruct RV; [|discriminate].
    rewrite iterate_loop_last. cbn [after]. now rewrite app_nil_r.
  - destruct RC as [|c1 RC]; [discriminate|]. destruct RV as [|v RV]; [discriminate|].
    cbn [length] in HC, HV. injection HC as HC. injection HV as HV.
    rewrite iterate_loop_cons. cbn [after]. now rewrite IH.
Qed.

Lemma iterate_loop_around (L : list key) (LV : list T) (LC : list (node T))
      (c : node T) (R : list key) (RV : list T) (RC : list (node T)) :
  length LC = length L -> length LV = length L ->
  length RC = length R -> length RV = length R ->
  iterate_loop (LC ++ c :: RC) (L ++ R) (LV ++ RV)
  = before L LV LC ++ iterateNode c ++ after R RV RC.
Proof.
  revert LV LC. induction L as [|k L IH]; intros LV LC HC HV HRC HRV.
  - destruct LC; [|discriminate]. destruct LV; [|discriminate].
    cbn [app before]. now apply iterate_loop_after.
  - destruct LC as [|c0 LC]; [discriminate|]. destruct LV as [|v LV]; [discriminate|].
    cbn [length] in HC, HV. injection HC as HC. injection HV as HV.
    cbn [app before]. rewrite iterate_loop_cons.
    rewrite IH by assumption. now rewrite <- app_assoc.
Qed.

Lemma pairs_app (L : list key) (LV : list T) (R : list key) (RV : list T) :
  length LV = length L -> pairs (L ++ R) (LV ++ RV) = pairs L LV ++ pairs R RV.
Proof.
  revert LV. induction L as [|k L IH]; intros [|v LV] H; try discriminate.
  - reflexivity.
  - cbn [length] in H. injection H as H. cbn [app pairs]. now rewrite IH.
Qed.

Lemma In_pairs_key (ks : list key) (vs : list T) (e : key * T) :
  In e (pairs ks vs) -> In (fst e) ks.
Proof.
  revert vs. induction ks as [|k ks IH]; intros [|v vs] H; try contradiction.
  cbn [pairs] in H. destruct H as [<-|H]; [now left|right; eauto].
Qed.

(** Every entry before the child is at most one of the keys before it. *)
Lemma before_bound (L : list key) (LV : list T) (LC : list (node T)) (e : key * T) :
  ordered (before L LV LC) -> In e (before L LV LC) ->
  exists x, In x L /\ rank (fst e) <= rank x.
Proof.
  revert LV LC. induction L as [|k L IH]; intros LV LC O H; [contradiction|].
  destruct LV as [|v LV]; [contradiction|]. destruct LC as [|c LC]; [contradiction|].
  cbn [before] in *. apply ordered_app in O as (_ & O2 & C).
  apply in_app_or in H as [H|[<-|H]].
  - exists k. split; [now left|]. apply (C e (k, v)); [assumption|now left].
  - exists k. split; [now left|cbn [fst]; lia].
  - destruct O2 as [_ O2]. destruct (IH LV LC O2 H) as (x & Hx & Le).
    exists x. split; [now right|assumption].
Qed.

Lemma found_at_exact (L R : list key) (k : key) :
  found_at (L ++ R) (length L) k
  = match R with
    | [] => false
    | r :: _ => Uuid.compareUUID k r =? 0
    end.
Proof. unfold found_at. rewrite nth_error_exact. now destruct R. Qed.

(** A leaf cut at the position of [k]. *)
Lemma leaf_parts (ks : list key) (vs : list T) (k : key) :
  length vs = length ks -> Forall key16 ks -> key16 k ->
  exists L R LV RV,
    ks = L ++ R /\ vs = LV ++ RV
    /\ length LV = length L /\ length RV = length R
    /\ position ks k = length L
    /\ (forall x, In x L -> rank x < rank k)
    /\ match R with
       | [] => True
       | r :: _ => rank k <= rank r
       end.
Proof.
  intros Hl F Hk.
  destruct (position_split ks k F Hk) as (L & R & E & P & HL & HR).
  destruct (split_at vs (length L)) as (LV & RV & EV & HLV).
  { rewrite Hl, E, length_app. lia. }
  exists L, R, LV, RV. repeat split; try assumption.
  subst ks vs. rewrite !length_app in Hl. lia.
Qed.

(** An internal node cut at the position of [k], around the child the
    descent takes. *)
Lemma internal_parts (ks : list key) (vs : list T) (cs : list (node T)) (k : key) :
  WF (Node ks vs (Some cs)) -> key16 k ->
  exists L R LV RV LC c RC,
    ks = L ++ R /\ vs = LV ++ RV /\ cs = LC ++ c :: RC
    /\ length LV = length L /\ length RV = length R
    /\ length LC = length L /\ length RC = length R
    /\ position ks k = length L
    /\ (forall x, In x L -> rank x < rank k)
    /\ match R with
       | [] => True
       | r :: _ => rank k <= rank r
       end.
Proof.
  intros W Hk. apply WF_internal in W as (Hl & F & Hc & _).
  destruct (leaf_parts ks vs k Hl F Hk)
    as (L & R & LV & RV & E & EV & HLV & HRV & P & HL & HR).
  destruct (split_at cs (length L)) as (LC & RC0 & EC & HLC).
  { rewrite Hc, E, length_app. lia. }
  destruct RC0 as [|c RC].
  { exfalso. subst cs ks. rewrite app_nil_r, length_app in Hc. lia. }
  exists L, R, LV, RV, LC, c, RC. repeat split; try assumption.
  subst ks cs. rewrite !length_app in Hc. cbn [length] in Hc. lia.
Qed.

Lemma ordered_head (a : key * T) (l : list (key * T)) (b : key * T) :
  ordered (a :: l) -> In b (a :: l) -> rank (fst a) <= rank (fst b).
Proof. intros [H _] [<-|Hb]; [lia|now apply H]. Qed.

(** *** Lookup against the entries *)

Lemma search_sound (n : node T) :
  forall k v, WF n -> key16 k -> searchNode n k = Some v -> In (k, v) (iterateNode n).
Proof.
  pattern n. apply node_ind; clear n.
  - intros ks vs k v W Hk S. apply WF_leaf in W as [Hl F].
    destruct (leaf_parts ks vs k Hl F Hk)
      as (L & R & LV & RV & -> & -> & HLV & HRV & P & HL & HR).
    rewrite searchNode_unfold in S. cbv zeta in S. rewrite P, found_at_exact in S.
    destruct R as [|r R]; [discriminate|].
    destruct (Uuid.compareUUID k r =? 0) eqn:C; [|discriminate].
    apply compare_eq in C; [|assumption|exact (Forall_elt _ _ _ F)]. subst r.
    rewrite <- HLV, nth_error_exact in S.
    destruct RV as [|rv RV]; [discriminate|]. cbn in S. injection S as ->.
    rewrite iterateNode_unfold, pairs_app by assumption.
    apply in_or_app. right. now left.
  - intros ks vs cs IH k v W Hk S.
    destruct (internal_parts ks vs cs k W Hk)
      as (L & R & LV & RV & LC & c & RC & -> & -> & -> & HLV & HRV & HLC & HRC & P & HL & HR).
    apply WF_internal in W as (Hl & F & Hc & Wc).
    rewrite iterateNode_unfold, iterate_loop_around by assumption.
    rewrite searchNode_unfold in S. cbv zeta in S. rewrite P, found_at_exact in S.
    assert (Down : search_child k (LC ++ c :: RC) (length L) = Some v ->
                   In (k, v) (iterateNode c)).
    { rewrite <- HLC, search_child_at.
      apply (Forall_elt _ _ _ IH); [exact (Forall_elt _ _ _ Wc)|assumption]. }
    destruct R as [|r R].
    + apply in_or_app. right. apply in_or_app. left. now apply Down.
    + destruct (Uuid.compareUUID k r =? 0) eqn:C.
      * apply compare_eq in C; [|assumption|exact (Forall_elt _ _ _ F)]. subst r.
        rewrite <- HLV, nth_error_exact in S.
        destruct RV as [|rv RV]; [discriminate|]. cbn in S. injection S as ->.
        destruct RC as [|c1 RC]; [discriminate|].
        apply in_or_app. right. apply in_or_app. right. now left.
      * apply in_or_app. right. apply in_or_app. left. now apply Down.
Qed.

Lemma search_complete (n : node T) :
  forall k v, WF n -> ordered (iterateNode n) -> key16 k ->
    In (k, v) (iterateNode n) -> exists v', searchNode n k = Some v'.
Proof.
  pattern n. apply node_ind; clear n.
  - intros ks vs k v W O Hk I. apply WF_leaf in W as [Hl F].
    destruct (leaf_parts ks vs k Hl F Hk)
      as (L & R & LV & RV & -> & -> & HLV & HRV & P & HL & HR).
    rewrite iterateNode_unfold, pairs_app in O, I by assumption.
    rewrite searchNode_unfold. cbv zeta. rewrite P, found_at_exact.
    apply in_app_or in I as [I|I].
    { apply In_pairs_key in I. apply HL in I. cbn [fst] in I. lia. }
    destruct R as [|r R]; [contradiction|].
    destruct RV as [|rv RV]; [discriminate|].
    apply ordered_app in O as (_ & O & _).
    pose proof (ordered_head _ _ _ O I) as Le. cbn [fst] in Le.
    assert (E : r = k).
    { apply rank_inj; [exact (Forall_elt _ _ _ F)|assumption|lia]. }
    subst r. replace (Uuid.compareUUID k k =? 0) with true
      by (symmetry; now apply compare_eq).
    rewrite <- HLV, nth_error_exact. now exists rv.
  - intros ks vs cs IH k v W O Hk I.
    destruct (internal_parts ks vs cs k W Hk)
      as (L & R & LV & RV & LC & c & RC & -> & -> & -> & HLV & HRV & HLC & HRC & P & HL & HR).
    apply WF_internal in W as (Hl & F & Hc & Wc).
    rewrite iterateNode_unfold, iterate_loop_around in O, I by assumption.
    rewrite searchNode_unfold. cbv zeta. rewrite P, found_at_exact.
    apply ordered_app in O as (OB & O & _).
    apply ordered_app in O as (OC & OA & _).
    apply in_app_or in I as [I|I].
    { destruct (before_bound _ _ _ _ OB I) as (x & Hx & Le).
      apply HL in Hx. cbn [fst] in Le. lia. }
    assert (Down : In (k, v) (iterateNode c) ->
                   exists v', search_child k (LC ++ c :: RC) (length L) = Some v').
    { intros Ic. rewrite <- HLC, search_child_at.
      apply (Forall_elt _ _ _ IH) with (v := v); try assumption.
      exact (Forall_elt _ _ _ Wc). }
    destruct R as [|r R].
    + apply in_app_or in I as [I|I]; [now apply Down|].
      destruct RV, RC; contradiction.
    + destruct RV as [|rv RV]; [discriminate|]. destruct RC as [|c1 RC]; [discriminate|].
      destruct (Uuid.compareUUID k r =? 0) eqn:C.
      * rewrite <- HLV, nth_error_exact. now exists rv.
      * apply in_app_or in I as [I|I]; [now apply Down|].
        cbn [after] in OA, I.
        pose proof (ordered_head _ _ _ OA I) as Le. cbn [fst] in Le.
        assert (E : k = r).
        { apply rank_inj; [assumption|exact (Forall_elt _ _ _ F)|lia]. }
        apply compare_eq in E; [congruence|assumption|exact (Forall_elt _ _ _ F)].
Qed.

(** *** Insertion *)

(** Storing again the value a key already has leaves the node as it is. *)
Lemma insert_same (ord : Z) (n : node T) :
  forall k v sz, searchNode n k = Some v -> insertNode ord n k v sz = Ok (n, sz - 1, None).
Proof.
  pattern n. apply node_ind; clear n.
  - intros ks vs k v sz S. rewrite searchNode_unfold in S. rewrite insertNode_unfold.
    cbv zeta in *. destruct (found_at ks (position ks k) k); [|discriminate].
    now rewrite assign_at_same.
  - intros ks vs cs IH k v sz S. rewrite searchNode_unfold in S. rewrite insertNode_unfold.
    cbv zeta in *. destruct (found_at ks (position ks k) k).
    { now rewrite assign_at_same. }
    assert (C : insert_child ord k v sz cs (position ks k) = Ok (Some (cs, sz - 1, None))).
    { revert S. generalize (position ks k). induction IH as [|c cs Hc _ IHcs]; intros i S.
      - destruct i; discriminate.
      - destruct i as [|i].
        + change (searchNode c k = Some v) in S.
          change (('(c', sz', p) <- insertNode ord c k v sz ;;
                   Ok (Some (c' :: cs, sz', p))) = Ok (Some (c :: cs, sz - 1, None))).
          now rewrite (Hc k v sz S).
        + change (search_child k cs i = Some v) in S.
          change ((r <- insert_child ord k v sz cs i ;;
                   match r with
                   | Some (cs'', sz', p) => Ok (Some (c :: cs'', sz', p))
                   | None => Ok None
                   end) = Ok (Some (c :: cs, sz - 1, None))).
          now rewrite (IHcs i S). }
    rewrite C. reflexivity.
Qed.

Lemma in_insert {A : Type} (X Y : list A) (e x : A) :
  In x (X ++ e :: Y) <-> x = e \/ In x (X ++ Y).
Proof.
  rewrite !in_app_iff. cbn [In]. split.
  - intros [H|[H|H]]; auto.
  - intros [H|[H|H]]; auto.
Qed.

Lemma ordered_insert (X Y : list (key * T)) (e : key * T) :
  ordered (X ++ Y) ->
  (forall a, In a X -> rank (fst a) <= rank (fst e)) ->
  (forall b, In b Y -> rank (fst e) <= rank (fst b)) ->
  ordered (X ++ e :: Y).
Proof.
  intros O HX HY. apply ordered_app in O as (OX & OY & C).
  apply ordered_app. repeat split; try assumption.
  intros a b Ha [<-|Hb]; [now apply HX|now apply C].
Qed.

(** One part of an ordered list replaced by entries that are old ones or
    carry a key that fits between what comes before and after. *)
Lemma ordered_replace (X M M' Y : list (key * T)) (k : key) :
  ordered (X ++ M ++ Y) -> ordered M' ->
  (forall e, In e M' -> fst e = k \/ In e M) ->
  (forall a, In a X -> rank (fst a) <= rank k) ->
  (forall b, In b Y -> rank k <= rank (fst b)) ->
  ordered (X ++ M' ++ Y).
Proof.
  intros O O' Sub HX HY.
  apply ordered_app in O as (OX & O & CX).
  apply ordered_app in O as (OM & OY & CY).
  apply ordered_app. split; [assumption|]. split.
  - apply ordered_app. repeat split; try assumption.
    intros a b Ha Hb. destruct (Sub a Ha) as [E|I].
    + rewrite E. now apply HY.
    + now apply CY.
  - intros a b Ha Hb. apply in_app_or in Hb as [Hb|Hb].
    + destruct (Sub b Hb) as [E|I].
      * rewrite E. now apply HX.
      * apply CX; [assumption|]. apply in_or_app. now left.
    + apply CX; [assumption|]. apply in_or_app. now right.
Qed.

Lemma half_lt (n : nat) : (0 < n)%nat -> (n / 2 < n)%nat.
Proof. intros H. apply Nat.div_lt; lia. Qed.

(** A full leaf is cut in two; the key sent up stays at the head of the
    right half. *)
Lemma splitLeaf_spec (ks : list key) (vs : list T) :
  length vs = length ks -> Forall key16 ks -> (0 < length ks)%nat ->
  exists l q A rest,
    splitLeaf ks vs = Ok (l, q)
    /\ WF l /\ WF (p_right q) /\ key16 (p_key q)
    /\ pairs ks vs = A ++ (p_key q, p_value q) :: rest
    /\ iterateNode l = A
    /\ iterateNode (p_right q) = (p_key q, p_value q) :: rest.
Proof.
  intros Hl F Pos. unfold splitLeaf.
  pose proof (half_lt _ Pos) as Hm. remember (length ks / 2)%nat as mid eqn:Em. clear Em.
  pose proof (firstn_skipn mid ks) as EK. pose proof (firstn_skipn mid vs) as EV.
  assert (HK1 : length (firstn mid ks) = mid) by (rewrite length_firstn; lia).
  assert (HV1 : length (firstn mid vs) = mid) by (rewrite length_firstn; lia).
  assert (HK2 : length (skipn mid ks) = (length ks - mid)%nat) by apply length_skipn.
  assert (HV2 : length (skipn mid vs) = (length ks - mid)%nat)
    by (rewrite length_skipn; lia).
  revert EK EV HK1 HV1 HK2 HV2.
  generalize (firstn mid ks) (skipn mid ks) (firstn mid vs) (skipn mid vs).
  intros K1 K2 V1 V2 EK EV HK1 HV1 HK2 HV2.
  destruct K2 as [|k K2]; [cbn [length] in HK2; lia|].
  destruct V2 as [|v V2]; [cbn [length] in HV2; lia|].
  rewrite <- EK in F. apply Forall_app in F as [F1 F2].
  exists (Node K1 V1 None),
    {| p_key := k; p_value := v; p_right := Node (k :: K2) (v :: V2) None |},
    (pairs K1 V1), (pairs K2 V2).
  cbn [p_key p_value p_right]. split; [reflexivity|].
  split; [apply WF_leaf; split; [lia|assumption]|].
  split; [apply WF_leaf; split; [lia|assumption]|].
  split; [exact (Forall_inv F2)|].
  split; [|split; reflexivity].
  rewrite <- EK, <- EV. rewrite pairs_app by lia. reflexivity.
Qed.

Lemma iterate_loop_all (L : list key) (LV : list T) (LC : list (node T)) (c : node T) :
  length LC = length L -> length LV = length L ->
  iterate_loop (LC ++ [c]) L LV = before L LV LC ++ iterateNode c.
Proof.
  intros HC HV.
  pose proof (iterate_loop_around L LV LC c [] [] [] HC HV eq_refl eq_refl) as H.
  cbn [after] in H. now rewrite !app_nil_r in H.
Qed.

Lemma firstn_next {A : Type} (l1 l2 : list A) (x : A) :
  firstn (length l1 + 1) (l1 ++ x :: l2) = l1 ++ [x].
Proof.
  replace (l1 ++ x :: l2) with ((l1 ++ [x]) ++ l2) by now rewrite <- app_assoc.
  replace (length l1 + 1)%nat with (length (l1 ++ [x]))
    by (rewrite length_app; reflexivity).
  apply firstn_exact.
Qed.

Lemma skipn_next {A : Type} (l1 l2 : list A) (x : A) :
  skipn (length l1 + 1) (l1 ++ x :: l2) = l2.
Proof.
  replace (l1 ++ x :: l2) with ((l1 ++ [x]) ++ l2) by now rewrite <- app_assoc.
  replace (length l1 + 1)%nat with (length (l1 ++ [x]))
    by (rewrite length_app; reflexivity).
  apply skipn_exact.
Qed.

Lemma nth_error_at {A : Type} (l1 l2 : list A) (i : nat) :
  length l1 = i -> nth_error (l1 ++ l2) i = nth_error l2 0.
Proof. intros <-. apply nth_error_exact. Qed.

Lemma firstn_next_at {A : Type} (l1 l2 : list A) (x : A) (i : nat) :
  length l1 = i -> firstn (i + 1) (l1 ++ x :: l2) = l1 ++ [x].
Proof. intros <-. apply firstn_next. Qed.

Lemma skipn_next_at {A : Type} (l1 l2 : list A) (x : A) (i : nat) :
  length l1 = i -> skipn (i + 1) (l1 ++ x :: l2) = l2.
Proof. intros <-. apply skipn_next. Qed.

(** A full internal node is cut around its middle key, which moves up. *)
Lemma splitInternal_spec (ks : list key) (vs : list T) (cs : list (node T)) :
  WF (Node ks vs (Some cs)) -> (0 < length ks)%nat ->
  exists l q,
    splitInternal ks vs cs = Ok (l, q)
    /\ WF l /\ WF (p_right q) /\ key16 (p_key q)
    /\ iterateNode l ++ (p_key q, p_value q) :: iterateNode (p_right q)
       = iterateNode (Node ks vs (Some cs)).
Proof.
  intros W Pos. apply WF_internal in W as (Hl & F & Hc & Wc). unfold splitInternal.
  pose proof (half_lt _ Pos) as Hm. remember (length ks / 2)%nat as mid eqn:Em. clear Em.
  destruct (split_at ks mid) as (K1 & K2 & -> & HK1); [lia|]. subst mid.
  destruct (split_at vs (length K1)) as (V1 & V2 & -> & HV1); [lia|].
  destruct (split_at cs (length K1)) as (C1 & C2 & -> & HC1); [lia|].
  rewrite !length_app in *.
  destruct K2 as [|pk K2]; [cbn [length] in Hm; lia|].
  destruct V2 as [|pv V2]; [cbn [length] in Hl; lia|].
  destruct C2 as [|c C2]; [cbn [length] in Hc; lia|].
  destruct C2 as [|c2 C2]; [cbn [length] in Hc; lia|].
  cbn [length] in Hl, Hc.
  rewrite nth_error_exact, (nth_error_at V1 _ _ HV1). cbn [nth_error].
  rewrite firstn_next, skipn_next.
  rewrite (firstn_next_at V1 _ _ _ HV1), (skipn_next_at V1 _ _ _ HV1).
  rewrite (firstn_next_at C1 _ _ _ HC1), (skipn_next_at C1 _ _ _ HC1).
  rewrite !removelast_last.
  apply Forall_app in F as [F1 F2]. apply Forall_app in Wc as [W1 W2].
  eexists _, _. split; [reflexivity|]. cbn [p_key p_value p_right].
  split.
  { apply WF_internal. repeat split; try assumption; try lia.
    - rewrite length_app. cbn [length]. lia.
    - apply Forall_app. split; [assumption|]. constructor; [exact (Forall_inv W2)|constructor]. }
  split.
  { apply WF_internal. repeat split; try lia.
    - exact (Forall_inv_tail F2).
    - cbn [length]. lia.
    - exact (Forall_inv_tail W2). }
  split; [exact (Forall_inv F2)|].
  rewrite !iterateNode_unfold.
  rewrite iterate_loop_all by lia.
  rewrite iterate_loop_after by lia.
  rewrite iterate_loop_around by (cbn [length]; lia).
  cbn [after]. now rewrite <- app_assoc.
Qed.

Lemma insert_child_into (ord : Z) (k : key) (v : T) (sz : Z)
      (LC : list (node T)) (c : node T) (RC : list (node T)) (i : nat) :
  length LC = i ->
  insert_child ord k v sz (LC ++ c :: RC) i
  = ('(c', sz', p) <- insertNode ord c k v sz ;; Ok (Some (LC ++ c' :: RC, sz', p))).
Proof. intros <-. apply insert_child_at. Qed.

Lemma splice_in_at {A : Type} (l1 l2 : list A) (i : nat) (x : A) :
  length l1 = i -> splice_in (l1 ++ l2) i x = l1 ++ x :: l2.
Proof. intros <-. apply splice_in_exact. Qed.

Lemma splice_in_next {A : Type} (l1 l2 : list A) (i : nat) (x y : A) :
  length l1 = i -> splice_in (l1 ++ x :: l2) (i + 1) y = l1 ++ x :: y :: l2.
Proof.
  intros <-. unfold splice_in. rewrite firstn_next, skipn_next.
  now rewrite <- app_assoc.
Qed.

(** A repeated entry keeps the order and adds nothing. *)
Lemma ordered_repeat (A : list (key * T)) (e : key * T) (rest : list (key * T)) :
  ordered (A ++ e :: rest) ->
  ordered (A ++ e :: e :: rest)
  /\ forall x, In x (A ++ e :: e :: rest) <-> In x (A ++ e :: rest).
Proof.
  intros O. split.
  - apply ordered_insert; [assumption| |].
    + apply ordered_app in O as (_ & _ & C). intros a Ha. apply C; [assumption|now left].
    + apply ordered_app in O as (_ & O & _). intros b Hb. exact (ordered_head _ _ _ O Hb).
  - intros x. rewrite in_insert. split; [|auto].
    intros [->|H]; [|assumption]. apply in_or_app. right. now left.
Qed.

(** What a node stands for once [insertNode] returns: its own entries
    and, after a split, the promoted entry and those of the new right
    sibling. *)
Definition virtual (n : node T) (p : option (promoted T)) : list (key * T) :=
  match p with
  | None => iterateNode n
  | Some q => iterateNode n ++ (p_key q, p_value q) :: iterateNode (p_right q)
  end.

Definition WFp (n : node T) (p : option (promoted T)) : Prop :=
  WF n
  /\ match p with
     | None => True
     | Some q => WF (p_right q) /\ key16 (p_key q)
     end.

Lemma after_bound (R : list key) (RV : list T) (RC : list (node T)) (k : key)
      (b : key * T) :
  match R with
  | [] => True
  | r :: _ => rank k <= rank r
  end ->
  ordered (after R RV RC) -> In b (after R RV RC) -> rank k <= rank (fst b).
Proof.
  intros HR O I. destruct R as [|r R]; [contradiction|].
  destruct RV as [|rv RV]; [contradiction|]. destruct RC as [|c RC]; [contradiction|].
  cbn [after] in O, I. pose proof (ordered_head _ _ _ O I) as Le. cbn [fst] in Le. lia.
Qed.

Lemma pairs_bound (R : list key) (RV : list T) (k : key) (b : key * T) :
  match R with
  | [] => True
  | r :: _ => rank k <= rank r
  end ->
  ordered (pairs R RV) -> In b (pairs R RV) -> rank k <= rank (fst b).
Proof.
  intros HR O I. destruct R as [|r R]; [contradiction|].
  destruct RV as [|rv RV]; [contradiction|].
  cbn [pairs] in O, I. pose proof (ordered_head _ _ _ O I) as Le. cbn [fst] in Le. lia.
Qed.

(** A key that is not at the position of the scan is not in the node. *)
Lemma fresh_not_found (R : list key) (k : key) (present : key -> Prop) :
  Forall key16 R -> key16 k ->
  (forall r R', R = r :: R' -> present r) -> ~ present k ->
  match R with
  | [] => false
  | r :: _ => Uuid.compareUUID k r =? 0
  end = false.
Proof.
  intros F Hk Hr Fr. destruct R as [|r R]; [reflexivity|].
  destruct (Uuid.compareUUID k r =? 0) eqn:C; [|reflexivity].
  apply compare_eq in C; [|assumption|exact (Forall_inv F)]. subst r.
  exfalso. apply Fr. exact (Hr k R eq_refl).
Qed.

(** Inserting a key that is absent: no error, the [size] field untouched
    at this level, the order kept, and exactly one more entry. *)
Lemma insert_fresh (ord : Z) (n : node T) :
  forall k v sz,
    WF n -> ordered (iterateNode n) -> key16 k ->
    (forall v', ~ In (k, v') (iterateNode n)) ->
    exists n' p,
      insertNode ord n k v sz = Ok (n', sz, p)
      /\ WFp n' p
      /\ ordered (virtual n' p)
      /\ forall e, In e (virtual n' p) <-> e = (k, v) \/ In e (iterateNode n).
Proof.
  pattern n. apply node_ind; clear n.
  - intros ks vs k v sz W O Hk Fr. apply WF_leaf in W as [Hl F].
    destruct (leaf_parts ks vs k Hl F Hk)
      as (L & R & LV & RV & -> & -> & HLV & HRV & P & HL & HR).
    rewrite iterateNode_unfold, pairs_app in O, Fr |- * by assumption.
    apply Forall_app in F as [FL FR].
    rewrite insertNode_unfold. cbv zeta. rewrite P, found_at_exact.
    rewrite (fresh_not_found R k (fun r => exists rv, In (r, rv) (pairs L LV ++ pairs R RV)));
      try assumption.
    2:{ intros r R' ->. destruct RV as [|rv RV]; [discriminate|].
        exists rv. apply in_or_app. right. now left. }
    2:{ intros [rv I]. exact (Fr rv I). }
    rewrite splice_in_exact, (splice_in_at LV RV _ v HLV).
    set (ks' := L ++ k :: R). set (vs' := LV ++ v :: RV).
    assert (Hl' : length vs' = length ks').
    { unfold ks', vs'. rewrite !length_app. cbn [length]. lia. }
    assert (F' : Forall key16 ks').
    { apply Forall_app. split; [assumption|now constructor]. }
    assert (E' : pairs ks' vs' = pairs L LV ++ (k, v) :: pairs R RV).
    { unfold ks', vs'. now rewrite pairs_app. }
    assert (O' : ordered (pairs ks' vs')).
    { rewrite E'. apply ordered_insert; [assumption| |].
      - intros a Ha. apply In_pairs_key in Ha. apply HL in Ha. cbn [fst]. lia.
      - intros b Hb. cbn [fst]. apply ordered_app in O as (_ & O & _).
        exact (pairs_bound R RV k b HR O Hb). }
    assert (M' : forall e, In e (pairs ks' vs') <-> e = (k, v) \/ In e (pairs L LV ++ pairs R RV)).
    { intros e. rewrite E'. apply in_insert. }
    destruct (ord <=? Z.of_nat (length ks')).
    + destruct (splitLeaf_spec ks' vs' Hl' F') as (l & q & A & rest & Sp & Wl & Wr & Kq & EP & El & Er).
      { unfold ks'. rewrite length_app. cbn [length]. lia. }
      rewrite Sp. exists l, (Some q). split; [reflexivity|].
      split; [now split|]. unfold virtual. rewrite El, Er.
      rewrite EP in O', M'. destruct (ordered_repeat _ _ _ O') as [O2 M2].
      split; [assumption|]. intros e. rewrite M2. apply M'.
    + exists (Node ks' vs' None), None. split; [reflexivity|].
      split; [split; [now apply WF_leaf|exact I]|].
      unfold virtual. rewrite iterateNode_unfold. now split.
  - intros ks vs cs IH k v sz W O Hk Fr.
    destruct (internal_parts ks vs cs k W Hk)
      as (L & R & LV & RV & LC & c & RC & -> & -> & -> & HLV & HRV & HLC & HRC & P & HL & HR).
    apply WF_internal in W as (Hl & F & Hc & Wc).
    rewrite iterateNode_unfold, iterate_loop_around in O, Fr |- * by assumption.
    apply Forall_app in F as [FL FR]. apply Forall_app in Wc as [WL WR].
    rewrite insertNode_unfold. cbv zeta. rewrite P, found_at_exact.
    rewrite (fresh_not_found R k
               (fun r => exists rv, In (r, rv) (before L LV LC ++ iterateNode c ++ after R RV RC)));
      try assumption.
    2:{ intros r R' ->. destruct RV as [|rv RV]; [discriminate|].
        destruct RC as [|c1 RC]; [discriminate|].
        exists rv. apply in_or_app. right. apply in_or_app. right. now left. }
    2:{ intros [rv I]. exact (Fr rv I). }
    rewrite (insert_child_into ord k v sz LC c RC _ HLC).
    pose proof O as O0.
    apply ordered_app in O0 as (OB & O0 & _). apply ordered_app in O0 as (OC & OA & _).
    destruct (Forall_elt _ _ _ IH k v sz (Forall_inv WR) OC Hk)
      as (c' & p & Ins & [Wc' Wp] & Op & Mp).
    { intros v' I. apply (Fr v'). apply in_or_app. right. apply in_or_app. now left. }
    rewrite Ins. cbn [bind].
    assert (Key : ordered (before L LV LC ++ virtual c' p ++ after R RV RC)
                  /\ forall e, In e (before L LV LC ++ virtual c' p ++ after R RV RC)
                               <-> e = (k, v)
                                   \/ In e (before L LV LC ++ iterateNode c ++ after R RV RC)).
    { split.
      - apply (ordered_replace _ (iterateNode c) _ _ k); try assumption.
        + intros e He. apply Mp in He as [->|He]; [now left|now right].
        + intros a Ha. destruct (before_bound _ _ _ _ OB Ha) as (x & Hx & Le).
          apply HL in Hx. lia.
        + intros b Hb. exact (after_bound R RV RC k b HR OA Hb).
      - intros e. rewrite !in_app_iff, Mp. tauto. }
    destruct Key as [KO KM].
    destruct p as [q|].
    + destruct Wp as [Wr Kq].
      rewrite (splice_in_at L R _ (p_key q) eq_refl), (splice_in_at LV RV _ (p_value q) HLV).
      rewrite (splice_in_next LC RC _ c' (p_right q) HLC).
      set (ks' := L ++ p_key q :: R). set (vs' := LV ++ p_value q :: RV).
      set (cs' := LC ++ c' :: p_right q :: RC).
      assert (W' : WF (Node ks' vs' (Some cs'))).
      { apply WF_internal. unfold ks', vs', cs'. rewrite !length_app in *.
        cbn [length] in *. repeat split; try lia.
        - apply Forall_app. split; [assumption|now constructor].
        - apply Forall_app. split; [assumption|].
          constructor; [assumption|]. constructor; [assumption|exact (Forall_inv_tail WR)]. }
      assert (E' : iterateNode (Node ks' vs' (Some cs'))
                   = before L LV LC ++ virtual c' (Some q) ++ after R RV RC).
      { rewrite iterateNode_unfold. unfold ks', vs', cs'.
        rewrite iterate_loop_around by (cbn [length]; lia).
        cbn [after virtual]. now rewrite <- app_assoc. }
      destruct (ord <=? Z.of_nat (length ks')).
      * destruct (splitInternal_spec ks' vs' cs' W') as (l & q' & Sp & Wl & Wr' & Kq' & Eq).
        { unfold ks'. rewrite length_app. cbn [length]. lia. }
        rewrite Sp. exists l, (Some q'). split; [reflexivity|].
        split; [now split|]. unfold virtual at 1 2. rewrite Eq, E'. now split.
      * exists (Node ks' vs' (Some cs')), None. split; [reflexivity|].
        split; [now split|]. unfold virtual at 1 2. rewrite E'. now split.
    + exists (Node (L ++ R) (LV ++ RV) (Some (LC ++ c' :: RC))), None.
      split; [reflexivity|]. split.
      { split; [|exact I]. apply WF_internal. repeat split; try assumption.
        - apply Forall_app. now split.
        - rewrite length_app in *. cbn [length] in *. lia.
        - apply Forall_app. split; [assumption|].
          constructor; [assumption|exact (Forall_inv_tail WR)]. }
      unfold virtual at 1 2. rewrite iterateNode_unfold, iterate_loop_around by assumption.
      now split.
Qed.

(** *** The index as a finite map *)

Lemma entries_key16 (n : node T) :
  WF n -> forall e, In e (iterateNode n) -> key16 (fst e).
Proof.
  pattern n. apply node_ind; clear n.
  - intros ks vs W e I. apply WF_leaf in W as [_ F].
    rewrite iterateNode_unfold in I. apply In_pairs_key in I.
    rewrite Forall_forall in F. now apply F.
  - intros ks vs cs IH W e I. apply WF_internal in W as (Hl & F & Hc & Wc).
    destruct (split_at cs (length ks)) as (LC & RC & -> & HLC); [lia|].
    rewrite length_app in Hc.
    destruct RC as [|c RC]; [cbn [length] in Hc; lia|].
    destruct RC; [|cbn [length] in Hc; lia].
    rewrite iterateNode_unfold, iterate_loop_all in I by assumption.
    apply Forall_app in IH as [IL IC]. apply Forall_app in Wc as [WL WC].
    apply in_app_or in I as [I|I].
    + clear Hc IC WC Hl. revert vs LC HLC IL WL I.
      induction F as [|k ks Hk F IHks]; intros vs LC HLC IL WL I; [contradiction|].
      destruct vs as [|v vs]; [contradiction|]. destruct LC as [|c0 LC]; [contradiction|].
      cbn [before] in I. apply in_app_or in I as [I|[<-|I]].
      * exact (Forall_inv IL (Forall_inv WL) e I).
      * assumption.
      * cbn [length] in HLC. injection HLC as HLC.
        exact (IHks vs LC HLC (Forall_inv_tail IL) (Forall_inv_tail WL) I).
    + exact (Forall_inv IC (Forall_inv WC) e I).
Qed.

(** No key with two values. *)
Definition functional (l : list (key * T)) : Prop :=
  forall k v v', In (k, v) l -> In (k, v') l -> v = v'.

Definition Good (t : BTreeIndex T) : Prop :=
  WF (root t) /\ ordered (entries t) /\ functional (entries t).

Lemma create_Good (ord : Z) : Good (create ord).
Proof.
  unfold Good, entries. cbn. repeat split; [constructor|].
  intros k v v' [].
Qed.

Lemma get_spec (t : BTreeIndex T) (k : key) (v : T) :
  Good t -> key16 k -> (get t k = Some v <-> In (k, v) (entries t)).
Proof.
  intros (W & O & Fn) Hk. unfold get, entries in *. split.
  - now apply search_sound.
  - intros I. destruct (search_complete _ k v W O Hk I) as [v' S].
    rewrite S. f_equal. apply (Fn k); [|assumption]. now apply search_sound.
Qed.

Lemma get_absent (t : BTreeIndex T) (k : key) :
  Good t -> key16 k -> get t k = None -> forall v, ~ In (k, v) (entries t).
Proof.
  intros G Hk N v I. apply (get_spec t k v G Hk) in I. congruence.
Qed.

(** [set] with a new key, or with the value the key already has: the
    entries gain [(k, v)] and nothing else changes. *)
Lemma set_spec (t : BTreeIndex T) (k : key) (v : T) :
  Good t -> key16 k -> get t k = None \/ get t k = Some v ->
  exists t',
    set t k v = Ok t' /\ Good t' /\ order t' = order t
    /\ forall e, In e (entries t') <-> e = (k, v) \/ In e (entries t).
Proof.
  intros G Hk [N|S].
  - pose proof (get_absent t k G Hk N) as Fr. destruct G as (W & O & Fn).
    unfold entries in *.
    destruct (insert_fresh (order t) (root t) k v (size t) W O Hk Fr)
      as (n' & p & Ins & [Wn Wp] & Op & Mp).
    unfold set. rewrite Ins. cbn [bind]. eexists. split; [reflexivity|].
    assert (E : iterateNode
                  match p with
                  | Some p => Node [p_key p] [p_value p] (Some [n'; p_right p])
                  | None => n'
                  end = virtual n' p).
    { destruct p; reflexivity. }
    unfold Good, entries. cbn [root order]. rewrite E.
    split; [|split; [reflexivity|assumption]].
    split; [|split; [assumption|]].
    + destruct p as [q|]; [|assumption]. destruct Wp as [Wr Kq].
      apply WF_internal. cbn [length]. repeat split.
      * constructor; [assumption|constructor].
      * constructor; [assumption|]. constructor; [assumption|constructor].
    + intros k0 v0 v0' I1 I2. apply Mp in I1, I2.
      destruct I1 as [E1|I1], I2 as [E2|I2].
      * congruence.
      * injection E1 as -> ->. now destruct (Fr v0').
      * injection E2 as -> ->. now destruct (Fr v0).
      * exact (Fn k0 v0 v0' I1 I2).
  - pose proof S as I. apply (get_spec t k v G Hk) in I. unfold get in S.
    unfold set. rewrite (insert_same (order t) (root t) k v (size t) S). cbn [bind].
    eexists. split; [reflexivity|]. split; [exact G|]. split; [reflexivity|].
    intros e. unfold entries. cbn [root]. fold (entries t). split; [auto|].
    intros [->|H]; assumption.
Qed.

End Correctness.

(** *** A tree of the default order through its first split *)

Definition sample_key (i : Z) : key := be_bytes 16 i.

Fixpoint set_all (t : BTreeIndex Z) (l : list Z) : result (BTreeIndex Z) :=
  match l with
  | [] => Ok t
  | i :: l' => t' <- set t (sample_key i) i ;; set_all t' l'
  end.

(** The keys 0 .. 63, each with its number as value, set in order into
    [new BTreeIndex()]: the 64th fills the root leaf and splits it. *)
Definition sixty_four : BTreeIndex Z :=
  Eval vm_compute in
    match set_all (create DEFAULT_ORDER) (map Z.of_nat (seq 0 64)) with
    | Ok t => t
    | Err _ => create DEFAULT_ORDER
    end.

Example sixty_four_built :
  set_all (create DEFAULT_ORDER) (map Z.of_nat (seq 0 64)) = Ok sixty_four.
Proof. vm_compute. reflexivity. Qed.

(** C3 (the code at its failing input).  After the split the promoted key
    32 sits both in the root and at the head of the right leaf: [entries()]
    yields it twice, and [delete] removes only the copy in the root, so
    that [get] still finds the key afterwards. *)
Lemma delete_leaves_promoted_key :
  getSize sixty_four = 64
  /\ map snd (entries sixty_four)
     = map Z.of_nat (seq 0 32) ++ [32; 32] ++ map Z.of_nat (seq 33 31)
  /\ exists t',
       delete sixty_four (sample_key 32) = Ok (t', true)
       /\ get t' (sample_key 32) = Some 32
       /\ getSize t' = 63
       /\ map snd (entries t') = map Z.of_nat (seq 0 64).
Proof.
  split; [reflexivity|]. split; [vm_compute; reflexivity|].
  eexists. split; [vm_compute; reflexivity|].
  repeat split; vm_compute; reflexivity.
Qed.


(** *** The index as a map: laws of [set], [get] and [delete] *)

Section MapLaws.
Context {T : Type}.

Lemma get_same_entries (t t' : BTreeIndex T) (k : key) :
  Good t -> Good t' -> key16 k ->
  (forall v, In (k, v) (entries t') <-> In (k, v) (entries t)) ->
  get t' k = get t k.
Proof.
  intros G G' Hk M.
  destruct (get t k) as [v|] eqn:E.
  - apply (get_spec t' k v G' Hk), M, (get_spec t k v G Hk), E.
  - destruct (get t' k) as [v'|] eqn:E'; [|reflexivity].
    apply (get_spec t' k v' G' Hk), M, (get_spec t k v' G Hk) in E'. congruence.
Qed.

(** [set] with a key that is not in the index. *)
Lemma set_fresh (t : BTreeIndex T) (k : key) (v : T) :
  Good t -> key16 k -> get t k = None ->
  exists t',
    set t k v = Ok t' /\ Good t' /\ order t' = order t /\ size t' = size t + 1
    /\ forall e, In e (entries t') <-> e = (k, v) \/ In e (entries t).
Proof.
  intros G Hk N.
  pose proof (get_absent t k G Hk N) as Fr. destruct G as (W & O & Fn).
  unfold entries in *.
  destruct (insert_fresh (order t) (root t) k v (size t) W O Hk Fr)
    as (n' & p & Ins & [Wn Wp] & Op & Mp).
  unfold set. rewrite Ins. cbn [bind]. eexists. split; [reflexivity|].
  assert (E : iterateNode
                match p with
                | Some p => Node [p_key p] [p_value p] (Some [n'; p_right p])
                | None => n'
                end = virtual n' p).
  { destruct p; reflexivity. }
  unfold Good, entries. cbn [root order size]. rewrite E.
  split; [|split; [reflexivity|split; [reflexivity|assumption]]].
  split; [|split; [assumption|]].
  - destruct p as [q|]; [|assumption]. destruct Wp as [Wr Kq].
    apply WF_internal. cbn [length]. repeat split.
    + constructor; [assumption|constructor].
    + constructor; [assumption|]. constructor; [assumption|constructor].
  - intros k0 v0 v0' I1 I2. apply Mp in I1, I2.
    destruct I1 as [E1|I1], I2 as [E2|I2].
    + congruence.
    + injection E1 as -> ->. now destruct (Fr v0').
    + injection E2 as -> ->. now destruct (Fr v0).
    + exact (Fn k0 v0 v0' I1 I2).
Qed.

(** X12.  In a well-formed, ordered index, [set] with a
    16-byte key that [get] does not find succeeds; afterwards [get]
    returns the value for that key and what it returned before for every
    other key, the size has grown by one, and the index is again
    well-formed and ordered. *)
Theorem set_then_get (t : BTreeIndex T) (k : key) (v : T) :
  Good t -> key16 k -> get t k = None ->
  exists t',
    set t k v = Ok t' /\ Good t'
    /\ get t' k = Some v
    /\ getSize t' = getSize t + 1
    /\ forall k', key16 k' -> k' <> k -> get t' k' = get t k'.
Proof.
  intros G Hk N. destruct (set_fresh t k v G Hk N) as (t' & S & G' & _ & Sz & M).
  exists t'. split; [assumption|]. split; [assumption|]. split.
  { apply (get_spec t' k v G' Hk), M. now left. }
  split; [exact Sz|].
  intros k' Hk' Ne. apply get_same_entries; try assumption.
  intros x. rewrite M. split; [|now right].
  intros [E|I]; [|assumption]. injection E as E _. contradiction.
Qed.

(** A run of [set]s. *)
Fixpoint setAll (t : BTreeIndex T) (l : list (key * T)) : result (BTreeIndex T) :=
  match l with
  | [] => Ok t
  | (k, v) :: rest => t' <- set t k v ;; setAll t' rest
  end.

Lemma setAll_fresh (l : list (key * T)) :
  forall t,
    Good t -> NoDup (map fst l) -> Forall key16 (map fst l) ->
    (forall k v, In (k, v) l -> get t k = None) ->
    exists t',
      setAll t l = Ok t' /\ Good t'
      /\ size t' = size t + Z.of_nat (length l)
      /\ forall e, In e (entries t') <-> In e (entries t) \/ In e l.
Proof.
  induction l as [|[k v] l IH]; intros t G N F Fr.
  - exists t. split; [reflexivity|]. split; [assumption|].
    split; [cbn [length]; lia|]. intros e. cbn [In]. tauto.
  - cbn [map fst] in N, F. apply NoDup_cons_iff in N as [Nin N].
    pose proof (Forall_inv F) as Hk. pose proof (Forall_inv_tail F) as F'.
    destruct (set_fresh t k v G Hk (Fr k v (or_introl eq_refl)))
      as (t1 & S1 & G1 & _ & Sz1 & M1).
    destruct (IH t1 G1 N F') as (t' & S' & G' & Sz' & M').
    { intros k' v' I.
      assert (Hk' : key16 k').
      { rewrite Forall_forall in F'. apply F'. now apply (in_map fst l (k', v')). }
      rewrite (get_same_entries t t1 k' G G1 Hk').
      - apply (Fr k' v'). now right.
      - intros x. rewrite M1. split; [|now right].
        intros [E|I']; [|assumption]. injection E as E _. subst k'.
        destruct Nin. now apply (in_map fst l (k, v')). }
    exists t'. split; [cbn [setAll]; rewrite S1; exact S'|].
    split; [assumption|]. split; [cbn [length]; lia|].
    intros e. rewrite M', M1. cbn [In]. split.
    + intros [[->|H]|H]; auto.
    + intros [H|[<-|H]]; auto.
Qed.

(** X13.  Setting pairs with pairwise distinct 16-byte keys
    into a new index, of any order and in any sequence, never fails; the
    size is the number of pairs, [get] finds exactly the pairs set,
    [entries()] yields them and nothing else, in non-decreasing key
    order. *)
Theorem setAll_create (ord : Z) (l : list (key * T)) :
  NoDup (map fst l) -> Forall key16 (map fst l) ->
  exists t,
    setAll (create ord) l = Ok t
    /\ getSize t = Z.of_nat (length l)
    /\ (forall k v, key16 k -> (get t k = Some v <-> In (k, v) l))
    /\ (forall e, In e (entries t) <-> In e l)
    /\ ordered (entries t).
Proof.
  intros N F.
  destruct (setAll_fresh l (create ord) (create_Good ord) N F) as (t & S & G & Sz & M).
  { reflexivity. }
  exists t. split; [assumption|]. split; [exact Sz|].
  assert (M' : forall e, In e (entries t) <-> In e l).
  { intros e. rewrite M. cbn. tauto. }
  split; [|split; [exact M'|exact (proj1 (proj2 G))]].
  intros k v Hk. rewrite (get_spec t k v G Hk). apply M'.
Qed.

(** *** Updating a key that is present *)

Lemma nth_error_assign_same {A : Type} (l : list A) (i : nat) (x : A) :
  (i < length l)%nat -> nth_error (assign_at l i x) i = Some x.
Proof.
  revert i. induction l as [|h l IH]; intros [|i] H; cbn [length] in H; try lia.
  - reflexivity.
  - cbn [assign_at nth_error]. apply IH. lia.
Qed.

Lemma nth_error_assign_other {A : Type} (l : list A) (i j : nat) (x : A) :
  i <> j -> nth_error (assign_at l i x) j = nth_error l j.
Proof.
  revert i j. induction l as [|h l IH]; intros [|i] [|j] H; try reflexivity.
  - contradiction.
  - cbn [assign_at nth_error]. apply IH. lia.
Qed.

Lemma length_assign_at {A : Type} (l : list A) (i : nat) (x : A) :
  length (assign_at l i x) = length l.
Proof.
  revert i. induction l as [|h l IH]; intros [|i]; cbn [assign_at length]; auto.
Qed.

Lemma found_at_key (ks : list key) (i : nat) (k : key) :
  Forall key16 ks -> key16 k -> found_at ks i k = true ->
  nth_error ks i = Some k.
Proof.
  intros F Hk. unfold found_at.
  destruct (nth_error ks i) as [x|] eqn:E; [|discriminate].
  intros C. apply compare_eq in C; [now subst x|assumption|].
  rewrite Forall_forall in F. eapply F, nth_error_In, E.
Qed.

Lemma found_at_bound (ks : list key) (i : nat) (k : key) :
  found_at ks i k = true -> (i < length ks)%nat.
Proof.
  unfold found_at. destruct (nth_error ks i) eqn:E; [|discriminate].
  intros _. apply nth_error_Some. congruence.
Qed.

Lemma search_child_nil (k : key) (i : nat) : @search_child T k [] i = None.
Proof. now destruct i. Qed.

(** [set] on a key the lookup finds: the value is replaced in place. *)
Lemma insert_present (ord : Z) (n : node T) :
  forall k v v0 sz,
    WF n -> key16 k -> searchNode n k = Some v0 ->
    exists n',
      insertNode ord n k v sz = Ok (n', sz - 1, None)
      /\ WF n'
      /\ searchNode n' k = Some v
      /\ forall k', key16 k' -> k' <> k -> searchNode n' k' = searchNode n k'.
Proof.
  pattern n. apply node_ind; clear n.
  - intros ks vs k v v0 sz W Hk S. apply WF_leaf in W as [Hl F].
    rewrite searchNode_unfold in S. rewrite insertNode_unfold. cbv zeta in *.
    destruct (found_at ks (position ks k) k) eqn:Fd; [|discriminate].
    pose proof (found_at_bound _ _ _ Fd) as B.
    eexists. split; [reflexivity|]. split.
    { apply WF_leaf. rewrite length_assign_at. now split. }
    split.
    { rewrite searchNode_unfold. cbv zeta. rewrite Fd.
      apply nth_error_assign_same. lia. }
    intros k' Hk' Ne. rewrite !searchNode_unfold. cbv zeta.
    destruct (found_at ks (position ks k') k') eqn:Fd'; [|reflexivity].
    apply nth_error_assign_other. intros E.
    apply (found_at_key ks _ k F Hk) in Fd. apply (found_at_key ks _ k' F Hk') in Fd'.
    rewrite E in Fd. congruence.
  - intros ks vs cs IH k v v0 sz W Hk S. apply WF_internal in W as (Hl & F & Hc & Wc).
    rewrite searchNode_unfold in S. rewrite insertNode_unfold. cbv zeta in *.
    destruct (found_at ks (position ks k) k) eqn:Fd.
    + pose proof (found_at_bound _ _ _ Fd) as B.
      eexists. split; [reflexivity|]. split.
      { apply WF_internal. rewrite length_assign_at. repeat split; assumption. }
      split.
      { rewrite searchNode_unfold. cbv zeta. rewrite Fd.
        apply nth_error_assign_same. lia. }
      intros k' Hk' Ne. rewrite !searchNode_unfold. cbv zeta.
      destruct (found_at ks (position ks k') k') eqn:Fd'; [|reflexivity].
      apply nth_error_assign_other. intros E.
      apply (found_at_key ks _ k F Hk) in Fd. apply (found_at_key ks _ k' F Hk') in Fd'.
      rewrite E in Fd. congruence.
    + assert (C : exists cs',
                insert_child ord k v sz cs (position ks k) = Ok (Some (cs', sz - 1, None))
                /\ Forall WF cs' /\ length cs' = length cs
                /\ search_child k cs' (position ks k) = Some v
                /\ forall k', key16 k' -> k' <> k ->
                     forall j, search_child k' cs' j = search_child k' cs j).
      { clear Hc Fd. revert S. generalize (position ks k).
        induction IH as [|c cs Hcc _ IHcs]; intros i S.
        - rewrite search_child_nil in S. discriminate.
        - pose proof (Forall_inv Wc) as Wc0. pose proof (Forall_inv_tail Wc) as Wcs.
          destruct i as [|i].
          + change (searchNode c k = Some v0) in S.
            destruct (Hcc k v v0 sz Wc0 Hk S) as (c' & I & Wc' & G & O).
            exists (c' :: cs). split.
            { change (('(c', sz', p) <- insertNode ord c k v sz ;;
                       Ok (Some (c' :: cs, sz', p)))
                      = Ok (Some (c' :: cs, sz - 1, None))).
              now rewrite I. }
            split; [now constructor|]. split; [reflexivity|]. split; [exact G|].
            intros k' Hk' Ne [|j]; [exact (O k' Hk' Ne)|reflexivity].
          + change (search_child k cs i = Some v0) in S.
            destruct (IHcs Wcs i S) as (cs' & I & Wcs' & L & G & O).
            exists (c :: cs'). split.
            { change ((r <- insert_child ord k v sz cs i ;;
                       match r with
                       | Some (cs'', sz', p) => Ok (Some (c :: cs'', sz', p))
                       | None => Ok None
                       end) = Ok (Some (c :: cs', sz - 1, None))).
              now rewrite I. }
            split; [now constructor|]. split; [cbn [length]; now rewrite L|].
            split; [exact G|].
            intros k' Hk' Ne [|j]; [reflexivity|exact (O k' Hk' Ne j)]. }
      destruct C as (cs' & I & Wcs' & L & G & O).
      rewrite I. cbn [bind]. eexists. split; [reflexivity|]. split.
      { apply WF_internal. rewrite L. repeat split; assumption. }
      split.
      { rewrite searchNode_unfold. cbv zeta. now rewrite Fd. }
      intros k' Hk' Ne. rewrite !searchNode_unfold. cbv zeta.
      destruct (found_at ks (position ks k') k'); [reflexivity|].
      apply (O k' Hk' Ne).
Qed.

(** X14.  In a well-formed index, [set] on a key that [get]
    finds replaces the value: [get] then returns the new value for the
    key and the old ones for every other key, and the size is unchanged. *)
Theorem set_present (t : BTreeIndex T) (k : key) (v v0 : T) :
  WF (root t) -> key16 k -> get t k = Some v0 ->
  exists t',
    set t k v = Ok t'
    /\ WF (root t')
    /\ get t' k = Some v
    /\ getSize t' = getSize t
    /\ forall k', key16 k' -> k' <> k -> get t' k' = get t k'.
Proof.
  intros W Hk S. unfold get in S.
  destruct (insert_present (order t) (root t) k v v0 (size t) W Hk S)
    as (n' & I & Wn & G & O).
  unfold set. rewrite I. cbn [bind]. eexists. split; [reflexivity|].
  unfold get, getSize. cbn [root size].
  split; [assumption|]. split; [assumption|]. split; [lia|assumption].
Qed.

(** *** [set] never throws *)

Lemma insert_total (ord : Z) (n : node T) :
  forall k v sz,
    WF n -> key16 k ->
    exists n' sz' p, insertNode ord n k v sz = Ok (n', sz', p) /\ WFp n' p.
Proof.
  pattern n. apply node_ind; clear n.
  - intros ks vs k v sz W Hk. apply WF_leaf in W as [Hl F].
    rewrite insertNode_unfold. cbv zeta.
    destruct (found_at ks (position ks k) k).
    { eexists _, _, _. split; [reflexivity|]. split; [|exact I].
      apply WF_leaf. rewrite length_assign_at. now split. }
    destruct (leaf_parts ks vs k Hl F Hk)
      as (L & R & LV & RV & -> & -> & HLV & HRV & P & _ & _).
    apply Forall_app in F as [FL FR].
    rewrite P, splice_in_exact, (splice_in_at LV RV _ v HLV).
    set (ks' := L ++ k :: R). set (vs' := LV ++ v :: RV).
    assert (Hl' : length vs' = length ks').
    { unfold ks', vs'. rewrite !length_app. cbn [length]. lia. }
    assert (F' : Forall key16 ks').
    { apply Forall_app. split; [assumption|now constructor]. }
    destruct (ord <=? Z.of_nat (length ks')).
    + destruct (splitLeaf_spec ks' vs' Hl' F') as (l & q & A & rest & Sp & Wl & Wr & Kq & _).
      { unfold ks'. rewrite length_app. cbn [length]. lia. }
      rewrite Sp. eexists _, _, _. split; [reflexivity|]. now split.
    + eexists _, _, _. split; [reflexivity|]. split; [now apply WF_leaf|exact I].
  - intros ks vs cs IH k v sz W Hk.
    rewrite insertNode_unfold. cbv zeta.
    destruct (found_at ks (position ks k) k).
    { apply WF_internal in W as (Hl & F & Hc & Wc).
      eexists _, _, _. split; [reflexivity|]. split; [|exact I].
      apply WF_internal. rewrite length_assign_at. repeat split; assumption. }
    destruct (internal_parts ks vs cs k W Hk)
      as (L & R & LV & RV & LC & c & RC & -> & -> & -> & HLV & HRV & HLC & HRC & P & _ & _).
    apply WF_internal in W as (Hl & F & Hc & Wc).
    apply Forall_app in F as [FL FR]. apply Forall_app in Wc as [WL WR].
    rewrite P, (insert_child_into ord k v sz LC c RC _ HLC).
    destruct (Forall_elt _ _ _ IH k v sz (Forall_inv WR) Hk)
      as (c' & sz' & p & Ins & [Wc' Wp]).
    rewrite Ins. cbn [bind]. destruct p as [q|].
    + destruct Wp as [Wr Kq].
      rewrite (splice_in_at L R _ (p_key q) eq_refl), (splice_in_at LV RV _ (p_value q) HLV).
      rewrite (splice_in_next LC RC _ c' (p_right q) HLC).
      set (ks' := L ++ p_key q :: R). set (vs' := LV ++ p_value q :: RV).
      set (cs' := LC ++ c' :: p_right q :: RC).
      assert (W' : WF (Node ks' vs' (Some cs'))).
      { apply WF_internal. unfold ks', vs', cs'. rewrite !length_app in *.
        cbn [length] in *. repeat split; try lia.
        - apply Forall_app. split; [assumption|now constructor].
        - apply Forall_app. split; [assumption|].
          constructor; [assumption|]. constructor; [assumption|exact (Forall_inv_tail WR)]. }
      destruct (ord <=? Z.of_nat (length ks')).
      * destruct (splitInternal_spec ks' vs' cs' W') as (l & q' & Sp & Wl & Wr' & Kq' & _).
        { unfold ks'. rewrite length_app. cbn [length]. lia. }
        rewrite Sp. eexists _, _, _. split; [reflexivity|]. now split.
      * eexists _, _, _. split; [reflexivity|]. now split.
    + eexists _, _, _. split; [reflexivity|]. split; [|exact I].
      apply WF_internal. repeat split; try assumption.
      * apply Forall_app. now split.
      * rewrite length_app in *. cbn [length] in *. lia.
      * apply Forall_app. split; [assumption|].
        constructor; [assumption|exact (Forall_inv_tail WR)].
Qed.

(** X15.  On a well-formed index, of any order, [set] with a 16-byte key
    always returns: neither split throws its error, and the index stays
    well-formed and keeps its order. *)
Theorem set_never_throws (t : BTreeIndex T) (k : key) (v : T) :
  WF (root t) -> key16 k ->
  exists t', set t k v = Ok t' /\ WF (root t') /\ order t' = order t.
Proof.
  intros W Hk.
  destruct (insert_total (order t) (root t) k v (size t) W Hk)
    as (n' & sz' & p & I & [Wn Wp]).
  unfold set. rewrite I. cbn [bind]. eexists. split; [reflexivity|].
  cbn [root order]. split; [|reflexivity].
  destruct p as [q|]; [|assumption]. destruct Wp as [Wr Kq].
  apply WF_internal. cbn [length]. repeat split.
  - constructor; [assumption|constructor].
  - constructor; [assumption|]. constructor; [assumption|constructor].
Qed.

(** A split that does not throw can still leave a node without keys: with
    the order 1 the first [set] splits the leaf it has just filled, and the
    left half is empty. *)
Example set_order_one_empty_leaf (v : T) :
  exists t',
    set (create 1) (sample_key 1) v = Ok t'
    /\ root t' = Node [sample_key 1] [v]
                    (Some [Node [] [] None; Node [sample_key 1] [v] None]).
Proof. eexists. split; reflexivity. Qed.

(** *** Deleting a key that is absent *)

Definition delete_child (k : key)
  : list (node T) -> nat -> result (option (list (node T) * bool)) :=
  fix child (cs : list (node T)) (j : nat) {struct cs} :=
    match cs, j with
    | [], _ => Ok None
    | c :: cs', O =>
        '(c', deleted) <- deleteNode c k ;;
        Ok (Some (c' :: cs', deleted))
    | c :: cs', S j' =>
        r <- child cs' j' ;;
        match r with
        | Some (cs'', deleted) => Ok (Some (c :: cs'', deleted))
        | None => Ok None
        end
    end.

Definition swap_child
  : list (node T) -> nat -> result (option (list (node T) * key * T * bool)) :=
  fix child (cs : list (node T)) (j : nat) {struct cs} :=
    match cs, j with
    | [], _ => Ok None
    | c :: cs', O =>
        '(pk, pv) <- findMax c ;;
        '(c', deleted) <- deleteNode c pk ;;
        Ok (Some (c' :: cs', pk, pv, deleted))
    | c :: cs', S j' =>
        r <- child cs' j' ;;
        match r with
        | Some (cs'', pk, pv, deleted) => Ok (Some (c :: cs'', pk, pv, deleted))
        | None => Ok None
        end
    end.

Lemma deleteNode_unfold (ks : list key) (vs : list T)
      (cs : option (list (node T))) (k : key) :
  deleteNode (Node ks vs cs) k =
  let i := position ks k in
  match cs with
  | None =>
      if found_at ks i k then Ok (Node (splice_out ks i) (splice_out vs i) None, true)
      else Ok (Node ks vs None, false)
  | Some cs =>
      if found_at ks i k then
        r <- swap_child cs i ;;
        match r with
        | None => Ok (Node ks vs (Some cs), false)
        | Some (cs', pk, pv, deleted) =>
            Ok (Node (assign_at ks i pk) (assign_at vs i pv) (Some cs'), deleted)
        end
      else
        r <- delete_child k cs i ;;
        match r with
        | None => Ok (Node ks vs (Some cs), false)
        | Some (cs', deleted) => Ok (Node ks vs (Some cs'), deleted)
        end
  end.
Proof. destruct cs; reflexivity. Qed.

Lemma found_has_value (ks : list key) (vs : list T) (i : nat) (k : key) :
  length vs = length ks -> found_at ks i k = true -> nth_error vs i <> None.
Proof.
  intros Hl Fd. apply found_at_bound in Fd. apply nth_error_Some. lia.
Qed.

Lemma delete_absent (n : node T) :
  forall k, WF n -> searchNode n k = None -> deleteNode n k = Ok (n, false).
Proof.
  pattern n. apply node_ind; clear n.
  - intros ks vs k W S. apply WF_leaf in W as [Hl F].
    rewrite searchNode_unfold in S. rewrite deleteNode_unfold. cbv zeta in *.
    destruct (found_at ks (position ks k) k) eqn:Fd; [|reflexivity].
    now destruct (found_has_value ks vs _ k Hl Fd).
  - intros ks vs cs IH k W S. apply WF_internal in W as (Hl & F & Hc & Wc).
    rewrite searchNode_unfold in S. rewrite deleteNode_unfold. cbv zeta in *.
    destruct (found_at ks (position ks k) k) eqn:Fd.
    { now destruct (found_has_value ks vs _ k Hl Fd). }
    assert (C : delete_child k cs (position ks k) = Ok None
                \/ delete_child k cs (position ks k) = Ok (Some (cs, false))).
    { clear Hc Fd. revert S. generalize (position ks k).
      induction IH as [|c cs Hcc _ IHcs]; intros i S.
      - left. now destruct i.
      - pose proof (Forall_inv Wc) as Wc0. pose proof (Forall_inv_tail Wc) as Wcs.
        destruct i as [|i].
        + change (searchNode c k = None) in S. right.
          change (('(c', deleted) <- deleteNode c k ;; Ok (Some (c' :: cs, deleted)))
                  = Ok (Some (c :: cs, false))).
          now rewrite (Hcc k Wc0 S).
        + change (search_child k cs i = None) in S.
          change (delete_child k (c :: cs) (Datatypes.S i))
            with (r <- delete_child k cs i ;;
                  match r with
                  | Some (cs'', deleted) => Ok (Some (c :: cs'', deleted))
                  | None => Ok None
                  end).
          destruct (IHcs Wcs i S) as [-> | ->]; [now left|now right]. }
    destruct C as [-> | ->]; reflexivity.
Qed.

(** X16.  In a well-formed index, [delete] of a key that
    [get] does not find returns false and leaves the index, its size
    included, exactly as it was. *)
Theorem delete_missing (t : BTreeIndex T) (k : key) :
  WF (root t) -> get t k = None -> delete t k = Ok (t, false).
Proof.
  intros W S. unfold delete. rewrite (delete_absent (root t) k W S). cbn [bind].
  now destruct t.
Qed.

(** *** An index that has not split yet *)

(** Keys in strictly increasing order. *)
Fixpoint increasing (ks : list key) : Prop :=
  match ks with
  | [] => True
  | k :: rest => (forall x, In x rest -> rank k < rank x) /\ increasing rest
  end.

(** The root is a leaf, as it is until the index holds [order] keys. *)
Definition unsplit (t : BTreeIndex T) : Prop :=
  exists ks vs,
    root t = Node ks vs None
    /\ length vs = length ks /\ Forall key16 ks /\ increasing ks.

Lemma increasing_app (l1 l2 : list key) :
  increasing (l1 ++ l2) <->
  increasing l1 /\ increasing l2
  /\ forall a b, In a l1 -> In b l2 -> rank a < rank b.
Proof.
  induction l1 as [|x l1 IH]; cbn [app increasing].
  - split; [intros H; repeat split; [assumption|intros a b []]|tauto].
  - rewrite IH. split.
    + intros (Hx & O1 & O2 & C). repeat split; try assumption.
      * intros b Hb. apply Hx. apply in_or_app. now left.
      * intros a b [<-|Ha] Hb; [apply Hx; apply in_or_app; now right|now apply C].
    + intros ((Hx & O1) & O2 & C). repeat split; try assumption.
      * intros b Hb. apply in_app_or in Hb as [Hb|Hb]; [now apply Hx|].
        apply C; [now left|assumption].
      * intros a b Ha Hb. apply C; [now right|assumption].
Qed.

Lemma increasing_pairs (ks : list key) (vs : list T) :
  increasing ks -> ordered (pairs ks vs) /\ functional (pairs ks vs).
Proof.
  revert vs. induction ks as [|k ks IH]; intros vs Inc.
  - split; [exact I|intros k v v' []].
  - destruct vs as [|v vs]; [split; [exact I|intros k0 v0 v0' []]|].
    destruct Inc as [Hk Inc]. destruct (IH vs Inc) as [O Fn]. cbn [pairs]. split.
    + split; [|assumption]. intros b Hb. apply In_pairs_key in Hb.
      apply Hk in Hb. cbn [fst]. lia.
    + intros k0 v0 v0' [E1|I1] [E2|I2].
      * congruence.
      * injection E1 as -> ->. apply In_pairs_key, Hk in I2. cbn [fst] in I2. lia.
      * injection E2 as -> ->. apply In_pairs_key, Hk in I1. cbn [fst] in I1. lia.
      * exact (Fn k0 v0 v0' I1 I2).
Qed.

Lemma unsplit_Good (t : BTreeIndex T) : unsplit t -> Good t.
Proof.
  intros (ks & vs & R & Hl & F & Inc). unfold Good, entries. rewrite R.
  rewrite iterateNode_unfold. destruct (increasing_pairs ks vs Inc) as [O Fn].
  split; [now apply WF_leaf|now split].
Qed.

Lemma splice_out_exact {A : Type} (l1 l2 : list A) (x : A) :
  splice_out (l1 ++ x :: l2) (length l1) = l1 ++ l2.
Proof.
  unfold splice_out. rewrite firstn_exact.
  replace (S (length l1)) with (length l1 + 1)%nat by lia.
  now rewrite skipn_next.
Qed.

Lemma delete_unsplit_spec (t : BTreeIndex T) (k : key) (v : T) :
  unsplit t -> key16 k -> get t k = Some v ->
  exists t',
    delete t k = Ok (t', true)
    /\ unsplit t'
    /\ get t' k = None
    /\ getSize t' = getSize t - 1
    /\ forall k', key16 k' -> k' <> k -> get t' k' = get t k'.
Proof.
  intros U Hk S. pose proof (unsplit_Good t U) as G.
  destruct U as (ks & vs & R & Hl & F & Inc).
  unfold get in S. rewrite R, searchNode_unfold in S. cbv zeta in S.
  destruct (found_at ks (position ks k) k) eqn:Fd; [|discriminate].
  destruct (leaf_parts ks vs k Hl F Hk)
    as (L & R0 & LV & RV & -> & -> & HLV & HRV & P & HL & HR).
  rewrite P in Fd, S. rewrite found_at_exact in Fd.
  destruct R0 as [|r R0]; [discriminate|].
  apply Forall_app in F as [FL FR].
  apply compare_eq in Fd; [|assumption|exact (Forall_inv FR)]. subst r.
  destruct RV as [|rv RV]; [discriminate|].
  apply increasing_app in Inc as (IL & [Hk0 IR] & C).
  set (t' := {| root := Node (L ++ R0) (LV ++ RV) None; order := order t;
                size := size t - 1 |}).
  assert (U' : unsplit t').
  { exists (L ++ R0), (LV ++ RV). split; [reflexivity|]. split.
    - rewrite !length_app in *. cbn [length] in *. lia.
    - split; [apply Forall_app; split; [assumption|exact (Forall_inv_tail FR)]|].
      apply increasing_app. repeat split; try assumption.
      intros a b Ha Hb. apply C; [assumption|now right]. }
  pose proof (unsplit_Good t' U') as G'.
  assert (E : forall k' x, k' <> k ->
              (In (k', x) (entries t') <-> In (k', x) (entries t))).
  { intros k' x Ne. unfold entries, t'. cbn [root]. rewrite R, !iterateNode_unfold.
    rewrite !pairs_app by assumption. cbn [pairs]. rewrite !in_app_iff. cbn [In].
    split; [tauto|]. intros [H|[H|H]]; auto. injection H as H _. congruence. }
  exists t'. split.
  { unfold delete. rewrite R, deleteNode_unfold. cbv zeta.
    rewrite P, found_at_exact.
    replace (Uuid.compareUUID k k =? 0) with true
      by (symmetry; now apply compare_eq).
    rewrite splice_out_exact, <- HLV, splice_out_exact. cbn [bind].
    unfold t'. destruct (L ++ R0); reflexivity. }
  split; [assumption|]. split.
  { destruct (get t' k) as [x|] eqn:Ex; [|reflexivity]. exfalso.
    apply (get_spec t' k x G' Hk) in Ex. unfold entries, t' in Ex. cbn [root] in Ex.
    rewrite iterateNode_unfold, pairs_app in Ex by assumption.
    apply in_app_or in Ex as [Ex|Ex]; apply In_pairs_key in Ex; cbn [fst] in Ex.
    - apply HL in Ex. lia.
    - apply Hk0 in Ex. lia. }
  split; [reflexivity|].
  intros k' Hk' Ne. apply get_same_entries; try assumption.
  intros x. now apply E.
Qed.

(** X17.  While the index has not split (its root is a leaf
    with increasing keys), [delete] of a key that is present returns true
    and removes it: [get] no longer finds the key, finds every other key
    as before, and the size is one less. *)
Theorem delete_unsplit (t : BTreeIndex T) (k : key) (v : T) :
  unsplit t -> key16 k -> get t k = Some v ->
  exists t',
    delete t k = Ok (t', true)
    /\ unsplit t'
    /\ get t' k = None
    /\ getSize t' = getSize t - 1
    /\ forall k', key16 k' -> k' <> k -> get t' k' = get t k'.
Proof. exact (delete_unsplit_spec t k v). Qed.

(** A new key keeps the root a leaf while there is room. *)
Lemma set_unsplit (t : BTreeIndex T) (k : key) (v : T) :
  unsplit t -> key16 k -> get t k = None ->
  Z.of_nat (length (@keys T (root t))) + 1 < order t ->
  exists t', set t k v = Ok t' /\ unsplit t'
             /\ length (@keys T (root t')) = S (length (@keys T (root t))).
Proof.
  intros U Hk N Room. pose proof (unsplit_Good t U) as G.
  pose proof (get_absent t k G Hk N) as Fr.
  destruct U as (ks & vs & R & Hl & F & Inc).
  unfold entries in Fr. rewrite R in Room, Fr |- *. cbn [keys] in Room |- *.
  rewrite iterateNode_unfold in Fr.
  destruct (leaf_parts ks vs k Hl F Hk)
    as (L & R0 & LV & RV & -> & -> & HLV & HRV & P & HL & HR).
  rewrite pairs_app in Fr by assumption.
  apply Forall_app in F as [FL FR].
  apply increasing_app in Inc as (IL & IR & C).
  assert (NF : match R0 with
               | [] => false
               | r :: _ => Uuid.compareUUID k r =? 0
               end = false).
  { apply (fresh_not_found R0 k (fun r => exists rv, In (r, rv) (pairs L LV ++ pairs R0 RV)));
      try assumption.
    - intros r R' ->. destruct RV as [|rv RV]; [discriminate|].
      exists rv. apply in_or_app. right. now left.
    - intros [rv I]. exact (Fr rv I). }
  assert (Above : forall x, In x R0 -> rank k < rank x).
  { intros x Hx. destruct R0 as [|r R0]; [contradiction|].
    assert (rank k < rank r).
    { destruct (Z.eq_dec (rank k) (rank r)) as [E|E]; [|lia].
      apply rank_inj in E; [|assumption|exact (Forall_inv FR)]. subst r.
      replace (Uuid.compareUUID k k =? 0) with true in NF
        by (symmetry; now apply compare_eq). discriminate. }
    destruct Hx as [<-|Hx]; [assumption|].
    destruct IR as [Hr _]. apply Hr in Hx. lia. }
  unfold set. rewrite R, insertNode_unfold. cbv zeta.
  rewrite P, found_at_exact, NF.
  rewrite splice_in_exact, (splice_in_at LV RV _ v HLV).
  replace (order t <=? Z.of_nat (length (L ++ k :: R0))) with false.
  2:{ symmetry. apply Z.leb_gt. rewrite !length_app in *. cbn [length]. lia. }
  cbn [bind]. eexists. split; [reflexivity|]. cbn [root keys]. split.
  - exists (L ++ k :: R0), (LV ++ v :: RV). split; [reflexivity|]. split.
    + rewrite !length_app in *. cbn [length]. lia.
    + split; [apply Forall_app; split; [assumption|now constructor]|].
      apply increasing_app. repeat split; try assumption.
      intros a b Ha [<-|Hb]; [now apply HL|now apply C].
  - rewrite !length_app. cbn [length]. lia.
Qed.

End MapLaws.

(** *** A small index *)

Definition three : BTreeIndex Z :=
  Eval vm_compute in
    match set_all (create DEFAULT_ORDER) [1; 2; 3] with
    | Ok t => t
    | Err _ => create DEFAULT_ORDER
    end.

Lemma three_unsplit : unsplit three.
Proof.
  exists [sample_key 1; sample_key 2; sample_key 3], [1; 2; 3].
  split; [reflexivity|]. split; [reflexivity|]. split.
  - repeat constructor.
  - cbn [increasing]. repeat split;
      intros x Hx; cbn [In] in Hx;
      repeat (destruct Hx as [<-|Hx]; [vm_compute; reflexivity|]); destruct Hx.
Qed.

Lemma set_then_get_witness :
  get three (sample_key 7) = None
  /\ exists t',
       set three (sample_key 7) 7 = Ok t'
       /\ get t' (sample_key 7) = Some 7
       /\ getSize t' = 4.
Proof.
  split; [reflexivity|].
  destruct (set_then_get three (sample_key 7) 7 (unsplit_Good three three_unsplit))
    as (t' & S & _ & G & Sz & _); [reflexivity|reflexivity|].
  exists t'. repeat split; assumption.
Defined.

Lemma setAll_create_witness :
  exists t,
    setAll (create DEFAULT_ORDER) [(sample_key 2, 2); (sample_key 1, 1)] = Ok t
    /\ getSize t = 2.
Proof.
  destruct (setAll_create DEFAULT_ORDER [(sample_key 2, 2); (sample_key 1, 1)])
    as (t & S & Sz & _).
  - constructor; [|constructor; [intros []|constructor]].
    intros [H|[]]. discriminate H.
  - repeat constructor.
  - exists t. split; assumption.
Defined.

Lemma set_present_witness :
  get three (sample_key 2) = Some 2
  /\ exists t',
       set three (sample_key 2) 20 = Ok t'
       /\ get t' (sample_key 2) = Some 20
       /\ getSize t' = getSize three.
Proof.
  split; [reflexivity|].
  destruct (set_present three (sample_key 2) 20 2) as (t' & S & _ & G & Sz & _).
  - cbn. repeat split; repeat constructor.
  - reflexivity.
  - reflexivity.
  - exists t'. repeat split; assumption.
Defined.

Lemma set_never_throws_witness :
  exists t', set sixty_four (sample_key 100) 100 = Ok t' /\ order t' = order sixty_four.
Proof.
  destruct (set_never_throws sixty_four (sample_key 100) 100) as (t' & S & _ & O).
  - apply WF_internal. cbn [length]. split; [reflexivity|]. split; [repeat constructor|].
    split; [reflexivity|].
    repeat constructor; apply WF_leaf; split; try reflexivity; repeat constructor.
  - reflexivity.
  - exists t'. split; assumption.
Defined.

Lemma delete_missing_witness :
  get three (sample_key 9) = None
  /\ delete three (sample_key 9) = Ok (three, false).
Proof.
  split; [reflexivity|]. apply (delete_missing three (sample_key 9)).
  - cbn. repeat split; repeat constructor.
  - reflexivity.
Defined.

Lemma delete_unsplit_witness :
  get three (sample_key 2) = Some 2
  /\ exists t',
       delete three (sample_key 2) = Ok (t', true)
       /\ get t' (sample_key 2) = None
       /\ getSize t' = 2.
Proof.
  split; [reflexivity|].
  destruct (delete_unsplit three (sample_key 2) 2 three_unsplit)
    as (t' & D & _ & G & Sz & _); [reflexivity|reflexivity|].
  exists t'. repeat split; assumption.
Defined.

End BTree.

(** ** db/core/storage.ts: the record file

    The files the process touches are a map from paths to contents; every
    method returns the file system and the [Storage] object it leaves
    behind.  [crypto.getRandomValues] is an input: a method that mints
    identifiers is handed the random bytes it will draw. *)

Module Store.
Import Bytes Text.

Definition MAGIC_BYTES : jsstring := str "DOWE".
Definition VERSION_MAJOR : Z := 1.
Definition VERSION_MINOR : Z := 0.
Definition HEADER_SIZE : nat := 32.
Definition UUID_SIZE : nat := 16.
Definition INDEX_ENTRY_SIZE : nat := 32.

Record FileHeader : Type := {
  magic : jsstring;
  versionMajor : Z;
  versionMinor : Z;
  flags : Z;
  indexOffset : Z;
  dataOffset : Z;
  recordCount : Z
}.

Record RecordLocation : Type := {
  offset : Z;
  size : Z;
  checksum : Z
}.

(** [IndexManager]: the storage only ever uses the primary index. *)
Record IndexManager : Type := {
  primary : BTree.BTreeIndex RecordLocation
}.

Definition new_IndexManager : IndexManager :=
  {| primary := BTree.create BTree.DEFAULT_ORDER |}.

Definition getRecord (m : IndexManager) (id : list byte) : option RecordLocation :=
  BTree.get (primary m) id.

Definition setRecord (m : IndexManager) (id : list byte) (location : RecordLocation)
  : result IndexManager :=
  t <- BTree.set (primary m) id location ;; Ok {| primary := t |}.

Definition deleteRecord (m : IndexManager) (id : list byte)
  : result (IndexManager * bool) :=
  '(t, deleted) <- BTree.delete (primary m) id ;; Ok ({| primary := t |}, deleted).

Definition index_entries (m : IndexManager) : list (list byte * RecordLocation) :=
  BTree.entries (primary m).

Definition index_clear (m : IndexManager) : IndexManager :=
  {| primary := BTree.clear (primary m) |}.

(** *** Files *)

Definition filesystem : Type := list (string * list byte).

Fixpoint fs_read (fs : filesystem) (p : string) : option (list byte) :=
  match fs with
  | [] => None
  | (q, content) :: rest => if String.eqb q p then Some content else fs_read rest p
  end.

Fixpoint fs_remove (fs : filesystem) (p : string) : filesystem :=
  match fs with
  | [] => []
  | (q, content) :: rest =>
      if String.eqb q p then fs_remove rest p else (q, content) :: fs_remove rest p
  end.

(** [Bun.write(path, bytes)]: the file is replaced as a whole. *)
Definition fs_write (fs : filesystem) (p : string) (content : list byte) : filesystem :=
  (p, content) :: fs_remove fs p.

(** [fs.rename(from, to)]. *)
Definition fs_rename (fs : filesystem) (from to : string) : result filesystem :=
  match fs_read fs from with
  | Some content => Ok (fs_write (fs_remove fs from) to content)
  | None => Err DatabaseNotFound
  end.

(** The first [n] bytes of a buffer of [n] zeros over which [l] was copied. *)
Definition fit (n : nat) (l : list byte) : list byte :=
  firstn n (l ++ repeat x00 n).

(** *** The Storage object *)

Record Storage : Type := {
  path : string;
  file : bool;                 (* [this.file !== null] *)
  indexManager : IndexManager;
  header : FileHeader;
  dataOffset_ : Z              (* [this.dataOffset] *)
}.

Definition new_Storage (p : string) : Storage :=
  {| path := p;
     file := false;
     indexManager := new_IndexManager;
     header := {| magic := MAGIC_BYTES;
                  versionMajor := VERSION_MAJOR;
                  versionMinor := VERSION_MINOR;
                  flags := 0;
                  indexOffset := 0;
                  dataOffset := Z.of_nat HEADER_SIZE;
                  recordCount := 0 |};
     dataOffset_ := Z.of_nat HEADER_SIZE |}.

Definition with_file (s : Storage) (f : bool) : Storage :=
  {| path := path s; file := f; indexManager := indexManager s;
     header := header s; dataOffset_ := dataOffset_ s |}.

Definition with_index (s : Storage) (m : IndexManager) : Storage :=
  {| path := path s; file := file s; indexManager := m;
     header := header s; dataOffset_ := dataOffset_ s |}.

Definition with_header (s : Storage) (h : FileHeader) : Storage :=
  {| path := path s; file := file s; indexManager := indexManager s;
     header := h; dataOffset_ := dataOffset_ s |}.

Definition with_dataOffset (s : Storage) (o : Z) : Storage :=
  {| path := path s; file := file s; indexManager := indexManager s;
     header := header s; dataOffset_ := o |}.

Definition serializeHeader (h : FileHeader) : list byte :=
  fit 4 (TextEncoder_encode (magic h))
  ++ be_bytes 1 (versionMajor h)
  ++ be_bytes 1 (versionMinor h)
  ++ be_bytes 2 (flags h)
  ++ be_bytes 8 (indexOffset h)
  ++ be_bytes 8 (dataOffset h)
  ++ be_bytes 8 (recordCount h).

(** The DataView getters throw a RangeError on a buffer that is too short. *)
Definition deserializeHeader (buffer : list byte) : result FileHeader :=
  if (length buffer <? HEADER_SIZE)%nat then Err RangeError
  else
    Ok {| magic := TextDecoder_decode (slice buffer 0 4);
          versionMajor := be_value (slice buffer 4 5);
          versionMinor := be_value (slice buffer 5 6);
          flags := be_value (slice buffer 6 8);
          indexOffset := be_value (slice buffer 8 16);
          dataOffset := be_value (slice buffer 16 24);
          recordCount := be_value (slice buffer 24 32) |}.

(** The loop of [loadIndex]; every round reads one 32-byte entry, so the
    length of the block bounds the rounds. *)
Fixpoint loadIndex_loop (fuel : nat) (d : Codec.decoder) (m : IndexManager)
  : result IndexManager :=
  if Codec.hasMore d then
    match fuel with
    | O => Err OutOfFuel
    | S fuel' =>
        '(id, d) <- Codec.readBytes (Z.of_nat UUID_SIZE) d ;;
        '(offset, d) <- Codec.readUint64 d ;;
        '(size, d) <- Codec.readUint32 d ;;
        '(checksum, d) <- Codec.readUint32 d ;;
        m' <- setRecord m id {| offset := offset; size := size; checksum := checksum |} ;;
        loadIndex_loop fuel' d m'
    end
  else Ok m.

Definition loadIndex (content : list byte) (s : Storage) : result Storage :=
  let indexStart := Z.to_nat (indexOffset (header s)) in
  let fileSize := length content in
  let indexBuffer := slice content indexStart fileSize in
  m <- loadIndex_loop (length indexBuffer)
         {| Codec.buffer := indexBuffer; Codec.offset := 0 |} (indexManager s) ;;
  Ok (with_index s m).

Definition createDatabase (fs : filesystem) (s : Storage) : filesystem * Storage :=
  (fs_write fs (path s) (serializeHeader (header s)),
   with_dataOffset s (Z.of_nat HEADER_SIZE)).

Definition loadDatabase (content : list byte) (s : Storage) : result Storage :=
  h <- deserializeHeader (slice content 0 HEADER_SIZE) ;;
  let s := with_header s h in
  if negb (Codec.jsstring_eqb (magic h) MAGIC_BYTES) then Err InvalidDatabase
  else
    s <- (if 0 <? indexOffset h then loadIndex content s else Ok s) ;;
    Ok (with_dataOffset s (dataOffset h)).

(** [open(options)]; [create] is [options.create !== false]. *)
Definition open (create : bool) (fs : filesystem) (s : Storage)
  : result (filesystem * Storage) :=
  let s := with_file s true in
  match fs_read fs (path s) with
  | Some content => s' <- loadDatabase content s ;; Ok (fs, s')
  | None => if create then Ok (createDatabase fs s) else Err DatabaseNotFound
  end.

Record WriteResult : Type := {
  id : jsstring;
  w_offset : Z;
  w_size : Z
}.

Definition write (random : list byte) (data : Codec.value)
                 (fs : filesystem) (s : Storage)
  : result (WriteResult * filesystem * Storage) :=
  encoded <- Codec.encode data ;;
  let checksum := Checksum.crc32 encoded in
  let id := Uuid.generateUUID random in
  let offset := dataOffset_ s in
  let size := Z.of_nat (length encoded) in
  let recordBuffer := fit UUID_SIZE id ++ be_bytes 4 size ++ encoded in
  match fs_read fs (path s) with
  | None => Err DatabaseNotFound
  | Some existingBytes =>
      let newContent := fit (Z.to_nat offset) existingBytes ++ recordBuffer in
      let fs := fs_write fs (path s) newContent in
      m <- setRecord (indexManager s) id
             {| offset := offset; size := size; checksum := checksum |} ;;
      let dataOffset' := dataOffset_ s + Z.of_nat (length recordBuffer) in
      let h := header s in
      let h' := {| magic := magic h; versionMajor := versionMajor h;
                   versionMinor := versionMinor h; flags := flags h;
                   indexOffset := indexOffset h;
                   dataOffset := dataOffset';
                   recordCount := recordCount h + 1 |} in
      Ok ({| id := Uuid.uuidToString id; w_offset := offset; w_size := size |},
          fs,
          {| path := path s; file := file s; indexManager := m;
             header := h'; dataOffset_ := dataOffset' |})
  end.

(** The payload bytes the index entry points at. *)
Definition payload (content : list byte) (location : RecordLocation) : list byte :=
  let recordStart := (Z.to_nat (offset location) + UUID_SIZE + 4)%nat in
  let recordEnd := (recordStart + Z.to_nat (size location))%nat in
  slice content recordStart recordEnd.

(** [read(id)]; JavaScript [null] is [VNull]. *)
Definition read (id : jsstring) (fs : filesystem) (s : Storage)
  : result (Codec.value * Storage) :=
  let idBytes := Uuid.stringToUUID id in
  match getRecord (indexManager s) idBytes with
  | None => Ok (Codec.VNull, s)
  | Some location =>
      let s := with_file s true in
      match fs_read fs (path s) with
      | None => Err DatabaseNotFound
      | Some content =>
          let recordBuffer := payload content location in
          if negb (Checksum.crc32 recordBuffer =? checksum location)
          then Err ChecksumMismatch
          else v <- Codec.decode recordBuffer ;; Ok (v, s)
      end
  end.

Definition delete (id : jsstring) (s : Storage) : result (bool * Storage) :=
  let idBytes := Uuid.stringToUUID id in
  '(m, deleted) <- deleteRecord (indexManager s) idBytes ;;
  let h := header s in
  let h' := if deleted
            then {| magic := magic h; versionMajor := versionMajor h;
                    versionMinor := versionMinor h; flags := flags h;
                    indexOffset := indexOffset h; dataOffset := dataOffset h;
                    recordCount := recordCount h - 1 |}
            else h in
  Ok (deleted, with_header (with_index s m) h').

Definition index_entry_bytes (e : list byte * RecordLocation) : list byte :=
  let '(id, location) := e in
  fit UUID_SIZE id
  ++ be_bytes 8 (offset location)
  ++ be_bytes 4 (size location)
  ++ be_bytes 4 (checksum location).

Definition persistIndex (fs : filesystem) (s : Storage)
  : result (filesystem * Storage) :=
  let indexBuffer := flat_map index_entry_bytes (index_entries (indexManager s)) in
  let h := header s in
  let h' := {| magic := magic h; versionMajor := versionMajor h;
               versionMinor := versionMinor h; flags := flags h;
               indexOffset := dataOffset_ s; dataOffset := dataOffset h;
               recordCount := recordCount h |} in
  match fs_read fs (path s) with
  | None => Err DatabaseNotFound
  | Some existingBytes =>
      let newContent := fit (Z.to_nat (dataOffset_ s)) existingBytes ++ indexBuffer in
      Ok (fs_write fs (path s) newContent, with_header s h')
  end.

(** [existingBytes.set(headerBuffer, 0)] throws a RangeError on a file
    shorter than the header. *)
Definition persistHeader (fs : filesystem) (s : Storage) : result filesystem :=
  let headerBuffer := serializeHeader (header s) in
  match fs_read fs (path s) with
  | None => Err DatabaseNotFound
  | Some existingBytes =>
      if (length existingBytes <? length headerBuffer)%nat then Err RangeError
      else Ok (fs_write fs (path s)
                 (headerBuffer ++ skipn (length headerBuffer) existingBytes))
  end.

Definition flush (fs : filesystem) (s : Storage) : result (filesystem * Storage) :=
  '(fs, s) <- persistIndex fs s ;;
  fs <- persistHeader fs s ;;
  Ok (fs, s).

Definition close (fs : filesystem) (s : Storage) : result (filesystem * Storage) :=
  '(fs, s) <- flush fs s ;;
  Ok (fs, with_index (with_file s false) (index_clear (indexManager s))).

(** The Bun file handle in [this.file].  [open()] takes it and asks whether
    the file exists, which settles the size the handle goes by from then on:
    the size of the file at that moment, 0 for a file that is not there
    yet.  [read()] puts a new handle in its place, whose size is not settled;
    [close()] drops it. *)
Inductive FileHandle : Type :=
| no_handle
| sized (size : nat)
| unsized.

(** The handle [open()] leaves, from the files as they are when it is
    called. *)
Definition opened_handle (fs : filesystem) (p : string) : FileHandle :=
  sized match fs_read fs p with
        | Some content => length content
        | None => O
        end.

(** [handle.slice(start, stop)]: the range is cut to the size the handle
    goes by; the bytes are those the file holds when they are read. *)
Definition handle_slice (h : FileHandle) (content : list byte) (start stop : nat)
  : result (list byte) :=
  match h with
  | no_handle => Err NullHandle
  | sized n => Ok (slice content (Nat.min start n) (Nat.min stop n))
  | unsized => Ok (slice content start stop)
  end.

(** [await this.file!.slice(recordStart, recordEnd).arrayBuffer()]. *)
Definition read_through (h : FileHandle) (fs : filesystem) (p : string)
           (location : RecordLocation) : result (list byte) :=
  let recordStart := (Z.to_nat (offset location) + UUID_SIZE + 4)%nat in
  let recordEnd := (recordStart + Z.to_nat (size location))%nat in
  match h with
  | no_handle => Err NullHandle
  | _ =>
      match fs_read fs p with
      | Some content => handle_slice h content recordStart recordEnd
      | None => Err DatabaseNotFound
      end
  end.

(** The loop of [compact]: every live payload is read through the handle of
    this storage, decoded, and written to the new one. *)
Fixpoint compact_loop (h : FileHandle)
                      (entries : list (list byte * RecordLocation))
                      (randoms : list (list byte))
                      (p : string)
                      (fs : filesystem) (newStorage : Storage)
  : result (filesystem * Storage) :=
  match entries with
  | [] => Ok (fs, newStorage)
  | (_, location) :: rest =>
      recordBuffer <- read_through h fs p location ;;
      data <- Codec.decode recordBuffer ;;
      '(_, fs, newStorage) <- write (hd [] randoms) data fs newStorage ;;
      compact_loop h rest (tl randoms) p fs newStorage
  end.

(** [compact()]; [h] is the handle in [this.file] when it is called. *)
Definition compact (h : FileHandle) (randoms : list (list byte))
           (fs : filesystem) (s : Storage)
  : result (filesystem * Storage) :=
  let entries := index_entries (indexManager s) in
  let tempPath := (path s ++ ".tmp")%string in
  '(fs, newStorage) <- open true fs (new_Storage tempPath) ;;
  '(fs, newStorage) <- compact_loop h entries randoms (path s) fs newStorage ;;
  '(fs, newStorage) <- flush fs newStorage ;;
  '(fs, _) <- close fs newStorage ;;
  fs <- fs_rename fs tempPath (path s) ;;
  open true fs s.

(** [getRecordCount()]: [Number(this.header.recordCount)]. *)
Definition getRecordCount (s : Storage) : Num.number :=
  Num.ofZ (recordCount (header s)).

Definition createStorage (p : string) (fs : filesystem) : result (filesystem * Storage) :=
  open true fs (new_Storage p).

Definition openStorage (p : string) (fs : filesystem) : result (filesystem * Storage) :=
  open false fs (new_Storage p).


(** *** Files and padding *)

Lemma fs_read_write (fs : filesystem) (p : string) (content : list byte) :
  fs_read (fs_write fs p content) p = Some content.
Proof. unfold fs_write. cbn [fs_read]. now rewrite String.eqb_refl. Qed.

Lemma fit_prefix (n : nat) (l : list byte) :
  (n <= length l)%nat -> fit n l = firstn n l.
Proof.
  intros H. unfold fit. rewrite firstn_app.
  replace (n - length l)%nat with O by lia. cbn [firstn]. apply app_nil_r.
Qed.

Lemma fit_exact (l : list byte) : fit (length l) l = l.
Proof. rewrite fit_prefix by lia. apply firstn_all. Qed.

Lemma fit_length (n : nat) (l : list byte) : length (fit n l) = n.
Proof.
  unfold fit. rewrite length_firstn, length_app, repeat_length. lia.
Qed.

(** *** Reading a record *)

(** C7.  [read(id)] returns null, and no error, when the id is not in the
    index; when it is, it takes the [size] bytes that start at
    [offset + 20], fails with the checksum error if and only if their
    CRC-32 differs from the stored one, and otherwise returns what the
    decoder makes of those bytes. *)
Theorem read_spec (id : jsstring) (fs : filesystem) (s : Storage) :
  (getRecord (indexManager s) (Uuid.stringToUUID id) = None ->
   read id fs s = Ok (Codec.VNull, s))
  /\ (forall location content,
        getRecord (indexManager s) (Uuid.stringToUUID id) = Some location ->
        fs_read fs (path s) = Some content ->
        let start := (Z.to_nat (offset location) + 20)%nat in
        let bytes := slice content start (start + Z.to_nat (size location)) in
        (read id fs s = Err ChecksumMismatch
         <-> Checksum.crc32 bytes <> checksum location)
        /\ (Checksum.crc32 bytes = checksum location ->
            read id fs s = (v <- Codec.decode bytes ;; Ok (v, with_file s true)))).
Proof.
  split.
  - intros H. unfold read. now rewrite H.
  - intros location content Hl Hc start bytes.
    assert (P : payload content location = bytes).
    { unfold payload, bytes, start, UUID_SIZE.
      replace (Z.to_nat (offset location) + 16 + 4)%nat
        with (Z.to_nat (offset location) + 20)%nat by lia.
      reflexivity. }
    unfold read. rewrite Hl. cbn [with_file path]. rewrite Hc, P.
    destruct (Z.eqb_spec (Checksum.crc32 bytes) (checksum location)) as [E|NE];
      cbn [negb].
    + split; [|reflexivity]. split; [|contradiction].
      intros H. exfalso.
      destruct (Codec.decode bytes) as [v|e] eqn:D; cbn [bind] in H;
        [discriminate|].
      injection H as ->. apply Codec.decode_errors in D. discriminate.
    + split; [|contradiction]. split; [intros _; assumption|reflexivity].
Qed.

(** *** Sample runs *)

Definition sample_path : string := "/tmp/test-dowe.db".

Definition sample_random (i : Z) : list byte := be_bytes 16 i.

Definition sample_value : Codec.value :=
  Codec.VObject [(str "name", Codec.VString (str "test"));
                 (str "value", Codec.VNumber (Num.ofZ 42))].

(** A new database, one record written. *)
Definition one_record : result (WriteResult * filesystem * Storage) :=
  Eval vm_compute in
    ('(fs, s) <- createStorage sample_path [] ;;
     write (sample_random 1) sample_value fs s).

Definition one_record_fs : filesystem :=
  Eval vm_compute in match one_record with Ok (_, fs, _) => fs | Err _ => [] end.

Definition one_record_storage : Storage :=
  Eval vm_compute in
    match one_record with Ok (_, _, s) => s | Err _ => new_Storage sample_path end.

Definition one_record_id : jsstring :=
  Eval vm_compute in match one_record with Ok (w, _, _) => id w | Err _ => [] end.

Lemma read_spec_witness :
  one_record = Ok ({| id := one_record_id; w_offset := 32; w_size := 23 |},
                   one_record_fs, one_record_storage)
  /\ read one_record_id one_record_fs one_record_storage
     = Ok (sample_value, with_file one_record_storage true).
Proof.
  split; [reflexivity|].
  destruct (read_spec one_record_id one_record_fs one_record_storage) as [_ H].
  pose (location :=
          match getRecord (indexManager one_record_storage)
                  (Uuid.stringToUUID one_record_id) with
          | Some l => l
          | None => {| offset := 0; size := 0; checksum := 0 |}
          end).
  pose (content := match fs_read one_record_fs sample_path with
                   | Some c => c
                   | None => []
                   end).
  destruct (H location content eq_refl eq_refl) as [_ R].
  rewrite R; reflexivity.
Defined.

(** *** The frame of a write *)

(** C10.  A write leaves the bytes of the file below [dataOffset] as they
    were and puts the record, 20 bytes of id and size followed by the
    payload, right after them: the file ends at
    [dataOffset + 20 + payload size], whatever followed [dataOffset] before
    (an index block of an earlier flush) is gone, and the new
    [dataOffset] is the end of the file.  ([dataOffset] is an unsigned
    64-bit bigint in the source, hence not negative.) *)
Theorem write_frame (random : list byte) (data : Codec.value)
        (fs fs' : filesystem) (s s' : Storage) (w : WriteResult) :
  write random data fs s = Ok (w, fs', s') ->
  0 <= dataOffset_ s ->
  exists existing encoded content,
    fs_read fs (path s) = Some existing
    /\ Codec.encode data = Ok encoded
    /\ w_size w = Z.of_nat (length encoded)
    /\ fs_read fs' (path s) = Some content
    /\ content = fit (Z.to_nat (dataOffset_ s)) existing
                 ++ Uuid.generateUUID random
                 ++ be_bytes 4 (Z.of_nat (length encoded)) ++ encoded
    /\ (forall i, (i < Z.to_nat (dataOffset_ s))%nat -> (i < length existing)%nat ->
                  nth_error content i = nth_error existing i)
    /\ ((Z.to_nat (dataOffset_ s) <= length existing)%nat ->
        firstn (Z.to_nat (dataOffset_ s)) content
        = firstn (Z.to_nat (dataOffset_ s)) existing)
    /\ Z.of_nat (length content) = dataOffset_ s + 20 + w_size w
    /\ dataOffset_ s' = Z.of_nat (length content).
Proof.
  intros W B. unfold write in W.
  destruct (Codec.encode data) as [encoded|e]; cbn [bind] in W; [|discriminate].
  destruct (fs_read fs (path s)) as [existing|] eqn:R; [|discriminate].
  destruct (setRecord _ _ _) as [m|e]; cbn [bind] in W; [|discriminate].
  remember (be_bytes 4 (Z.of_nat (length encoded))) as sizeBytes eqn:Esz.
  assert (Lsz : length sizeBytes = 4%nat) by (subst; apply be_bytes_length).
  injection W as <- <- <-.
  set (n := Z.to_nat (dataOffset_ s)) in *.
  assert (Hid : fit UUID_SIZE (Uuid.generateUUID random) = Uuid.generateUUID random).
  { unfold UUID_SIZE. rewrite <- (Uuid.generateUUID_length random) at 1.
    apply fit_exact. }
  exists existing, encoded.
  exists (fit n existing ++ Uuid.generateUUID random ++ sizeBytes ++ encoded).
  split; [reflexivity|]. split; [reflexivity|]. split; [reflexivity|]. split.
  { cbn [path]. rewrite fs_read_write, Hid. reflexivity. }
  split; [now rewrite Esz|]. split.
  { intros i Hi He. rewrite nth_error_app1 by (rewrite fit_length; lia).
    unfold fit. rewrite nth_error_firstn.
    replace (i <? n)%nat with true by (symmetry; apply Nat.ltb_lt; lia).
    now rewrite nth_error_app1. }
  split.
  { intros Hn. rewrite fit_prefix by assumption.
    rewrite firstn_app, length_firstn, firstn_firstn.
    replace (Nat.min n (length existing)) with n by lia.
    rewrite Nat.min_id, Nat.sub_diag. cbn [firstn]. apply app_nil_r. }
  split.
  { rewrite !length_app, fit_length, Uuid.generateUUID_length, Lsz.
    cbn [w_size]. subst n. lia. }
  cbn [dataOffset_].
  rewrite !length_app, !fit_length, Uuid.generateUUID_length, Lsz.
  unfold UUID_SIZE. subst n. lia.
Qed.

(** A database flushed after one record, then written to again: the file
    carried an index block past [dataOffset]. *)
Definition flushed_one_record : result (filesystem * Storage) :=
  Eval vm_compute in
    ('(_, fs, s) <- one_record ;; flush fs s).

Definition flushed_fs : filesystem :=
  Eval vm_compute in match flushed_one_record with Ok (fs, _) => fs | Err _ => [] end.

Definition flushed_storage : Storage :=
  Eval vm_compute in
    match flushed_one_record with Ok (_, s) => s | Err _ => new_Storage sample_path end.

Definition flushed_content : list byte :=
  Eval vm_compute in
    match fs_read flushed_fs sample_path with Some c => c | None => [] end.

Definition second_write : WriteResult * filesystem * Storage :=
  Eval vm_compute in
    match write (sample_random 2) sample_value flushed_fs flushed_storage with
    | Ok r => r
    | Err _ => ({| id := []; w_offset := 0; w_size := 0 |}, [], flushed_storage)
    end.

Lemma write_frame_witness :
  dataOffset_ flushed_storage = 75
  /\ length flushed_content = (75 + 32)%nat
  /\ exists content,
       fs_read (snd (fst second_write)) sample_path = Some content
       /\ firstn 75 content = firstn 75 flushed_content
       /\ length content = (75 + 20 + 23)%nat
       /\ dataOffset_ (snd second_write) = 118.
Proof.
  split; [reflexivity|]. split; [reflexivity|].
  destruct (write_frame (sample_random 2) sample_value flushed_fs
              (snd (fst second_write)) flushed_storage (snd second_write)
              (fst (fst second_write)))
    as (existing & encoded & content & R & E & Sz & C & _ & _ & F & L & O).
  - reflexivity.
  - vm_compute. discriminate.
  - change (fs_read flushed_fs (path flushed_storage)) with (Some flushed_content) in R.
    injection R as <-.
    change (w_size (fst (fst second_write))) with 23 in L.
    change (dataOffset_ flushed_storage) with 75 in L, F.
    change (Z.to_nat 75) with 75%nat in F.
    exists content.
    split; [exact C|]. split; [apply F; vm_compute; lia|]. split; [lia|].
    rewrite O. lia.
Defined.

(** *** Compaction *)

(** One live record, flushed; the storage is closed and the file opened
    again, as a later process would. *)
Definition reopened_one_record : result (filesystem * Storage * FileHandle) :=
  Eval vm_compute in
    ('(fs, s) <- flushed_one_record ;;
     '(fs, s) <- close fs s ;;
     '(fs', s') <- openStorage (path s) fs ;;
     Ok (fs', s', opened_handle fs (path s))).

(** [compact()] on the reopened storage; the new record draws the random
    bytes [sample_random 2]. *)
Definition compacted_one_record : result (filesystem * Storage) :=
  Eval vm_compute in
    ('(fs, s, h) <- reopened_one_record ;; compact h [sample_random 2] fs s).

Definition old_id : list byte := Eval vm_compute in Uuid.generateUUID (sample_random 1).
Definition new_id : list byte := Eval vm_compute in Uuid.generateUUID (sample_random 2).

(** In the session that created the file the handle of [open()] goes by a
    size of 0: [compact()] reads no byte through it and the decoder
    throws. *)
Example compact_in_creating_session :
  match flushed_one_record with
  | Ok (fs, s) =>
      opened_handle [] sample_path = sized 0
      /\ compact (sized 0) [sample_random 2] fs s = Err BufferUnderflow
  | Err _ => False
  end.
Proof. vm_compute. split; reflexivity. Qed.

(** C6 (the code at its failing input).  After [compact()] on a reopened
    storage the in-memory index still holds the pre-compaction id next to
    the new one: [open] loads the new index block into an index that was
    never cleared. *)
Lemma compact_keeps_stale_id :
  match one_record, reopened_one_record, compacted_one_record with
  | Ok (w, _, _), Ok (_, reopened, h), Ok (fs, s) =>
      Uuid.stringToUUID (id w) = old_id
      /\ h = sized (75 + 32)
      /\ map fst (index_entries (indexManager reopened)) = [old_id]
      /\ map fst (index_entries (indexManager s)) = [old_id; new_id]
      /\ getRecord (indexManager s) old_id <> None
      /\ (exists content,
            fs_read fs (path s) = Some content
            /\ length content = (75 + 32)%nat)
      /\ recordCount (header s) = 1
      /\ getRecordCount s = Num.ofZ 1
  | _, _, _ => False
  end.
Proof.
  vm_compute. repeat split; try discriminate. eexists. split; reflexivity.
Qed.

(** *** The index block *)

(** The records of a list entered one after the other. *)
Fixpoint setRecords (m : IndexManager) (es : list (list byte * RecordLocation))
  : result IndexManager :=
  match es with
  | [] => Ok m
  | (k, location) :: rest => m' <- setRecord m k location ;; setRecords m' rest
  end.

(** An entry the 32 bytes of the index block can hold. *)
Definition entry_ranges (e : list byte * RecordLocation) : Prop :=
  length (fst e) = 16%nat
  /\ 0 <= offset (snd e) < 2 ^ 64
  /\ 0 <= size (snd e) < 2 ^ 32
  /\ 0 <= checksum (snd e) < 2 ^ 32.

Lemma index_entry_bytes_length (e : list byte * RecordLocation) :
  length (index_entry_bytes e) = 32%nat.
Proof.
  destruct e as [k loc]. unfold index_entry_bytes.
  rewrite !length_app, fit_length, !be_bytes_length. reflexivity.
Qed.

Lemma sees_skip_be (n : nat) (z : Z) (d : Codec.decoder) (tl : list byte) :
  Codec.sees d (be_bytes n z ++ tl) -> Codec.sees (Codec.skip n d) tl.
Proof.
  intros S. apply Codec.sees_skip in S. now rewrite be_bytes_length in S.
Qed.

(** [loadIndex] reads back the entries [persistIndex] wrote, in order, and
    never runs out of rounds. *)
Lemma loadIndex_loop_entries (es : list (list byte * RecordLocation)) :
  forall fuel d m,
    Forall entry_ranges es ->
    (length (flat_map index_entry_bytes es) <= fuel)%nat ->
    Codec.sees d (flat_map index_entry_bytes es) ->
    loadIndex_loop fuel d m = setRecords m es.
Proof.
  induction es as [|[k loc] es IH]; intros fuel d m F Hf S.
  - cbn [flat_map] in S. pose proof (Codec.sees_length _ _ S) as L. cbn [length] in L.
    assert (H : Codec.hasMore d = false).
    { unfold Codec.hasMore. apply Nat.ltb_ge. lia. }
    destruct fuel; cbn [loadIndex_loop setRecords]; now rewrite H.
  - cbn [flat_map] in S, Hf. pose proof (Codec.sees_length _ _ S) as L.
    rewrite length_app, index_entry_bytes_length in L, Hf.
    assert (H : Codec.hasMore d = true).
    { unfold Codec.hasMore. apply Nat.ltb_lt. lia. }
    destruct fuel as [|fuel]; [lia|]. cbn [loadIndex_loop setRecords]. rewrite H.
    pose proof (Forall_inv F) as (Hk & Ho & Hs & Hc). cbn [fst snd] in Hk, Ho, Hs, Hc.
    assert (EB : index_entry_bytes (k, loc)
                 = k ++ be_bytes 8 (offset loc) ++ be_bytes 4 (size loc)
                     ++ be_bytes 4 (checksum loc)).
    { unfold index_entry_bytes, UUID_SIZE. rewrite <- Hk. now rewrite fit_exact. }
    rewrite EB, <- !app_assoc in S.
    unfold Codec.readBytes, UUID_SIZE. rewrite Nat2Z.id, <- Hk.
    rewrite (Codec.take_sees _ _ _ S). cbn [bind]. apply Codec.sees_skip in S.
    unfold Codec.readUint64, Codec.readUint32, Codec.readUint.
    rewrite (Codec.take_be _ _ _ _ S). cbn [bind].
    apply sees_skip_be in S.
    rewrite (Codec.take_be _ _ _ _ S). cbn [bind].
    apply sees_skip_be in S.
    rewrite (Codec.take_be _ _ _ _ S). cbn [bind].
    apply sees_skip_be in S.
    rewrite (be_value_bytes 8 (offset loc)) by exact Ho.
    rewrite (be_value_bytes 4 (size loc)) by exact Hs.
    rewrite (be_value_bytes 4 (checksum loc)) by exact Hc.
    destruct loc as [o sz c]. cbn [offset size checksum].
    destruct (setRecord m k _) as [m'|e]; cbn [bind]; [|reflexivity].
    apply IH; [exact (Forall_inv_tail F)|lia|exact S].
Qed.

(** Entering entries whose keys are new, or already there with the same
    location, succeeds and adds exactly them. *)
Lemma setRecords_spec (es : list (list byte * RecordLocation)) :
  forall m,
    BTree.Good (primary m) ->
    Forall (fun e => length (fst e) = 16%nat) es ->
    BTree.functional (index_entries m ++ es) ->
    exists m',
      setRecords m es = Ok m'
      /\ BTree.Good (primary m')
      /\ forall e, In e (index_entries m') <-> In e (index_entries m) \/ In e es.
Proof.
  induction es as [|[k loc] es IH]; intros m G F Fn.
  - exists m. split; [reflexivity|]. split; [assumption|].
    intros e. cbn [In]. tauto.
  - pose proof (Forall_inv F) as Hk. cbn [fst] in Hk.
    assert (Cases : BTree.get (primary m) k = None \/ BTree.get (primary m) k = Some loc).
    { destruct (BTree.get (primary m) k) as [loc'|] eqn:E; [right|now left].
      apply (BTree.get_spec _ _ _ G Hk) in E. f_equal.
      apply (Fn k); apply in_or_app; [now left|right; now left]. }
    destruct (BTree.set_spec (primary m) k loc G Hk Cases) as (t' & St & G' & _ & M).
    cbn [setRecords]. unfold setRecord. rewrite St. cbn [bind].
    destruct (IH {| primary := t' |}) as (m' & Sm & Gm & Mm).
    + exact G'.
    + exact (Forall_inv_tail F).
    + intros k0 v v' I1 I2. apply (Fn k0 v v').
      * apply in_app_or in I1 as [I1|I1].
        -- apply M in I1 as [->|I1]; apply in_or_app; [right; now left|now left].
        -- apply in_or_app. right. now right.
      * apply in_app_or in I2 as [I2|I2].
        -- apply M in I2 as [->|I2]; apply in_or_app; [right; now left|now left].
        -- apply in_or_app. right. now right.
    + exists m'. split; [assumption|]. split; [assumption|].
      intros e. rewrite Mm. unfold index_entries at 1. cbn [primary]. rewrite M.
      unfold index_entries. cbn [In]. split.
      * intros [[->|H]|H]; auto.
      * intros [H|[<-|H]]; auto.
Qed.

(** *** The layout of the file *)

Lemma slice_app_l {A : Type} (l1 l2 : list A) (a b : nat) :
  (b <= length l1)%nat -> slice (l1 ++ l2) a b = slice l1 a b.
Proof.
  intros H. unfold slice. rewrite skipn_app, firstn_app, length_skipn.
  replace (b - a - (length l1 - a))%nat with O by lia.
  cbn [firstn]. apply app_nil_r.
Qed.

Lemma slice_app_r {A : Type} (l1 l2 : list A) (a b : nat) :
  (length l1 <= a)%nat -> slice (l1 ++ l2) a b = slice l2 (a - length l1) (b - length l1).
Proof.
  intros H. unfold slice. rewrite skipn_app, skipn_all2 by assumption.
  cbn [app]. f_equal. lia.
Qed.

Lemma slice_all {A : Type} (l : list A) : slice l 0 (length l) = l.
Proof. unfold slice. cbn [skipn]. rewrite Nat.sub_0_r. apply firstn_all. Qed.

(** The payload an index entry points at, within the data region (the
    bytes from the end of the header to [dataOffset]). *)
Definition payload_in (data : list byte) (location : RecordLocation) : list byte :=
  let start := (Z.to_nat (offset location) + 20 - 32)%nat in
  slice data start (start + Z.to_nat (size location)).

Lemma payload_layout (hdr data tail : list byte) (location : RecordLocation) :
  length hdr = 32%nat -> 32 <= offset location -> 0 <= size location ->
  offset location + 20 + size location <= 32 + Z.of_nat (length data) ->
  payload (hdr ++ data ++ tail) location = payload_in data location.
Proof.
  intros Hh Ho Hs Hd. unfold payload, payload_in, UUID_SIZE.
  rewrite slice_app_r by lia. rewrite slice_app_l by lia.
  rewrite Hh. f_equal; lia.
Qed.

Lemma payload_in_app (data more : list byte) (location : RecordLocation) :
  32 <= offset location -> 0 <= size location ->
  offset location + 20 + size location <= 32 + Z.of_nat (length data) ->
  payload_in (data ++ more) location = payload_in data location.
Proof.
  intros Ho Hs Hd. unfold payload_in. apply slice_app_l. lia.
Qed.

Lemma payload_in_new (data uuid sizeBytes encoded : list byte) (o : Z) (c : Z) :
  length uuid = 16%nat -> length sizeBytes = 4%nat ->
  o = 32 + Z.of_nat (length data) ->
  payload_in (data ++ uuid ++ sizeBytes ++ encoded)
             {| offset := o; size := Z.of_nat (length encoded); checksum := c |}
  = encoded.
Proof.
  intros Hu Hz ->. unfold payload_in. cbn [offset size].
  rewrite slice_app_r by lia. rewrite app_assoc.
  rewrite slice_app_r by (rewrite length_app; lia).
  rewrite length_app, Hu, Hz.
  replace (Z.to_nat (32 + Z.of_nat (length data)) + 20 - 32 - length data - (16 + 4))%nat
    with O by lia.
  replace (Z.to_nat (32 + Z.of_nat (length data)) + 20 - 32
           + Z.to_nat (Z.of_nat (length encoded)) - length data - (16 + 4))%nat
    with (length encoded) by lia.
  apply slice_all.
Qed.

(** *** Consistent storages *)

(** The state of a storage between calls, as [open], [write] and [flush]
    leave it: the file is a 32-byte header, the data region [data] up to
    [dataOffset], and whatever an earlier flush left behind it; the index is
    a well-formed tree whose entries fit their 32 bytes. *)
Record consistent (fs : filesystem) (s : Storage) (data : list byte) : Prop := {
  c_file : exists hdr tail,
             length hdr = 32%nat /\ fs_read fs (path s) = Some (hdr ++ data ++ tail);
  c_offset : dataOffset_ s = 32 + Z.of_nat (length data);
  c_bound : dataOffset_ s < 2 ^ 64;
  c_header : dataOffset (header s) = dataOffset_ s;
  c_magic : magic (header s) = MAGIC_BYTES;
  c_index : BTree.Good (primary (indexManager s));
  c_entries : Forall entry_ranges (index_entries (indexManager s))
}.

(** The record of [v] is in the data region and the index points at it
    under the id [i]. *)
Definition stored (data : list byte) (m : IndexManager) (i : jsstring) (v : Codec.value)
  : Prop :=
  exists location encoded,
    In (Uuid.stringToUUID i, location) (index_entries m)
    /\ Codec.encode v = Ok encoded
    /\ 32 <= offset location
    /\ size location = Z.of_nat (length encoded)
    /\ offset location + 20 + size location <= 32 + Z.of_nat (length data)
    /\ payload_in data location = encoded
    /\ checksum location = Checksum.crc32 encoded.

Lemma stored_mono (data more : list byte) (m m' : IndexManager)
      (i : jsstring) (v : Codec.value) :
  (forall e, In e (index_entries m) -> In e (index_entries m')) ->
  stored data m i v -> stored (data ++ more) m' i v.
Proof.
  intros Sub (loc & encoded & I & E & Ho & Hs & Hd & P & C).
  exists loc, encoded. repeat split; try assumption; try lia.
  - now apply Sub.
  - rewrite length_app. lia.
  - rewrite payload_in_app; [assumption|lia|lia|lia].
Qed.

Lemma encode_supported (v : Codec.value) :
  Codec.supported v = true ->
  exists encoded, Codec.encode v = Ok encoded /\ Codec.decode encoded = Ok v.
Proof.
  intros Hs. pose proof (Codec.roundtrip_same v Hs) as R. unfold Codec.roundtrip in R.
  destruct (Codec.encode v) as [encoded|e]; [|discriminate].
  exists encoded. now split.
Qed.

(** What is stored is read back. *)
Lemma read_stored (fs : filesystem) (s : Storage) (data : list byte)
      (i : jsstring) (v : Codec.value) :
  consistent fs s data -> stored data (indexManager s) i v ->
  Codec.supported v = true ->
  read i fs s = Ok (v, with_file s true).
Proof.
  intros C (loc & encoded & I & E & Ho & Hs & Hd & P & Cs) Sv.
  destruct C as [(hdr & tail & Hh & Hf) _ _ _ _ G R].
  assert (Hk : length (Uuid.stringToUUID i) = 16%nat).
  { rewrite Forall_forall in R. exact (proj1 (R _ I)). }
  unfold read, getRecord.
  rewrite (proj2 (BTree.get_spec _ _ loc G Hk) I).
  cbn [with_file path]. rewrite Hf.
  rewrite payload_layout by (try assumption; lia).
  rewrite P, Cs, Z.eqb_refl. cbn [negb].
  destruct (encode_supported v Sv) as (encoded' & E' & D).
  assert (encoded' = encoded) by congruence. subst encoded'.
  now rewrite D.
Qed.

(** *** The header *)

Lemma serializeHeader_length (h : FileHeader) : length (serializeHeader h) = 32%nat.
Proof.
  unfold serializeHeader. rewrite !length_app, fit_length, !be_bytes_length. reflexivity.
Qed.

Lemma slice_mid {A : Type} (pre x post : list A) (a b : nat) :
  length pre = a -> (a + length x)%nat = b -> slice (pre ++ x ++ post) a b = x.
Proof.
  intros <- <-. rewrite slice_app_r by lia. rewrite slice_app_l by lia.
  replace (length pre - length pre)%nat with O by lia.
  replace (length pre + length x - length pre)%nat with (length x) by lia.
  apply slice_all.
Qed.

(** The fields [loadDatabase] looks at come back from the bytes. *)
Lemma deserialize_serialize (h : FileHeader) :
  magic h = MAGIC_BYTES ->
  0 <= indexOffset h < 2 ^ 64 -> 0 <= dataOffset h < 2 ^ 64 ->
  exists h',
    deserializeHeader (serializeHeader h) = Ok h'
    /\ magic h' = MAGIC_BYTES
    /\ indexOffset h' = indexOffset h
    /\ dataOffset h' = dataOffset h.
Proof.
  intros M Hi Hd. unfold deserializeHeader.
  rewrite serializeHeader_length. cbn [Nat.ltb Nat.leb HEADER_SIZE].
  eexists. split; [reflexivity|]. cbn [magic indexOffset dataOffset].
  set (A := fit 4 (TextEncoder_encode (magic h))).
  set (B := be_bytes 1 (versionMajor h) ++ be_bytes 1 (versionMinor h)
            ++ be_bytes 2 (flags h)).
  assert (LA : length A = 4%nat) by apply fit_length.
  assert (LB : length B = 4%nat).
  { unfold B. rewrite !length_app, !be_bytes_length. reflexivity. }
  assert (E : serializeHeader h
              = A ++ B ++ be_bytes 8 (indexOffset h) ++ be_bytes 8 (dataOffset h)
                  ++ be_bytes 8 (recordCount h)).
  { unfold serializeHeader, A, B. now rewrite <- !app_assoc. }
  split; [|split].
  - rewrite E. rewrite slice_app_l by lia. rewrite <- LA, slice_all.
    unfold A. rewrite M. reflexivity.
  - replace (serializeHeader h)
      with ((A ++ B) ++ be_bytes 8 (indexOffset h)
            ++ (be_bytes 8 (dataOffset h) ++ be_bytes 8 (recordCount h)))
      by (rewrite E, <- !app_assoc; reflexivity).
    rewrite slice_mid; [now apply be_value_bytes| |].
    + rewrite length_app. lia.
    + now rewrite be_bytes_length.
  - replace (serializeHeader h)
      with ((A ++ B ++ be_bytes 8 (indexOffset h)) ++ be_bytes 8 (dataOffset h)
            ++ be_bytes 8 (recordCount h))
      by (rewrite E, <- !app_assoc; reflexivity).
    rewrite slice_mid; [now apply be_value_bytes| |].
    + rewrite !length_app, be_bytes_length. lia.
    + now rewrite be_bytes_length.
Qed.

(** *** One write *)

Definition encoded_size (v : Codec.value) : Z :=
  match Codec.encode v with
  | Ok encoded => Z.of_nat (length encoded)
  | Err _ => 0
  end.

Lemma firstn_data (hdr data tail : list byte) (n : Z) :
  length hdr = 32%nat -> n = 32 + Z.of_nat (length data) ->
  fit (Z.to_nat n) (hdr ++ data ++ tail) = hdr ++ data.
Proof.
  intros Hh ->. rewrite fit_prefix by (rewrite !length_app; lia).
  rewrite app_assoc.
  replace (Z.to_nat (32 + Z.of_nat (length data))) with (length (hdr ++ data))
    by (rewrite length_app; lia).
  rewrite firstn_app, firstn_all, Nat.sub_diag. cbn [firstn]. apply app_nil_r.
Qed.

(** A write with a new id into a consistent storage: the record is appended
    to the data region and entered in the index. *)
Lemma write_consistent (random : list byte) (v : Codec.value)
      (fs : filesystem) (s : Storage) (data : list byte) :
  consistent fs s data ->
  Codec.supported v = true ->
  encoded_size v < 2 ^ 32 ->
  dataOffset_ s + 20 + encoded_size v < 2 ^ 64 ->
  (forall location, ~ In (Uuid.generateUUID random, location)
                         (index_entries (indexManager s))) ->
  exists w fs' s' encoded,
    write random v fs s = Ok (w, fs', s')
    /\ Codec.encode v = Ok encoded
    /\ consistent fs' s'
         (data ++ Uuid.generateUUID random
               ++ be_bytes 4 (Z.of_nat (length encoded)) ++ encoded)
    /\ id w = Uuid.uuidToString (Uuid.generateUUID random)
    /\ path s' = path s
    /\ dataOffset_ s' = dataOffset_ s + 20 + Z.of_nat (length encoded)
    /\ forall e,
         In e (index_entries (indexManager s'))
         <-> e = (Uuid.generateUUID random,
                  {| offset := dataOffset_ s;
                     size := Z.of_nat (length encoded);
                     checksum := Checksum.crc32 encoded |})
             \/ In e (index_entries (indexManager s)).
Proof.
  intros [(hdr & tail & Hh & Hf) Ho Hb Hhd Hm G R] Sv Hsz Hend Fr.
  destruct (encode_supported v Sv) as (encoded & E & _).
  unfold encoded_size in Hsz, Hend. rewrite E in Hsz, Hend.
  pose proof (Uuid.generateUUID_length random) as Hu.
  set (uuid := Uuid.generateUUID random) in *.
  set (loc := {| offset := dataOffset_ s; size := Z.of_nat (length encoded);
                 checksum := Checksum.crc32 encoded |}).
  assert (Cases : BTree.get (primary (indexManager s)) uuid = None
                  \/ BTree.get (primary (indexManager s)) uuid = Some loc).
  { left. destruct (BTree.get (primary (indexManager s)) uuid) as [l|] eqn:Eg;
      [|reflexivity].
    apply (BTree.get_spec _ _ _ G Hu) in Eg. now destruct (Fr l). }
  destruct (BTree.set_spec _ uuid loc G Hu Cases) as (t' & St & G' & _ & M).
  unfold write. rewrite E. cbn [bind]. rewrite Hf. fold uuid.
  unfold setRecord. fold loc. rewrite St. cbn [bind].
  rewrite (firstn_data hdr data tail _ Hh Ho).
  assert (Fu : fit UUID_SIZE uuid = uuid).
  { unfold UUID_SIZE. rewrite <- Hu. apply fit_exact. }
  rewrite Fu.
  eexists _, _, _, encoded. split; [reflexivity|]. split; [reflexivity|].
  cbn [id path dataOffset_ indexManager primary].
  split; [|split; [reflexivity|split; [reflexivity|split]]].
  - constructor; cbn [path dataOffset_ header dataOffset magic indexManager primary].
    + exists hdr, []. split; [assumption|]. rewrite fs_read_write.
      now rewrite app_nil_r, <- app_assoc.
    + rewrite !length_app, Hu, be_bytes_length. lia.
    + rewrite !length_app, Hu, be_bytes_length. lia.
    + reflexivity.
    + assumption.
    + assumption.
    + apply Forall_forall. intros e He. apply M in He as [->|He].
      * unfold entry_ranges, loc. cbn [fst snd offset size checksum].
        pose proof (Checksum.crc32_range encoded). split; [exact Hu|lia].
      * rewrite Forall_forall in R. now apply R.
  - rewrite !length_app, Hu, be_bytes_length. lia.
  - exact M.
Qed.

(** *** A sequence of writes *)

Fixpoint write_all (ops : list (list byte * Codec.value)) (fs : filesystem) (s : Storage)
  : result (list WriteResult * filesystem * Storage) :=
  match ops with
  | [] => Ok ([], fs, s)
  | (random, data) :: rest =>
      '(w, fs, s) <- write random data fs s ;;
      '(ws, fs, s) <- write_all rest fs s ;;
      Ok (w :: ws, fs, s)
  end.

(** The bytes the records of [ops] take in the file. *)
Fixpoint footprint (ops : list (list byte * Codec.value)) : Z :=
  match ops with
  | [] => 0
  | (_, data) :: rest => 20 + encoded_size data + footprint rest
  end.

Lemma encoded_size_nonneg (v : Codec.value) : 0 <= encoded_size v.
Proof. unfold encoded_size. destruct (Codec.encode v); lia. Qed.

Lemma footprint_nonneg (ops : list (list byte * Codec.value)) : 0 <= footprint ops.
Proof.
  induction ops as [|[r v] ops IH]; cbn [footprint]; [lia|].
  pose proof (encoded_size_nonneg v). lia.
Qed.

Definition minted (op : list byte * Codec.value) : list byte :=
  Uuid.generateUUID (fst op).

Definition writable (op : list byte * Codec.value) : Prop :=
  Codec.supported (snd op) = true /\ encoded_size (snd op) < 2 ^ 32.

Lemma write_all_consistent (ops : list (list byte * Codec.value)) :
  forall fs s data,
    consistent fs s data ->
    Forall writable ops ->
    dataOffset_ s + footprint ops < 2 ^ 64 ->
    NoDup (map minted ops) ->
    (forall op location,
        In op ops -> ~ In (minted op, location) (index_entries (indexManager s))) ->
    exists ws fs' s' more,
      write_all ops fs s = Ok (ws, fs', s')
      /\ consistent fs' s' (data ++ more)
      /\ path s' = path s
      /\ (forall e, In e (index_entries (indexManager s))
                    -> In e (index_entries (indexManager s')))
      /\ Forall2 (fun w op => stored (data ++ more) (indexManager s') (id w) (snd op))
                 ws ops.
Proof.
  induction ops as [|[random v] ops IH]; intros fs s data C F B N Fr.
  - exists [], fs, s, []. rewrite app_nil_r.
    split; [reflexivity|]. split; [assumption|]. split; [reflexivity|].
    split; [auto|constructor].
  - pose proof (Forall_inv F) as [Sv Hsz]. cbn [snd] in Sv, Hsz.
    cbn [footprint] in B. pose proof (footprint_nonneg ops) as Fp.
    cbn [map] in N. apply NoDup_cons_iff in N as [Nin N].
    destruct (write_consistent random v fs s data C Sv Hsz ltac:(lia))
      as (w & fs1 & s1 & encoded & W & E & C1 & Hid & Hp & Hd & M).
    { intros loc. exact (Fr (random, v) loc (or_introl eq_refl)). }
    assert (Es : encoded_size v = Z.of_nat (length encoded)).
    { unfold encoded_size. now rewrite E. }
    pose proof (Uuid.generateUUID_length random) as Hu.
    set (record := Uuid.generateUUID random
                   ++ be_bytes 4 (Z.of_nat (length encoded)) ++ encoded) in *.
    destruct (IH fs1 s1 (data ++ record) C1 (Forall_inv_tail F) ltac:(lia) N)
      as (ws & fs' & s' & more & W' & C' & Hp' & Sub & St).
    { intros op loc Hop I. apply M in I as [I|I].
      - injection I as I _. apply Nin.
        change (minted (random, v)) with (Uuid.generateUUID random).
        rewrite <- I. now apply in_map.
      - exact (Fr op loc (or_intror Hop) I). }
    exists (w :: ws), fs', s', (record ++ more). rewrite app_assoc.
    split; [cbn [write_all]; rewrite W; cbn [bind]; now rewrite W'|].
    split; [assumption|]. split; [congruence|]. split.
    { intros e He. apply Sub. apply M. now right. }
    constructor; [|assumption]. cbn [snd].
    apply stored_mono with (m := indexManager s1); [assumption|].
    pose proof (c_offset _ _ _ C) as Ho.
    eexists _, encoded. split.
    { rewrite Hid, Uuid.stringToUUID_uuidToString by assumption.
      apply M. left. reflexivity. }
    cbn [offset size checksum]. split; [assumption|]. split; [lia|].
    split; [reflexivity|]. split.
    { unfold record. rewrite !length_app, Hu, be_bytes_length. lia. }
    split; [|reflexivity].
    unfold record. apply payload_in_new; [assumption|apply be_bytes_length|assumption].
Qed.

(** *** Flush and reopen *)

Lemma skipn_header (hdr data rest : list byte) :
  length hdr = 32%nat -> skipn 32 ((hdr ++ data) ++ rest) = data ++ rest.
Proof.
  intros H. rewrite <- app_assoc, <- H, skipn_app, skipn_all, Nat.sub_diag.
  reflexivity.
Qed.

(** [flush] rewrites the header and puts the index block right after the
    data region, which it leaves alone. *)
Lemma flush_consistent (fs : filesystem) (s : Storage) (data : list byte) :
  consistent fs s data ->
  exists fs' s',
    flush fs s = Ok (fs', s')
    /\ consistent fs' s' data
    /\ path s' = path s
    /\ indexManager s' = indexManager s
    /\ indexOffset (header s') = dataOffset_ s'
    /\ fs_read fs' (path s')
       = Some (serializeHeader (header s') ++ data
               ++ flat_map index_entry_bytes (index_entries (indexManager s'))).
Proof.
  intros [(hdr & tail & Hh & Hf) Ho Hb Hhd Hm G R].
  unfold flush, persistIndex. rewrite Hf. cbn [bind].
  unfold persistHeader. cbn [with_header path header].
  rewrite fs_read_write, (firstn_data hdr data tail _ Hh Ho).
  rewrite serializeHeader_length.
  replace (length ((hdr ++ data) ++ _) <? 32)%nat with false
    by (symmetry; apply Nat.ltb_ge; rewrite !length_app; lia).
  cbn [bind]. rewrite (skipn_header hdr data _ Hh).
  eexists _, _. split; [reflexivity|].
  cbn [path header indexManager dataOffset_ indexOffset].
  split; [|split; [reflexivity|split; [reflexivity|split; [reflexivity|]]]].
  - constructor; cbn [path header indexManager dataOffset_ dataOffset magic]; try assumption.
    eexists _, _. split; [apply serializeHeader_length|]. apply fs_read_write.
  - apply fs_read_write.
Qed.

Lemma slice_header (h : FileHeader) (rest : list byte) :
  slice (serializeHeader h ++ rest) 0 HEADER_SIZE = serializeHeader h.
Proof.
  rewrite slice_app_l by (rewrite serializeHeader_length; unfold HEADER_SIZE; lia).
  unfold HEADER_SIZE. rewrite <- (serializeHeader_length h). apply slice_all.
Qed.

Lemma slice_index (hdr data block : list byte) (n : Z) :
  length hdr = 32%nat -> n = 32 + Z.of_nat (length data) ->
  slice (hdr ++ data ++ block) (Z.to_nat n) (length (hdr ++ data ++ block)) = block.
Proof.
  intros Hh ->. rewrite app_assoc.
  rewrite slice_app_r by (rewrite length_app; lia).
  rewrite !length_app.
  replace (Z.to_nat (32 + Z.of_nat (length data)) - (length hdr + length data))%nat
    with O by lia.
  replace (length hdr + length data + length block - (length hdr + length data))%nat
    with (length block) by lia.
  apply slice_all.
Qed.

(** Opening a file as a flush leaves it. *)
Lemma openStorage_flushed (p : string) (fs : filesystem) (h : FileHeader)
      (data : list byte) (es : list (list byte * RecordLocation)) :
  fs_read fs p = Some (serializeHeader h ++ data ++ flat_map index_entry_bytes es) ->
  magic h = MAGIC_BYTES ->
  indexOffset h = 32 + Z.of_nat (length data) ->
  dataOffset h = 32 + Z.of_nat (length data) ->
  32 + Z.of_nat (length data) < 2 ^ 64 ->
  Forall entry_ranges es -> BTree.functional es ->
  exists s',
    openStorage p fs = Ok (fs, s')
    /\ consistent fs s' data
    /\ with_file s' true = s'
    /\ forall e, In e (index_entries (indexManager s')) <-> In e es.
Proof.
  intros Hf M Hi Hd Hb R Fn.
  destruct (deserialize_serialize h M ltac:(lia) ltac:(lia)) as (h' & Dh & M' & I' & D').
  destruct (setRecords_spec es new_IndexManager) as (m' & Sm & Gm & Mm).
  { apply BTree.create_Good. }
  { revert R. apply Forall_impl. intros e He. exact (proj1 He). }
  { exact Fn. }
  unfold openStorage, open. cbn [with_file path new_Storage]. rewrite Hf.
  unfold loadDatabase. rewrite slice_header, Dh. cbn [bind].
  rewrite M'. change (Codec.jsstring_eqb MAGIC_BYTES MAGIC_BYTES) with true. cbn [negb].
  replace (0 <? indexOffset h') with true by (symmetry; apply Z.ltb_lt; lia).
  unfold loadIndex. cbn [with_header header indexManager].
  rewrite (slice_index _ data _ _ (serializeHeader_length h)) by lia.
  rewrite (loadIndex_loop_entries es _ _ new_IndexManager R (le_n _)).
  2:{ split; [cbn; lia|reflexivity]. }
  rewrite Sm. cbn [bind].
  eexists. split; [reflexivity|]. split; [|split; [reflexivity|]].
  - constructor;
      cbn [with_dataOffset with_index with_header path header indexManager dataOffset_];
      try assumption; try lia.
    + eexists _, _. split; [apply serializeHeader_length|eassumption].
    + apply Forall_forall. intros e He. apply Mm in He as [[]|He].
      rewrite Forall_forall in R. now apply R.
  - intros e. cbn [with_dataOffset with_index indexManager]. rewrite Mm.
    split; [intros [[]|H]; assumption|now right].
Qed.

(** *** Write, flush, close, reopen, read *)

(** The writes of [ops] in turn, then [flush()], [close()] and
    [openStorage] on the same path. *)
Definition reopen_after (ops : list (list byte * Codec.value))
                        (fs : filesystem) (s : Storage)
  : result (list WriteResult * filesystem * Storage) :=
  '(ws, fs, s) <- write_all ops fs s ;;
  '(fs, s) <- flush fs s ;;
  '(fs, s) <- close fs s ;;
  '(fs, s) <- openStorage (path s) fs ;;
  Ok (ws, fs, s).

(** A new database is consistent, with an empty data region. *)
Lemma createStorage_consistent (p : string) (fs : filesystem) :
  fs_read fs p = None ->
  exists fs' s', createStorage p fs = Ok (fs', s') /\ consistent fs' s' [].
Proof.
  intros H. unfold createStorage, open. cbn [with_file path new_Storage]. rewrite H.
  eexists _, _. split; [reflexivity|]. unfold createDatabase.
  constructor; cbn [with_dataOffset path header indexManager dataOffset_ dataOffset magic].
  - eexists _, []. split; [apply serializeHeader_length|].
    rewrite fs_read_write. now rewrite app_nil_r.
  - reflexivity.
  - reflexivity.
  - reflexivity.
  - reflexivity.
  - apply BTree.create_Good.
  - constructor.
Qed.

Definition created_fs : filesystem :=
  Eval vm_compute in
    match createStorage sample_path [] with Ok (fs, _) => fs | Err _ => [] end.

Definition created_storage : Storage :=
  Eval vm_compute in
    match createStorage sample_path [] with
    | Ok (_, s) => s
    | Err _ => new_Storage sample_path
    end.

(** A bigint beyond 64 bits is written modulo [2^64]: after the reopen the
    id reads as [0n]. *)
Lemma bigint_write_lost_on_reopen :
  createStorage sample_path [] = Ok (created_fs, created_storage)
  /\ match reopen_after [(sample_random 1, Codec.VBigInt (2 ^ 64))]
                        created_fs created_storage with
     | Ok ([w], fs', s') =>
         read (id w) fs' s' = Ok (Codec.VBigInt 0, s')
         /\ read (id w) fs' s' <> Ok (Codec.VBigInt (2 ^ 64), s')
     | _ => False
     end.
Proof.
  split; [reflexivity|]. vm_compute. split; [reflexivity|discriminate].
Qed.

(** C2 (amended).  Take a consistent storage (a new database, or one left
    by earlier writes, flushes and reopens), and a sequence of writes whose
    payloads the codec supports, each encoded in fewer than [2^32] bytes,
    the data region staying below [2^64] bytes, and whose generated ids
    are distinct from one another and from the ids already in the index.
    Then the writes, [flush()], [close()] and reopening the same file all
    succeed, and reading each returned id from the reopened storage yields
    the payload written under it. *)
Theorem written_values_survive_reopen
        (ops : list (list byte * Codec.value))
        (fs : filesystem) (s : Storage) (data : list byte) :
  consistent fs s data ->
  Forall writable ops ->
  dataOffset_ s + footprint ops < 2 ^ 64 ->
  NoDup (map minted ops) ->
  (forall op location,
      In op ops -> ~ In (minted op, location) (index_entries (indexManager s))) ->
  exists ws fs' s',
    reopen_after ops fs s = Ok (ws, fs', s')
    /\ Forall2 (fun w op => read (id w) fs' s' = Ok (snd op, s')) ws ops.
Proof.
  intros C F B N Fr.
  destruct (write_all_consistent ops fs s data C F B N Fr)
    as (ws & fs1 & s1 & more & W & C1 & _ & _ & St).
  destruct (flush_consistent fs1 s1 _ C1) as (fs2 & s2 & F2 & C2 & _ & Hi2 & _ & _).
  destruct (flush_consistent fs2 s2 _ C2) as (fs3 & s3 & F3 & C3 & _ & Hi3 & Hio3 & Hf3).
  destruct (openStorage_flushed (path s3) fs3 (header s3) (data ++ more)
              (index_entries (indexManager s3)))
    as (s4 & O & C4 & Wf & M4).
  { exact Hf3. }
  { exact (c_magic _ _ _ C3). }
  { rewrite Hio3. exact (c_offset _ _ _ C3). }
  { rewrite (c_header _ _ _ C3). exact (c_offset _ _ _ C3). }
  { rewrite <- (c_offset _ _ _ C3). exact (c_bound _ _ _ C3). }
  { exact (c_entries _ _ _ C3). }
  { exact (proj2 (proj2 (c_index _ _ _ C3))). }
  unfold reopen_after. rewrite W. cbn [bind]. rewrite F2. cbn [bind].
  unfold close. rewrite F3. cbn [bind with_index with_file path]. rewrite O. cbn [bind].
  exists ws, fs3, s4. split; [reflexivity|].
  assert (Key : forall w op,
            writable op -> stored (data ++ more) (indexManager s1) (id w) (snd op) ->
            read (id w) fs3 s4 = Ok (snd op, s4)).
  { intros w op [Sv _] (loc & encoded & I & Rest).
    assert (S4 : stored (data ++ more) (indexManager s4) (id w) (snd op)).
    { exists loc, encoded. split; [|exact Rest]. apply M4. now rewrite Hi3, Hi2. }
    pose proof (read_stored fs3 s4 _ (id w) (snd op) C4 S4 Sv) as Rd.
    now rewrite Wf in Rd. }
  clear - St F Key. revert F.
  induction St as [|w op ws ops Hs St IH]; intros F; constructor.
  - apply Key; [exact (Forall_inv F)|exact Hs].
  - apply IH. exact (Forall_inv_tail F).
Qed.

(** Two records of the repository's test-suite written to a new database. *)
Definition two_writes : list (list byte * Codec.value) :=
  [(sample_random 1, sample_value); (sample_random 2, Codec.complex_data)].

Lemma written_values_survive_reopen_witness :
  createStorage sample_path [] = Ok (created_fs, created_storage)
  /\ exists ws fs' s',
       reopen_after two_writes created_fs created_storage = Ok (ws, fs', s')
       /\ Forall2 (fun w op => read (id w) fs' s' = Ok (snd op, s')) ws two_writes.
Proof.
  split; [reflexivity|].
  apply (written_values_survive_reopen two_writes created_fs created_storage []).
  - constructor.
    + exists (serializeHeader (header (new_Storage sample_path))), [].
      split; reflexivity.
    + reflexivity.
    + reflexivity.
    + reflexivity.
    + reflexivity.
    + split; [|split].
      * vm_compute. repeat split; constructor.
      * exact I.
      * intros k v v' [].
    + constructor.
  - repeat constructor.
  - reflexivity.
  - constructor; [|constructor; [intros []|constructor]].
    vm_compute. intros [H|[]]. discriminate H.
  - intros op location _ [].
Defined.

(** *** Sessions *)

Lemma open_path (create : bool) (fs fs' : filesystem) (s s' : Storage) :
  open create fs s = Ok (fs', s') -> path s' = path s.
Proof.
  unfold open. cbn [with_file path].
  destruct (fs_read fs (path s)) as [content|].
  - unfold loadDatabase.
    destruct (deserializeHeader _) as [h|e]; cbn [bind]; [|discriminate].
    destruct (negb _); [discriminate|].
    destruct (0 <? indexOffset h).
    + unfold loadIndex.
      destruct (loadIndex_loop _ _ _) as [m|e]; cbn [bind]; [|discriminate].
      intros H. injection H as _ <-. reflexivity.
    + cbn [bind]. intros H. injection H as _ <-. reflexivity.
  - destruct create; [|discriminate]. unfold createDatabase.
    intros H. injection H as _ <-. reflexivity.
Qed.

Lemma stored_index (data : list byte) (m m' : IndexManager)
      (i : jsstring) (v : Codec.value) :
  (forall e, In e (index_entries m) -> In e (index_entries m')) ->
  stored data m i v -> stored data m' i v.
Proof.
  intros Sub (loc & encoded & I & Rest). exists loc, encoded.
  split; [now apply Sub|exact Rest].
Qed.

(** What a session of writes followed by flush, close and reopen leaves. *)
Lemma reopen_after_spec (ops : list (list byte * Codec.value))
      (fs : filesystem) (s : Storage) (data : list byte) :
  consistent fs s data ->
  Forall writable ops ->
  dataOffset_ s + footprint ops < 2 ^ 64 ->
  NoDup (map minted ops) ->
  (forall op location,
      In op ops -> ~ In (minted op, location) (index_entries (indexManager s))) ->
  exists ws fs' s' more,
    reopen_after ops fs s = Ok (ws, fs', s')
    /\ consistent fs' s' (data ++ more)
    /\ with_file s' true = s'
    /\ path s' = path s
    /\ (forall i v, stored data (indexManager s) i v
                    -> stored (data ++ more) (indexManager s') i v)
    /\ Forall2 (fun w op => stored (data ++ more) (indexManager s') (id w) (snd op))
               ws ops.
Proof.
  intros C F B N Fr.
  destruct (write_all_consistent ops fs s data C F B N Fr)
    as (ws & fs1 & s1 & more & W & C1 & P1 & Sub & St).
  destruct (flush_consistent fs1 s1 _ C1) as (fs2 & s2 & F2 & C2 & P2 & Hi2 & _ & _).
  destruct (flush_consistent fs2 s2 _ C2) as (fs3 & s3 & F3 & C3 & P3 & Hi3 & Hio3 & Hf3).
  destruct (openStorage_flushed (path s3) fs3 (header s3) (data ++ more)
              (index_entries (indexManager s3)))
    as (s4 & O & C4 & Wf & M4).
  { exact Hf3. }
  { exact (c_magic _ _ _ C3). }
  { rewrite Hio3. exact (c_offset _ _ _ C3). }
  { rewrite (c_header _ _ _ C3). exact (c_offset _ _ _ C3). }
  { rewrite <- (c_offset _ _ _ C3). exact (c_bound _ _ _ C3). }
  { exact (c_entries _ _ _ C3). }
  { exact (proj2 (proj2 (c_index _ _ _ C3))). }
  unfold reopen_after. rewrite W. cbn [bind]. rewrite F2. cbn [bind].
  unfold close. rewrite F3. cbn [bind with_index with_file path]. rewrite O. cbn [bind].
  exists ws, fs3, s4, more. split; [reflexivity|]. split; [assumption|].
  split; [assumption|]. split.
  { apply open_path in O. cbn [new_Storage path] in O. congruence. }
  assert (Up : forall e, In e (index_entries (indexManager s1))
                         -> In e (index_entries (indexManager s4))).
  { intros e He. apply M4. now rewrite Hi3, Hi2. }
  split.
  - intros i v Si. apply (stored_index _ (indexManager s1)); [exact Up|].
    apply stored_mono with (m := indexManager s); assumption.
  - clear - St Up. induction St as [|w op ws ops Hs St IH]; constructor.
    + exact (stored_index _ _ _ _ _ Up Hs).
    + exact IH.
Qed.

Lemma read_all_stored (fs : filesystem) (s : Storage) (data : list byte)
      (ws : list WriteResult) (ops : list (list byte * Codec.value)) :
  consistent fs s data -> with_file s true = s ->
  Forall writable ops ->
  Forall2 (fun w op => stored data (indexManager s) (id w) (snd op)) ws ops ->
  Forall2 (fun w op => read (id w) fs s = Ok (snd op, s)) ws ops.
Proof.
  intros C Wf F St. revert F.
  induction St as [|w op ws ops Hs St IH]; intros F; constructor.
  - pose proof (read_stored fs s data (id w) (snd op) C Hs (proj1 (Forall_inv F))) as R.
    now rewrite Wf in R.
  - apply IH. exact (Forall_inv_tail F).
Qed.

(** X18.  Records survive later sessions.  A first
    batch of writes to a consistent storage is followed by [flush()],
    [close()] and a reopen of the file; a second batch is written to the
    reopened storage and flushed, closed and reopened in turn.  With
    payloads the codec supports, in fewer than [2^32] bytes each, the data
    region below [2^64] bytes and generated ids that are new, the second
    session succeeds and every id returned in either session reads back its
    own payload. *)
Theorem records_survive_sessions
        (ops1 ops2 : list (list byte * Codec.value))
        (fs fs1 : filesystem) (s s1 : Storage) (data : list byte)
        (ws1 : list WriteResult) :
  consistent fs s data ->
  Forall writable ops1 ->
  dataOffset_ s + footprint ops1 < 2 ^ 64 ->
  NoDup (map minted ops1) ->
  (forall op location,
      In op ops1 -> ~ In (minted op, location) (index_entries (indexManager s))) ->
  reopen_after ops1 fs s = Ok (ws1, fs1, s1) ->
  Forall writable ops2 ->
  dataOffset_ s1 + footprint ops2 < 2 ^ 64 ->
  NoDup (map minted ops2) ->
  (forall op location,
      In op ops2 -> ~ In (minted op, location) (index_entries (indexManager s1))) ->
  exists ws2 fs2 s2,
    reopen_after ops2 fs1 s1 = Ok (ws2, fs2, s2)
    /\ Forall2 (fun w op => read (id w) fs2 s2 = Ok (snd op, s2)) ws1 ops1
    /\ Forall2 (fun w op => read (id w) fs2 s2 = Ok (snd op, s2)) ws2 ops2.
Proof.
  intros C F1 B1 N1 Fr1 R1 F2 B2 N2 Fr2.
  destruct (reopen_after_spec ops1 fs s data C F1 B1 N1 Fr1)
    as (ws & fs' & s' & more & R & C1 & _ & _ & _ & St1).
  rewrite R1 in R. injection R as <- <- <-.
  destruct (reopen_after_spec ops2 fs1 s1 (data ++ more) C1 F2 B2 N2 Fr2)
    as (ws2 & fs2 & s2 & more2 & R2 & C2 & Wf2 & _ & Keep & St2).
  exists ws2, fs2, s2. split; [assumption|]. split.
  - apply (read_all_stored fs2 s2 _ ws1 ops1 C2 Wf2 F1).
    clear - St1 Keep. induction St1 as [|w op ws ops Hs St IH]; constructor.
    + now apply Keep.
    + exact IH.
  - exact (read_all_stored fs2 s2 _ ws2 ops2 C2 Wf2 F2 St2).
Qed.

(** *** Reading before any flush *)

(** X19.  A record is readable as soon as [write] returns,
    before any [flush()]: for a payload the codec supports, of fewer than
    [2^32] bytes, written to a consistent storage under an id the index does
    not hold yet, [write] succeeds and [read] of the returned id yields the
    payload. *)
Theorem read_after_write (random : list byte) (v : Codec.value)
        (fs : filesystem) (s : Storage) (data : list byte) :
  consistent fs s data ->
  Codec.supported v = true ->
  encoded_size v < 2 ^ 32 ->
  dataOffset_ s + 20 + encoded_size v < 2 ^ 64 ->
  (forall location, ~ In (Uuid.generateUUID random, location)
                         (index_entries (indexManager s))) ->
  exists w fs' s',
    write random v fs s = Ok (w, fs', s')
    /\ read (id w) fs' s' = Ok (v, with_file s' true).
Proof.
  intros C Sv Hsz Hb Fr.
  destruct (write_all_consistent [(random, v)] fs s data C)
    as (ws & fs' & s' & more & W & C' & _ & _ & St).
  - constructor; [now split|constructor].
  - cbn [footprint]. lia.
  - constructor; [intros []|constructor].
  - intros op loc [<-|[]]. apply Fr.
  - cbn [write_all] in W.
    destruct (write random v fs s) as [[[w fs1] s1]|e]; cbn [bind] in W; [|discriminate].
    injection W as <- <- <-.
    exists w, fs1, s1. split; [reflexivity|].
    apply (read_stored fs1 s1 (data ++ more)); try assumption.
    inversion St as [|? ? ? ? Hs _]; subst. exact Hs.
Qed.

(** *** Flushing twice *)

Lemma fs_read_write_other (fs : filesystem) (p q : string) (content : list byte) :
  p <> q -> fs_read (fs_write fs p content) q = fs_read fs q.
Proof.
  intros N. unfold fs_write. cbn [fs_read].
  destruct (String.eqb_spec p q) as [E|_]; [contradiction|].
  induction fs as [|[r c] fs IH]; [reflexivity|]. cbn [fs_remove fs_read].
  destruct (String.eqb_spec r p) as [->|Nr].
  - destruct (String.eqb_spec p q); [contradiction|exact IH].
  - cbn [fs_read]. destruct (String.eqb r q); [reflexivity|exact IH].
Qed.

Lemma flush_reads (fs fs' : filesystem) (s s' : Storage) (q : string) :
  flush fs s = Ok (fs', s') -> q <> path s -> fs_read fs' q = fs_read fs q.
Proof.
  unfold flush, persistIndex, persistHeader. intros H N.
  destruct (fs_read fs (path s)) as [c|]; [|discriminate]. cbn [bind] in H.
  cbn [with_header path] in H.
  destruct (fs_read (fs_write fs (path s) _) (path s)) as [c'|]; [|discriminate].
  destruct (_ <? _)%nat; [discriminate|]. cbn [bind] in H.
  injection H as <- _.
  rewrite !fs_read_write_other by congruence. reflexivity.
Qed.

(** X20.  [flush()] is idempotent: on a consistent storage it
    succeeds, and a second [flush()] right after it succeeds too, leaves the
    storage object as the first one left it and every file with the same
    contents. *)
Theorem flush_twice (fs : filesystem) (s : Storage) (data : list byte) :
  consistent fs s data ->
  exists fs1 s1 fs2,
    flush fs s = Ok (fs1, s1)
    /\ flush fs1 s1 = Ok (fs2, s1)
    /\ forall q, fs_read fs2 q = fs_read fs1 q.
Proof.
  intros C.
  destruct (flush_consistent fs s data C) as (fs1 & s1 & F1 & C1 & P1 & I1 & O1 & R1).
  destruct (flush_consistent fs1 s1 data C1) as (fs2 & s2 & F2 & C2 & P2 & I2 & O2 & R2).
  assert (E : s2 = s1).
  { revert F2. unfold flush, persistIndex.
    destruct (fs_read fs1 (path s1)); [|discriminate]. cbn [bind].
    destruct (persistHeader _ _); [|discriminate]. cbn [bind].
    intros H. injection H as _ <-.
    destruct s1 as [p f m h d]. unfold with_header. cbn [path file indexManager header dataOffset_] in *.
    f_equal. destruct h as [mg vmaj vmin fl io dof rc]. cbn in O1 |- *. now rewrite O1. }
  subst s2. exists fs1, s1, fs2. split; [assumption|]. split; [assumption|].
  intros q. destruct (String.eqb_spec q (path s1)) as [->|N].
  - now rewrite R1, R2.
  - exact (flush_reads fs1 fs2 s1 s1 q F2 N).
Qed.

(** *** Deleting *)

(** X21.  [delete(id)] of an id the index does not hold
    returns [false] and leaves the storage as it is: index, header and
    record count. *)
Theorem delete_unknown_id (i : jsstring) (fs : filesystem) (s : Storage)
        (data : list byte) :
  consistent fs s data ->
  getRecord (indexManager s) (Uuid.stringToUUID i) = None ->
  delete i s = Ok (false, s).
Proof.
  intros C N. destruct (c_index _ _ _ C) as (W & _ & _).
  unfold getRecord, BTree.get in N.
  unfold delete, deleteRecord, BTree.delete.
  rewrite (BTree.delete_absent _ _ W N). cbn [bind].
  destruct s as [p f [[r o z]] h d]. reflexivity.
Qed.

Lemma reopen_plain (fs : filesystem) (s : Storage) (data : list byte) :
  consistent fs s data ->
  exists fs' s',
    reopen_after [] fs s = Ok ([], fs', s')
    /\ consistent fs' s' data
    /\ with_file s' true = s'
    /\ forall e, In e (index_entries (indexManager s'))
                 <-> In e (index_entries (indexManager s)).
Proof.
  intros C.
  destruct (flush_consistent fs s _ C) as (fs2 & s2 & F2 & C2 & P2 & Hi2 & _ & _).
  destruct (flush_consistent fs2 s2 _ C2) as (fs3 & s3 & F3 & C3 & P3 & Hi3 & Hio3 & Hf3).
  destruct (openStorage_flushed (path s3) fs3 (header s3) data
              (index_entries (indexManager s3)))
    as (s4 & O & C4 & Wf & M4).
  { exact Hf3. }
  { exact (c_magic _ _ _ C3). }
  { rewrite Hio3. exact (c_offset _ _ _ C3). }
  { rewrite (c_header _ _ _ C3). exact (c_offset _ _ _ C3). }
  { rewrite <- (c_offset _ _ _ C3). exact (c_bound _ _ _ C3). }
  { exact (c_entries _ _ _ C3). }
  { exact (proj2 (proj2 (c_index _ _ _ C3))). }
  unfold reopen_after. cbn [write_all bind]. rewrite F2. cbn [bind].
  unfold close. rewrite F3. cbn [bind with_index with_file path]. rewrite O. cbn [bind].
  exists fs3, s4. split; [reflexivity|]. split; [assumption|]. split; [assumption|].
  intros e. rewrite M4, Hi3, Hi2. reflexivity.
Qed.

Lemma read_unknown (i : jsstring) (fs : filesystem) (s : Storage) (data : list byte) :
  consistent fs s data ->
  (forall location, ~ In (Uuid.stringToUUID i, location) (index_entries (indexManager s))) ->
  length (Uuid.stringToUUID i) = 16%nat ->
  read i fs s = Ok (Codec.VNull, s).
Proof.
  intros C N Hk. unfold read, getRecord.
  destruct (BTree.get _ _) as [loc|] eqn:E; [|reflexivity].
  apply (BTree.get_spec _ _ _ (c_index _ _ _ C) Hk) in E. now destruct (N loc).
Qed.

(** X22.  While the index has not split (its root is a leaf),
    [delete(id)] of a stored record returns [true], takes one off the record
    count of the header (the bigint that [getRecordCount] turns into a
    number), and [read(id)] returns null at once; after [flush()], [close()]
    and a reopen [read(id)] still returns null, and every other stored
    record reads back its payload. *)
Theorem delete_durable (i : jsstring) (v : Codec.value)
        (fs : filesystem) (s : Storage) (data : list byte) :
  consistent fs s data ->
  BTree.unsplit (primary (indexManager s)) ->
  stored data (indexManager s) i v ->
  exists s1 fs2 s2,
    delete i s = Ok (true, s1)
    /\ recordCount (header s1) = recordCount (header s) - 1
    /\ read i fs s1 = Ok (Codec.VNull, s1)
    /\ reopen_after [] fs s1 = Ok ([], fs2, s2)
    /\ read i fs2 s2 = Ok (Codec.VNull, s2)
    /\ forall j u,
         Uuid.stringToUUID j <> Uuid.stringToUUID i ->
         stored data (indexManager s) j u -> Codec.supported u = true ->
         read j fs2 s2 = Ok (u, s2).
Proof.
  intros C U St. pose proof C as [Cf Co Cb Ch Cm G R].
  destruct St as (loc & encoded & I & _).
  set (k := Uuid.stringToUUID i) in *.
  assert (Hk : length k = 16%nat).
  { rewrite Forall_forall in R. exact (proj1 (R _ I)). }
  assert (Gk : BTree.get (primary (indexManager s)) k = Some loc).
  { now apply (BTree.get_spec _ _ _ G Hk). }
  destruct (BTree.delete_unsplit_spec _ k loc U Hk Gk) as (t' & D & U' & N' & Sz & O).
  pose proof (BTree.unsplit_Good t' U') as G'.
  set (h := header s).
  set (s1 := with_header (with_index s {| primary := t' |})
               {| magic := magic h; versionMajor := versionMajor h;
                  versionMinor := versionMinor h; flags := flags h;
                  indexOffset := indexOffset h; dataOffset := dataOffset h;
                  recordCount := recordCount h - 1 |}).
  assert (Sub : forall e, In e (BTree.entries t')
                          -> In e (index_entries (indexManager s)) /\ fst e <> k).
  { intros [k' x] He. pose proof (BTree.entries_key16 _ (proj1 G') _ He) as Hk'.
    cbn [fst] in *. apply (BTree.get_spec t' k' x G' Hk') in He.
    assert (Ne : k' <> k) by (intros ->; congruence).
    split; [|assumption]. rewrite (O k' Hk' Ne) in He.
    now apply (BTree.get_spec _ _ _ G Hk'). }
  assert (C1 : consistent fs s1 data).
  { constructor; try assumption.
    apply Forall_forall. intros e He. rewrite Forall_forall in R.
    apply R. now apply Sub. }
  assert (Keep : forall j u, Uuid.stringToUUID j <> k ->
            stored data (indexManager s) j u -> stored data (indexManager s1) j u).
  { intros j u Ne (locj & encj & Ij & Rest). exists locj, encj. split; [|exact Rest].
    assert (Hj : length (Uuid.stringToUUID j) = 16%nat).
    { rewrite Forall_forall in R. exact (proj1 (R _ Ij)). }
    apply (BTree.get_spec t' _ _ G' Hj). rewrite (O _ Hj Ne).
    now apply (BTree.get_spec _ _ _ G Hj). }
  assert (Gone : forall location, ~ In (k, location) (index_entries (indexManager s1))).
  { intros l Hl. apply Sub in Hl. now destruct Hl as [_ []]. }
  destruct (reopen_plain fs s1 data C1) as (fs2 & s2 & Ro & C2 & Wf & M).
  exists s1, fs2, s2. split.
  { unfold delete, deleteRecord. fold k. rewrite D. reflexivity. }
  split; [reflexivity|]. split.
  { exact (read_unknown i fs s1 data C1 Gone Hk). }
  split; [assumption|]. split.
  { apply (read_unknown i fs2 s2 data C2); [|exact Hk].
    intros l Hl. apply M in Hl. exact (Gone l Hl). }
  intros j u Ne Sj Su.
  pose proof (read_stored fs2 s2 data j u C2) as Rd. rewrite Wf in Rd.
  apply Rd; [|assumption].
  apply (stored_index _ (indexManager s1)); [intros e; apply M|].
  now apply Keep.
Qed.

(** *** Damaged payloads *)

Lemma slice_at {A : Type} (l1 l2 : list A) (x : A) (a b : nat) :
  (a <= length l1 < b)%nat ->
  slice (l1 ++ x :: l2) a b = skipn a l1 ++ x :: firstn (b - length l1 - 1) l2.
Proof.
  intros H. unfold slice. rewrite skipn_app.
  replace (a - length l1)%nat with O by lia. cbn [skipn].
  rewrite firstn_app, length_skipn.
  rewrite (firstn_all2 (n := (b - a)%nat)) by (rewrite length_skipn; lia).
  replace (b - a - (length l1 - a))%nat with (S (b - length l1 - 1)) by lia.
  reflexivity.
Qed.

(** X23.  [read] detects a damaged payload: when
    [read(id)] succeeds and one byte of the file inside the record's payload
    (the [size] bytes from [offset + 20]) is then replaced by a different
    byte, [read(id)] fails with the checksum error. *)
Theorem read_detects_changed_byte (i : jsstring) (fs : filesystem) (s s' : Storage)
        (location : RecordLocation) (v : Codec.value)
        (before after : list byte) (b1 b2 : byte) :
  getRecord (indexManager s) (Uuid.stringToUUID i) = Some location ->
  read i fs s = Ok (v, s') ->
  fs_read fs (path s) = Some (before ++ b1 :: after) ->
  (Z.to_nat (offset location) + 20 <= length before
   < Z.to_nat (offset location) + 20 + Z.to_nat (size location))%nat ->
  b1 <> b2 ->
  read i (fs_write fs (path s) (before ++ b2 :: after)) s = Err ChecksumMismatch.
Proof.
  intros G R F P Ne. unfold read in *. rewrite G in *.
  cbn [with_file path] in *. rewrite fs_read_write. rewrite F in R.
  unfold payload, UUID_SIZE in *.
  rewrite slice_at in R |- * by lia.
  destruct (Checksum.crc32 (_ ++ b1 :: _) =? checksum location) eqn:E in R;
    [|discriminate].
  apply Z.eqb_eq in E.
  destruct (Checksum.crc32 (_ ++ b2 :: _) =? checksum location) eqn:E'; [|reflexivity].
  apply Z.eqb_eq in E'. exfalso.
  refine (Checksum.crc32_differs _ _ b1 b2 Ne _). rewrite E. symmetry. exact E'.
Qed.

(** *** Sample sessions *)

Lemma created_consistent : consistent created_fs created_storage [].
Proof.
  constructor.
  - exists (serializeHeader (header (new_Storage sample_path))), [].
    split; reflexivity.
  - reflexivity.
  - reflexivity.
  - reflexivity.
  - reflexivity.
  - split; [|split].
    + vm_compute. repeat split; constructor.
    + exact I.
    + intros k v v' [].
  - constructor.
Qed.

Definition first_session : list WriteResult * filesystem * Storage :=
  Eval vm_compute in
    match reopen_after two_writes created_fs created_storage with
    | Ok r => r
    | Err _ => ([], created_fs, created_storage)
    end.

Definition third_write : list (list byte * Codec.value) :=
  [(sample_random 3, Codec.VString (str "later"))].

Lemma records_survive_sessions_witness :
  reopen_after two_writes created_fs created_storage = Ok first_session
  /\ exists ws2 fs2 s2,
       reopen_after third_write (snd (fst first_session)) (snd first_session)
       = Ok (ws2, fs2, s2)
       /\ Forall2 (fun w op => read (id w) fs2 s2 = Ok (snd op, s2))
                  (fst (fst first_session)) two_writes
       /\ Forall2 (fun w op => read (id w) fs2 s2 = Ok (snd op, s2)) ws2 third_write.
Proof.
  split; [reflexivity|].
  apply (records_survive_sessions two_writes third_write created_fs
           (snd (fst first_session)) created_storage (snd first_session) []
           (fst (fst first_session))).
  - exact created_consistent.
  - repeat constructor.
  - reflexivity.
  - constructor; [|constructor; [intros []|constructor]].
    vm_compute. intros [H|[]]. discriminate H.
  - intros op location _ [].
  - reflexivity.
  - repeat constructor.
  - reflexivity.
  - constructor; [intros []|constructor].
  - intros op location [<-|[]]. vm_compute.
    intros [H|[H|[]]]; discriminate H.
Defined.

Lemma read_after_write_witness :
  exists w fs' s',
    write (sample_random 1) sample_value created_fs created_storage = Ok (w, fs', s')
    /\ read (id w) fs' s' = Ok (sample_value, with_file s' true).
Proof.
  apply (read_after_write (sample_random 1) sample_value created_fs created_storage []).
  - exact created_consistent.
  - reflexivity.
  - reflexivity.
  - reflexivity.
  - intros location [].
Defined.

Lemma flush_twice_witness :
  exists fs1 s1 fs2,
    flush created_fs created_storage = Ok (fs1, s1)
    /\ flush fs1 s1 = Ok (fs2, s1)
    /\ forall q, fs_read fs2 q = fs_read fs1 q.
Proof.
  exact (flush_twice created_fs created_storage [] created_consistent).
Defined.

(** Two records in a new database, not yet flushed. *)
Definition two_records : list WriteResult * filesystem * Storage :=
  Eval vm_compute in
    match write_all two_writes created_fs created_storage with
    | Ok r => r
    | Err _ => ([], created_fs, created_storage)
    end.

Definition two_records_fs : filesystem := snd (fst two_records).
Definition two_records_storage : Storage := snd two_records.

Definition two_records_data : list byte :=
  Eval vm_compute in
    match fs_read two_records_fs sample_path with
    | Some content => skipn 32 content
    | None => []
    end.

Definition first_id : jsstring :=
  Eval vm_compute in Uuid.uuidToString (Uuid.generateUUID (sample_random 1)).

Definition second_id : jsstring :=
  Eval vm_compute in Uuid.uuidToString (Uuid.generateUUID (sample_random 2)).

Lemma two_records_unsplit : BTree.unsplit (primary (indexManager two_records_storage)).
Proof.
  eexists _, _. split; [reflexivity|]. split; [reflexivity|]. split.
  - repeat constructor.
  - cbn [BTree.increasing]. repeat split;
      intros x Hx; cbn [In] in Hx;
      repeat (destruct Hx as [<-|Hx]; [vm_compute; reflexivity|]); destruct Hx.
Qed.

Lemma two_records_consistent :
  consistent two_records_fs two_records_storage two_records_data.
Proof.
  constructor.
  - exists (serializeHeader (header (new_Storage sample_path))), [].
    split; reflexivity.
  - reflexivity.
  - reflexivity.
  - reflexivity.
  - reflexivity.
  - exact (BTree.unsplit_Good _ two_records_unsplit).
  - repeat constructor; vm_compute; congruence.
Qed.

Lemma two_records_first :
  stored two_records_data (indexManager two_records_storage) first_id sample_value.
Proof.
  eexists _, _. split; [left; reflexivity|].
  split; [reflexivity|]. repeat split; vm_compute; congruence.
Qed.

Lemma two_records_second :
  stored two_records_data (indexManager two_records_storage) second_id Codec.complex_data.
Proof.
  eexists _, _. split; [right; left; reflexivity|].
  split; [reflexivity|]. repeat split; vm_compute; congruence.
Qed.

Lemma delete_unknown_id_witness :
  delete (str "00000000-0000-4000-8000-000000000009") two_records_storage
  = Ok (false, two_records_storage).
Proof.
  apply (delete_unknown_id _ two_records_fs two_records_storage two_records_data).
  - exact two_records_consistent.
  - reflexivity.
Defined.

Lemma delete_durable_witness :
  exists s1 fs2 s2,
    delete first_id two_records_storage = Ok (true, s1)
    /\ recordCount (header s1) = 1
    /\ read first_id two_records_fs s1 = Ok (Codec.VNull, s1)
    /\ reopen_after [] two_records_fs s1 = Ok ([], fs2, s2)
    /\ read first_id fs2 s2 = Ok (Codec.VNull, s2)
    /\ read second_id fs2 s2 = Ok (Codec.complex_data, s2).
Proof.
  destruct (delete_durable first_id sample_value two_records_fs two_records_storage
              two_records_data two_records_consistent two_records_unsplit
              two_records_first)
    as (s1 & fs2 & s2 & D & N & R1 & Ro & R2 & Others).
  exists s1, fs2, s2. repeat split; try assumption.
  apply Others.
  - vm_compute. discriminate.
  - exact two_records_second.
  - reflexivity.
Defined.

Definition two_records_content : list byte :=
  Eval vm_compute in
    match fs_read two_records_fs sample_path with
    | Some content => content
    | None => []
    end.

Lemma read_detects_changed_byte_witness :
  read first_id two_records_fs two_records_storage
  = Ok (sample_value, two_records_storage)
  /\ nth_error two_records_content 60 = Some "0"%byte
  /\ read first_id
          (fs_write two_records_fs sample_path
             (firstn 60 two_records_content ++ "1"%byte :: skipn 61 two_records_content))
          two_records_storage
     = Err ChecksumMismatch.
Proof.
  split; [reflexivity|]. split; [reflexivity|].
  apply (read_detects_changed_byte first_id two_records_fs two_records_storage
           two_records_storage
           {| offset := 32; size := 23; checksum := 1844454757 |}
           sample_value
           (firstn 60 two_records_content) (skipn 61 two_records_content)
           "0"%byte "1"%byte).
  - reflexivity.
  - reflexivity.
  - reflexivity.
  - vm_compute. lia.
  - discriminate.
Defined.

(** One write: the index gains the entry of the new record and keeps the
    others, and the record is stored under the returned id. *)
Lemma write_stored (random : list byte) (v : Codec.value)
      (fs : filesystem) (s : Storage) (data : list byte) :
  consistent fs s data ->
  Codec.supported v = true ->
  encoded_size v < 2 ^ 32 ->
  dataOffset_ s + 20 + encoded_size v < 2 ^ 64 ->
  (forall location, ~ In (Uuid.generateUUID random, location)
                         (index_entries (indexManager s))) ->
  exists w fs' s' more,
    write random v fs s = Ok (w, fs', s')
    /\ consistent fs' s' (data ++ more)
    /\ id w = Uuid.uuidToString (Uuid.generateUUID random)
    /\ path s' = path s
    /\ Z.of_nat (length more) = 20 + encoded_size v
    /\ (forall e, In e (index_entries (indexManager s'))
                  <-> fst e = Uuid.generateUUID random
                      /\ In e (index_entries (indexManager s'))
                      \/ In e (index_entries (indexManager s)))
    /\ stored (data ++ more) (indexManager s') (id w) v.
Proof.
  intros C Sv Hsz Hb Fr.
  destruct (write_consistent random v fs s data C Sv Hsz Hb Fr)
    as (w & fs1 & s1 & encoded & W & E & C1 & Hid & Hp & Hd & M).
  pose proof (Uuid.generateUUID_length random) as Hu.
  pose proof (c_offset _ _ _ C) as Ho.
  assert (Es : encoded_size v = Z.of_nat (length encoded)).
  { unfold encoded_size. now rewrite E. }
  eexists w, fs1, s1, _. split; [exact W|]. split; [exact C1|].
  split; [exact Hid|]. split; [exact Hp|]. split.
  { rewrite !length_app, Hu, be_bytes_length. lia. }
  split.
  { intros e. split.
    - intros He. destruct (proj1 (M e) He) as [->|Old]; [left|now right].
      split; [reflexivity|]. apply M. now left.
    - intros [[_ He]|Old]; [assumption|]. apply M. now right. }
  eexists _, encoded. split.
  { rewrite Hid, Uuid.stringToUUID_uuidToString by assumption.
    apply M. left. reflexivity. }
  cbn [offset size checksum]. split; [assumption|]. split; [lia|].
  split; [reflexivity|]. split.
  { rewrite !length_app, Hu, be_bytes_length. lia. }
  split; [|reflexivity].
  apply payload_in_new; [assumption|apply be_bytes_length|assumption].
Qed.

(** *** Compaction *)

(** Opening a file as a flush left it, into a storage object whose index
    holds entries already. *)
Lemma open_flushed (create : bool) (fs : filesystem) (s : Storage) (h : FileHeader)
      (data : list byte) (es : list (list byte * RecordLocation)) :
  fs_read fs (path s)
  = Some (serializeHeader h ++ data ++ flat_map index_entry_bytes es) ->
  magic h = MAGIC_BYTES ->
  indexOffset h = 32 + Z.of_nat (length data) ->
  dataOffset h = 32 + Z.of_nat (length data) ->
  32 + Z.of_nat (length data) < 2 ^ 64 ->
  Forall entry_ranges es ->
  BTree.Good (primary (indexManager s)) ->
  Forall entry_ranges (index_entries (indexManager s)) ->
  BTree.functional (index_entries (indexManager s) ++ es) ->
  exists s',
    open create fs s = Ok (fs, s')
    /\ consistent fs s' data
    /\ with_file s' true = s'
    /\ path s' = path s
    /\ forall e, In e (index_entries (indexManager s'))
                 <-> In e (index_entries (indexManager s)) \/ In e es.
Proof.
  intros Hf M Hi Hd Hb R G R0 Fn.
  destruct (deserialize_serialize h M ltac:(lia) ltac:(lia)) as (h' & Dh & M' & I' & D').
  destruct (setRecords_spec es (indexManager s)) as (m' & Sm & Gm & Mm).
  { exact G. }
  { revert R. apply Forall_impl. intros e He. exact (proj1 He). }
  { exact Fn. }
  unfold open. cbn [with_file path]. rewrite Hf.
  unfold loadDatabase. rewrite slice_header, Dh. cbn [bind].
  rewrite M'. change (Codec.jsstring_eqb MAGIC_BYTES MAGIC_BYTES) with true. cbn [negb].
  replace (0 <? indexOffset h') with true by (symmetry; apply Z.ltb_lt; lia).
  unfold loadIndex. cbn [with_header header indexManager].
  rewrite (slice_index _ data _ _ (serializeHeader_length h)) by lia.
  rewrite (loadIndex_loop_entries es _ _ (indexManager s) R (le_n _)).
  2:{ split; [cbn; lia|reflexivity]. }
  rewrite Sm. cbn [bind].
  eexists. split; [reflexivity|]. split; [|split; [reflexivity|split; [reflexivity|]]].
  - constructor;
      cbn [with_dataOffset with_index with_header path header indexManager dataOffset_];
      try assumption; try lia.
    + eexists _, _. split; [apply serializeHeader_length|eassumption].
    + apply Forall_forall. intros e He. apply Mm in He as [He|He].
      * rewrite Forall_forall in R0. now apply R0.
      * rewrite Forall_forall in R. now apply R.
  - intros e. cbn [with_dataOffset with_index indexManager]. exact (Mm e).
Qed.

Lemma fs_read_remove (fs : filesystem) (p q : string) :
  fs_read (fs_remove fs p) q = if String.eqb p q then None else fs_read fs q.
Proof.
  induction fs as [|[r c] fs IH]; cbn [fs_remove fs_read].
  - now destruct (String.eqb p q).
  - destruct (String.eqb_spec r p) as [->|Nr].
    + rewrite IH. destruct (String.eqb p q); reflexivity.
    + cbn [fs_read]. rewrite IH.
      destruct (String.eqb_spec r q) as [->|Nq]; [|reflexivity].
      destruct (String.eqb_spec p q) as [->|]; [contradiction|reflexivity].
Qed.

Lemma fs_rename_spec (fs : filesystem) (from to : string) (content : list byte) :
  fs_read fs from = Some content -> from <> to ->
  exists fs',
    fs_rename fs from to = Ok fs'
    /\ fs_read fs' to = Some content
    /\ fs_read fs' from = None.
Proof.
  intros H N. unfold fs_rename. rewrite H. eexists. split; [reflexivity|].
  split; [apply fs_read_write|].
  rewrite fs_read_write_other by congruence.
  rewrite fs_read_remove. now rewrite String.eqb_refl.
Qed.

Lemma append_differs (p : string) : (p ++ ".tmp")%string <> p.
Proof.
  induction p as [|a p IH]; cbn [String.append]; [discriminate|].
  intros E. injection E as E. now apply IH.
Qed.

(** A sequence of writes: the ids returned and the keys the index gains. *)
Lemma write_all_spec (ops : list (list byte * Codec.value)) :
  forall fs s data,
    consistent fs s data ->
    Forall writable ops ->
    dataOffset_ s + footprint ops < 2 ^ 64 ->
    NoDup (map minted ops) ->
    (forall op location,
        In op ops -> ~ In (minted op, location) (index_entries (indexManager s))) ->
    exists ws fs' s' more,
      write_all ops fs s = Ok (ws, fs', s')
      /\ consistent fs' s' (data ++ more)
      /\ path s' = path s
      /\ (forall q, q <> path s -> fs_read fs' q = fs_read fs q)
      /\ (forall e, In e (index_entries (indexManager s))
                    -> In e (index_entries (indexManager s')))
      /\ (forall e, In e (index_entries (indexManager s'))
                    -> In e (index_entries (indexManager s))
                       \/ In (fst e) (map minted ops))
      /\ Forall2 (fun w op => id w = Uuid.uuidToString (minted op)
                              /\ stored (data ++ more) (indexManager s') (id w) (snd op))
                 ws ops.
Proof.
  induction ops as [|[random v] ops IH]; intros fs s data C F B N Fr.
  - exists [], fs, s, []. rewrite app_nil_r.
    split; [reflexivity|]. split; [assumption|]. split; [reflexivity|].
    split; [reflexivity|]. split; [auto|]. split; [auto|constructor].
  - pose proof (Forall_inv F) as [Sv Hsz]. cbn [snd] in Sv, Hsz.
    cbn [footprint] in B. pose proof (footprint_nonneg ops) as Fp.
    cbn [map] in N. apply NoDup_cons_iff in N as [Nin N].
    destruct (write_stored random v fs s data C Sv Hsz ltac:(lia))
      as (w & fs1 & s1 & record & W & C1 & Hid & Hp & Hlen & M & St).
    { intros loc. exact (Fr (random, v) loc (or_introl eq_refl)). }
    assert (Hfs : forall q, q <> path s -> fs_read fs1 q = fs_read fs q).
    { intros q Hq. unfold write in W.
      destruct (Codec.encode v); cbn [bind] in W; [|discriminate].
      destruct (fs_read fs (path s)); [|discriminate].
      destruct (setRecord _ _ _); cbn [bind] in W; [|discriminate].
      injection W as _ <- _. apply fs_read_write_other. congruence. }
    destruct (IH fs1 s1 (data ++ record) C1 (Forall_inv_tail F))
      as (ws & fs' & s' & more & W' & C' & Hp' & Hfs' & Sub & Keys & St').
    { pose proof (c_offset _ _ _ C1) as O1. pose proof (c_offset _ _ _ C) as O.
      rewrite length_app in O1. lia. }
    { exact N. }
    { intros op loc Hop I. apply M in I as [[I _]|I].
      - apply Nin. cbn [fst] in I.
        change (minted (random, v)) with (Uuid.generateUUID random).
        rewrite <- I. now apply (in_map minted).
      - exact (Fr op loc (or_intror Hop) I). }
    exists (w :: ws), fs', s', (record ++ more). rewrite app_assoc.
    split; [cbn [write_all]; rewrite W; cbn [bind]; now rewrite W'|].
    split; [assumption|]. split; [congruence|]. split.
    { intros q Hq. rewrite Hfs' by congruence. now apply Hfs. }
    split.
    { intros e He. apply Sub. apply M. now right. }
    split.
    { intros e He. apply Keys in He as [He|He].
      - apply M in He as [[Ek _]|Old]; [right; left; now symmetry|now left].
      - right. now right. }
    constructor; [|assumption]. cbn [snd]. split; [exact Hid|].
    apply stored_mono with (m := indexManager s1); assumption.
Qed.

Lemma map_fst_combine {A B : Type} (l1 : list A) (l2 : list B) :
  length l1 = length l2 -> map fst (combine l1 l2) = l1.
Proof.
  revert l2. induction l1 as [|a l1 IH]; intros [|b l2] H; try discriminate; [reflexivity|].
  cbn [combine map fst]. f_equal. apply IH. now injection H.
Qed.

Lemma write_reads (random : list byte) (v : Codec.value) (fs fs' : filesystem)
      (s s' : Storage) (w : WriteResult) :
  write random v fs s = Ok (w, fs', s') ->
  path s' = path s /\ forall q, q <> path s -> fs_read fs' q = fs_read fs q.
Proof.
  unfold write. intros W.
  destruct (Codec.encode v); cbn [bind] in W; [|discriminate].
  destruct (fs_read fs (path s)); [|discriminate].
  destruct (setRecord _ _ _); cbn [bind] in W; [|discriminate].
  injection W as _ <- <-. split; [reflexivity|].
  intros q Hq. apply fs_read_write_other. congruence.
Qed.

(** The handle reaches the first [n] bytes of the file. *)
Definition reaches (h : FileHandle) (n : nat) : Prop :=
  match h with
  | no_handle => False
  | sized m => (n <= m)%nat
  | unsized => True
  end.

Lemma handle_slice_reached (h : FileHandle) (content : list byte) (n start stop : nat) :
  reaches h n -> (start <= stop <= n)%nat ->
  handle_slice h content start stop = Ok (slice content start stop).
Proof.
  destruct h as [|m|]; cbn [reaches handle_slice]; intros R H; [destruct R| |reflexivity].
  now rewrite !Nat.min_l by lia.
Qed.

(** The loop of [compact] is the sequence of writes of the decoded
    payloads. *)
Lemma compact_loop_writes (h : FileHandle) (p : string) (content : list byte) :
  forall entries randoms vs fs ns,
    p <> path ns ->
    fs_read fs p = Some content ->
    Forall2 (fun e v =>
               exists recordBuffer,
                 handle_slice h content
                   (Z.to_nat (offset (snd e)) + UUID_SIZE + 4)
                   (Z.to_nat (offset (snd e)) + UUID_SIZE + 4 + Z.to_nat (size (snd e)))
                 = Ok recordBuffer
                 /\ Codec.decode recordBuffer = Ok v)
            entries vs ->
    length randoms = length vs ->
    compact_loop h entries randoms p fs ns
    = ('(_, fs, ns) <- write_all (combine randoms vs) fs ns ;; Ok (fs, ns)).
Proof.
  induction entries as [|[k loc] entries IH]; intros randoms vs fs ns Np Hf D L.
  - inversion D; subst. destruct randoms; [reflexivity|discriminate].
  - inversion D as [|? v ? vs' (buf & Hs & Dv) D']; subst.
    destruct randoms as [|r randoms]; [discriminate|].
    cbn [compact_loop combine write_all hd tl snd] in *.
    assert (Rt : read_through h fs p loc = Ok buf).
    { unfold read_through. rewrite Hf. destruct h; [discriminate Hs|exact Hs|exact Hs]. }
    rewrite Rt. cbn [bind]. rewrite Dv. cbn [bind].
    destruct (write r v fs ns) as [[[w fs1] ns1]|e] eqn:W; cbn [bind]; [|reflexivity].
    destruct (write_reads _ _ _ _ _ _ _ W) as [P1 F1].
    rewrite (IH randoms vs' fs1 ns1) by
      (try assumption; try congruence; try (now injection L);
       rewrite F1 by assumption; assumption).
    destruct (write_all _ fs1 ns1) as [[[ws fs2] ns2]|e]; reflexivity.
Qed.

Lemma Forall2_In_impl {A B : Type} (P Q : A -> B -> Prop) (l : list A) (l' : list B) :
  (forall x y, In x l -> P x y -> Q x y) -> Forall2 P l l' -> Forall2 Q l l'.
Proof.
  intros H F. induction F as [|x y l l' Hxy F IH]; constructor.
  - apply H; [now left|assumption].
  - apply IH. intros a b Ia. apply H. now right.
Qed.

Lemma Forall2_right {A B : Type} (P : A -> B -> Prop) (Q : B -> Prop)
      (l : list A) (l' : list B) :
  (forall x y, In x l -> P x y -> Q y) -> Forall2 P l l' -> Forall Q l'.
Proof.
  intros H F. induction F as [|x y l l' Hxy F IH]; constructor.
  - apply (H x); [now left|assumption].
  - apply IH. intros a b Ia. apply H. now right.
Qed.

Lemma Forall2_combine {W A B : Type} (P : W -> A * B -> Prop) (Q : B -> Prop)
      (T : A -> B -> Prop) :
  (forall w r v, P w (r, v) -> Q v -> T r v) ->
  forall rs vs ws,
    length rs = length vs -> Forall Q vs ->
    Forall2 P ws (combine rs vs) -> Forall2 T rs vs.
Proof.
  intros H. induction rs as [|r rs IH]; intros [|v vs] ws L Fq F; try discriminate.
  - constructor.
  - cbn [combine] in F. inversion F as [|w ? ws' ? Hw F']; subst.
    constructor.
    + exact (H w r v Hw (Forall_inv Fq)).
    + apply (IH vs ws'); [now injection L|exact (Forall_inv_tail Fq)|exact F'].
Qed.

Lemma Forall_combine {A B : Type} (Q : B -> Prop) (rs : list A) (vs : list B) :
  Forall Q vs -> Forall (fun op => Q (snd op)) (combine rs vs).
Proof.
  revert vs. induction rs as [|r rs IH]; intros [|v vs] F; cbn [combine]; try constructor.
  - exact (Forall_inv F).
  - apply IH. exact (Forall_inv_tail F).
Qed.

(** X24.  Compaction through a handle that reaches the end of the data
    region (the handle of a reopened database does, the handle of the session
    that created the file does not) rewrites every record of a consistent
    storage under the id minted for it: afterwards each new id reads the value
    its record had, and the temporary file is gone. *)
Theorem compact_keeps_values (h : FileHandle) (randoms : list (list byte))
        (vs : list Codec.value)
        (fs : filesystem) (s : Storage) (data : list byte) :
  consistent fs s data ->
  reaches h (32 + length data) ->
  fs_read fs (path s ++ ".tmp")%string = None ->
  Forall2 (fun e v => stored data (indexManager s) (Uuid.uuidToString (fst e)) v
                      /\ Codec.supported v = true)
          (index_entries (indexManager s)) vs ->
  length randoms = length vs ->
  NoDup (map Uuid.generateUUID randoms) ->
  (forall r location,
      In r randoms ->
      ~ In (Uuid.generateUUID r, location) (index_entries (indexManager s))) ->
  32 + footprint (combine randoms vs) < 2 ^ 64 ->
  exists fs' s',
    compact h randoms fs s = Ok (fs', s')
    /\ Forall2 (fun r v => read (Uuid.uuidToString (Uuid.generateUUID r)) fs' s'
                           = Ok (v, s'))
               randoms vs
    /\ fs_read fs' (path s ++ ".tmp")%string = None.
Proof.
  intros C Hh Htmp St L N Fr B.
  pose proof C as [(hdr & tail & Hh32 & Hf) Ho Hb Hhd Hm G R].
  rewrite Forall_forall in R.
  set (tmp := (path s ++ ".tmp")%string) in *.
  assert (Nt : tmp <> path s) by apply append_differs.
  (* what the index entries point at *)
  assert (Ev : forall e v, In e (index_entries (indexManager s)) ->
             stored data (indexManager s) (Uuid.uuidToString (fst e)) v
             /\ Codec.supported v = true ->
             (exists recordBuffer,
                 handle_slice h (hdr ++ data ++ tail)
                   (Z.to_nat (offset (snd e)) + UUID_SIZE + 4)
                   (Z.to_nat (offset (snd e)) + UUID_SIZE + 4 + Z.to_nat (size (snd e)))
                 = Ok recordBuffer
                 /\ Codec.decode recordBuffer = Ok v)
             /\ Codec.supported v = true /\ encoded_size v < 2 ^ 32).
  { intros [k loc] v Ie [(loc' & enc & I & E & Hlo & Hs & Hd & P & _) Sv].
    cbn [fst snd] in *. destruct (R _ Ie) as (Hk & _). cbn [fst] in Hk.
    rewrite Uuid.stringToUUID_uuidToString in I by exact Hk.
    assert (loc' = loc) by (apply (proj2 (proj2 G) k); assumption). subst loc'.
    destruct (R _ Ie) as (_ & _ & Hsz & _). cbn [snd] in Hsz.
    destruct (encode_supported v Sv) as (enc' & E' & D).
    assert (enc' = enc) by congruence. subst enc'.
    split; [|split; [assumption|]].
    - exists enc. split; [|exact D].
      rewrite (handle_slice_reached h _ (32 + length data)) by
        (try assumption; unfold UUID_SIZE; lia).
      change (slice (hdr ++ data ++ tail) _ _) with (payload (hdr ++ data ++ tail) loc).
      rewrite payload_layout by (try assumption; lia). now rewrite P.
    - unfold encoded_size. rewrite E. lia. }
  pose proof (Forall2_In_impl _ _ _ _ (fun e v Ie H => proj1 (Ev e v Ie H)) St) as Dec.
  pose proof (Forall2_right _ (fun v => Codec.supported v = true
                                        /\ encoded_size v < 2 ^ 32) _ _
                (fun e v Ie H => proj2 (Ev e v Ie H)) St) as Fv.
  (* the new file *)
  destruct (createStorage_consistent tmp fs Htmp) as (fs1 & ns1 & Cr & C1).
  pose proof Cr as Op. change (createStorage tmp fs) with (open true fs (new_Storage tmp)) in Op.
  unfold createStorage, open in Cr.
  cbn [with_file path new_Storage] in Cr. rewrite Htmp in Cr.
  assert (Hfs1 : fs_read fs1 (path s) = Some (hdr ++ data ++ tail)).
  { injection Cr as <- _. cbn [createDatabase fst path].
    rewrite fs_read_write_other by exact Nt. exact Hf. }
  assert (Hi1 : index_entries (indexManager ns1) = []) by (now injection Cr as _ <-).
  assert (Hp1 : path ns1 = tmp) by (now injection Cr as _ <-).
  assert (Ho1 : dataOffset_ ns1 = 32) by (now injection Cr as _ <-).
  assert (Mm : map minted (combine randoms vs) = map Uuid.generateUUID randoms).
  { unfold minted. rewrite <- (map_map fst Uuid.generateUUID).
    now rewrite map_fst_combine. }
  destruct (write_all_spec (combine randoms vs) fs1 ns1 [] C1)
    as (ws & fs2 & ns2 & more & W & C2 & Hp2 & Hfs2 & _ & Keys & St2).
  { apply (Forall_combine (fun v => Codec.supported v = true /\ encoded_size v < 2 ^ 32)).
    exact Fv. }
  { rewrite Ho1. exact B. }
  { rewrite Mm. exact N. }
  { intros op loc _. rewrite Hi1. intros []. }
  cbn [app] in C2, St2.
  destruct (flush_consistent fs2 ns2 _ C2) as (fs3 & ns3 & F3 & C3 & Hp3 & I3 & _ & _).
  destruct (flush_consistent fs3 ns3 _ C3)
    as (fs4 & ns4 & F4 & C4 & Hp4 & I4 & Hio4 & Hf4).
  assert (Hp : path ns4 = tmp) by congruence.
  rewrite Hp in Hf4.
  destruct (fs_rename_spec fs4 tmp (path s) _ Hf4 Nt) as (fs5 & Rn & Hf5 & Ht5).
  destruct (open_flushed true fs5 s (header ns4) more
              (index_entries (indexManager ns4)) Hf5)
    as (s' & O & C' & Wf & _ & M').
  { exact (c_magic _ _ _ C4). }
  { rewrite Hio4. exact (c_offset _ _ _ C4). }
  { rewrite (c_header _ _ _ C4). exact (c_offset _ _ _ C4). }
  { rewrite <- (c_offset _ _ _ C4). exact (c_bound _ _ _ C4). }
  { exact (c_entries _ _ _ C4). }
  { exact G. }
  { apply Forall_forall. exact R. }
  { assert (New : forall k v, In (k, v) (index_entries (indexManager ns4)) ->
              exists r, In r randoms /\ k = Uuid.generateUUID r).
    { intros k v I. rewrite I4, I3 in I. apply Keys in I as [I|I].
      - rewrite Hi1 in I. destruct I.
      - cbn [fst] in I. rewrite Mm in I. apply in_map_iff in I as (r & <- & Ir).
        now exists r. }
    intros k v v' I1 I2.
    apply in_app_or in I1 as [I1|I1]; apply in_app_or in I2 as [I2|I2].
    - exact (proj2 (proj2 G) k v v' I1 I2).
    - exfalso. destruct (New k v' I2) as (r & Ir & ->). exact (Fr r v Ir I1).
    - exfalso. destruct (New k v I1) as (r & Ir & ->). exact (Fr r v' Ir I2).
    - exact (proj2 (proj2 (c_index _ _ _ C4)) k v v' I1 I2). }
  exists fs5, s'. split; [|split].
  - unfold compact. cbv zeta. fold tmp. rewrite Op. cbn [bind].
    rewrite (compact_loop_writes h (path s) (hdr ++ data ++ tail) _ _ vs fs1 ns1
               ltac:(rewrite Hp1; congruence) Hfs1 Dec L).
    rewrite W. cbn [bind].
    rewrite F3. cbn [bind]. unfold close. rewrite F4. cbn [bind].
    rewrite Rn. cbn [bind]. exact O.
  - refine (Forall2_combine _ (fun v => Codec.supported v = true /\ encoded_size v < 2 ^ 32)
              _ _ randoms vs ws L Fv St2).
    intros w r v [Hid Sw] [Sv _]. cbn [snd] in Sw.
    change (minted (r, v)) with (Uuid.generateUUID r) in Hid. rewrite <- Hid.
    pose proof (read_stored fs5 s' more (id w) v C') as Rd. rewrite Wf in Rd.
    apply Rd; [|exact Sv].
    apply (stored_index _ (indexManager ns2)); [|exact Sw].
    intros e He. apply M'. right. now rewrite I4, I3.
  - exact Ht5.
Qed.

(** The two records after a flush, a close and a reopening, with the handle
    that [open] took. *)
Definition reopened_fs : filesystem := snd (fst first_session).
Definition reopened_storage : Storage := snd first_session.
Definition reopened_handle : FileHandle :=
  Eval vm_compute in opened_handle reopened_fs sample_path.

Definition reopened_tail : list byte :=
  Eval vm_compute in
    match fs_read reopened_fs sample_path with
    | Some content => skipn (32 + length two_records_data) content
    | None => []
    end.

Lemma reopened_unsplit : BTree.unsplit (primary (indexManager reopened_storage)).
Proof.
  eexists _, _. split; [reflexivity|]. split; [reflexivity|]. split.
  - repeat constructor.
  - cbn [BTree.increasing]. repeat split;
      intros x Hx; cbn [In] in Hx;
      repeat (destruct Hx as [<-|Hx]; [vm_compute; reflexivity|]); destruct Hx.
Qed.

Lemma reopened_consistent :
  consistent reopened_fs reopened_storage two_records_data.
Proof.
  constructor.
  - exists (serializeHeader (header reopened_storage)), reopened_tail.
    split; reflexivity.
  - reflexivity.
  - reflexivity.
  - reflexivity.
  - reflexivity.
  - exact (BTree.unsplit_Good _ reopened_unsplit).
  - repeat constructor; vm_compute; congruence.
Qed.

Lemma compact_keeps_values_witness :
  reaches reopened_handle (32 + length two_records_data)
  /\ exists fs' s',
    compact reopened_handle [sample_random 5; sample_random 6]
            reopened_fs reopened_storage
    = Ok (fs', s')
    /\ Forall2 (fun r v => read (Uuid.uuidToString (Uuid.generateUUID r)) fs' s'
                           = Ok (v, s'))
               [sample_random 5; sample_random 6] [sample_value; Codec.complex_data]
    /\ fs_read fs' (path reopened_storage ++ ".tmp")%string = None.
Proof.
  split; [vm_compute; lia|].
  apply (compact_keeps_values reopened_handle [sample_random 5; sample_random 6]
           [sample_value; Codec.complex_data]
           reopened_fs reopened_storage two_records_data).
  - exact reopened_consistent.
  - vm_compute. lia.
  - reflexivity.
  - constructor; [split; [|reflexivity]|].
    { eexists _, _. split; [left; reflexivity|].
      split; [reflexivity|]. repeat split; vm_compute; congruence. }
    constructor; [split; [|reflexivity]|]; [|constructor].
    eexists _, _. split; [right; left; reflexivity|].
    split; [reflexivity|]. repeat split; vm_compute; congruence.
  - reflexivity.
  - constructor; [|constructor; [intros []|constructor]].
    vm_compute. intros [H|[]]. discriminate H.
  - intros r location [<-|[<-|[]]]; vm_compute; intros [H|[H|[]]]; discriminate H.
  - vm_compute. reflexivity.
Defined.

End Store.

(** ** loaders/domainLoader.ts: the domain collection *)

Module Domains.
Import Bytes Text.

(** [config.domainsDbPath] with the default data directory. *)
Definition domainsDbPath : string := "data/domains.db".

Record Domain : Type := {
  id : jsstring;
  hostname : jsstring;
  projectId : jsstring;
  sslEnabled : bool;
  createdAt : Z;
  updatedAt : Z
}.

Record DomainCreateInput : Type := {
  c_hostname : jsstring;
  c_projectId : jsstring
}.

Record DomainUpdateInput : Type := {
  u_hostname : option jsstring;
  u_projectId : option jsstring;
  u_sslEnabled : option bool
}.

(** The object [storage.write] is handed: the properties in the order the
    object literal of [createDomain] lists them (a spread keeps it). *)
Definition domain_value (d : Domain) : Codec.value :=
  Codec.VObject
    [(str "id", Codec.VString (id d));
     (str "hostname", Codec.VString (hostname d));
     (str "projectId", Codec.VString (projectId d));
     (str "sslEnabled", Codec.VBool (sslEnabled d));
     (str "createdAt", Codec.VNumber (Num.ofZ (createdAt d)));
     (str "updatedAt", Codec.VNumber (Num.ofZ (updatedAt d)))].

Fixpoint property (props : list (jsstring * Codec.value)) (key : jsstring)
  : option Codec.value :=
  match props with
  | [] => None
  | (k, v) :: rest => if Codec.jsstring_eqb k key then Some v else property rest key
  end.

(** [(await storage.read(id)) as Domain | null], for the values the
    collection writes; [None] is a value that is not such an object. *)
Definition value_domain (v : Codec.value) : option Domain :=
  match v with
  | Codec.VObject props =>
      match property props (str "id"), property props (str "hostname"),
            property props (str "projectId"), property props (str "sslEnabled"),
            property props (str "createdAt"), property props (str "updatedAt") with
      | Some (Codec.VString i), Some (Codec.VString h), Some (Codec.VString p),
        Some (Codec.VBool s), Some (Codec.VNumber c), Some (Codec.VNumber u) =>
          Some {| id := i; hostname := h; projectId := p; sslEnabled := s;
                  createdAt := Num.truncate c; updatedAt := Num.truncate u |}
      | _, _, _, _, _, _ => None
      end
  | _ => None
  end.

(** A JavaScript [Map] with string keys: insertion order, [set] keeps the
    place of an existing key. *)
Definition Map (V : Type) : Type := list (jsstring * V).

Fixpoint map_get {V : Type} (m : Map V) (k : jsstring) : option V :=
  match m with
  | [] => None
  | (k', v) :: rest => if Codec.jsstring_eqb k' k then Some v else map_get rest k
  end.

Fixpoint map_set {V : Type} (m : Map V) (k : jsstring) (v : V) : Map V :=
  match m with
  | [] => [(k, v)]
  | (k', v') :: rest =>
      if Codec.jsstring_eqb k' k then (k', v) :: rest else (k', v') :: map_set rest k v
  end.

Fixpoint map_delete {V : Type} (m : Map V) (k : jsstring) : Map V :=
  match m with
  | [] => []
  | (k', v') :: rest =>
      if Codec.jsstring_eqb k' k then rest else (k', v') :: map_delete rest k
  end.

Definition map_has {V : Type} (m : Map V) (k : jsstring) : bool :=
  match map_get m k with Some _ => true | None => false end.

Record DomainStore : Type := {
  domains : Map Domain;
  byHostname : Map Domain
}.

(** The module-level state, and the files. *)
Record state : Type := {
  storage : option Store.Storage;
  store : DomainStore;
  files : Store.filesystem
}.

(** The module as loaded by a fresh process over the given files. *)
Definition boot (fs : Store.filesystem) : state :=
  {| storage := None;
     store := {| domains := []; byHostname := [] |};
     files := fs |}.

Fixpoint loadAllDomains_loop (entries : list (list byte * Store.RecordLocation))
         (fs : Store.filesystem) (sto : Store.Storage) (st : DomainStore)
  : result (Store.Storage * DomainStore) :=
  match entries with
  | [] => Ok (sto, st)
  | (idBytes, _) :: rest =>
      let id := Uuid.uuidToString idBytes in
      '(v, sto) <- Store.read id fs sto ;;
      let st :=
        match value_domain v with
        | Some domain =>
            {| domains := map_set (domains st) (Domains.id domain) domain;
               byHostname := map_set (byHostname st) (hostname domain) domain |}
        | None => st
        end in
      loadAllDomains_loop rest fs sto st
  end.

Definition initDomainStorage (s : state) : result state :=
  '(fs, sto) <-
     match Store.fs_read (files s) domainsDbPath with
     | Some _ => Store.openStorage domainsDbPath (files s)
     | None => Store.createStorage domainsDbPath (files s)
     end ;;
  '(sto, st) <- loadAllDomains_loop (Store.index_entries (Store.indexManager sto))
                  fs sto (store s) ;;
  Ok {| storage := Some sto; store := st; files := fs |}.

Definition getAllDomains (s : state) : list Domain := map snd (domains (store s)).

Definition getDomainById (s : state) (id : jsstring) : option Domain :=
  map_get (domains (store s)) id.

Definition getDomainByHostname (s : state) (h : jsstring) : option Domain :=
  map_get (byHostname (store s)) h.

(** [createDomain]; [now] is [Date.now()], [random_id] and [random_record]
    the bytes drawn for the domain id and for the storage id. *)
Definition createDomain (now : Z) (random_id random_record : list byte)
           (input : DomainCreateInput) (s : state) : result (Domain * state) :=
  match storage s with
  | None => Err NotInitialized
  | Some sto =>
      if map_has (byHostname (store s)) (c_hostname input) then Err AlreadyExists
      else
        let id := Uuid.uuidToString (Uuid.generateUUID random_id) in
        let domain := {| id := id; hostname := c_hostname input;
                         projectId := c_projectId input; sslEnabled := false;
                         createdAt := now; updatedAt := now |} in
        '(_, fs, sto) <- Store.write random_record (domain_value domain) (files s) sto ;;
        '(fs, sto) <- Store.flush fs sto ;;
        Ok (domain,
            {| storage := Some sto;
               store := {| domains := map_set (domains (store s)) id domain;
                           byHostname := map_set (byHostname (store s))
                                           (hostname domain) domain |};
               files := fs |})
  end.

Definition nonempty (x : option jsstring) : option jsstring :=
  match x with
  | Some [] => None
  | _ => x
  end.

Definition updateDomain (now : Z) (random_record : list byte)
           (id : jsstring) (input : DomainUpdateInput) (s : state)
  : result (Domain * state) :=
  match storage s with
  | None => Err NotInitialized
  | Some sto =>
      match map_get (domains (store s)) id with
      | None => Err NotFound
      | Some existing =>
          by_host <-
            match nonempty (u_hostname input) with
            | Some h =>
                if negb (Codec.jsstring_eqb h (hostname existing)) then
                  if map_has (byHostname (store s)) h then Err AlreadyExists
                  else Ok (map_delete (byHostname (store s)) (hostname existing))
                else Ok (byHostname (store s))
            | None => Ok (byHostname (store s))
            end ;;
          let updated :=
            {| id := Domains.id existing;
               hostname := match u_hostname input with
                           | Some h => h | None => hostname existing end;
               projectId := match u_projectId input with
                            | Some p => p | None => projectId existing end;
               sslEnabled := match u_sslEnabled input with
                             | Some b => b | None => sslEnabled existing end;
               createdAt := createdAt existing;
               updatedAt := now |} in
          '(_, sto) <- Store.delete id sto ;;
          '(_, fs, sto) <- Store.write random_record (domain_value updated) (files s) sto ;;
          '(fs, sto) <- Store.flush fs sto ;;
          Ok (updated,
              {| storage := Some sto;
                 store := {| domains := map_set (domains (store s)) (Domains.id updated) updated;
                             byHostname := map_set by_host (hostname updated) updated |};
                 files := fs |})
      end
  end.

Definition deleteDomain (id : jsstring) (s : state) : result (bool * state) :=
  match storage s with
  | None => Err NotInitialized
  | Some sto =>
      match map_get (domains (store s)) id with
      | None => Ok (false, s)
      | Some existing =>
          '(_, sto) <- Store.delete id sto ;;
          '(fs, sto) <- Store.flush (files s) sto ;;
          Ok (true,
              {| storage := Some sto;
                 store := {| domains := map_delete (domains (store s)) id;
                             byHostname := map_delete (byHostname (store s))
                                             (hostname existing) |};
                 files := fs |})
      end
  end.

(** *** Create, delete, restart *)

Definition a_test : DomainCreateInput :=
  {| c_hostname := str "a.test"; c_projectId := str "p1" |}.

(** One domain is created and then deleted; both calls succeed and leave
    the collection empty. *)
Definition created_then_deleted : result (Domain * bool * state) :=
  Eval vm_compute in
    (s <- initDomainStorage (boot []) ;;
     '(d, s) <- createDomain 1700000000000 (Store.sample_random 1)
                  (Store.sample_random 2) a_test s ;;
     '(deleted, s) <- deleteDomain (id d) s ;;
     Ok (d, deleted, s)).

(** The process is killed and restarted over the files it left. *)
Definition restarted : result state :=
  Eval vm_compute in
    ('(_, _, s) <- created_then_deleted ;; initDomainStorage (boot (files s))).

(** C4 (the code at its failing input).  [deleteDomain] hands the domain's
    own id to [storage.delete], which knows records by their storage ids
    only: nothing is removed from the index, and after a restart the
    deleted domain is loaded again. *)
Lemma deleted_domain_returns :
  match created_then_deleted, restarted with
  | Ok (d, deleted, s), Ok s' =>
      deleted = true
      /\ getAllDomains s = []
      /\ getAllDomains s' = [d]
      /\ getDomainByHostname s' (str "a.test") = Some d
  | _, _ => False
  end.
Proof. vm_compute. repeat split. Qed.

(** The same defect on the update path: the superseded record stays in the
    index; here its storage id sorts after the new one, so that a restart
    loads the old field values last. *)
Definition created_then_updated : result (Domain * Domain * state) :=
  Eval vm_compute in
    (s <- initDomainStorage (boot []) ;;
     '(d, s) <- createDomain 1700000000000 (Store.sample_random 1)
                  (Store.sample_random 3) a_test s ;;
     '(d', s) <- updateDomain 1700000000001 (Store.sample_random 2) (id d)
                   {| u_hostname := None; u_projectId := None;
                      u_sslEnabled := Some true |} s ;;
     Ok (d, d', s)).

Lemma updated_domain_reverts :
  match created_then_updated with
  | Ok (d, d', s) =>
      getAllDomains s = [d'] /\ sslEnabled d' = true
      /\ match initDomainStorage (boot (files s)) with
         | Ok s' => getAllDomains s' = [d] /\ sslEnabled d = false
         | Err _ => False
         end
  | Err _ => False
  end.
Proof. vm_compute. repeat split. Qed.

(** *** Domain records through the codec *)

(** Strings of ASCII characters are encoded one byte a character. *)
Lemma ascii_encode (s : jsstring) :
  Forall (fun c => 0 <= c < 128) s ->
  length (TextEncoder_encode s) = length s
  /\ forallb code_unit s = true /\ isWellFormed s = true.
Proof.
  unfold TextEncoder_encode.
  induction 1 as [|c s Hc _ (IH1 & IH2 & IH3)]; [repeat split|].
  assert (Eh : is_high c = false) by (unfold is_high; split_tests; reflexivity).
  assert (El : is_low c = false) by (unfold is_low; split_tests; reflexivity).
  cbn [to_scalars isWellFormed forallb]. rewrite Eh, El.
  cbn [flat_map negb andb]. rewrite length_app, IH1, IH2, IH3.
  unfold utf8_of_scalar, code_unit.
  replace (c <? 128) with true by (symmetry; apply Z.ltb_lt; lia).
  split; [reflexivity|]. split; [|reflexivity].
  split_tests; reflexivity.
Qed.

Lemma ascii_string_ok (s : jsstring) :
  Forall (fun c => 0 <= c < 128) s -> (length s < 1000)%nat ->
  Codec.string_ok s = true.
Proof.
  intros A L. destruct (ascii_encode s A) as (E & U & W).
  unfold Codec.string_ok, survives, Codec.fits_varint. rewrite E, U, W.
  cbn [andb]. apply andb_true_intro. split.
  - destruct s as [|c s]; [reflexivity|]. apply Forall_inv in A.
    unfold BOM. apply negb_true_iff, Z.eqb_neq. lia.
  - apply Z.leb_le. unfold Codec.MAX_VARINT_4. lia.
Qed.

Lemma lower_hex_ascii (c : Z) : Uuid.is_lower_hex c = true -> 0 <= c < 128.
Proof. unfold Uuid.is_lower_hex. split_tests; intros; try discriminate; lia. Qed.

(** The ids the collection mints are strings the codec carries. *)
Lemma uuidToString_ok (bytes : list byte) :
  Codec.string_ok (Uuid.uuidToString bytes) = true.
Proof.
  apply ascii_string_ok.
  - unfold Uuid.uuidToString.
    cbn [flat_map seq app orb Nat.eqb].
    repeat (constructor;
            [first [ apply lower_hex_ascii, Uuid.hex_char_lower
                   | unfold Uuid.DASH; lia ]|]).
    constructor.
  - unfold Uuid.uuidToString. cbn [flat_map seq app orb Nat.eqb length]. lia.
Qed.

(** The domains whose record the codec carries exactly: strings that
    survive the encoder, timestamps a double holds. *)
Definition storable (d : Domain) : Prop :=
  Codec.string_ok (id d) = true
  /\ Codec.string_ok (hostname d) = true
  /\ Codec.string_ok (projectId d) = true
  /\ 0 <= createdAt d < 2 ^ 53
  /\ 0 <= updatedAt d < 2 ^ 53.

Lemma value_domain_object (i h p : jsstring) (s : bool) (c u : Num.number) :
  value_domain
    (Codec.VObject
       [(str "id", Codec.VString i); (str "hostname", Codec.VString h);
        (str "projectId", Codec.VString p); (str "sslEnabled", Codec.VBool s);
        (str "createdAt", Codec.VNumber c); (str "updatedAt", Codec.VNumber u)])
  = Some {| id := i; hostname := h; projectId := p; sslEnabled := s;
            createdAt := Num.truncate c; updatedAt := Num.truncate u |}.
Proof. reflexivity. Qed.

Lemma value_domain_value (d : Domain) :
  storable d -> value_domain (domain_value d) = Some d.
Proof.
  intros (_ & _ & _ & Hc & Hu). destruct d as [i h p s c u]. cbn [createdAt updatedAt] in *.
  unfold domain_value. cbn [id hostname projectId sslEnabled createdAt updatedAt].
  rewrite value_domain_object.
  destruct (Num.ofZ_exact c Hc) as (_ & -> & _).
  destruct (Num.ofZ_exact u Hu) as (_ & -> & _). reflexivity.
Qed.

Lemma number_supported (z : Z) :
  0 <= z < 2 ^ 53 -> Codec.supported (Codec.VNumber (Num.ofZ z)) = true.
Proof.
  intros Hz. destruct (Num.ofZ_exact z Hz) as (D & _ & N).
  cbn [Codec.supported]. rewrite D. cbn [andb].
  unfold Codec.is_negative_zero.
  destruct (Num.ofZ z) as [[|]| | |]; try reflexivity. now destruct N.
Qed.

Lemma domain_supported (d : Domain) :
  storable d -> Codec.supported (domain_value d) = true.
Proof.
  intros (Hi & Hh & Hp & Hc & Hu). unfold domain_value.
  pose proof (number_supported _ Hc) as Sc. pose proof (number_supported _ Hu) as Su.
  set (c := Codec.VNumber (Num.ofZ (createdAt d))) in *.
  set (u := Codec.VNumber (Num.ofZ (updatedAt d))) in *.
  cbn [Codec.supported length map fst forallb]. fold (Codec.supported c) (Codec.supported u).
  rewrite Hi, Hh, Hp, Sc, Su. reflexivity.
Qed.

(** *** The size of a domain record *)

Lemma writeVarint_length (n : Z) (e e' : Codec.encoder) :
  Codec.writeVarint n e = Ok e' -> (length e' <= length e + 4)%nat.
Proof.
  unfold Codec.writeVarint.
  destruct (n <=? _); [|destruct (n <=? _); [|destruct (n <=? _)]];
    intros H; try discriminate; injection H as <-; rewrite length_app; cbn [length]; lia.
Qed.

Lemma encodeString_length (s : jsstring) (e e' : Codec.encoder) :
  Codec.encodeString s e = Ok e' ->
  (length e' <= length e + 5 + length (TextEncoder_encode s))%nat.
Proof.
  unfold Codec.encodeString, Codec.writeBytes, Codec.writeUint8.
  destruct (Codec.writeVarint _ _) as [e1|] eqn:V; cbn [bind]; [|discriminate].
  intros H. injection H as <-. apply writeVarint_length in V.
  rewrite length_app in *. cbn [length] in V. lia.
Qed.

Lemma encodeNumber_length (n : Num.number) (e : Codec.encoder) :
  (length (Codec.encodeNumber n e) <= length e + 9)%nat.
Proof.
  unfold Codec.encodeNumber, Codec.writeInt8, Codec.writeInt16, Codec.writeInt32,
    Codec.writeFloat32, Codec.writeFloat64, Codec.writeUint8.
  repeat match goal with |- context [if ?b then _ else _] => destruct b end;
    rewrite !length_app, ?be_bytes_length; cbn [length]; lia.
Qed.

Lemma string_ok_length (s : jsstring) :
  Codec.string_ok s = true -> Z.of_nat (length (TextEncoder_encode s)) <= 2 ^ 29.
Proof.
  unfold Codec.string_ok, Codec.fits_varint, Codec.MAX_VARINT_4.
  intros H. apply andb_true_iff in H as [_ H]. apply Z.leb_le in H. lia.
Qed.

Lemma domain_size (d : Domain) :
  storable d -> Store.encoded_size (domain_value d) < 2 ^ 31.
Proof.
  intros S. pose proof S as (Hi & Hh & Hp & _).
  destruct (Store.encode_supported _ (domain_supported d S)) as (encoded & E & _).
  unfold Store.encoded_size. rewrite E.
  apply string_ok_length in Hi, Hh, Hp.
  unfold Codec.encode, domain_value in E. rewrite Codec.encodeValue_object in E.
  cbn [Codec.encodeObject_loop Codec.encodeValue length] in E.
  repeat match type of E with
         | bind ?m _ = Ok _ =>
             let e := fresh "e" in let V := fresh "V" in
             destruct m as [e|] eqn:V; cbn [bind] in E; [|discriminate E]
         end.
  injection E as <-.
  repeat match goal with
         | V : Codec.writeVarint _ _ = Ok _ |- _ => apply writeVarint_length in V
         | V : Codec.encodeString _ _ = Ok _ |- _ => apply encodeString_length in V
         | V : Ok _ = Ok _ |- _ => injection V as <-
         end.
  repeat match goal with
         | V : context [length (TextEncoder_encode (str ?k))] |- _ =>
             let n := eval vm_compute in (length (TextEncoder_encode (str k))) in
             change (length (TextEncoder_encode (str k))) with n in V
         end.
  unfold Codec.writeUint8 in *. rewrite ?length_app in *. cbn [length] in *.
  repeat match goal with
         | |- context [Codec.encodeNumber ?n ?e] =>
             pose proof (encodeNumber_length n e); generalize dependent (Codec.encodeNumber n e); intros
         | V : context [Codec.encodeNumber ?n ?e] |- _ =>
             pose proof (encodeNumber_length n e); generalize dependent (Codec.encodeNumber n e); intros
         end.
  rewrite ?length_app in *. cbn [length] in *.
  change (2 ^ 29) with 536870912 in *. change (2 ^ 31) with 2147483648. lia.
Qed.

(** *** The maps of the collection *)

Lemma map_get_set {V : Type} (m : Map V) (k k' : jsstring) (v : V) :
  map_get (map_set m k v) k'
  = if Codec.jsstring_eqb k k' then Some v else map_get m k'.
Proof.
  induction m as [|[k0 v0] m IH]; cbn [map_set map_get]; [reflexivity|].
  destruct (Codec.jsstring_eqb k0 k) eqn:E0; cbn [map_get].
  - apply Codec.jsstring_eqb_eq in E0. subst k0.
    destruct (Codec.jsstring_eqb k k'); reflexivity.
  - destruct (Codec.jsstring_eqb k0 k') eqn:E1; [|exact IH].
    destruct (Codec.jsstring_eqb k k') eqn:E2; [|reflexivity].
    apply Codec.jsstring_eqb_eq in E1, E2. subst k0 k'.
    rewrite (proj2 (Codec.jsstring_eqb_eq k k) eq_refl) in E0. discriminate.
Qed.

Lemma map_set_keys {V : Type} (m : Map V) (k : jsstring) (v : V) :
  (forall x, In x (map fst (map_set m k v)) <-> x = k \/ In x (map fst m))
  /\ (NoDup (map fst m) -> NoDup (map fst (map_set m k v))).
Proof.
  induction m as [|[k0 v0] m [IH1 IH2]]; cbn [map_set map fst In].
  - split; [intros x; intuition congruence|]. intros _. repeat constructor. intros [].
  - destruct (Codec.jsstring_eqb k0 k) eqn:E; cbn [map fst In].
    + apply Codec.jsstring_eqb_eq in E. subst k0.
      split; [intros x; intuition congruence|]. auto.
    + split; [intros x; rewrite IH1; intuition congruence|].
      intros N. apply NoDup_cons_iff in N as [Nin N].
      constructor; [|now apply IH2]. rewrite IH1. intros [->|I]; [|now apply Nin].
      rewrite (proj2 (Codec.jsstring_eqb_eq k k) eq_refl) in E. discriminate.
Qed.

Lemma map_get_In {V : Type} (m : Map V) (k : jsstring) (v : V) :
  NoDup (map fst m) -> (map_get m k = Some v <-> In (k, v) m).
Proof.
  induction m as [|[k0 v0] m IH]; cbn [map_get map fst In]; intros N.
  - split; [discriminate|tauto].
  - apply NoDup_cons_iff in N as [Nin N].
    destruct (Codec.jsstring_eqb k0 k) eqn:E.
    + apply Codec.jsstring_eqb_eq in E. subst k0. split.
      * intros [= <-]. now left.
      * intros [[= <-]|I]; [reflexivity|].
        exfalso. apply Nin. now apply (in_map fst) in I.
    + rewrite (IH N). split; [now right|]. intros [[= -> <-]|I]; [|assumption].
      rewrite (proj2 (Codec.jsstring_eqb_eq k k) eq_refl) in E. discriminate.
Qed.

(** The collection holds the domains of [P]: each is found under its id
    and under its hostname, and nothing else is found. *)
Definition holds (st : DomainStore) (P : Domain -> Prop) : Prop :=
  (forall i d, map_get (domains st) i = Some d <-> P d /\ id d = i)
  /\ (forall h d, map_get (byHostname st) h = Some d <-> P d /\ hostname d = h)
  /\ NoDup (map fst (domains st))
  /\ NoDup (map fst (byHostname st)).

(** No two domains of [P] share an id or a hostname. *)
Definition unique (P : Domain -> Prop) : Prop :=
  forall d1 d2, P d1 -> P d2 ->
                id d1 = id d2 \/ hostname d1 = hostname d2 -> d1 = d2.

Lemma holds_empty : holds {| domains := []; byHostname := [] |} (fun _ => False).
Proof.
  split; [|split; [|split]]; [| |constructor|constructor];
    intros k d; cbn; (split; [discriminate|tauto]).
Qed.

Lemma holds_iff (st : DomainStore) (P Q : Domain -> Prop) :
  (forall d, P d <-> Q d) -> holds st P -> holds st Q.
Proof.
  intros E (H1 & H2 & N). split; [|split; [|exact N]];
    intros k d; [rewrite H1|rewrite H2]; now rewrite E.
Qed.

Lemma holds_add (st : DomainStore) (P : Domain -> Prop) (d0 : Domain) :
  holds st P -> unique (fun d => P d \/ d = d0) ->
  holds {| domains := map_set (domains st) (id d0) d0;
           byHostname := map_set (byHostname st) (hostname d0) d0 |}
        (fun d => P d \/ d = d0).
Proof.
  intros (H1 & H2 & N1 & N2) U.
  split; [|split; [|split; [exact (proj2 (map_set_keys _ _ _) N1)
                           |exact (proj2 (map_set_keys _ _ _) N2)]]];
    intros k d; cbn [domains byHostname]; rewrite map_get_set;
    destruct (Codec.jsstring_eqb _ k) eqn:E.
  - apply Codec.jsstring_eqb_eq in E. split.
    + intros [= <-]. split; [now right|assumption].
    + intros [Pd Hk]. f_equal. symmetry. apply U; [assumption|now right|].
      left. congruence.
  - rewrite H1. split; [intros [Pd Hk]; split; [now left|assumption]|].
    intros [[Pd| ->] Hk]; [now split|].
    rewrite <- Hk in E.
    rewrite (proj2 (Codec.jsstring_eqb_eq (id d0) (id d0)) eq_refl) in E. discriminate.
  - apply Codec.jsstring_eqb_eq in E. split.
    + intros [= <-]. split; [now right|assumption].
    + intros [Pd Hk]. f_equal. symmetry. apply U; [assumption|now right|].
      right. congruence.
  - rewrite H2. split; [intros [Pd Hk]; split; [now left|assumption]|].
    intros [[Pd| ->] Hk]; [now split|].
    rewrite <- Hk in E.
    rewrite (proj2 (Codec.jsstring_eqb_eq (hostname d0) (hostname d0)) eq_refl) in E.
    discriminate.
Qed.

Lemma holds_same (st1 st2 : DomainStore) (P : Domain -> Prop) :
  holds st1 P -> holds st2 P ->
  (forall i, map_get (domains st1) i = map_get (domains st2) i)
  /\ (forall h, map_get (byHostname st1) h = map_get (byHostname st2) h).
Proof.
  intros (A1 & A2 & _) (B1 & B2 & _). split; intros k.
  - destruct (map_get (domains st1) k) as [d|] eqn:E.
    + symmetry. apply B1, A1, E.
    + destruct (map_get (domains st2) k) as [d|] eqn:E'; [|reflexivity].
      apply B1, A1 in E'. congruence.
  - destruct (map_get (byHostname st1) k) as [d|] eqn:E.
    + symmetry. apply B2, A2, E.
    + destruct (map_get (byHostname st2) k) as [d|] eqn:E'; [|reflexivity].
      apply B2, A2 in E'. congruence.
Qed.

(** *** The collection and its file *)

(** Every index entry points at the record of a domain of [ds], and every
    domain of [ds] has such an entry. *)
Definition recorded (data : list byte) (m : Store.IndexManager) (ds : list Domain) : Prop :=
  (forall e, In e (Store.index_entries m) ->
             exists d, In d ds
                       /\ Store.stored data m (Uuid.uuidToString (fst e)) (domain_value d))
  /\ (forall d, In d ds ->
                exists e, In e (Store.index_entries m)
                          /\ Store.stored data m (Uuid.uuidToString (fst e)) (domain_value d)).

(** The file as a new process would open it. *)
Definition reopens (fs : Store.filesystem) (sto : Store.Storage) (data : list byte) : Prop :=
  exists sto',
    Store.openStorage (Store.path sto) fs = Ok (fs, sto')
    /\ Store.consistent fs sto' data
    /\ Store.with_file sto' true = sto'
    /\ forall e, In e (Store.index_entries (Store.indexManager sto'))
                 <-> In e (Store.index_entries (Store.indexManager sto)).

(** The storage ids in use. *)
Definition record_ids (s : state) : list (list byte) :=
  match storage s with
  | Some sto => map fst (Store.index_entries (Store.indexManager sto))
  | None => []
  end.

(** The state of the module after [initDomainStorage] and any number of
    [createDomain]: memory, index and file hold the domains [ds]. *)
Definition synced (s : state) (ds : list Domain) (data : list byte) : Prop :=
  exists sto,
    storage s = Some sto
    /\ Store.path sto = domainsDbPath
    /\ Store.consistent (files s) sto data
    /\ reopens (files s) sto data
    /\ recorded data (Store.indexManager sto) ds
    /\ holds (store s) (fun d => In d ds)
    /\ Forall storable ds
    /\ unique (fun d => In d ds).

Lemma initDomainStorage_new (fs : Store.filesystem) :
  Store.fs_read fs domainsDbPath = None ->
  exists s, initDomainStorage (boot fs) = Ok s /\ synced s [] [] /\ record_ids s = [].
Proof.
  intros H.
  destruct (Store.createStorage_consistent domainsDbPath fs H) as (fs' & sto & Cr & C).
  unfold initDomainStorage. cbn [boot files store]. rewrite H, Cr. cbn [bind].
  unfold Store.createStorage, Store.open in Cr.
  cbn [Store.with_file Store.path Store.new_Storage] in Cr. rewrite H in Cr.
  injection Cr as <- <-.
  cbn [Store.createDatabase Store.with_dataOffset Store.indexManager Store.new_Storage
       Store.index_entries Store.path].
  change (Store.index_entries Store.new_IndexManager) with (@nil (list byte * Store.RecordLocation)).
  cbn [loadAllDomains_loop bind].
  eexists. split; [reflexivity|]. split; [|reflexivity].
  eexists. split; [reflexivity|]. split; [reflexivity|]. split; [exact C|].
  split.
  { cbn [files Store.path]. eexists. split; [|split; [|split]].
    - unfold Store.openStorage, Store.open.
      cbn [Store.with_file Store.path Store.new_Storage].
      rewrite Store.fs_read_write. reflexivity.
    - constructor.
      + exists (Store.serializeHeader (Store.header (Store.new_Storage domainsDbPath))), [].
        split; [reflexivity|]. rewrite Store.fs_read_write. reflexivity.
      + reflexivity.
      + reflexivity.
      + reflexivity.
      + reflexivity.
      + apply BTree.create_Good.
      + constructor.
    - reflexivity.
    - intros e. reflexivity. }
  split; [split; [intros e []|intros d []]|].
  split; [exact holds_empty|]. split; [constructor|intros d1 d2 []].
Qed.

(** The domain [createDomain] builds. *)
Definition created (now : Z) (random_id : list byte) (input : DomainCreateInput) : Domain :=
  {| id := Uuid.uuidToString (Uuid.generateUUID random_id);
     hostname := c_hostname input;
     projectId := c_projectId input;
     sslEnabled := false;
     createdAt := now;
     updatedAt := now |}.

Lemma flushed_reopens (fs : Store.filesystem) (sto : Store.Storage) (data : list byte) :
  Store.consistent fs sto data ->
  Store.indexOffset (Store.header sto) = Store.dataOffset_ sto ->
  Store.fs_read fs (Store.path sto)
  = Some (Store.serializeHeader (Store.header sto) ++ data
          ++ flat_map Store.index_entry_bytes
               (Store.index_entries (Store.indexManager sto))) ->
  reopens fs sto data.
Proof.
  intros C Hio Hf.
  apply (Store.openStorage_flushed (Store.path sto) fs (Store.header sto) data
           (Store.index_entries (Store.indexManager sto))).
  - exact Hf.
  - exact (Store.c_magic _ _ _ C).
  - rewrite Hio. exact (Store.c_offset _ _ _ C).
  - rewrite (Store.c_header _ _ _ C). exact (Store.c_offset _ _ _ C).
  - rewrite <- (Store.c_offset _ _ _ C). exact (Store.c_bound _ _ _ C).
  - exact (Store.c_entries _ _ _ C).
  - exact (proj2 (proj2 (Store.c_index _ _ _ C))).
Qed.

Lemma createDomain_synced (now : Z) (random_id random_record : list byte)
      (input : DomainCreateInput) (s : state) (ds : list Domain) (data : list byte) :
  synced s ds data ->
  0 <= now < 2 ^ 53 ->
  Codec.string_ok (c_hostname input) = true ->
  Codec.string_ok (c_projectId input) = true ->
  (forall d, In d ds ->
             hostname d <> c_hostname input
             /\ id d <> Uuid.uuidToString (Uuid.generateUUID random_id)) ->
  ~ In (Uuid.generateUUID random_record) (record_ids s) ->
  Z.of_nat (length data) + 2 ^ 32 < 2 ^ 63 ->
  exists s' more,
    createDomain now random_id random_record input s
    = Ok (created now random_id input, s')
    /\ synced s' (ds ++ [created now random_id input]) (data ++ more)
    /\ Z.of_nat (length more) < 2 ^ 32
    /\ forall k, In k (record_ids s') ->
                 k = Uuid.generateUUID random_record \/ In k (record_ids s).
Proof.
  intros (sto & Hs & Hp & C & _ & [R1 R2] & Hh & Fs & U) Hn Sh Sp Fd Fr Hb.
  set (d := created now random_id input).
  assert (Sd : storable d).
  { split; [apply uuidToString_ok|]. repeat split; try assumption; apply Hn. }
  pose proof (domain_size d Sd) as Hz.
  pose proof (Store.c_offset _ _ _ C) as Ho.
  assert (P2 : 2 ^ 31 < 2 ^ 32 /\ 2 ^ 63 < 2 ^ 64) by (split; reflexivity).
  destruct (Store.write_stored random_record (domain_value d) (files s) sto data C
              (domain_supported d Sd) ltac:(lia) ltac:(lia))
    as (w & fs1 & sto1 & more & W & C1 & Hid & Hp1 & Hlen & M & St).
  { intros loc I. apply Fr. unfold record_ids. rewrite Hs.
    apply (in_map fst) in I. exact I. }
  destruct (Store.flush_consistent fs1 sto1 _ C1)
    as (fs2 & sto2 & F & C2 & Hp2 & I2 & Hio & Hf).
  assert (Hm : map_has (byHostname (store s)) (c_hostname input) = false).
  { unfold map_has. destruct (map_get _ _) as [d'|] eqn:E; [|reflexivity].
    apply (proj1 (proj2 Hh)) in E as [Id Ed]. now destruct (proj1 (Fd d' Id)). }
  assert (Ud : unique (fun d' => In d' ds \/ d' = d)).
  { intros d1 d2 [I1| ->] [I2'| ->] E.
    - now apply U.
    - exfalso. destruct (Fd d1 I1) as [Nh Ni]. destruct E as [E|E]; [now apply Ni|now apply Nh].
    - exfalso. destruct (Fd d2 I2') as [Nh Ni].
      destruct E as [E|E]; [now apply Ni|now apply Nh].
    - reflexivity. }
  assert (Sub : forall e, In e (Store.index_entries (Store.indexManager sto))
                          -> In e (Store.index_entries (Store.indexManager sto1))).
  { intros e He. apply M. now right. }
  exists {| storage := Some sto2;
            store := {| domains := map_set (domains (store s)) (id d) d;
                        byHostname := map_set (byHostname (store s)) (hostname d) d |};
            files := fs2 |}, more.
  split.
  { unfold createDomain. rewrite Hs, Hm. cbv zeta.
    unfold d, created in W. rewrite W. cbn [bind]. rewrite F. reflexivity. }
  split.
  { exists sto2. cbn [storage store files].
    split; [reflexivity|]. split; [congruence|]. split; [exact C2|].
    split; [exact (flushed_reopens _ _ _ C2 Hio Hf)|]. rewrite I2. split; [split|].
    - intros e He. apply M in He as [[Ek He]|Old].
      + exists d. split; [apply in_or_app; right; now left|].
        rewrite Ek, <- Hid. exact St.
      + destruct (R1 e Old) as (d' & Id & Sd').
        exists d'. split; [apply in_or_app; now left|].
        exact (Store.stored_mono _ _ _ _ _ _ Sub Sd').
    - intros d' Id. apply in_app_or in Id as [Id|[<-|[]]].
      + destruct (R2 d' Id) as (e & He & Sd').
        exists e. split; [now apply Sub|].
        exact (Store.stored_mono _ _ _ _ _ _ Sub Sd').
      + pose proof St as (loc & enc & I & _).
        rewrite Hid, Uuid.stringToUUID_uuidToString in I
          by apply Uuid.generateUUID_length.
        exists (Uuid.generateUUID random_record, loc). split; [exact I|].
        cbn [fst]. rewrite <- Hid. exact St.
    - split; [|split].
      + apply (holds_iff _ (fun d' => In d' ds \/ d' = d)).
        * intros d'. rewrite in_app_iff. cbn [In]. intuition congruence.
        * apply holds_add; assumption.
      + apply Forall_app. split; [assumption|now constructor].
      + intros d1 d2 I1 I2' E. apply Ud; [| |assumption].
        * apply in_app_or in I1 as [I1|[<-|[]]]; [now left|now right].
        * apply in_app_or in I2' as [I2'|[<-|[]]]; [now left|now right]. }
  split; [lia|].
  intros k Hk. unfold record_ids in *. cbn [storage] in Hk. rewrite Hs.
  rewrite I2 in Hk. apply in_map_iff in Hk as (e & <- & He).
  apply M in He as [[Ek _]|Old]; [now left|right; now apply in_map].
Qed.

(** *** Loading the collection *)

Lemma loadAllDomains_loop_spec (ds : list Domain) (data : list byte)
      (fs : Store.filesystem) (sto : Store.Storage) :
  Store.consistent fs sto data -> Store.with_file sto true = sto ->
  Forall storable ds -> unique (fun d => In d ds) ->
  forall es st P,
    (forall e, In e es ->
               exists d, In d ds
                         /\ Store.stored data (Store.indexManager sto)
                              (Uuid.uuidToString (fst e)) (domain_value d)) ->
    holds st P -> (forall d, P d -> In d ds) ->
    exists st',
      loadAllDomains_loop es fs sto st = Ok (sto, st')
      /\ holds st'
           (fun d => P d
                     \/ In d ds
                        /\ exists e, In e es
                                     /\ Store.stored data (Store.indexManager sto)
                                          (Uuid.uuidToString (fst e)) (domain_value d)).
Proof.
  intros C Wf Fs U. rewrite Forall_forall in Fs.
  induction es as [|[k loc] es IH]; intros st P R H Sub.
  - exists st. split; [reflexivity|].
    apply (holds_iff _ P); [|assumption].
    intros d. split; [now left|]. intros [Pd|(_ & e & [] & _)]. exact Pd.
  - destruct (R (k, loc) (or_introl eq_refl)) as (d0 & I0 & S0). cbn [fst] in S0.
    pose proof (Store.read_stored fs sto data _ _ C S0 (domain_supported d0 (Fs d0 I0)))
      as Rd.
    rewrite Wf in Rd.
    cbn [loadAllDomains_loop]. rewrite Rd. cbn [bind].
    rewrite (value_domain_value d0 (Fs d0 I0)).
    destruct (IH {| domains := map_set (domains st) (id d0) d0;
                    byHostname := map_set (byHostname st) (hostname d0) d0 |}
                 (fun d => P d \/ d = d0)) as (st' & L & H').
    + intros e He. apply R. now right.
    + apply holds_add; [assumption|].
      intros d1 d2 D1 D2. apply U.
      * destruct D1 as [D1| ->]; [now apply Sub|assumption].
      * destruct D2 as [D2| ->]; [now apply Sub|assumption].
    + intros d [Pd| ->]; [now apply Sub|assumption].
    + exists st'. split; [exact L|].
      refine (holds_iff _ _ _ _ H'). intros d. split.
      * intros [[Pd| ->]|(Id & e & He & Se)].
        -- now left.
        -- right. split; [assumption|]. exists (k, loc). split; [now left|exact S0].
        -- right. split; [assumption|]. exists e. split; [now right|exact Se].
      * intros [Pd|(Id & e & [<-|He] & Se)].
        -- left. now left.
        -- left. right. cbn [fst] in Se.
           pose proof (Store.read_stored fs sto data _ _ C Se
                         (domain_supported d (Fs d Id))) as Rd'.
           rewrite Rd in Rd'.
           assert (E : domain_value d0 = domain_value d) by congruence.
           pose proof (value_domain_value d (Fs d Id)) as V.
           rewrite <- E, (value_domain_value d0 (Fs d0 I0)) in V. congruence.
        -- right. split; [assumption|]. now exists e.
Qed.

(** A new process over the files of a synced collection loads the same
    domains. *)
Lemma restart_synced (s : state) (ds : list Domain) (data : list byte) :
  synced s ds data ->
  exists s', initDomainStorage (boot (files s)) = Ok s'
             /\ holds (store s') (fun d => In d ds).
Proof.
  intros (sto & Hs & Hp & C & (sto' & O & C' & Wf & Me) & [R1 R2] & Hh & Fs & U).
  destruct (Store.c_file _ _ _ C) as (hdr & tail & _ & Hf). rewrite Hp in Hf, O.
  assert (Sub : forall e, In e (Store.index_entries (Store.indexManager sto))
                          -> In e (Store.index_entries (Store.indexManager sto')))
    by (intros e; apply Me).
  destruct (loadAllDomains_loop_spec ds data (files s) sto' C' Wf Fs U
              (Store.index_entries (Store.indexManager sto'))
              {| domains := []; byHostname := [] |} (fun _ => False))
    as (st' & L & H').
  - intros e He. apply Me in He. destruct (R1 e He) as (d & Id & Sd).
    exists d. split; [assumption|]. exact (Store.stored_index _ _ _ _ _ Sub Sd).
  - exact holds_empty.
  - intros d [].
  - unfold initDomainStorage. cbn [boot files store]. rewrite Hf, O. cbn [bind].
    rewrite L. cbn [bind]. eexists. split; [reflexivity|]. cbn [store].
    refine (holds_iff _ _ _ _ H'). intros d. split.
    + intros [[]|(Id & _)]. exact Id.
    + intros Id. right. split; [assumption|].
      destruct (R2 d Id) as (e & He & Sd). exists e. split; [now apply Sub|].
      exact (Store.stored_index _ _ _ _ _ Sub Sd).
Qed.

Lemma holds_all (s : state) (P : Domain -> Prop) :
  holds (store s) P ->
  (forall d, In d (getAllDomains s) <-> P d)
  /\ (forall d, P d -> getDomainById s (id d) = Some d
                       /\ getDomainByHostname s (hostname d) = Some d).
Proof.
  intros (H1 & H2 & N & _). unfold getAllDomains, getDomainById, getDomainByHostname. split.
  - intros d. split.
    + intros I. apply in_map_iff in I as ([k d'] & E & I). cbn [snd] in E. subst d'.
      apply (map_get_In _ _ _ N), H1 in I. exact (proj1 I).
    + intros Pd. assert (G : map_get (domains (store s)) (id d) = Some d)
        by (apply H1; now split).
      apply (map_get_In _ _ _ N) in G. now apply (in_map snd) in G.
  - intros d Pd. split; [apply H1|apply H2]; now split.
Qed.

(** *** A sequence of creations, then a restart *)

(** One call of [createDomain]: the time, the random bytes drawn for the
    domain id and for the storage id, and the input. *)
Record creation : Type := {
  now : Z;
  random_id : list byte;
  random_record : list byte;
  input : DomainCreateInput
}.

Definition domain_of (c : creation) : Domain :=
  created (now c) (random_id c) (input c).

Fixpoint createAll (calls : list creation) (s : state) : result (list Domain * state) :=
  match calls with
  | [] => Ok ([], s)
  | c :: rest =>
      '(d, s) <- createDomain (now c) (random_id c) (random_record c) (input c) s ;;
      '(ds, s) <- createAll rest s ;;
      Ok (d :: ds, s)
  end.

Definition acceptable (c : creation) : Prop :=
  0 <= now c < 2 ^ 53
  /\ Codec.string_ok (c_hostname (input c)) = true
  /\ Codec.string_ok (c_projectId (input c)) = true.

Lemma createAll_synced (calls : list creation) :
  forall s ds data,
    synced s ds data ->
    Forall acceptable calls ->
    NoDup (map hostname (ds ++ map domain_of calls)) ->
    NoDup (map id (ds ++ map domain_of calls)) ->
    NoDup (map (fun c => Uuid.generateUUID (random_record c)) calls) ->
    (forall c, In c calls -> ~ In (Uuid.generateUUID (random_record c)) (record_ids s)) ->
    Z.of_nat (length data) + (Z.of_nat (length calls) + 1) * 2 ^ 32 < 2 ^ 63 ->
    exists s' data',
      createAll calls s = Ok (map domain_of calls, s')
      /\ synced s' (ds ++ map domain_of calls) data'.
Proof.
  induction calls as [|c calls IH]; intros s ds data Sy A Nh Ni Nr Fr B.
  - exists s, data. cbn [map]. rewrite app_nil_r. now split.
  - cbn [map] in Nh, Ni, Nr. rewrite map_app in Nh, Ni. cbn [map] in Nh, Ni.
    pose proof (NoDup_remove_2 _ _ _ Nh) as Fh.
    pose proof (NoDup_remove_2 _ _ _ Ni) as Fi.
    apply NoDup_cons_iff in Nr as [Fr' Nr].
    pose proof (Forall_inv A) as (Hn & Sh & Sp).
    cbn [length] in B. rewrite Nat2Z.inj_succ in B.
    destruct (createDomain_synced (now c) (random_id c) (random_record c) (input c)
                s ds data Sy Hn Sh Sp)
      as (s1 & more & Cr & Sy1 & Hm & Ids).
    { intros d Id. split; intros E; [apply Fh|apply Fi]; apply in_or_app; left.
      - change (hostname (domain_of c)) with (c_hostname (input c)).
        rewrite <- E. now apply in_map.
      - change (id (domain_of c))
          with (Uuid.uuidToString (Uuid.generateUUID (random_id c))).
        rewrite <- E. now apply in_map. }
    { apply Fr. now left. }
    { lia. }
    destruct (IH s1 (ds ++ [domain_of c]) (data ++ more) Sy1 (Forall_inv_tail A))
      as (s' & data' & Ca & Sy').
    + rewrite <- app_assoc, map_app. exact Nh.
    + rewrite <- app_assoc, map_app. exact Ni.
    + exact Nr.
    + intros c' Ic' I. apply Ids in I as [E|I].
      * apply Fr'. rewrite <- E.
        now apply (in_map (fun c => Uuid.generateUUID (random_record c))).
      * exact (Fr c' (or_intror Ic') I).
    + rewrite length_app. lia.
    + exists s', data'. split.
      * cbn [createAll]. rewrite Cr. cbn [bind]. rewrite Ca. reflexivity.
      * rewrite <- app_assoc in Sy'. exact Sy'.
Qed.

Lemma NoDup_map_in {A B : Type} (f : A -> B) (l : list A) :
  (forall a b, In a l -> In b l -> f a = f b -> a = b) ->
  NoDup l -> NoDup (map f l).
Proof.
  induction l as [|x l IH]; intros Inj N; cbn [map]; [constructor|].
  apply NoDup_cons_iff in N as [Nin N]. constructor.
  - intros I. apply in_map_iff in I as (y & E & Iy).
    apply Nin. rewrite <- (Inj y x); [assumption|now right|now left|assumption].
  - apply IH; [|assumption]. intros a b Ia Ib. apply Inj; now right.
Qed.

Lemma uuidToString_inj (a b : list byte) :
  length a = 16%nat -> length b = 16%nat ->
  Uuid.uuidToString a = Uuid.uuidToString b -> a = b.
Proof.
  intros La Lb E. rewrite <- (Uuid.stringToUUID_uuidToString a La).
  rewrite E. now apply Uuid.stringToUUID_uuidToString.
Qed.

(** X25.  Created domains survive a restart.
    On a machine without a domains database, [initDomainStorage] followed by
    any sequence of fewer than [2^30] [createDomain] calls with pairwise
    different hostnames, pairwise different generated domain ids and storage
    ids, timestamps in [0, 2^53) and hostnames and project ids that survive
    the text encoder, succeeds and returns the domains built from the
    inputs.  A new process that runs [initDomainStorage] over the files left
    behind lists exactly these domains and answers every lookup by id and by
    hostname as the first process did: each created domain is found under
    its id and under its hostname. *)
Theorem created_domains_survive_restart (calls : list creation) (fs : Store.filesystem) :
  Store.fs_read fs domainsDbPath = None ->
  Forall acceptable calls ->
  NoDup (map (fun c => c_hostname (input c)) calls) ->
  NoDup (map (fun c => Uuid.generateUUID (random_id c)) calls) ->
  NoDup (map (fun c => Uuid.generateUUID (random_record c)) calls) ->
  Z.of_nat (length calls) < 2 ^ 30 ->
  exists s0 s s',
    initDomainStorage (boot fs) = Ok s0
    /\ createAll calls s0 = Ok (map domain_of calls, s)
    /\ initDomainStorage (boot (files s)) = Ok s'
    /\ (forall d, In d (getAllDomains s') <-> In d (map domain_of calls))
    /\ (forall d, In d (getAllDomains s) <-> In d (map domain_of calls))
    /\ (forall i, getDomainById s' i = getDomainById s i)
    /\ (forall h, getDomainByHostname s' h = getDomainByHostname s h)
    /\ Forall (fun d => getDomainById s' (id d) = Some d
                        /\ getDomainByHostname s' (hostname d) = Some d)
              (map domain_of calls).
Proof.
  intros Hf A Nh Ni Nr B.
  destruct (initDomainStorage_new fs Hf) as (s0 & I0 & Sy0 & R0).
  destruct (createAll_synced calls s0 [] [] Sy0 A) as (s & data & Ca & Sy).
  - cbn [app]. rewrite map_map. exact Nh.
  - cbn [app]. rewrite map_map. cbn [domain_of created id].
    rewrite <- (map_map (fun c => Uuid.generateUUID (random_id c)) Uuid.uuidToString).
    apply NoDup_map_in; [|exact Ni].
    intros a b Ia Ib. apply in_map_iff in Ia as (ca & <- & _).
    apply in_map_iff in Ib as (cb & <- & _).
    apply uuidToString_inj; apply Uuid.generateUUID_length.
  - exact Nr.
  - intros c _. rewrite R0. intros [].
  - cbn [length]. change (2 ^ 63) with (2 ^ 31 * 2 ^ 32). change (2 ^ 30) with 1073741824 in B.
    change (2 ^ 31) with 2147483648. lia.
  - cbn [app] in Sy.
    destruct (restart_synced s _ data Sy) as (s' & Rs & H').
    pose proof Sy as (_ & _ & _ & _ & _ & _ & H & _).
    destruct (holds_all s' _ H') as [All' Get']. destruct (holds_all s _ H) as [All _].
    destruct (holds_same _ _ _ H' H) as [Ei Eh].
    exists s0, s, s'. repeat split; try assumption.
    + now apply All'.
    + now apply All'.
    + now apply All.
    + now apply All.
    + apply Forall_forall. exact Get'.
Qed.

Definition two_creations : list creation :=
  [{| now := 1700000000000; random_id := Store.sample_random 1;
      random_record := Store.sample_random 2; input := a_test |};
   {| now := 1700000000001; random_id := Store.sample_random 3;
      random_record := Store.sample_random 4;
      input := {| c_hostname := str "b.test"; c_projectId := str "p1" |} |}].

Lemma created_domains_survive_restart_witness :
  exists s0 s s',
    initDomainStorage (boot []) = Ok s0
    /\ createAll two_creations s0 = Ok (map domain_of two_creations, s)
    /\ initDomainStorage (boot (files s)) = Ok s'
    /\ (forall d, In d (getAllDomains s') <-> In d (map domain_of two_creations))
    /\ (forall d, In d (getAllDomains s) <-> In d (map domain_of two_creations))
    /\ (forall i, getDomainById s' i = getDomainById s i)
    /\ (forall h, getDomainByHostname s' h = getDomainByHostname s h)
    /\ Forall (fun d => getDomainById s' (id d) = Some d
                        /\ getDomainByHostname s' (hostname d) = Some d)
              (map domain_of two_creations).
Proof.
  apply (created_domains_survive_restart two_creations []).
  - reflexivity.
  - repeat constructor; cbn; lia.
  - constructor; [|constructor; [intros []|constructor]].
    intros [H|[]]. discriminate H.
  - constructor; [|constructor; [intros []|constructor]].
    vm_compute. intros [H|[]]. discriminate H.
  - constructor; [|constructor; [intros []|constructor]].
    vm_compute. intros [H|[]]. discriminate H.
  - reflexivity.
Defined.

(** *** Updates and deletions in memory *)

Lemma eqb_same (k : jsstring) : Codec.jsstring_eqb k k = true.
Proof. now apply Codec.jsstring_eqb_eq. Qed.

Lemma eqb_other (k k' : jsstring) : k <> k' -> Codec.jsstring_eqb k k' = false.
Proof.
  intros N. destruct (Codec.jsstring_eqb k k') eqn:E; [|reflexivity].
  now apply Codec.jsstring_eqb_eq in E.
Qed.

Lemma map_get_delete {V : Type} (m : Map V) (k k' : jsstring) :
  NoDup (map fst m) ->
  map_get (map_delete m k) k' = if Codec.jsstring_eqb k k' then None else map_get m k'.
Proof.
  induction m as [|[k0 v0] m IH]; cbn [map_delete map_get map fst]; intros N.
  - now destruct (Codec.jsstring_eqb k k').
  - apply NoDup_cons_iff in N as [Nin N].
    destruct (Codec.jsstring_eqb k0 k) eqn:E0.
    + apply Codec.jsstring_eqb_eq in E0. subst k0.
      destruct (Codec.jsstring_eqb k k') eqn:E1; [|reflexivity].
      apply Codec.jsstring_eqb_eq in E1. subst k'.
      destruct (map_get m k) as [v|] eqn:G; [|reflexivity].
      exfalso. apply Nin. apply (map_get_In _ _ _ N) in G.
      now apply (in_map fst) in G.
    + cbn [map_get]. rewrite (IH N).
      destruct (Codec.jsstring_eqb k0 k') eqn:E1; [|reflexivity].
      apply Codec.jsstring_eqb_eq in E1. subst k0.
      destruct (Codec.jsstring_eqb k k') eqn:E2; [|reflexivity].
      apply Codec.jsstring_eqb_eq in E2. subst k'. rewrite eqb_same in E0. discriminate.
Qed.

(** The domain [updateDomain] builds from the stored one and the input. *)
Definition updated (now : Z) (existing : Domain) (input : DomainUpdateInput) : Domain :=
  {| id := id existing;
     hostname := match u_hostname input with Some h => h | None => hostname existing end;
     projectId := match u_projectId input with Some p => p | None => projectId existing end;
     sslEnabled := match u_sslEnabled input with Some b => b | None => sslEnabled existing end;
     createdAt := createdAt existing;
     updatedAt := now |}.

Lemma update_store (st : DomainStore) (P : Domain -> Prop) (d u : Domain)
      (by_host : Map Domain) :
  holds st P -> unique P -> P d -> id u = id d ->
  (by_host = byHostname st /\ hostname u = hostname d)
  \/ (by_host = map_delete (byHostname st) (hostname d)
      /\ hostname u <> hostname d
      /\ map_get (byHostname st) (hostname u) = None) ->
  map_get (map_set (domains st) (id u) u) (id d) = Some u
  /\ map_get (map_set by_host (hostname u) u) (hostname u) = Some u
  /\ (hostname u <> hostname d ->
      map_get (map_set by_host (hostname u) u) (hostname d) = None)
  /\ forall x, P x -> x <> d ->
               map_get (map_set (domains st) (id u) u) (id x) = Some x
               /\ map_get (map_set by_host (hostname u) u) (hostname x) = Some x.
Proof.
  intros (H1 & H2 & N1 & N2) U Pd Ei By.
  split; [now rewrite map_get_set, Ei, eqb_same|].
  split; [now rewrite map_get_set, eqb_same|]. split.
  - intros Nh. rewrite map_get_set, (eqb_other _ _ Nh).
    destruct By as [[_ E]|(-> & _ & _)]; [contradiction|].
    now rewrite (map_get_delete _ _ _ N2), eqb_same.
  - intros x Px Nx.
    assert (Ni : id d <> id x) by (intros E; apply Nx; symmetry; apply U; auto).
    assert (Nh : hostname d <> hostname x)
      by (intros E; apply Nx; symmetry; apply U; auto).
    rewrite !map_get_set, Ei, (eqb_other _ _ Ni). split; [apply H1; now split|].
    destruct By as [(-> & E)|(-> & Nu & Free)].
    + rewrite E, (eqb_other _ _ Nh). apply H2. now split.
    + assert (Nx' : hostname u <> hostname x).
      { intros E. assert (G : map_get (byHostname st) (hostname u) = Some x)
          by (apply H2; split; [assumption|now symmetry]).
        congruence. }
      rewrite (eqb_other _ _ Nx'), (map_get_delete _ _ _ N2), (eqb_other _ _ Nh).
      apply H2. now split.
Qed.

Ltac storage_calls Up :=
  repeat match type of Up with
         | bind ?m _ = Ok _ =>
             let r := fresh "r" in
             destruct m as [r|]; cbn [bind] in Up; [|discriminate Up];
             try (destruct r as [[? ?] ?]); try (destruct r as [? ?])
         end.

(** X26.  In a collection where every domain is filed
    under its own id and its own hostname, and no two share either, a call
    of [updateDomain] that returns, with an input whose hostname is not the
    empty string, returns the stored domain with the given fields replaced
    and the update time set; afterwards the domain is found under its id
    and under its hostname, its former hostname finds nothing when the
    hostname changed, and every other domain is found as before. *)
Theorem updateDomain_lookups (now : Z) (random_record : list byte) (i : jsstring)
        (input : DomainUpdateInput) (s s' : state) (d' : Domain) (P : Domain -> Prop) :
  holds (store s) P -> unique P ->
  u_hostname input <> Some [] ->
  updateDomain now random_record i input s = Ok (d', s') ->
  exists d,
    P d /\ id d = i /\ d' = updated now d input
    /\ getDomainById s' i = Some d'
    /\ getDomainByHostname s' (hostname d') = Some d'
    /\ (hostname d' <> hostname d -> getDomainByHostname s' (hostname d) = None)
    /\ forall x, P x -> x <> d ->
                 getDomainById s' (id x) = Some x
                 /\ getDomainByHostname s' (hostname x) = Some x.
Proof.
  intros H U Ne Up. pose proof H as (H1 & H2 & N1 & N2). unfold updateDomain in Up.
  destruct (storage s) as [sto|]; [|discriminate].
  destruct (map_get (domains (store s)) i) as [d|] eqn:G; [|discriminate].
  apply H1 in G as [Pd Hi]. exists d.
  fold (updated now d input) in Up. set (u := updated now d input) in *.
  assert (Eu : id u = id d) by reflexivity.
  assert (Fin : forall by_host,
            (by_host = byHostname (store s) /\ hostname u = hostname d)
            \/ (by_host = map_delete (byHostname (store s)) (hostname d)
                /\ hostname u <> hostname d
                /\ map_get (byHostname (store s)) (hostname u) = None) ->
            forall sto' fs',
              Ok (u, {| storage := Some sto';
                        store := {| domains := map_set (domains (store s)) (id u) u;
                                    byHostname := map_set by_host (hostname u) u |};
                        files := fs' |}) = Ok (d', s') ->
              P d /\ id d = i /\ d' = u
              /\ getDomainById s' i = Some d'
              /\ getDomainByHostname s' (hostname d') = Some d'
              /\ (hostname d' <> hostname d -> getDomainByHostname s' (hostname d) = None)
              /\ forall x, P x -> x <> d ->
                           getDomainById s' (id x) = Some x
                           /\ getDomainByHostname s' (hostname x) = Some x).
  { intros by_host By sto' fs' E. injection E as <- <-.
    destruct (update_store _ P d u by_host H U Pd Eu By) as (A & B & C & D).
    unfold getDomainById, getDomainByHostname. cbn [store domains byHostname].
    rewrite <- Hi. repeat split; try assumption; now apply D. }
  destruct (u_hostname input) as [[|c h]|] eqn:Ei; [now destruct Ne| |].
  - cbn [nonempty] in Up.
    assert (Hu : hostname u = c :: h) by (unfold u, updated; now rewrite Ei).
    destruct (Codec.jsstring_eqb (c :: h) (hostname d)) eqn:Eh; cbn [negb] in Up.
    + apply Codec.jsstring_eqb_eq in Eh. cbn [bind] in Up. storage_calls Up.
      assert (Same : hostname u = hostname d) by congruence.
      exact (Fin _ (or_introl (conj eq_refl Same)) _ _ Up).
    + unfold map_has in Up.
      destruct (map_get (byHostname (store s)) (c :: h)) eqn:Gh; [discriminate|].
      cbn [bind] in Up. storage_calls Up.
      assert (Nu : hostname u <> hostname d).
      { rewrite Hu. intros E. rewrite E, eqb_same in Eh. discriminate. }
      rewrite <- Hu in Gh.
      exact (Fin _ (or_intror (conj eq_refl (conj Nu Gh))) _ _ Up).
  - cbn [nonempty bind] in Up. storage_calls Up.
    assert (Same : hostname u = hostname d) by (unfold u, updated; now rewrite Ei).
    exact (Fin _ (or_introl (conj eq_refl Same)) _ _ Up).
Qed.

(** X27.  In a collection where every domain is filed
    under its own id and its own hostname, and no two share either, a call
    of [deleteDomain] that returns either returns false for an id no
    domain has, leaving the state as it is, or returns true; then the id and
    the hostname of the deleted domain find nothing and every other domain
    is found as before. *)
Theorem deleteDomain_lookups (i : jsstring) (s s' : state) (deleted : bool)
        (P : Domain -> Prop) :
  holds (store s) P -> unique P ->
  deleteDomain i s = Ok (deleted, s') ->
  (deleted = false /\ s' = s /\ forall d, P d -> id d <> i)
  \/ (deleted = true
      /\ exists d,
           P d /\ id d = i
           /\ getDomainById s' i = None
           /\ getDomainByHostname s' (hostname d) = None
           /\ forall x, P x -> x <> d ->
                        getDomainById s' (id x) = Some x
                        /\ getDomainByHostname s' (hostname x) = Some x).
Proof.
  intros (H1 & H2 & N1 & N2) U De. unfold deleteDomain in De.
  destruct (storage s) as [sto|]; [|discriminate].
  destruct (map_get (domains (store s)) i) as [d|] eqn:G.
  - right. apply H1 in G as [Pd Hi]. storage_calls De. injection De as <- <-.
    split; [reflexivity|]. exists d.
    unfold getDomainById, getDomainByHostname. cbn [store domains byHostname].
    split; [exact Pd|]. split; [exact Hi|].
    split; [now rewrite (map_get_delete _ _ _ N1), eqb_same|].
    split; [now rewrite (map_get_delete _ _ _ N2), eqb_same|].
    intros x Px Nx. split.
    + rewrite (map_get_delete _ _ _ N1), eqb_other; [apply H1; now split|].
      intros E. apply Nx. symmetry. apply U; auto. left. congruence.
    + rewrite (map_get_delete _ _ _ N2), eqb_other; [apply H2; now split|].
      intros E. apply Nx. symmetry. apply U; auto.
  - left. injection De as <- <-. split; [reflexivity|]. split; [reflexivity|].
    intros d Pd E. assert (G' : map_get (domains (store s)) i = Some d)
      by (apply H1; now split).
    congruence.
Qed.

(** One domain in a new collection. *)
Definition one_domain : Domain :=
  created 1700000000000 (Store.sample_random 1) a_test.

Definition one_domain_state : state :=
  Eval vm_compute in
    match (s <- initDomainStorage (boot []) ;;
           createDomain 1700000000000 (Store.sample_random 1)
             (Store.sample_random 3) a_test s) with
    | Ok (_, s) => s
    | Err _ => boot []
    end.

Lemma one_domain_holds :
  holds (store one_domain_state) (fun d => d = one_domain)
  /\ unique (fun d => d = one_domain).
Proof.
  split; [|intros d1 d2 -> ->; reflexivity].
  apply (holds_iff _ (fun d => False \/ d = one_domain)); [intros d; tauto|].
  apply (holds_add _ _ one_domain holds_empty).
  intros d1 d2 [[]| ->] [[]| ->] _. reflexivity.
Qed.

Definition to_b_test : DomainUpdateInput :=
  {| u_hostname := Some (str "b.test"); u_projectId := None; u_sslEnabled := None |}.

Lemma updateDomain_lookups_witness :
  exists d' s',
    updateDomain 1700000000001 (Store.sample_random 2) (id one_domain) to_b_test
      one_domain_state = Ok (d', s')
    /\ d' = updated 1700000000001 one_domain to_b_test
    /\ getDomainById s' (id one_domain) = Some d'
    /\ getDomainByHostname s' (str "b.test") = Some d'
    /\ getDomainByHostname s' (str "a.test") = None.
Proof.
  destruct (updateDomain 1700000000001 (Store.sample_random 2) (id one_domain) to_b_test
              one_domain_state) as [[d' s']|e] eqn:E; [|vm_compute in E; discriminate E].
  assert (Ne : u_hostname to_b_test <> Some []) by (cbn; discriminate).
  destruct (updateDomain_lookups _ _ _ _ _ _ _ _ (proj1 one_domain_holds)
              (proj2 one_domain_holds) Ne E)
    as (d & -> & _ & -> & Gi & Gh & Old & _).
  exists (updated 1700000000001 one_domain to_b_test), s'.
  split; [reflexivity|]. split; [reflexivity|]. split; [exact Gi|].
  split; [exact Gh|]. apply Old. discriminate.
Defined.

Lemma deleteDomain_lookups_witness :
  exists s',
    deleteDomain (id one_domain) one_domain_state = Ok (true, s')
    /\ getDomainById s' (id one_domain) = None
    /\ getDomainByHostname s' (str "a.test") = None.
Proof.
  destruct (deleteDomain (id one_domain) one_domain_state) as [[b s']|e] eqn:E;
    [|vm_compute in E; discriminate E].
  destruct (deleteDomain_lookups _ _ _ _ _ (proj1 one_domain_holds)
              (proj2 one_domain_holds) E)
    as [(_ & _ & No)|(-> & d & -> & _ & Gi & Gh & _)].
  - now destruct (No one_domain eq_refl).
  - exists s'. split; [reflexivity|]. split; [exact Gi|exact Gh].
Defined.

End Domains.

(** ** processors/proxyRouter.ts: forwarding headers *)

Module Router.
Local Open Scope string_scope.

(** [Headers]: one value per lower-cased name. *)
Definition Headers : Type := list (string * string).

Definition lower_ascii (a : ascii) : ascii :=
  let n := nat_of_ascii a in
  if ((65 <=? n) && (n <=? 90))%nat then ascii_of_nat (n + 32) else a.

Fixpoint lower (s : string) : string :=
  match s with
  | EmptyString => EmptyString
  | String a rest => String (lower_ascii a) (lower rest)
  end.

Fixpoint lookup (h : Headers) (name : string) : option string :=
  match h with
  | [] => None
  | (n, v) :: rest => if String.eqb n name then Some v else lookup rest name
  end.

(** [headers.get(name)]. *)
Definition headers_get (h : Headers) (name : string) : option string :=
  lookup h (lower name).

Fixpoint replace (h : Headers) (name value : string) : Headers :=
  match h with
  | [] => [(name, value)]
  | (n, v) :: rest =>
      if String.eqb n name then (n, value) :: rest else (n, v) :: replace rest name value
  end.

(** [headers.set(name, value)]. *)
Definition headers_set (h : Headers) (name value : string) : Headers :=
  replace h (lower name) value.

(** The parts of [new URL(request.url)] the router reads. *)
Record URL : Type := {
  protocol : string;   (* with its colon: "https:" *)
  host : string;       (* hostname, and port when not the default *)
  hostname : string;
  pathname : string;
  search : string
}.

Record Request : Type := {
  url : URL;
  method : string;
  headers : Headers
}.

(** [s.split(",")[0]]. *)
Fixpoint before_comma (s : string) : string :=
  match s with
  | EmptyString => EmptyString
  | String a rest =>
      if Ascii.eqb a "," then EmptyString else String a (before_comma rest)
  end.

(** The white space [String.prototype.trim] removes, among the characters
    a header value can hold. *)
Definition is_space (a : ascii) : bool :=
  let n := nat_of_ascii a in
  ((9 <=? n) && (n <=? 13) || (n =? 32) || (n =? 160))%nat.

Fixpoint trim_start (s : string) : string :=
  match s with
  | EmptyString => EmptyString
  | String a rest => if is_space a then trim_start rest else s
  end.

Fixpoint trim_end (s : string) : string :=
  match s with
  | EmptyString => EmptyString
  | String a rest =>
      match trim_end rest with
      | EmptyString => if is_space a then EmptyString else String a EmptyString
      | t => String a t
      end
  end.

Definition trim (s : string) : string := trim_end (trim_start s).

(** [s.slice(0, -1)]. *)
Fixpoint drop_last (s : string) : string :=
  match s with
  | EmptyString => EmptyString
  | String a EmptyString => EmptyString
  | String a rest => String a (drop_last rest)
  end.

Definition getClientIP (request : Request) : string :=
  match headers_get (headers request) "x-forwarded-for" with
  | Some forwardedFor =>
      if String.eqb forwardedFor "" then "unknown"
      else trim (before_comma forwardedFor)
  | None => "unknown"
  end.

(** The headers [forwardToUnixSocket] passes to [fetch]. *)
Definition forwardHeaders (request : Request) : Headers :=
  let h := headers request in
  let h := headers_set h "X-Forwarded-For" (getClientIP request) in
  let h := headers_set h "X-Forwarded-Proto" (drop_last (protocol (url request))) in
  headers_set h "X-Forwarded-Host" (host (url request)).

(** The URL [fetch] is given. *)
Definition forwardUrl (request : Request) : string :=
  "http://localhost" ++ pathname (url request) ++ search (url request).

(** *** The client address as the specification words it *)

(** An inbound request together with the address of the socket peer. *)
Record Inbound : Type := {
  request : Request;
  peer : option string
}.

Definition specified_client_ip (c : Inbound) : string :=
  match headers_get (headers (request c)) "x-forwarded-for" with
  | Some forwardedFor => trim (before_comma forwardedFor)
  | None =>
      match peer c with
      | Some address => address
      | None => "unknown"
      end
  end.

Definition direct_request : Inbound :=
  {| request := {| url := {| protocol := "https:"; host := "a.test";
                             hostname := "a.test"; pathname := "/";
                             search := "" |};
                   method := "GET";
                   headers := [("accept", "*/*")] |};
     peer := Some "203.0.113.7" |}.

(** A request that carries no X-Forwarded-For header is forwarded with
    "unknown", whatever the socket peer is. *)
Lemma forwarded_for_ignores_peer :
  headers_get (forwardHeaders (request direct_request)) "X-Forwarded-For"
  = Some "unknown"
  /\ specified_client_ip direct_request = "203.0.113.7"
  /\ headers_get (forwardHeaders (request direct_request)) "X-Forwarded-For"
     <> Some (specified_client_ip direct_request).
Proof. repeat split. discriminate. Qed.

(** *** What is forwarded *)

Lemma lookup_replace_same (h : Headers) (name value : string) :
  lookup (replace h name value) name = Some value.
Proof.
  induction h as [|[n v] rest IH]; cbn [replace lookup].
  - now rewrite String.eqb_refl.
  - destruct (String.eqb n name) eqn:E; cbn [lookup]; rewrite E; [reflexivity|exact IH].
Qed.

Lemma lookup_replace_other (h : Headers) (name other value : string) :
  name <> other -> lookup (replace h name value) other = lookup h other.
Proof.
  intros N. induction h as [|[n v] rest IH]; cbn [replace lookup].
  - destruct (String.eqb_spec name other); [contradiction|reflexivity].
  - destruct (String.eqb_spec n name) as [E|NE]; cbn [lookup].
    + subst n. destruct (String.eqb_spec name other); [contradiction|reflexivity].
    + destruct (String.eqb n other); [reflexivity|exact IH].
Qed.

(** C8 (amended).  For every request the router forwards, X-Forwarded-For
    is set to the leftmost comma-separated entry of the inbound
    X-Forwarded-For header, trimmed, when that header is present and not
    empty, and to "unknown" otherwise (the socket peer is not consulted);
    X-Forwarded-Host is set to the inbound host and X-Forwarded-Proto to
    the inbound scheme; every other header is passed on as it came. *)
Theorem forwardHeaders_spec (r : Request) :
  headers_get (forwardHeaders r) "X-Forwarded-For"
  = Some match headers_get (headers r) "X-Forwarded-For" with
         | Some "" | None => "unknown"
         | Some inbound => trim (before_comma inbound)
         end
  /\ headers_get (forwardHeaders r) "X-Forwarded-Host" = Some (host (url r))
  /\ headers_get (forwardHeaders r) "X-Forwarded-Proto"
     = Some (drop_last (protocol (url r)))
  /\ forall name,
       lower name <> "x-forwarded-for" -> lower name <> "x-forwarded-host" ->
       lower name <> "x-forwarded-proto" ->
       headers_get (forwardHeaders r) name = headers_get (headers r) name.
Proof.
  unfold forwardHeaders, headers_set, headers_get.
  change (lower "X-Forwarded-For") with "x-forwarded-for".
  change (lower "X-Forwarded-Host") with "x-forwarded-host".
  change (lower "X-Forwarded-Proto") with "x-forwarded-proto".
  repeat split.
  - rewrite !lookup_replace_other by discriminate.
    rewrite lookup_replace_same. f_equal.
    unfold getClientIP, headers_get.
    change (lower "x-forwarded-for") with "x-forwarded-for".
    destruct (lookup (headers r) "x-forwarded-for") as [v|]; [|reflexivity].
    destruct v; reflexivity.
  - apply lookup_replace_same.
  - rewrite lookup_replace_other by discriminate. apply lookup_replace_same.
  - intros name N1 N2 N3.
    rewrite !lookup_replace_other by (intros E; symmetry in E; contradiction).
    reflexivity.
Qed.

Definition proxied_request : Request :=
  {| url := {| protocol := "https:"; host := "a.test:8443"; hostname := "a.test";
               pathname := "/x"; search := "?q=1" |};
     method := "GET";
     headers := [("x-forwarded-for", " 198.51.100.4 , 10.0.0.1");
                 ("accept", "*/*")] |}.

Lemma forwardHeaders_spec_witness :
  forwardHeaders proxied_request
  = [("x-forwarded-for", "198.51.100.4"); ("accept", "*/*");
     ("x-forwarded-proto", "https"); ("x-forwarded-host", "a.test:8443")]
  /\ headers_get (forwardHeaders proxied_request) "Accept" = Some "*/*".
Proof.
  split; [reflexivity|].
  destruct (forwardHeaders_spec proxied_request) as (_ & _ & _ & H).
  rewrite H by discriminate. reflexivity.
Defined.

(** *** The forwarded client address *)

Fixpoint has_comma (s : string) : bool :=
  match s with
  | EmptyString => false
  | String a rest => Ascii.eqb a "," || has_comma rest
  end.

(** No white space at the start. *)
Definition starts_clean (s : string) : bool :=
  match s with
  | EmptyString => true
  | String a _ => negb (is_space a)
  end.

(** No white space at the end. *)
Fixpoint ends_clean (s : string) : bool :=
  match s with
  | EmptyString => true
  | String a EmptyString => negb (is_space a)
  | String _ rest => ends_clean rest
  end.

Lemma before_comma_none (s : string) : has_comma (before_comma s) = false.
Proof.
  induction s as [|a s IH]; cbn [before_comma]; [reflexivity|].
  destruct (Ascii.eqb a ",") eqn:E; [reflexivity|]. cbn [has_comma]. now rewrite E.
Qed.

Lemma trim_start_comma (s : string) :
  has_comma s = false -> has_comma (trim_start s) = false.
Proof.
  induction s as [|a s IH]; cbn [trim_start has_comma]; [reflexivity|].
  intros H. apply orb_false_iff in H as [Ha Hs].
  destruct (is_space a); [now apply IH|]. cbn [has_comma]. now rewrite Ha, Hs.
Qed.

Lemma trim_end_comma (s : string) :
  has_comma s = false -> has_comma (trim_end s) = false.
Proof.
  induction s as [|a s IH]; cbn [trim_end has_comma]; [reflexivity|].
  intros H. apply orb_false_iff in H as [Ha Hs]. specialize (IH Hs).
  destruct (trim_end s) as [|b t].
  - destruct (is_space a); [reflexivity|]. cbn [has_comma]. now rewrite Ha.
  - cbn [has_comma] in *. now rewrite Ha, IH.
Qed.

Lemma trim_start_clean (s : string) : starts_clean (trim_start s) = true.
Proof.
  induction s as [|a s IH]; cbn [trim_start]; [reflexivity|].
  destruct (is_space a) eqn:E; [exact IH|]. cbn [starts_clean]. now rewrite E.
Qed.

Lemma trim_end_starts (s : string) :
  starts_clean s = true -> starts_clean (trim_end s) = true.
Proof.
  destruct s as [|a s]; [reflexivity|]. cbn [starts_clean trim_end]. intros H.
  destruct (trim_end s); [|exact H].
  destruct (is_space a) eqn:Ea; [discriminate H|]. cbn [starts_clean]. now rewrite Ea.
Qed.

Lemma trim_end_clean (s : string) : ends_clean (trim_end s) = true.
Proof.
  induction s as [|a s IH]; cbn [trim_end]; [reflexivity|].
  destruct (trim_end s) as [|b t] eqn:E.
  - destruct (is_space a) eqn:Ea; [reflexivity|]. cbn [ends_clean]. now rewrite Ea.
  - exact IH.
Qed.

Lemma trim_clean (s : string) :
  starts_clean s = true -> ends_clean s = true -> trim s = s.
Proof.
  intros Hs He. unfold trim.
  assert (T : trim_start s = s).
  { destruct s as [|a s]; [reflexivity|]. cbn [starts_clean trim_start] in *.
    now destruct (is_space a). }
  rewrite T. clear Hs T.
  induction s as [|a s IH]; [reflexivity|]. cbn [trim_end].
  destruct s as [|b s].
  - cbn [trim_end ends_clean] in *. now destruct (is_space a).
  - rewrite IH by exact He. reflexivity.
Qed.

(** X28.  The client address [getClientIP] returns,
    which the router forwards as X-Forwarded-For, is a single entry
    whatever the inbound header holds: it contains no comma, it has no
    white space at its start or at its end, and trimming it again changes
    nothing. *)
Theorem getClientIP_single_entry (r : Request) :
  has_comma (getClientIP r) = false
  /\ starts_clean (getClientIP r) = true
  /\ ends_clean (getClientIP r) = true
  /\ trim (getClientIP r) = getClientIP r.
Proof.
  assert (H : has_comma (getClientIP r) = false
              /\ starts_clean (getClientIP r) = true
              /\ ends_clean (getClientIP r) = true).
  { unfold getClientIP.
    destruct (headers_get (headers r) "x-forwarded-for") as [v|]; [|repeat split].
    destruct (String.eqb v ""); [repeat split|]. unfold trim. split; [|split].
    - apply trim_end_comma, trim_start_comma, before_comma_none.
    - apply trim_end_starts, trim_start_clean.
    - apply trim_end_clean. }
  destruct H as (C & S & E). repeat split; try assumption. now apply trim_clean.
Qed.

End Router.

(** ** processors/processManager.ts: starting a project

    The project collection and the process table are module-level maps;
    the child process and its socket belong to the environment: whether
    [Bun.spawn] delivers a child, what [Date.now()] reads, and whether
    [access(socketPath)] succeeds at a given moment of the poll are inputs.
    [startProject] is asynchronous: at each [await] the event loop runs
    whatever else is due - the exit handler of a child, a timer, another
    request - and that code works on the same maps.  What it does to them
    while [startProject] waits is an input too. *)

Module Supervisor.
Local Open Scope string_scope.

Inductive ProjectStatus : Type :=
| status_running
| status_stopped
| status_error
| status_starting.

Record Project : Type := {
  id : string;
  name : string;
  binaryPath : string;
  socketPath : string;
  status : ProjectStatus;
  pid : option Z;
  createdAt : Z;
  updatedAt : Z
}.

Record ProcessInfo : Type := {
  projectId : string;
  child_pid : Z;
  child_socketPath : string;
  startedAt : Z
}.

Record state : Type := {
  projects : list (string * Project);        (* the store of projectLoader.ts *)
  processes : list (string * ProcessInfo);   (* the process table *)
  socket_files : list string;                (* socket paths present on disk *)
  warnings : list string;                    (* what [log.warn] was given *)
  restarts : list string;                    (* restart timers set and not yet fired *)
  processStartTimeout : Z                    (* [config.processStartTimeout] *)
}.

Fixpoint find {V : Type} (m : list (string * V)) (k : string) : option V :=
  match m with
  | [] => None
  | (k', v) :: rest => if String.eqb k' k then Some v else find rest k
  end.

Fixpoint put {V : Type} (m : list (string * V)) (k : string) (v : V)
  : list (string * V) :=
  match m with
  | [] => [(k, v)]
  | (k', v') :: rest =>
      if String.eqb k' k then (k', v) :: rest else (k', v') :: put rest k v
  end.

(** [Map.prototype.delete]. *)
Fixpoint del {V : Type} (m : list (string * V)) (k : string) : list (string * V) :=
  match m with
  | [] => []
  | (k', v) :: rest => if String.eqb k' k then del rest k else (k', v) :: del rest k
  end.

Definition getProjectById (s : state) (i : string) : option Project :=
  find (projects s) i.

Definition getProcessByProjectId (s : state) (i : string) : option ProcessInfo :=
  find (processes s) i.

Definition with_projects (s : state) (p : list (string * Project)) : state :=
  {| projects := p; processes := processes s; socket_files := socket_files s;
     warnings := warnings s; restarts := restarts s;
     processStartTimeout := processStartTimeout s |}.

Definition with_processes (s : state) (p : list (string * ProcessInfo)) : state :=
  {| projects := projects s; processes := p; socket_files := socket_files s;
     warnings := warnings s; restarts := restarts s;
     processStartTimeout := processStartTimeout s |}.

(** [log.warn(message, ...)]. *)
Definition warn (message : string) (s : state) : state :=
  {| projects := projects s; processes := processes s;
     socket_files := socket_files s;
     warnings := (warnings s ++ [message])%list; restarts := restarts s;
     processStartTimeout := processStartTimeout s |}.

(** [updateProjectStatus(id, status, pid)] of projectLoader.ts; [now] is
    what its [Date.now()] reads.  The function is declared async but awaits
    nothing: its effect is complete when the call returns. *)
Definition updateProjectStatus (now : Z) (i : string) (st : ProjectStatus)
           (p : option Z) (s : state) : result state :=
  match find (projects s) i with
  | None => Err NotFound
  | Some project =>
      let project' :=
        {| id := id project; name := name project;
           binaryPath := binaryPath project; socketPath := socketPath project;
           status := st; pid := p;
           createdAt := createdAt project; updatedAt := now |} in
      Ok (with_projects s (put (projects s) i project'))
  end.

(** [cleanupSocket]: unlink, errors ignored. *)
Definition cleanupSocket (path : string) (s : state) : state :=
  {| projects := projects s; processes := processes s;
     socket_files := filter (fun p => negb (String.eqb p path)) (socket_files s);
     warnings := warnings s; restarts := restarts s;
     processStartTimeout := processStartTimeout s |}.

(** The loop of [waitForSocket]: [access elapsed] tells whether the socket
    path exists at the poll made [elapsed] ms into the wait. *)
Function waitForSocket_from (maxWait : Z) (access : Z -> bool) (elapsed : Z)
  {measure (fun e => Z.to_nat (maxWait - e)) elapsed} : bool :=
  if (elapsed <? maxWait)%Z then
    if access elapsed then true
    else waitForSocket_from maxWait access (elapsed + 100)%Z
  else false.
Proof.
  intros maxWait access elapsed Hlt Hno. apply Z.ltb_lt in Hlt. lia.
Defined.

Definition waitForSocket (access : Z -> bool) (s : state) : bool :=
  waitForSocket_from (processStartTimeout s) access 0.

Definition PROCESS_EXITED : string := "Process exited unexpectedly".

(** [handleProcessExit(projectId, ...)], the [onExit] handler that
    [startProject] gives to [Bun.spawn]; [now] is what [Date.now()] reads in
    [updateProjectStatus], whose failure is caught and logged as an error.
    The restart it schedules with [setTimeout(..., 5000)] is recorded in
    [restarts]. *)
Definition handleProcessExit (now : Z) (i : string) (s : state) : state :=
  match find (processes s) i with
  | None => s
  | Some _ =>
      let s := warn PROCESS_EXITED s in
      let s := with_processes s (del (processes s) i) in
      let s := match updateProjectStatus now i status_error None s with
               | Ok s' => s'
               | Err _ => s
               end in
      {| projects := projects s; processes := processes s;
         socket_files := socket_files s; warnings := warnings s;
         restarts := (restarts s ++ [i])%list;
         processStartTimeout := processStartTimeout s |}
  end.

(** The test of the restart timer when it fires: the project is restarted
    only if it is still there with the status error. *)
Definition restart_due (i : string) (s : state) : bool :=
  match getProjectById s i with
  | Some project =>
      match status project with
      | status_error => true
      | _ => false
      end
  | None => false
  end.

(** The points at which [startProject] waits. *)
Inductive wait : Type :=
| awaiting_starting    (* [await updateProjectStatus(projectId, "starting")] *)
| awaiting_cleanup     (* [await cleanupSocket(project.socketPath)] *)
| awaiting_socket      (* [await waitForSocket(project.socketPath)] *)
| awaiting_running.    (* [await updateProjectStatus(projectId, "running", pid)] *)

(** One run of [startProject] as its environment makes it: the three
    readings of the clock, the pid of the child that [Bun.spawn] delivers
    ([None] when it throws), the socket path as the polls find it, and what
    the code run by the event loop during each wait does to the maps.  The
    poll reads the timeout when it begins and nothing else of the state, so
    all that runs during it acts as one change made before it ends. *)
Record Run : Type := {
  starting_at : Z;
  spawned : option Z;
  started_at : Z;
  access : Z -> bool;
  running_at : Z;
  meanwhile : wait -> state -> state
}.

(** [startProject] up to the moment the poll begins: status set to
    starting, the stale socket unlinked, the child spawned and its handle
    recorded.  An error leaves the maps as they are at the throw. *)
Definition launch (r : Run) (i : string) (s : state) : result ProcessInfo * state :=
  match getProjectById s i with
  | None => (Err NotFound, s)
  | Some project =>
      match find (processes s) i with
      | Some _ => (Err AlreadyRunning, s)
      | None =>
          match updateProjectStatus (starting_at r) i status_starting None s with
          | Err e => (Err e, s)
          | Ok s =>
              let s := meanwhile r awaiting_starting s in
              let s := cleanupSocket (socketPath project) s in
              let s := meanwhile r awaiting_cleanup s in
              match spawned r with
              | None => (Err SpawnFailed, s)
              | Some child =>
                  let processInfo :=
                    {| projectId := i; child_pid := child;
                       child_socketPath := socketPath project;
                       startedAt := started_at r |} in
                  (Ok processInfo, with_processes s (put (processes s) i processInfo))
              end
          end
      end
  end.

Definition SOCKET_NOT_READY : string := "Socket not ready after timeout".

(** [startProject(projectId)]: the result, and the maps when the call
    returns or throws. *)
Definition startProject (r : Run) (i : string) (s : state) : result ProcessInfo * state :=
  match launch r i s with
  | (Err e, s) => (Err e, s)
  | (Ok processInfo, s) =>
      let socketReady := waitForSocket (access r) s in
      let s := meanwhile r awaiting_socket s in
      let s := if negb socketReady then warn SOCKET_NOT_READY s else s in
      match updateProjectStatus (running_at r) i status_running
                                (Some (child_pid processInfo)) s with
      | Err e => (Err e, s)
      | Ok s => (Ok processInfo, meanwhile r awaiting_running s)
      end
  end.

Definition status_of (s : state) (i : string) : option ProjectStatus :=
  option_map status (getProjectById s i).

(** Nothing runs while [startProject] waits. *)
Definition quiet (r : Run) : Prop := forall w s, meanwhile r w s = s.

(** What runs during a wait leaves project [i] alone: its entry and its
    handle stay as they are.  As any code of the program, it only adds to
    the log and does not change the configuration. *)
Record undisturbed (i : string) (f : state -> state) : Prop := {
  u_project : forall s, getProjectById (f s) i = getProjectById s i;
  u_process : forall s, getProcessByProjectId (f s) i = getProcessByProjectId s i;
  u_warnings : forall s, exists more, warnings (f s) = (warnings s ++ more)%list;
  u_timeout : forall s, processStartTimeout (f s) = processStartTimeout s
}.

(** *** A project whose socket never appears *)

Definition p1 : Project :=
  {| id := "p1"; name := "app"; binaryPath := "data/projects/p1";
     socketPath := "/tmp/dowe-proxy/p1.sock"; status := status_stopped;
     pid := None; createdAt := 1700000000000; updatedAt := 1700000000000 |}.

Definition one_stopped_project : state :=
  {| projects := [("p1", p1)]; processes := []; socket_files := [];
     warnings := []; restarts := []; processStartTimeout := 10000 |}.

Definition never : Z -> bool := fun _ => false.

(** The child is spawned and stays alive, its socket never appears, and
    nothing else runs. *)
Definition silent_child : Run :=
  {| starting_at := 1700000000001; spawned := Some 4242;
     started_at := 1700000000002; access := never;
     running_at := 1700000010003; meanwhile := fun _ s => s |}.

(** The socket never appears within the timeout, and the project is
    running all the same once [startProject] returns. *)
Lemma start_without_socket_counterexample :
  waitForSocket never one_stopped_project = false
  /\ exists info s',
       startProject silent_child "p1" one_stopped_project = (Ok info, s')
       /\ getProcessByProjectId s' "p1" = Some info
       /\ status_of s' "p1" = Some status_running
       /\ status_of s' "p1" <> Some status_starting.
Proof.
  split; [vm_compute; reflexivity|].
  eexists. eexists. split; [vm_compute; reflexivity|].
  split; [reflexivity|]. split; [reflexivity|discriminate].
Qed.

(** *** The child that exits while [startProject] polls *)

(** The child is spawned and exits three seconds into the poll: its exit
    handler runs during the wait. *)
Definition dying_child : Run :=
  {| starting_at := 1700000000001; spawned := Some 4242;
     started_at := 1700000000002; access := never;
     running_at := 1700000010003;
     meanwhile := fun w s =>
                    match w with
                    | awaiting_socket => handleProcessExit 1700000003002 "p1" s
                    | _ => s
                    end |}.

(** [startProject] returns the handle of the dead child, which is no
    longer in the process table; the status, set to error by the exit
    handler, is running; the restart timer finds nothing to do; and a second
    [startProject] spawns another child. *)
Example start_with_dying_child :
  exists info s',
    startProject dying_child "p1" one_stopped_project = (Ok info, s')
    /\ child_pid info = 4242
    /\ getProcessByProjectId s' "p1" = None
    /\ status_of s' "p1" = Some status_running
    /\ warnings s' = [PROCESS_EXITED; SOCKET_NOT_READY]
    /\ restarts s' = ["p1"]
    /\ restart_due "p1" s' = false
    /\ fst (startProject silent_child "p1" s') <> Err AlreadyRunning.
Proof.
  eexists. eexists. split; [vm_compute; reflexivity|].
  repeat split. vm_compute. discriminate.
Qed.

(** *** The child that cannot be spawned *)

Definition no_child : Run :=
  {| starting_at := 1700000000001; spawned := None;
     started_at := 1700000000002; access := never;
     running_at := 1700000010003; meanwhile := fun _ s => s |}.

(** [startProject] throws, the status stays starting and no handle is
    recorded. *)
Example start_without_child :
  exists s',
    startProject no_child "p1" one_stopped_project = (Err SpawnFailed, s')
    /\ getProcessByProjectId s' "p1" = None
    /\ status_of s' "p1" = Some status_starting.
Proof. eexists. split; [vm_compute; reflexivity|]. split; reflexivity. Qed.

(** *** What [startProject] leaves behind *)

Lemma find_put_same {V : Type} (m : list (string * V)) (k : string) (v : V) :
  find (put m k v) k = Some v.
Proof.
  induction m as [|[k' v'] rest IH]; cbn [put find].
  - now rewrite String.eqb_refl.
  - destruct (String.eqb k' k) eqn:E; cbn [find]; rewrite E; [reflexivity|exact IH].
Qed.

Lemma find_put_other {V : Type} (m : list (string * V)) (k k' : string) (v : V) :
  k <> k' -> find (put m k v) k' = find m k'.
Proof.
  intros Ne. induction m as [|[k0 v0] rest IH]; cbn [put find].
  - destruct (String.eqb k k') eqn:E; [|reflexivity].
    apply String.eqb_eq in E. contradiction.
  - destruct (String.eqb k0 k) eqn:E; cbn [find].
    + apply String.eqb_eq in E. subst k0.
      destruct (String.eqb k k') eqn:E'; [|reflexivity].
      apply String.eqb_eq in E'. contradiction.
    + now rewrite IH.
Qed.

Lemma find_del_other {V : Type} (m : list (string * V)) (k k' : string) :
  k <> k' -> find (del m k) k' = find m k'.
Proof.
  intros Ne. induction m as [|[k0 v0] rest IH]; cbn [del find]; [reflexivity|].
  destruct (String.eqb k0 k) eqn:E; cbn [find].
  - apply String.eqb_eq in E. subst k0.
    destruct (String.eqb k k') eqn:E'; [|exact IH].
    apply String.eqb_eq in E'. contradiction.
  - now rewrite IH.
Qed.

Lemma undisturbed_quiet (i : string) : undisturbed i (fun s => s).
Proof.
  constructor; try reflexivity. intros s. exists []. now rewrite app_nil_r.
Qed.

(** The exit handler of another project's child leaves project [i] alone. *)
Lemma handleProcessExit_undisturbed (now : Z) (i j : string) :
  j <> i -> undisturbed i (handleProcessExit now j).
Proof.
  intros Ne.
  assert (Sh : forall s, find (processes s) j <> None ->
             exists ps, handleProcessExit now j s
                        = {| projects := ps; processes := del (processes s) j;
                             socket_files := socket_files s;
                             warnings := (warnings s ++ [PROCESS_EXITED])%list;
                             restarts := (restarts s ++ [j])%list;
                             processStartTimeout := processStartTimeout s |}
                        /\ find ps i = find (projects s) i).
  { intros s Hs. unfold handleProcessExit.
    destruct (find (processes s) j); [|congruence].
    unfold updateProjectStatus, with_processes, warn, with_projects. cbn [projects].
    destruct (find (projects s) j).
    - eexists. split; [reflexivity|]. now apply find_put_other.
    - eexists. split; reflexivity. }
  constructor; intros s; unfold getProjectById, getProcessByProjectId;
    (destruct (find (processes s) j) eqn:F;
     [destruct (Sh s ltac:(congruence)) as (ps & -> & Hps); cbn [projects processes
        warnings processStartTimeout]
     |unfold handleProcessExit; rewrite F]).
  - exact Hps.
  - reflexivity.
  - now apply find_del_other.
  - reflexivity.
  - now eexists.
  - exists []. now rewrite app_nil_r.
  - reflexivity.
  - reflexivity.
Qed.

Lemma updateProjectStatus_sets (now : Z) (i : string) (st : ProjectStatus)
      (p : option Z) (s : state) (q : Project) :
  getProjectById s i = Some q ->
  exists q',
    updateProjectStatus now i st p s = Ok (with_projects s (put (projects s) i q'))
    /\ status q' = st /\ pid q' = p.
Proof.
  unfold getProjectById, updateProjectStatus. intros ->. eexists. repeat split.
Qed.

(** The course of [startProject] for a project that is there and has no
    handle, when the child is spawned and what runs during the waits leaves
    the project alone. *)
Lemma startProject_undisturbed (r : Run) (i : string) (s : state)
      (project : Project) (child : Z) :
  getProjectById s i = Some project ->
  getProcessByProjectId s i = None ->
  spawned r = Some child ->
  (forall w, undisturbed i (meanwhile r w)) ->
  exists info polling s' q,
    launch r i s = (Ok info, polling)
    /\ status_of polling i = Some status_starting
    /\ getProcessByProjectId polling i = Some info
    /\ processStartTimeout polling = processStartTimeout s
    /\ startProject r i s = (Ok info, s')
    /\ getProjectById s' i = Some q
    /\ status q = status_running
    /\ pid q = Some child
    /\ getProcessByProjectId s' i = Some info
    /\ info = {| projectId := i; child_pid := child;
                 child_socketPath := socketPath project;
                 startedAt := started_at r |}
    /\ (waitForSocket (access r) polling = false -> In SOCKET_NOT_READY (warnings s'))
    /\ (quiet r ->
        warnings s' = if waitForSocket (access r) polling then warnings s
                      else (warnings s ++ [SOCKET_NOT_READY])%list).
Proof.
  intros Hp Hn Hc U.
  destruct (updateProjectStatus_sets (starting_at r) i status_starting None s project Hp)
    as (q1 & U1 & S1 & _).
  unfold startProject, launch. unfold getProcessByProjectId in Hn.
  rewrite Hp, Hn, U1, Hc.
  set (s1 := with_projects s (put (projects s) i q1)).
  set (s2 := meanwhile r awaiting_starting s1).
  set (s3 := cleanupSocket (socketPath project) s2).
  set (s4 := meanwhile r awaiting_cleanup s3).
  set (info := {| projectId := i; child_pid := child |}).
  set (polling := with_processes s4 (put (processes s4) i info)).
  set (s5 := meanwhile r awaiting_socket polling).
  assert (P1 : getProjectById s1 i = Some q1) by apply find_put_same.
  assert (P2 : getProjectById s2 i = Some q1).
  { unfold s2. now rewrite (u_project _ _ (U awaiting_starting)). }
  assert (P4 : getProjectById s4 i = Some q1).
  { unfold s4. now rewrite (u_project _ _ (U awaiting_cleanup)). }
  assert (P5 : getProjectById s5 i = Some q1).
  { unfold s5. now rewrite (u_project _ _ (U awaiting_socket)). }
  assert (I4 : getProcessByProjectId polling i = Some info) by apply find_put_same.
  assert (I5 : getProcessByProjectId s5 i = Some info).
  { unfold s5. now rewrite (u_process _ _ (U awaiting_socket)). }
  assert (T : processStartTimeout polling = processStartTimeout s).
  { change (processStartTimeout polling) with (processStartTimeout s4). unfold s4.
    rewrite (u_timeout _ _ (U awaiting_cleanup)).
    change (processStartTimeout s3) with (processStartTimeout s2). unfold s2.
    now rewrite (u_timeout _ _ (U awaiting_starting)). }
  set (s6 := if negb (waitForSocket (access r) polling)
             then warn SOCKET_NOT_READY s5 else s5).
  assert (P6 : getProjectById s6 i = Some q1).
  { unfold s6. now destruct (negb _). }
  assert (I6 : getProcessByProjectId s6 i = Some info).
  { unfold s6. now destruct (negb _). }
  destruct (updateProjectStatus_sets (running_at r) i status_running
              (Some (child_pid info)) s6 q1 P6) as (q2 & U2 & S2 & D2).
  rewrite U2.
  set (s7 := with_projects s6 (put (projects s6) i q2)).
  exists info, polling, (meanwhile r awaiting_running s7), q2.
  split; [reflexivity|].
  split; [unfold status_of; change (getProjectById polling i) with (getProjectById s4 i);
          rewrite P4; cbn [option_map]; now rewrite S1|].
  split; [exact I4|]. split; [exact T|]. split; [reflexivity|].
  split; [rewrite (u_project _ _ (U awaiting_running)); apply find_put_same|].
  split; [exact S2|]. split; [exact D2|].
  split; [rewrite (u_process _ _ (U awaiting_running)); exact I6|].
  split; [reflexivity|]. split.
  - intros W. destruct (u_warnings _ _ (U awaiting_running) s7) as (more & ->).
    apply in_or_app. left. change (warnings s7) with (warnings s6).
    unfold s6. rewrite W. cbn [negb warn warnings]. apply in_or_app. right. now left.
  - intros Q. rewrite Q. change (warnings s7) with (warnings s6).
    assert (W5 : warnings s5 = warnings s).
    { unfold s5. rewrite Q. change (warnings polling) with (warnings s4).
      unfold s4. rewrite Q. change (warnings s3) with (warnings s2).
      unfold s2. now rewrite Q. }
    unfold s6. destruct (waitForSocket (access r) polling); cbn [negb warn warnings];
      now rewrite W5.
Qed.

(** C9 (amended).  When the project exists and has no handle, its child is
    spawned, and nothing that runs while [startProject] waits touches the
    project's entry or its handle - the child, in particular, does not exit -
    [startProject] records the handle and sets the status to starting
    before it polls for the socket; when the poll ends - the socket seen,
    or the configured timeout elapsed without it, in which case a warning
    is logged - the status is set to running with the child's pid: after
    [startProject] returns the project is running whether or not its
    socket was ever observed, and the handle is recorded. *)
Theorem startProject_status (r : Run) (i : string) (s : state)
        (project : Project) (child : Z) :
  getProjectById s i = Some project ->
  getProcessByProjectId s i = None ->
  spawned r = Some child ->
  (forall w, undisturbed i (meanwhile r w)) ->
  exists info polling s',
    launch r i s = (Ok info, polling)
    /\ status_of polling i = Some status_starting
    /\ getProcessByProjectId polling i = Some info
    /\ startProject r i s = (Ok info, s')
    /\ status_of s' i = Some status_running
    /\ option_map pid (getProjectById s' i) = Some (Some child)
    /\ getProcessByProjectId s' i = Some info
    /\ child_pid info = child
    /\ (waitForSocket (access r) polling = false -> In SOCKET_NOT_READY (warnings s'))
    /\ (quiet r ->
        warnings s' = if waitForSocket (access r) polling then warnings s
                      else (warnings s ++ [SOCKET_NOT_READY])%list).
Proof.
  intros Hp Hn Hc U.
  destruct (startProject_undisturbed r i s project child Hp Hn Hc U)
    as (info & polling & s' & q & L & S1 & I1 & _ & St & Q & S2 & D2 & I2 & E & W & Wq).
  exists info, polling, s'. unfold status_of. rewrite Q. cbn [option_map].
  rewrite S2, D2. repeat split; try assumption. now rewrite E.
Qed.

Lemma startProject_status_witness :
  exists info s',
    startProject silent_child "p1" one_stopped_project = (Ok info, s')
    /\ status_of s' "p1" = Some status_running
    /\ getProcessByProjectId s' "p1" = Some info
    /\ warnings s' = [SOCKET_NOT_READY].
Proof.
  destruct (startProject_status silent_child "p1" one_stopped_project p1 4242
              eq_refl eq_refl eq_refl (fun _ => undisturbed_quiet "p1"))
    as (info & polling & s' & L & _ & _ & St & R & _ & P & _ & _ & W).
  exists info, s'. split; [exact St|]. split; [exact R|]. split; [exact P|].
  rewrite (W (fun _ _ => eq_refl)).
  vm_compute in L. injection L as _ <-. vm_compute. reflexivity.
Defined.

(** *** The poll for the socket *)

Lemma waitForSocket_from_spec (maxWait : Z) (access : Z -> bool) (elapsed : Z) :
  waitForSocket_from maxWait access elapsed = true
  <-> exists k, (0 <= k /\ elapsed + 100 * k < maxWait)%Z
                /\ access (elapsed + 100 * k)%Z = true
                /\ forall j, (0 <= j < k)%Z -> access (elapsed + 100 * j)%Z = false.
Proof.
  functional induction (waitForSocket_from maxWait access elapsed)
    as [e Hlt Ha|e Hlt Ha IH|e Hlt].
  - apply Z.ltb_lt in Hlt. split; [intros _|reflexivity].
    exists 0%Z. rewrite Z.mul_0_r, Z.add_0_r.
    split; [lia|]. split; [assumption|]. intros j Hj. lia.
  - apply Z.ltb_lt in Hlt. rewrite IH. split.
    + intros (k & Hk & Ak & First). exists (k + 1)%Z.
      replace (e + 100 * (k + 1))%Z with (e + 100 + 100 * k)%Z by lia.
      split; [lia|]. split; [assumption|].
      intros j Hj. destruct (Z.eq_dec j 0) as [->|Nz].
      * now rewrite Z.mul_0_r, Z.add_0_r.
      * replace (e + 100 * j)%Z with (e + 100 + 100 * (j - 1))%Z by lia.
        apply First. lia.
    + intros (k & Hk & Ak & First).
      destruct (Z.eq_dec k 0) as [->|Nz].
      { rewrite Z.mul_0_r, Z.add_0_r in Ak. congruence. }
      exists (k - 1)%Z.
      replace (e + 100 + 100 * (k - 1))%Z with (e + 100 * k)%Z by lia.
      split; [lia|]. split; [assumption|].
      intros j Hj.
      replace (e + 100 + 100 * j)%Z with (e + 100 * (j + 1))%Z by lia.
      apply First. lia.
  - apply Z.ltb_ge in Hlt. split; [discriminate|].
    intros (k & Hk & _). lia.
Qed.

(** X29.  [waitForSocket] returns true exactly when the
    socket path is there at one of the polls it makes, which are [0], [100],
    [200], ... milliseconds into the wait and strictly before the
    configured timeout; with a timeout of zero or less it returns false. *)
Theorem waitForSocket_polls (access : Z -> bool) (s : state) :
  waitForSocket access s = true
  <-> exists k, (0 <= k /\ 100 * k < processStartTimeout s)%Z
                /\ access (100 * k)%Z = true.
Proof.
  unfold waitForSocket. rewrite waitForSocket_from_spec. cbn [Z.add]. split.
  - intros (k & Hk & Ak & _). now exists k.
  - intros (k & Hk & Ak).
    (* the first successful poll *)
    assert (F : forall n k, Z.of_nat n = k -> access (100 * k)%Z = true ->
              exists k', (0 <= k' <= k)%Z /\ access (100 * k')%Z = true
                         /\ forall j, (0 <= j < k')%Z -> access (100 * j)%Z = false).
    { induction n as [n IH] using lt_wf_ind. intros k0 Hn A0.
      destruct (forallb (fun j => negb (access (100 * Z.of_nat j)%Z)) (seq 0 n)) eqn:E.
      - exists k0. split; [lia|]. split; [assumption|]. intros j Hj.
        rewrite forallb_forall in E.
        specialize (E (Z.to_nat j)). rewrite Z2Nat.id in E by lia.
        apply negb_true_iff, E, in_seq. lia.
      - assert (Ex : exists j, In j (seq 0 n)
                               /\ access (100 * Z.of_nat j)%Z = true).
        { clear - E. induction (seq 0 n) as [|x l IHl]; [discriminate|].
          cbn [forallb] in E. apply andb_false_iff in E as [E|E].
          - exists x. split; [now left|]. now apply negb_false_iff in E.
          - destruct (IHl E) as (j & Ij & Aj). exists j. split; [now right|assumption]. }
        destruct Ex as (j & Ij & Aj). apply in_seq in Ij.
        destruct (IH j ltac:(lia) (Z.of_nat j) eq_refl Aj) as (k' & Hk' & Ak' & First).
        exists k'. split; [lia|]. now split. }
    destruct (F (Z.to_nat k) k ltac:(lia) Ak) as (k' & Hk' & Ak' & First).
    exists k'. split; [lia|]. now split.
Qed.

(** *** Starting twice *)

(** X30.  A project is not started twice while its child lives: once
    [startProject] has returned for a project, nothing that ran during its
    waits having touched the project's entry or its handle (the child, in
    particular, has not exited), the handle is in the process table, and
    another [startProject] for the same project fails with the
    already-running error and changes nothing, whatever the time, the child
    and the socket. *)
Theorem startProject_twice (r r' : Run) (i : string) (s s' : state)
        (info : ProcessInfo) :
  (forall w, undisturbed i (meanwhile r w)) ->
  startProject r i s = (Ok info, s') ->
  getProcessByProjectId s' i = Some info
  /\ startProject r' i s' = (Err AlreadyRunning, s').
Proof.
  intros U St.
  destruct (getProjectById s i) as [project|] eqn:Hp.
  2:{ unfold startProject, launch in St. rewrite Hp in St. discriminate St. }
  destruct (getProcessByProjectId s i) eqn:Hn.
  { unfold startProject, launch in St. unfold getProcessByProjectId in Hn.
    rewrite Hp, Hn in St. discriminate St. }
  destruct (spawned r) as [child|] eqn:Hc.
  2:{ unfold startProject, launch in St. unfold getProcessByProjectId in Hn.
      rewrite Hp, Hn, Hc in St.
      destruct (updateProjectStatus _ _ _ _ s); discriminate St. }
  destruct (startProject_undisturbed r i s project child Hp Hn Hc U)
    as (info0 & polling & s0 & q & _ & _ & _ & _ & St0 & Q & _ & _ & I & _).
  rewrite St in St0. injection St0 as <- <-.
  split; [exact I|].
  unfold startProject, launch. unfold getProcessByProjectId in I. now rewrite Q, I.
Qed.

Lemma startProject_twice_witness :
  exists info s',
    startProject silent_child "p1" one_stopped_project = (Ok info, s')
    /\ getProcessByProjectId s' "p1" = Some info
    /\ startProject dying_child "p1" s' = (Err AlreadyRunning, s').
Proof.
  destruct (startProject silent_child "p1" one_stopped_project)
    as [[info|e] s'] eqn:E; [|vm_compute in E; discriminate E].
  exists info, s'. split; [reflexivity|].
  exact (startProject_twice silent_child dying_child "p1" one_stopped_project s' info
           (fun _ => undisturbed_quiet "p1") E).
Defined.

End Supervisor.
